(** * Grid coordinate mapping of TrinityCore (src/server/game/Grids/GridDefines.h)

    A shallow embedding of the [CoordPair] template and of the functions of
    namespace [Trinity] that map world positions to grid and cell coordinates,
    followed by the properties of the coordinate mapper.

    Numbers are modelled as the code has them:
    - [uint32] values are integers of [Z] with the wrap-around modulo 2^32
      written out;
    - [float] and [double] values are IEEE-754 binary32 and binary64 numbers,
      given by [spec_float] and its correctly rounded operations at precisions
      (24, 128) and (53, 1024), every operation evaluated in the format of its
      operands after the usual arithmetic conversions;
    - the conversion [int(double)] is undefined in C++ when the truncated value
      does not fit an [int], so it returns an [option]. *)

From Stdlib Require Import ZArith QArith Qabs Qpower Qround Lia Lqa Bool.
From Stdlib Require Import Floats.SpecFloat.

Local Open Scope Z_scope.

(** ** Machine integers *)

Definition wrap32 (z : Z) : Z := z mod 2 ^ 32.

Definition is_uint32 (z : Z) : Prop := 0 <= z < 2 ^ 32.

Definition INT_MIN : Z := - 2 ^ 31.
Definition INT_MAX : Z := 2 ^ 31 - 1.

(** ** The two floating-point formats *)

Module F32.
Definition prec : Z := 24.
Definition emax : Z := 128.

Definition valid (f : spec_float) : bool := valid_binary prec emax f.

Definition add : spec_float -> spec_float -> spec_float := SFadd prec emax.
Definition sub : spec_float -> spec_float -> spec_float := SFsub prec emax.
Definition mul : spec_float -> spec_float -> spec_float := SFmul prec emax.
Definition div : spec_float -> spec_float -> spec_float := SFdiv prec emax.

(** An [int] operand of a [float] operation is converted to [float]. *)
Definition of_int (z : Z) : spec_float := binary_normalize prec emax z 0 false.

(** A decimal literal [num/den] whose numerator and denominator are both
    below 2^24: the correctly rounded quotient of two exact numbers is the
    binary32 number nearest to the literal. *)
Definition literal (num den : Z) : spec_float := div (of_int num) (of_int den).
End F32.

Module F64.
Definition prec : Z := 53.
Definition emax : Z := 1024.

Definition valid (f : spec_float) : bool := valid_binary prec emax f.

Definition add : spec_float -> spec_float -> spec_float := SFadd prec emax.
Definition sub : spec_float -> spec_float -> spec_float := SFsub prec emax.
Definition div : spec_float -> spec_float -> spec_float := SFdiv prec emax.

Definition of_int (z : Z) : spec_float := binary_normalize prec emax z 0 false.

(** The literal [0.5]. *)
Definition half : spec_float := binary_normalize prec emax 1 (-1) false.

(** [double(x)] for a [float] x: every binary32 number is a binary64 number,
    re-normalised to the 53-bit mantissa. *)
Definition of_float (x : spec_float) : spec_float :=
  match x with
  | S754_finite s m e => binary_normalize prec emax (cond_Zopp s (Zpos m)) e s
  | _ => x
  end.

(** [int(d)]: truncation toward zero; undefined ([None]) for NaN, the
    infinities and values whose truncation is outside [INT_MIN, INT_MAX]. *)
Definition trunc (d : spec_float) : option Z :=
  match d with
  | S754_zero _ => Some 0
  | S754_finite s m e =>
      Some (cond_Zopp s (match e with
                         | Zneg p => Zpos m / 2 ^ Zpos p
                         | _ => Zpos m * 2 ^ e
                         end))
  | _ => None
  end.

Definition to_int (d : spec_float) : option Z :=
  match trunc d with
  | Some z => if (INT_MIN <=? z) && (z <=? INT_MAX) then Some z else None
  | None => None
  end.
End F64.

(** [std::isfinite] *)
Definition isfinite (f : spec_float) : bool :=
  match f with
  | S754_zero _ | S754_finite _ _ _ => true
  | _ => false
  end.

(** [(int)f] for a [float] f: truncation toward zero, as for a [double]; the
    truncation reads the mantissa and the exponent and not the format. *)
Definition float_to_int (f : spec_float) : option Z := F64.to_int f.

(** [float(d)] for a [double] d: rounded to the nearest binary32 number, to
    an infinity beyond the binary32 range. *)
Definition float_of_double (d : spec_float) : spec_float :=
  match d with
  | S754_finite s m e => binary_normalize F32.prec F32.emax (cond_Zopp s (Zpos m)) e s
  | _ => d
  end.

(** [a - b] on [int]: undefined ([None]) when the difference does not fit. *)
Definition int_sub (a b : Z) : option Z :=
  if (INT_MIN <=? a - b) && (a - b <=? INT_MAX) then Some (a - b) else None.

(** ** Preprocessor constants *)

Definition MAX_NUMBER_OF_CELLS : Z := 8.
Definition MAX_NUMBER_OF_GRIDS : Z := 64.

(** [533.3333f] *)
Definition SIZE_OF_GRIDS : spec_float := F32.literal 5333333 10000.
Definition CENTER_GRID_ID : Z := MAX_NUMBER_OF_GRIDS / 2.
Definition CENTER_GRID_OFFSET : spec_float := F32.div SIZE_OF_GRIDS (F32.of_int 2).
Definition SIZE_OF_GRID_CELL : spec_float :=
  F32.div SIZE_OF_GRIDS (F32.of_int MAX_NUMBER_OF_CELLS).
Definition CENTER_GRID_CELL_ID : Z := MAX_NUMBER_OF_CELLS * MAX_NUMBER_OF_GRIDS / 2.
Definition CENTER_GRID_CELL_OFFSET : spec_float := F32.div SIZE_OF_GRID_CELL (F32.of_int 2).
Definition TOTAL_NUMBER_OF_CELLS_PER_MAP : Z := MAX_NUMBER_OF_GRIDS * MAX_NUMBER_OF_CELLS.
Definition MAP_SIZE : spec_float := F32.mul SIZE_OF_GRIDS (F32.of_int MAX_NUMBER_OF_GRIDS).
Definition MAP_HALFSIZE : spec_float := F32.div MAP_SIZE (F32.of_int 2).

(** [0.5f] *)
Definition half_f : spec_float := F32.literal 5 10.

(** ** [template<uint32 LIMIT> struct CoordPair] *)

Record CoordPair : Type := mkCoordPair { x_coord : Z; y_coord : Z }.

(** The constructor takes [uint32] arguments: an [int] argument is converted
    modulo 2^32. *)
Definition CoordPair_of_int (x y : Z) : CoordPair := mkCoordPair (wrap32 x) (wrap32 y).

Section CoordPairOps.
Variable LIMIT : Z.

Definition dec_x (p : CoordPair) (val : Z) : CoordPair :=
  if val <? x_coord p
  then mkCoordPair (wrap32 (x_coord p - val)) (y_coord p)
  else mkCoordPair 0 (y_coord p).

Definition inc_x (p : CoordPair) (val : Z) : CoordPair :=
  if wrap32 (x_coord p + val) <? LIMIT
  then mkCoordPair (wrap32 (x_coord p + val)) (y_coord p)
  else mkCoordPair (wrap32 (LIMIT - 1)) (y_coord p).

Definition dec_y (p : CoordPair) (val : Z) : CoordPair :=
  if val <? y_coord p
  then mkCoordPair (x_coord p) (wrap32 (y_coord p - val))
  else mkCoordPair (x_coord p) 0.

Definition inc_y (p : CoordPair) (val : Z) : CoordPair :=
  if wrap32 (y_coord p + val) <? LIMIT
  then mkCoordPair (x_coord p) (wrap32 (y_coord p + val))
  else mkCoordPair (x_coord p) (wrap32 (LIMIT - 1)).

Definition IsCoordValid (p : CoordPair) : bool :=
  (x_coord p <? LIMIT) && (y_coord p <? LIMIT).

Definition normalize (p : CoordPair) : CoordPair :=
  mkCoordPair (Z.min (x_coord p) (wrap32 (LIMIT - 1)))
              (Z.min (y_coord p) (wrap32 (LIMIT - 1))).

Definition GetId (p : CoordPair) : Z :=
  wrap32 (wrap32 (y_coord p * LIMIT) + x_coord p).
End CoordPairOps.

(** [GridCoord] and [CellCoord] are [CoordPair<64>] and [CoordPair<512>]. *)
Definition GRID_LIMIT : Z := MAX_NUMBER_OF_GRIDS.
Definition CELL_LIMIT : Z := TOTAL_NUMBER_OF_CELLS_PER_MAP.

(** ** [namespace Trinity] *)

Module Trinity.

(** One component of [Compute]: [int(x_offset + CENTER_VAL + 0.5)] with
    [x_offset = (double(x) - center_offset) / size]. *)
Definition Compute_offset (x center_offset size : spec_float) : spec_float :=
  F64.div (F64.sub (F64.of_float x) (F64.of_float center_offset)) (F64.of_float size).

Definition Compute_val (CENTER_VAL : Z) (x_offset : spec_float) : option Z :=
  F64.to_int (F64.add (F64.add x_offset (F64.of_int CENTER_VAL)) F64.half).

Definition Compute (CENTER_VAL : Z) (x y center_offset size : spec_float)
  : option CoordPair :=
  let x_offset := Compute_offset x center_offset size in
  let y_offset := Compute_offset y center_offset size in
  match Compute_val CENTER_VAL x_offset, Compute_val CENTER_VAL y_offset with
  | Some x_val, Some y_val => Some (CoordPair_of_int x_val y_val)
  | _, _ => None
  end.

Definition ComputeGridCoord (x y : spec_float) : option CoordPair :=
  Compute CENTER_GRID_ID x y CENTER_GRID_OFFSET SIZE_OF_GRIDS.

Definition ComputeCellCoord (x y : spec_float) : option CoordPair :=
  Compute CENTER_GRID_CELL_ID x y CENTER_GRID_CELL_OFFSET SIZE_OF_GRID_CELL.

(** The overload with the [x_off], [y_off] out-parameters; only the returned
    [CellCoord] is modelled. The literal is [0.5f], converted to [double]
    by the addition. *)
Definition ComputeCellCoord_off (x y : spec_float) : option CoordPair :=
  let x_offset :=
    F64.div (F64.sub (F64.of_float x) (F64.of_float CENTER_GRID_CELL_OFFSET))
            (F64.of_float SIZE_OF_GRID_CELL) in
  let y_offset :=
    F64.div (F64.sub (F64.of_float y) (F64.of_float CENTER_GRID_CELL_OFFSET))
            (F64.of_float SIZE_OF_GRID_CELL) in
  match
    F64.to_int (F64.add (F64.add x_offset (F64.of_int CENTER_GRID_CELL_ID))
                        (F64.of_float half_f)),
    F64.to_int (F64.add (F64.add y_offset (F64.of_int CENTER_GRID_CELL_ID))
                        (F64.of_float half_f))
  with
  | Some x_val, Some y_val => Some (CoordPair_of_int x_val y_val)
  | _, _ => None
  end.

(** [MAP_HALFSIZE - 0.5f] *)
Definition MAP_BOUND : spec_float := F32.sub MAP_HALFSIZE half_f.

Definition NormalizeMapCoord (c : spec_float) : spec_float :=
  if SFltb MAP_BOUND c then MAP_BOUND
  else if SFltb c (SFopp MAP_BOUND) then SFopp MAP_BOUND
  else c.

Definition IsValidMapCoord (c : spec_float) : bool :=
  isfinite c && SFleb (SFabs c) MAP_BOUND.

Definition IsValidMapCoord2 (x y : spec_float) : bool :=
  IsValidMapCoord x && IsValidMapCoord y.

Definition IsValidMapCoord3 (x y z : spec_float) : bool :=
  IsValidMapCoord2 x y && IsValidMapCoord z.

Definition IsValidMapCoord4 (x y z o : spec_float) : bool :=
  IsValidMapCoord3 x y z && isfinite o.

(** One component of [ComputeGridCoordSimple]:
    [(int)(CENTER_GRID_ID - x / SIZE_OF_GRIDS)], computed in [float]. *)
Definition ComputeGridCoordSimple_val (x : spec_float) : option Z :=
  float_to_int (F32.sub (F32.of_int CENTER_GRID_ID) (F32.div x SIZE_OF_GRIDS)).

Definition ComputeGridCoordSimple (x y : spec_float) : option CoordPair :=
  match ComputeGridCoordSimple_val x, ComputeGridCoordSimple_val y with
  | Some gx, Some gy =>
      match int_sub (MAX_NUMBER_OF_GRIDS - 1) gx, int_sub (MAX_NUMBER_OF_GRIDS - 1) gy with
      | Some vx, Some vy => Some (CoordPair_of_int vx vy)
      | _, _ => None
      end
  | _, _ => None
  end.

(** [(float(x_offset) - float(x_val) + CENTER_GRID_CELL_ID) * SIZE_OF_GRID_CELL] *)
Definition cell_offset (x_offset : spec_float) (x_val : Z) : spec_float :=
  F32.mul (F32.add (F32.sub (float_of_double x_offset) (F32.of_int x_val))
                   (F32.of_int CENTER_GRID_CELL_ID))
          SIZE_OF_GRID_CELL.

(** The overload of [ComputeCellCoord] with the out-parameters: the
    returned [CellCoord] with the values stored to [x_off] and [y_off]. *)
Definition ComputeCellCoord_offsets (x y : spec_float)
  : option (CoordPair * (spec_float * spec_float)) :=
  let x_offset :=
    F64.div (F64.sub (F64.of_float x) (F64.of_float CENTER_GRID_CELL_OFFSET))
            (F64.of_float SIZE_OF_GRID_CELL) in
  let y_offset :=
    F64.div (F64.sub (F64.of_float y) (F64.of_float CENTER_GRID_CELL_OFFSET))
            (F64.of_float SIZE_OF_GRID_CELL) in
  match
    F64.to_int (F64.add (F64.add x_offset (F64.of_int CENTER_GRID_CELL_ID))
                        (F64.of_float half_f)),
    F64.to_int (F64.add (F64.add y_offset (F64.of_int CENTER_GRID_CELL_ID))
                        (F64.of_float half_f))
  with
  | Some x_val, Some y_val =>
      Some (CoordPair_of_int x_val y_val,
            (cell_offset x_offset x_val, cell_offset y_offset y_val))
  | _, _ => None
  end.

End Trinity.

(** ** Real values of floating-point numbers

    The properties below are stated on the rational number a finite
    floating-point number denotes. *)

Definition bpow (e : Z) : Q := (2 ^ e)%Q.

Definition cond_Qopp (s : bool) (q : Q) : Q := if s then (- q)%Q else q.

Definition SF2Q (f : spec_float) : Q :=
  match f with
  | S754_finite s m e => cond_Qopp s (inject_Z (Z.pos m) * bpow e)
  | _ => 0%Q
  end.

(** [SFrepr f s m e]: [f] is the finite number of sign [s] and magnitude
    [m * 2^e], the mantissa of [f] possibly shifted to a larger exponent. *)
Definition SFrepr (f : spec_float) (s : bool) (m e : Z) : Prop :=
  match f with
  | S754_zero s' => s' = s /\ m = 0
  | S754_finite s' m' e' => s' = s /\ e <= e' /\ m = Z.pos m' * 2 ^ (e' - e)
  | _ => False
  end.

(** [rnd_to E v w]: [w] is a multiple of [2^E] less than one unit [2^E] away
    from the exact value [v]; [rounded U v w] bounds the unit by [2^U]. *)
Definition rnd_to (E : Z) (v w : Q) : Prop :=
  (exists k : Z, w == inject_Z k * bpow E)%Q /\ (Qabs (w - v) < bpow E)%Q.

Definition rounded (U : Z) (v w : Q) : Prop := exists E, E <= U /\ rnd_to E v w.

(** The rational values of the constants. *)
Definition MAP_BOUND_Q : Q := 8737877 # 512.

(** [loc_ok m e l v]: the location [l] places [v] in the interval
    [[m * 2^e, (m + 1) * 2^e)] relative to its middle. *)
Definition loc_ok (m e : Z) (l : location) (v : Q) : Prop :=
  match l with
  | loc_Exact => (v == inject_Z m * bpow e)%Q
  | loc_Inexact c =>
      (inject_Z m * bpow e < v)%Q /\ (v < (inject_Z m + 1) * bpow e)%Q /\
      (v ?= (inject_Z m + (1 # 2)) * bpow e)%Q = c
  end.

(** The location after one more bit, [odd], has been shifted out. *)
Definition shift_loc (odd : bool) (l : location) : location :=
  match odd, l with
  | false, loc_Exact => loc_Exact
  | false, loc_Inexact _ => loc_Inexact Lt
  | true, loc_Exact => loc_Inexact Eq
  | true, loc_Inexact _ => loc_Inexact Gt
  end.

(** [RNE E v w]: [w] is the multiple of [2^E] nearest to [v], the even one
    in case of a tie. *)
Definition RNE (E : Z) (v w : Q) : Prop :=
  exists k : Z, (w == inject_Z k * bpow E)%Q /\
                (Qabs (w - v) <= (1 # 2) * bpow E)%Q /\
                ((Qabs (w - v) == (1 # 2) * bpow E)%Q -> Z.even k = true).

(** The seam just below zero: the binary32 numbers from [-0x1.17fffep-40]
    to [-0x1.0bp-40]. *)
Definition SEAM_LO : spec_float := S754_finite true 9175039 (-63).
Definition SEAM_HI : spec_float := S754_finite true 8749056 (-63).

Definition on_seam (c : spec_float) : bool := SFleb SEAM_LO c && SFleb c SEAM_HI.

(** The coordinate computations in exact arithmetic: the index of a
    coordinate is the centre index plus the integer part (floor) of the
    coordinate divided by the size, except for the negative coordinates
    from [lo] up to zero, which the rounding places in the centre index. *)
Definition CELL_SEAM_LO : spec_float := S754_finite true 8749055 (-63).

Definition below_zero_from (lo c : spec_float) : bool :=
  SFleb lo c && SFltb c (S754_zero false).

Definition grid_index (x : spec_float) : Z :=
  if below_zero_from SEAM_LO x then 32
  else 32 + Qfloor (SF2Q x / SF2Q SIZE_OF_GRIDS).

Definition cell_index (x : spec_float) : Z :=
  if below_zero_from CELL_SEAM_LO x then 256
  else 256 + Qfloor (SF2Q x / SF2Q SIZE_OF_GRID_CELL).

(** The part of the seam on which the two roundings of the sum decide the
    index: from [SEAM_LO] (for the grid) or [CELL_SEAM_LO] (for the cell) up
    to, and without, the first coordinate that the subtraction of the centre
    offset absorbs, [-2^-45] (for the grid) or [-2^-48] (for the cell). *)
Definition GRID_ABSORBED : spec_float := S754_finite true 8388608 (-68).
Definition CELL_ABSORBED : spec_float := S754_finite true 8388608 (-71).

Definition grid_rounding_seam (c : spec_float) : bool :=
  SFleb SEAM_LO c && SFltb c GRID_ABSORBED.

Definition cell_rounding_seam (c : spec_float) : bool :=
  SFleb CELL_SEAM_LO c && SFltb c CELL_ABSORBED.

(** The [x_offset] of [ComputeGridCoord] and of [ComputeCellCoord]. *)
Definition grid_x_offset (x : spec_float) : spec_float :=
  Trinity.Compute_offset x CENTER_GRID_OFFSET SIZE_OF_GRIDS.

Definition cell_x_offset (x : spec_float) : spec_float :=
  Trinity.Compute_offset x CENTER_GRID_CELL_OFFSET SIZE_OF_GRID_CELL.

(** The rational constants of the grid and of the cell computation (the
    centre offset and the inverse of the size), the double that [Compute]
    truncates, and the same before 0.5 is added. *)
Definition GRID_CO : Q := 8738133 # 32768.

Definition GRID_ISZ : Q := 16384 # 8738133.

Definition CELL_CO : Q := 8738133 # 262144.

Definition CELL_ISZ : Q := 131072 # 8738133.

Definition grid_sum (x : spec_float) : spec_float :=
  F64.add (F64.add (Trinity.Compute_offset x CENTER_GRID_OFFSET SIZE_OF_GRIDS)
                   (F64.of_int CENTER_GRID_ID)) F64.half.

Definition cell_sum (x : spec_float) : spec_float :=
  F64.add (F64.add (Trinity.Compute_offset x CENTER_GRID_CELL_OFFSET SIZE_OF_GRID_CELL)
                   (F64.of_int CENTER_GRID_CELL_ID)) F64.half.

Definition grid_pre (x : spec_float) : spec_float :=
  F64.add (Trinity.Compute_offset x CENTER_GRID_OFFSET SIZE_OF_GRIDS)
          (F64.of_int CENTER_GRID_ID).

Definition cell_pre (x : spec_float) : spec_float :=
  F64.add (Trinity.Compute_offset x CENTER_GRID_CELL_OFFSET SIZE_OF_GRID_CELL)
          (F64.of_int CENTER_GRID_CELL_ID).

(** ** Reference definition of the coordinate computation

    The computation as the specification words it, in exact rational
    arithmetic and without the floating-point operations of the code. A
    double-precision intermediate is the exact value rounded to the nearest
    number of 53 significant bits, a tie to the even one, with exponents
    from -1074 (no intermediate of a binary32 coordinate overflows). The
    scaled offset is [((double)x - center_offset) / size] with both
    operations rounded this way. The index is the centre index plus the
    scaled offset rounded to the nearest integer; [index_truncated] is the
    other wording, the truncation of the offset plus the centre index plus
    0.5. The sizes are the binary32 numbers nearest to 533.3333 and to its
    eighth; the centre offsets are half of the sizes. *)
Module Reference.
(** [floor (log2 |q|)] for a rational [q] other than zero. *)
Definition ilog2 (q : Q) : Z :=
  let e := (Z.log2 (Z.abs (Qnum q)) - Z.log2 (Z.pos (Qden q)))%Z in
  if Qle_bool (bpow e) (Qabs q) then e else (e - 1)%Z.

(** The integer nearest to [q], the even one of two nearest integers. *)
Definition round_even (q : Q) : Z :=
  let f := Qfloor q in
  match (q - inject_Z f ?= 1 # 2)%Q with
  | Lt => f
  | Gt => (f + 1)%Z
  | Eq => if Z.even f then f else (f + 1)%Z
  end.

Definition round_double (q : Q) : Q :=
  if Qeq_bool q 0 then 0%Q
  else
    let E := Z.max (ilog2 q - 52) (-1074) in
    (inject_Z (round_even (q / bpow E)) * bpow E)%Q.

Definition grid_size : Q := 8738133 # 16384.
Definition cell_size : Q := 8738133 # 131072.
Definition grid_center_offset : Q := 8738133 # 32768.
Definition cell_center_offset : Q := 8738133 # 262144.
Definition grid_center_index : Z := 32.
Definition cell_center_index : Z := 256.

Definition scaled_offset (x center_offset size : Q) : Q :=
  round_double (round_double (x - center_offset) / size).

(** Round to nearest, as [floor (q + 0.5)]. *)
Definition nearest (q : Q) : Z := Qfloor (q + (1 # 2)).

(** Truncation toward zero. *)
Definition truncate (q : Q) : Z := if Qle_bool 0 q then Qfloor q else Qceiling q.

(** An integer as an [int]: undefined outside the range of [int]. *)
Definition to_int (z : Z) : option Z :=
  if (INT_MIN <=? z) && (z <=? INT_MAX) then Some z else None.

Definition index (center_index : Z) (offset : Q) : option Z :=
  to_int (center_index + nearest offset).

Definition index_truncated (center_index : Z) (offset : Q) : option Z :=
  to_int (truncate (offset + inject_Z center_index + (1 # 2))).

(** The two indices as a coordinate of [uint32] components. *)
Definition coord (i j : option Z) : option CoordPair :=
  match i, j with
  | Some i, Some j => Some (mkCoordPair (i mod 2 ^ 32) (j mod 2 ^ 32))
  | _, _ => None
  end.

Definition grid_offset (x : Q) : Q := scaled_offset x grid_center_offset grid_size.
Definition cell_offset (x : Q) : Q := scaled_offset x cell_center_offset cell_size.

Definition grid_coord (x y : Q) : option CoordPair :=
  coord (index grid_center_index (grid_offset x))
        (index grid_center_index (grid_offset y)).

Definition cell_coord (x y : Q) : option CoordPair :=
  coord (index cell_center_index (cell_offset x))
        (index cell_center_index (cell_offset y)).

Definition grid_coord_truncated (x y : Q) : option CoordPair :=
  coord (index_truncated grid_center_index (grid_offset x))
        (index_truncated grid_center_index (grid_offset y)).

Definition cell_coord_truncated (x y : Q) : option CoordPair :=
  coord (index_truncated cell_center_index (cell_offset x))
        (index_truncated cell_center_index (cell_offset y)).
End Reference.

(** * Rounding theory of the floating-point operations *)

(** ** Integer facts: digits and shifts *)
Lemma digits2_pos_size p : digits2_pos p = Pos.size p.
Proof. induction p; simpl; congruence. Qed.

Lemma Zdigits2_bounds m : 0 < m -> 2 ^ (Zdigits2 m - 1) <= m < 2 ^ Zdigits2 m.
Proof.
  destruct m as [|p|p]; try lia. intros _. simpl Zdigits2.
  rewrite digits2_pos_size.
  pose proof (Pos.size_gt p) as Hgt. pose proof (Pos.size_le p) as Hle.
  apply Pos2Z.pos_lt_pos in Hgt. apply Pos2Z.pos_le_pos in Hle.
  rewrite Pos2Z.inj_pow in Hgt, Hle. change (Z.pos p~0) with (2 * Z.pos p) in Hle.
  split; [|exact Hgt].
  replace (Z.pos (Pos.size p)) with (Z.succ (Z.pos (Pos.size p) - 1)) in Hle by lia.
  rewrite Z.pow_succ_r in Hle by lia. lia.
Qed.

Lemma Zdigits2_nonneg m : 0 <= Zdigits2 m.
Proof. destruct m; simpl; lia. Qed.

Lemma Zdigits2_le m d : 0 <= m -> 0 <= d -> m < 2 ^ d -> Zdigits2 m <= d.
Proof.
  intros Hm Hd Hlt. destruct (Z.eq_dec m 0) as [->|Hne]; [simpl; lia|].
  pose proof (Zdigits2_bounds m ltac:(lia)) as [Hlo _].
  destruct (Z_le_gt_dec (Zdigits2 m) d) as [|Hgt]; [assumption|exfalso].
  assert (2 ^ d <= 2 ^ (Zdigits2 m - 1)) by (apply Z.pow_le_mono_r; lia). lia.
Qed.

Lemma Zdigits2_ge m d : 2 ^ d <= m -> 0 <= d -> d + 1 <= Zdigits2 m.
Proof.
  intros Hle Hd. assert (0 < m) by (pose proof (Z.pow_pos_nonneg 2 d); lia).
  pose proof (Zdigits2_bounds m H) as [_ Hhi].
  destruct (Z_le_gt_dec (d + 1) (Zdigits2 m)) as [|Hgt]; [assumption|exfalso].
  assert (2 ^ Zdigits2 m <= 2 ^ d) by (apply Z.pow_le_mono_r; lia). lia.
Qed.

(* shr *)
Lemma iter_pos_nat {A} (f : A -> A) p x : iter_pos f p x = Nat.iter (Pos.to_nat p) f x.
Proof.
  revert x. induction p as [p IH|p IH|]; intros x; simpl iter_pos.
  - rewrite !IH, Pos2Nat.inj_xI.
    replace (S (2 * Pos.to_nat p)) with (Pos.to_nat p + S (Pos.to_nat p))%nat by lia.
    rewrite Nat.iter_add, Nat.iter_succ_r. reflexivity.
  - rewrite !IH, Pos2Nat.inj_xO.
    replace (2 * Pos.to_nat p)%nat with (Pos.to_nat p + Pos.to_nat p)%nat by lia.
    rewrite Nat.iter_add. reflexivity.
  - reflexivity.
Qed.

Lemma shr_1_m mrs : 0 <= shr_m mrs -> shr_m (shr_1 mrs) = shr_m mrs / 2.
Proof.
  destruct mrs as [m r s]. cbn [shr_m]. intros Hm.
  destruct m as [|[p|p|]|p]; cbn [shr_1 shr_m]; try lia.
  - reflexivity.
  - rewrite Pos2Z.inj_xI. apply Z.div_unique with 1; lia.
  - rewrite Pos2Z.inj_xO. apply Z.div_unique with 0; lia.
  - reflexivity.
Qed.

Lemma shr_iter_m n mrs : 0 <= shr_m mrs ->
  shr_m (Nat.iter n shr_1 mrs) = shr_m mrs / 2 ^ Z.of_nat n.
Proof.
  intros Hm. induction n as [|n IH].
  - simpl. rewrite Z.div_1_r. reflexivity.
  - rewrite Nat2Z.inj_succ, Z.pow_succ_r by lia. simpl Nat.iter.
    rewrite shr_1_m.
    + rewrite IH. rewrite Z.div_div by lia. f_equal. lia.
    + rewrite IH. apply Z.div_pos; lia.
Qed.

Lemma shr_1_exact mrs :
  shr_r mrs = false -> shr_s mrs = false -> shr_m mrs mod 2 = 0 -> 0 <= shr_m mrs ->
  shr_r (shr_1 mrs) = false /\ shr_s (shr_1 mrs) = false.
Proof.
  destruct mrs as [m r s]. cbn [shr_m shr_r shr_s]. intros -> -> Hmod Hm.
  destruct m as [|[p|p|]|p]; cbn [shr_1 shr_m shr_r shr_s orb]; try lia; auto.
  - exfalso. rewrite Pos2Z.inj_xI in Hmod.
    pose proof (Z.mod_unique (2 * Z.pos p + 1) 2 (Z.pos p) 1 ltac:(lia) ltac:(lia)). lia.
  - discriminate.
Qed.

Lemma shr_iter_exact n mrs : shr_r mrs = false -> shr_s mrs = false -> 0 <= shr_m mrs ->
  shr_m mrs mod 2 ^ Z.of_nat n = 0 ->
  shr_r (Nat.iter n shr_1 mrs) = false /\ shr_s (Nat.iter n shr_1 mrs) = false.
Proof.
  intros Hr Hs Hm. induction n as [|n IH]; intros Hmod.
  - simpl. auto.
  - rewrite Nat2Z.inj_succ, Z.pow_succ_r in Hmod by lia.
    assert (Hpos : 0 < 2 ^ Z.of_nat n) by (apply Z.pow_pos_nonneg; lia).
    assert (Hd : shr_m mrs = 2 * 2 ^ Z.of_nat n * (shr_m mrs / (2 * 2 ^ Z.of_nat n))).
    { apply Z.div_exact; lia. }
    assert (Hmodn : shr_m mrs mod 2 ^ Z.of_nat n = 0).
    { rewrite Hd. rewrite <- Z.mul_assoc, (Z.mul_comm 2), <- Z.mul_assoc, Z.mul_comm. apply Z.mod_mul. lia. }
    destruct (IH Hmodn) as [Hr' Hs']. simpl Nat.iter.
    apply shr_1_exact; auto.
    + rewrite shr_iter_m by assumption.
      rewrite Hd at 1. rewrite (Z.mul_comm 2), <- Z.mul_assoc, Z.mul_comm, Z.div_mul by lia.
      rewrite Z.mul_comm. apply Z.mod_mul. lia.
    + rewrite shr_iter_m by assumption. apply Z.div_pos; lia.
Qed.

Section Round.
Variables prec emax : Z.
Hypothesis Hprec : 0 < prec.

Lemma fexp_spec e : fexp prec emax e = Z.max (e - prec) (emin prec emax).
Proof. reflexivity. Qed.

Lemma emin_spec : emin prec emax = 3 - emax - prec.
Proof. reflexivity. Qed.

Lemma fexp_ge e : e - prec <= fexp prec emax e /\ emin prec emax <= fexp prec emax e.
Proof. rewrite fexp_spec. lia. Qed.

Lemma shr_fexp_spec m e l :
  0 <= m ->
  let E := Z.max e (fexp prec emax (Zdigits2 m + e)) in
  snd (shr_fexp prec emax m e l) = E /\
  shr_m (fst (shr_fexp prec emax m e l)) = m / 2 ^ (E - e) /\
  (l = loc_Exact -> m mod 2 ^ (E - e) = 0 ->
   loc_of_shr_record (fst (shr_fexp prec emax m e l)) = loc_Exact).
Proof.
  intros Hm E. unfold shr_fexp, shr.
  assert (Hrec : shr_m (shr_record_of_loc m l) = m) by (destruct l as [|[]]; reflexivity).
  destruct (fexp prec emax (Zdigits2 m + e) - e) as [|p|p] eqn:Hn; cbn [fst snd].
  - assert (HE : E = e) by (unfold E; lia). rewrite HE, Z.sub_diag, Z.div_1_r.
    repeat split; auto. intros -> _. reflexivity.
  - assert (HE : E = e + Z.pos p) by (unfold E; lia).
    replace (E - e) with (Z.pos p) by lia.
    rewrite iter_pos_nat. rewrite <- (positive_nat_Z p).
    repeat split; [rewrite positive_nat_Z; lia | rewrite shr_iter_m; rewrite Hrec; auto |].
    intros -> Hmod.
    destruct (shr_iter_exact (Pos.to_nat p) (shr_record_of_loc m loc_Exact)) as [Hr Hs];
      try reflexivity; auto.
    destruct (Nat.iter _ _ _) as [m' r' s']. cbn in Hr, Hs. subst. reflexivity.
  - assert (HE : E = e) by (unfold E; lia). rewrite HE, Z.sub_diag, Z.div_1_r.
    repeat split; auto. intros -> _. reflexivity.
Qed.

Lemma round_nearest_even_cases m l :
  round_nearest_even m l = m \/ round_nearest_even m l = m + 1.
Proof. destruct l as [|[]]; cbn; auto. destruct (Z.even m); auto. Qed.

(** The result of [binary_round_aux] is the mantissa divided by the power of
    two that brings it to the exponent [E], or its successor. *)
Lemma binary_round_aux_repr sx mx ex lx :
  0 <= mx ->
  let E := Z.max ex (fexp prec emax (Zdigits2 mx + ex)) in
  E < emax - prec ->
  exists m2,
    m2 = round_nearest_even
           (shr_m (fst (shr_fexp prec emax mx ex lx)))
           (loc_of_shr_record (fst (shr_fexp prec emax mx ex lx))) /\
    (m2 = mx / 2 ^ (E - ex) \/ m2 = mx / 2 ^ (E - ex) + 1) /\
    (lx = loc_Exact -> mx mod 2 ^ (E - ex) = 0 -> m2 = mx / 2 ^ (E - ex)) /\
    SFrepr (binary_round_aux prec emax sx mx ex lx) sx m2 E.
Proof.
  intros Hmx E Hover.
  destruct (shr_fexp_spec mx ex lx Hmx) as (He1 & Hm1 & Hl1). fold E in He1, Hm1, Hl1.
  unfold binary_round_aux.
  destruct (shr_fexp prec emax mx ex lx) as [mrs1 e1]. cbn [fst snd] in *. subst e1.
  set (m1 := mx / 2 ^ (E - ex)) in *.
  set (m2 := round_nearest_even (shr_m mrs1) (loc_of_shr_record mrs1)).
  assert (HEex : 0 <= E - ex) by (unfold E; lia).
  assert (HEf : fexp prec emax (Zdigits2 mx + ex) <= E) by (unfold E; lia).
  clearbody E.
  assert (Hp2 : 0 < 2 ^ (E - ex)) by (apply Z.pow_pos_nonneg; lia).
  assert (Hm1nn : 0 <= m1) by (apply Z.div_pos; lia).
  assert (Hm1lt : m1 < 2 ^ prec).
  { destruct (Z.eq_dec mx 0) as [H0|H0].
    - unfold m1. rewrite H0, Z.div_0_l by lia. apply Z.pow_pos_nonneg; lia.
    - pose proof (Zdigits2_bounds mx ltac:(lia)) as [_ Hd].
      pose proof (fexp_ge (Zdigits2 mx + ex)) as [Hf _].
      apply Z.div_lt_upper_bound; [lia|].
      rewrite <- Z.pow_add_r by lia.
      eapply Z.lt_le_trans; [exact Hd|]. apply Z.pow_le_mono_r; lia. }
  assert (Hm2 : m2 = m1 \/ m2 = m1 + 1).
  { unfold m2. rewrite Hm1. apply round_nearest_even_cases. }
  assert (Hemin : emin prec emax <= E).
  { pose proof (fexp_ge (Zdigits2 mx + ex)). lia. }
  exists m2. split; [reflexivity|]. split; [exact Hm2|]. split.
  { intros Hlx Hmod. unfold m2. rewrite (Hl1 Hlx Hmod), Hm1. reflexivity. }
  assert (Hm2nn : 0 <= m2) by lia.
  clearbody m2 m1.
  destruct (shr_fexp_spec m2 E loc_Exact Hm2nn) as (He2 & Hm3 & _).
  destruct (shr_fexp prec emax m2 E loc_Exact) as [mrs2 e2]. cbn [fst snd] in *.
  rewrite ?fexp_spec in *.
  destruct (Z_lt_le_dec m2 (2 ^ prec)) as [Hlt|Hge].
  - assert (Hd2 : Zdigits2 m2 <= prec) by (apply Zdigits2_le; lia).
    assert (He2' : e2 = E) by lia.
    rewrite He2' in *. rewrite Z.max_l, Z.sub_diag, Z.div_1_r in Hm3 by lia.
    rewrite Hm3. destruct m2 as [|p|p]; try lia.
    + cbn. auto.
    + replace (E <=? emax - prec) with true by (symmetry; apply Z.leb_le; lia).
      cbn [SFrepr]. rewrite Z.sub_diag, Z.pow_0_r. split; [reflexivity|]. split; lia.
  - assert (Hm2eq : m2 = 2 ^ prec) by lia.
    assert (Hd2 : Zdigits2 m2 = prec + 1).
    { apply Z.le_antisymm.
      - apply Zdigits2_le; try lia. rewrite Hm2eq. apply Z.pow_lt_mono_r; lia.
      - apply Zdigits2_ge; lia. }
    assert (He2' : e2 = E + 1) by (rewrite Hd2 in He2; lia).
    rewrite Hd2 in Hm3.
    replace (Z.max E (Z.max (prec + 1 + E - prec) (emin prec emax)) - E) with 1 in Hm3
      by lia.
    assert (Hm3' : shr_m mrs2 = 2 ^ (prec - 1)).
    { rewrite Hm3, Hm2eq. replace prec with (Z.succ (prec - 1)) at 1 by lia.
      rewrite Z.pow_succ_r by lia. change (2 ^ 1) with 2.
      rewrite Z.mul_comm, Z.div_mul; lia. }
    assert (Hpos : 0 < 2 ^ (prec - 1)) by (apply Z.pow_pos_nonneg; lia).
    rewrite Hm3'. destruct (2 ^ (prec - 1)) as [|p|p] eqn:Hp; try lia.
    replace (e2 <=? emax - prec) with true by (symmetry; apply Z.leb_le; lia).
    cbn. split; [reflexivity|]. split; [lia|].
    replace (e2 - E) with 1 by lia. change (2 ^ 1) with 2.
    rewrite Hm2eq. replace prec with (Z.succ (prec - 1)) at 1 by lia.
    rewrite Z.pow_succ_r by lia. lia.
Qed.
End Round.

Lemma pos_iter_xO m d : Z.pos (Pos.iter xO m d) = Z.pos m * 2 ^ Z.pos d.
Proof.
  induction d as [|d IH] using Pos.peano_ind.
  - cbn. lia.
  - rewrite Pos.iter_succ, Pos2Z.inj_xO, IH, Pos2Z.inj_succ, Z.pow_succ_r by lia. lia.
Qed.

Lemma shl_align_spec mx ex ex' :
  let '(mz, ez) := shl_align mx ex ex' in
  ez = Z.min ex ex' /\ Z.pos mz = Z.pos mx * 2 ^ (ex - ez).
Proof.
  unfold shl_align. destruct (ex' - ex) as [|d|d] eqn:Hd.
  - split; [lia|]. replace (ex - ex) with 0 by lia. lia.
  - split; [lia|]. replace (ex - ex) with 0 by lia. lia.
  - split; [lia|]. rewrite pos_iter_xO. f_equal. f_equal. lia.
Qed.

Lemma Zdigits2_unique m d : 2 ^ (d - 1) <= m < 2 ^ d -> 0 < d -> Zdigits2 m = d.
Proof.
  intros [Hlo Hhi] Hd. 
  assert (0 < m) by (pose proof (Z.pow_pos_nonneg 2 (d - 1)); lia).
  apply Z.le_antisymm.
  - apply Zdigits2_le; lia.
  - pose proof (Zdigits2_ge m (d - 1) Hlo). lia.
Qed.

Lemma Zdigits2_shift m k : 0 < m -> 0 <= k -> Zdigits2 (m * 2 ^ k) = Zdigits2 m + k.
Proof.
  intros Hm Hk. pose proof (Zdigits2_bounds m Hm) as [Hlo Hhi].
  assert (Hd : 0 < Zdigits2 m) by (destruct m; cbn; lia).
  assert (Hp : 0 < 2 ^ k) by (apply Z.pow_pos_nonneg; lia).
  apply Zdigits2_unique; [|lia]. split.
  - replace (Zdigits2 m + k - 1) with (Zdigits2 m - 1 + k) by lia.
    rewrite Z.pow_add_r by lia. nia.
  - rewrite Z.pow_add_r by lia. nia.
Qed.

Local Open Scope Q_scope.

(** ** Values and rounding *)
Lemma bpow_pos e : 0 < bpow e.
Proof. apply Qpower_0_lt. reflexivity. Qed.

Lemma bpow_add a b : bpow (a + b) == bpow a * bpow b.
Proof. apply Qpower_plus. discriminate. Qed.

Lemma bpow_inject n : (0 <= n)%Z -> inject_Z (2 ^ n) == bpow n.
Proof. intros Hn. unfold bpow. rewrite Zpower_Qpower by assumption. reflexivity. Qed.

Lemma bpow_le a b : (a <= b)%Z -> bpow a <= bpow b.
Proof. intros H. apply Qpower_le_compat_l; [assumption|]. discriminate. Qed.

Lemma bpow_split e e' : (e <= e')%Z -> bpow e' == inject_Z (2 ^ (e' - e)) * bpow e.
Proof.
  intros H. rewrite bpow_inject by lia. rewrite <- bpow_add. 
  replace (e' - e + e)%Z with e' by lia. reflexivity.
Qed.

Lemma cond_Qopp_opp s q : - cond_Qopp s q == cond_Qopp (negb s) q.
Proof. destruct s; cbn; ring. Qed.

Lemma SFrepr_Q f s m e :
  SFrepr f s m e -> isfinite f = true /\ SF2Q f == cond_Qopp s (inject_Z m * bpow e).
Proof.
  destruct f as [s'|s'| |s' m' e']; cbn [SFrepr isfinite SF2Q]; try tauto.
  - intros [-> ->]. split; [reflexivity|]. destruct s; cbn [cond_Qopp]; change (inject_Z 0) with 0; ring.
  - intros (-> & He & ->). split; [reflexivity|].
    destruct s; cbn [cond_Qopp]; rewrite (bpow_split e e') by assumption;
      rewrite inject_Z_mult; ring.
Qed.

Lemma inject_Z_le a b : (a <= b)%Z -> inject_Z a <= inject_Z b.
Proof. intros H. rewrite <- Zle_Qle. exact H. Qed.

Lemma inject_Z_lt a b : (a < b)%Z -> inject_Z a < inject_Z b.
Proof. intros H. rewrite <- Zlt_Qlt. exact H. Qed.

Lemma inject_Z_le_inv a b : inject_Z a <= inject_Z b -> (a <= b)%Z.
Proof. intros H. rewrite Zle_Qle. exact H. Qed.

Lemma inject_Z_lt_inv a b : inject_Z a < inject_Z b -> (a < b)%Z.
Proof. intros H. rewrite Zlt_Qlt. exact H. Qed.

Section RoundQ.
Variables prec emax : Z.
Hypothesis Hprec : (0 < prec)%Z.

Lemma binary_round_aux_Q sx mx ex lx v :
  (0 <= mx)%Z ->
  inject_Z mx * bpow ex <= v -> v < (inject_Z mx + 1) * bpow ex ->
  (v == inject_Z mx * bpow ex -> lx = loc_Exact) ->
  let E := Z.max ex (fexp prec emax (Zdigits2 mx + ex)) in
  (E < emax - prec)%Z ->
  isfinite (binary_round_aux prec emax sx mx ex lx) = true /\
  exists w, SF2Q (binary_round_aux prec emax sx mx ex lx) == cond_Qopp sx w /\
            rnd_to E v w.
Proof.
  intros Hmx Hlo Hhi Hex E Hover.
  destruct (binary_round_aux_repr prec emax Hprec sx mx ex lx Hmx Hover)
    as (m2 & _ & Hm2 & Hexact & Hrepr). fold E in Hm2, Hexact, Hrepr.
  apply SFrepr_Q in Hrepr. destruct Hrepr as [Hfin Hval].
  split; [exact Hfin|]. exists (inject_Z m2 * bpow E). split; [exact Hval|].
  split; [exists m2; reflexivity|].
  assert (HEex : (ex <= E)%Z) by (unfold E; lia). clearbody E.
  pose proof (bpow_split ex E HEex) as HbE.
  assert (HP : (0 < 2 ^ (E - ex))%Z) by (apply Z.pow_pos_nonneg; lia).
  set (P := (2 ^ (E - ex))%Z) in *. set (m1 := (mx / P)%Z) in *.
  pose proof (Z.mul_div_le mx P HP) as Hz1. fold m1 in Hz1.
  pose proof (Z.mul_succ_div_gt mx P HP) as Hz2. fold m1 in Hz2.
  assert (Hq1 : inject_Z P * inject_Z m1 <= inject_Z mx).
  { pose proof (inject_Z_le _ _ Hz1) as H. rewrite inject_Z_mult in H. exact H. }
  assert (Hq2 : inject_Z mx + 1 <= inject_Z P * (inject_Z m1 + 1)).
  { assert (Hz : (mx + 1 <= P * (m1 + 1))%Z) by lia.
    apply inject_Z_le in Hz. rewrite inject_Z_mult, !inject_Z_plus in Hz. exact Hz. }
  assert (HqP : 0 < inject_Z P).
  { apply inject_Z_lt in HP. exact HP. }
  pose proof (bpow_pos ex) as Hb.
  assert (Hstrict : m2 = (m1 + 1)%Z -> inject_Z m1 * bpow E < v).
  { intros Hm2'. destruct (Qlt_le_dec (inject_Z m1 * bpow E) v) as [|Hle]; [assumption|exfalso].
    assert (Hle1 : inject_Z mx <= inject_Z P * inject_Z m1).
    { rewrite HbE in Hle.
      assert (H : inject_Z mx * bpow ex <= inject_Z P * inject_Z m1 * bpow ex) by lra.
      apply Qmult_le_r in H; [exact H | exact Hb]. }
    assert (Heq1 : (mx = P * m1)%Z).
    { apply Z.le_antisymm; [|exact Hz1].
      apply inject_Z_le_inv. rewrite inject_Z_mult. exact Hle1. }
    assert (Hmod : (mx mod P = 0)%Z) by (rewrite Heq1, Z.mul_comm; apply Z.mod_mul; lia).
    assert (Hv : v == inject_Z mx * bpow ex).
    { apply Qle_antisym; [|exact Hlo]. rewrite HbE in Hle. nra. }
    specialize (Hexact (Hex Hv) Hmod). lia. }
  apply Qabs_Qlt_condition. rewrite HbE in *.
  generalize dependent (bpow ex). intros b.  intros.
  generalize dependent (inject_Z P). intros p. intros.
  generalize dependent (inject_Z mx). intros x. intros.
  assert (Hpb : 0 < p * b) by nra.
  destruct Hm2 as [-> | Hm2].
  - clear Hstrict. generalize dependent (inject_Z m1). intros a. intros. split; nra.
  - specialize (Hstrict Hm2). rewrite Hm2, inject_Z_plus. change (inject_Z 1) with 1.
    generalize dependent (inject_Z m1). intros a. intros. split; nra.
Qed.
End RoundQ.

Lemma bpow_lt_inv a b : bpow a < bpow b -> (a < b)%Z.
Proof. intros H. apply (Qpower_lt_compat_l_inv 2); [exact H|reflexivity]. Qed.

Lemma digits_bound m e K : (0 < m)%Z -> inject_Z m * bpow e < bpow K -> (Zdigits2 m + e <= K)%Z.
Proof.
  intros Hm Hlt. pose proof (Zdigits2_bounds m Hm) as [Hlo _].
  assert (Hd : (0 < Zdigits2 m)%Z) by (destruct m; cbn; lia).
  apply inject_Z_le in Hlo. rewrite bpow_inject in Hlo by lia.
  assert (H : bpow (Zdigits2 m - 1 + e) < bpow K).
  { rewrite bpow_add. pose proof (bpow_pos e). 
    eapply Qle_lt_trans; [|exact Hlt]. apply Qmult_le_compat_r; [exact Hlo|lra]. }
  apply bpow_lt_inv in H. lia.
Qed.

Lemma rnd_to_opp E v w : rnd_to E v w -> rnd_to E (- v) (- w).
Proof.
  intros [[k Hk] Habs]. split.
  - exists (- k)%Z. rewrite inject_Z_opp, Hk. ring.
  - setoid_replace (- w - - v) with (- (w - v)) by ring. rewrite Qabs_opp. exact Habs.
Qed.

Lemma rnd_to_cond_opp E s v w : rnd_to E v w -> rnd_to E (cond_Qopp s v) (cond_Qopp s w).
Proof. destruct s; cbn [cond_Qopp]; [apply rnd_to_opp|auto]. Qed.

Lemma rnd_to_exact E v w : rnd_to E v w -> (exists k, v == inject_Z k * bpow E) -> w == v.
Proof.
  intros [[kw Hw] Habs] [kv Hv]. apply Qabs_Qlt_condition in Habs.
  pose proof (bpow_pos E) as Hb. rewrite Hw, Hv in Habs. 
  assert (H1 : inject_Z kw < inject_Z kv + 1).
  { apply (Qmult_lt_r _ _ (bpow E) Hb). lra. }
  assert (H2 : inject_Z kv < inject_Z kw + 1).
  { apply (Qmult_lt_r _ _ (bpow E) Hb). lra. }
  change 1 with (inject_Z 1) in H1, H2. rewrite <- inject_Z_plus in H1, H2.
  apply inject_Z_lt_inv in H1, H2. 
  assert (kw = kv) by lia. subst. rewrite Hw, Hv. reflexivity.
Qed.

Lemma rnd_to_lb E v w r : rnd_to E v w -> (exists k, r == inject_Z k * bpow E) -> r <= v -> r <= w.
Proof.
  intros [[kw Hw] Habs] [kr Hr] Hle. apply Qabs_Qlt_condition in Habs.
  pose proof (bpow_pos E) as Hb. 
  assert (H1 : inject_Z kr < inject_Z kw + 1).
  { apply (Qmult_lt_r _ _ (bpow E) Hb). lra. }
  change 1 with (inject_Z 1) in H1. rewrite <- inject_Z_plus in H1.
  apply inject_Z_lt_inv in H1.
  assert (H2 : (kr <= kw)%Z) by lia. apply inject_Z_le in H2.
  rewrite Hw, Hr. apply Qmult_le_compat_r; [exact H2|lra].
Qed.

Lemma rnd_to_ub E v w r : rnd_to E v w -> (exists k, r == inject_Z k * bpow E) -> v <= r -> w <= r.
Proof.
  intros H [k Hk] Hle. apply rnd_to_opp in H.
  assert (- r <= - w); [|lra].
  apply (rnd_to_lb E (- v)); auto; [|lra].
  exists (- k)%Z. rewrite inject_Z_opp, Hk. ring.
Qed.

Lemma multiple_weaken E U r : (E <= U)%Z -> (exists k, r == inject_Z k * bpow U) ->
  exists k, r == inject_Z k * bpow E.
Proof.
  intros HE [k Hk]. exists (k * 2 ^ (U - E))%Z.
  rewrite Hk, (bpow_split E U HE), inject_Z_mult. ring.
Qed.

Lemma rounded_err U v w : rounded U v w -> Qabs (w - v) < bpow U.
Proof.
  intros (E & HE & _ & Habs). eapply Qlt_le_trans; [exact Habs|]. apply bpow_le; exact HE.
Qed.

Lemma rounded_lb U v w r : rounded U v w -> (exists k, r == inject_Z k * bpow U) -> r <= v -> r <= w.
Proof.
  intros (E & HE & H) Hr. apply (rnd_to_lb E v w r H). eapply multiple_weaken; eauto.
Qed.

Lemma rounded_ub U v w r : rounded U v w -> (exists k, r == inject_Z k * bpow U) -> v <= r -> w <= r.
Proof.
  intros (E & HE & H) Hr. apply (rnd_to_ub E v w r H). eapply multiple_weaken; eauto.
Qed.

Lemma rounded_exact U v w : rounded U v w -> (exists k, v == inject_Z k * bpow U) -> w == v.
Proof.
  intros (E & HE & H) Hr. apply (rnd_to_exact E v w H). eapply multiple_weaken; eauto.
Qed.

Section Ops.
Variables prec emax : Z.
Hypothesis Hprec : (0 < prec)%Z.

Lemma binary_round_Q sx mx ex :
  let E := fexp prec emax (Z.pos (digits2_pos mx) + ex) in
  (E < emax - prec)%Z ->
  isfinite (binary_round prec emax sx mx ex) = true /\
  exists w, SF2Q (binary_round prec emax sx mx ex) == cond_Qopp sx w /\
            rnd_to E (inject_Z (Z.pos mx) * bpow ex) w.
Proof.
  intros E Hover. unfold binary_round.
  pose proof (shl_align_spec mx ex (fexp prec emax (Z.pos (digits2_pos mx) + ex))) as Hal.
  fold E in Hal |- *.
  destruct (shl_align mx ex E) as [mz ez]. destruct Hal as [Hez Hmz].
  assert (Hd : (Zdigits2 (Z.pos mz) + ez = Z.pos (digits2_pos mx) + ex)%Z).
  { rewrite Hmz, Zdigits2_shift by lia. cbn [Zdigits2]. lia. }
  assert (Hv : inject_Z (Z.pos mz) * bpow ez == inject_Z (Z.pos mx) * bpow ex).
  { rewrite Hmz, inject_Z_mult, (bpow_split ez ex) by lia. ring. }
  assert (HE : Z.max ez (fexp prec emax (Zdigits2 (Z.pos mz) + ez)) = E).
  { rewrite Hd. fold E. lia. }
  pose proof (bpow_pos ez) as Hb.
  destruct (binary_round_aux_Q prec emax Hprec sx (Z.pos mz) ez loc_Exact
              (inject_Z (Z.pos mx) * bpow ex)) as (Hfin & w & Hw & Hr).
  - lia.
  - rewrite Hv. apply Qle_refl.
  - rewrite <- Hv. lra.
  - reflexivity.
  - rewrite HE. exact Hover.
  - rewrite HE in Hr. split; [exact Hfin|]. exists w. split; assumption.
Qed.

Lemma rnd_to_zero E : rnd_to E 0 0.
Proof.
  split; [exists 0%Z; change (inject_Z 0) with 0; ring|].
  setoid_replace (0 - 0) with 0 by ring. cbn. apply bpow_pos.
Qed.

Lemma binary_normalize_Q m e sz :
  let E := fexp prec emax (Zdigits2 m + e) in
  (E < emax - prec)%Z ->
  isfinite (binary_normalize prec emax m e sz) = true /\
  rnd_to E (inject_Z m * bpow e) (SF2Q (binary_normalize prec emax m e sz)).
Proof.
  intros E Hover. destruct m as [|p|p]; cbn [binary_normalize].
  - split; [reflexivity|]. cbn [SF2Q]. 
    destruct (rnd_to_zero E) as [Hk Ha]. split; [exact Hk|].
    setoid_replace (0 - inject_Z 0 * bpow e) with 0 by (change (inject_Z 0) with 0; ring).
    cbn. apply bpow_pos.
  - destruct (binary_round_Q false p e Hover) as (Hfin & w & Hw & Hr).
    split; [exact Hfin|]. cbn [cond_Qopp] in Hw. 
    destruct Hr as [[k Hk] Ha]. split.
    + exists k. rewrite Hw. exact Hk.
    + rewrite Hw. exact Ha.
  - destruct (binary_round_Q true p e Hover) as (Hfin & w & Hw & Hr).
    split; [exact Hfin|]. cbn [cond_Qopp] in Hw. apply rnd_to_opp in Hr.
    destruct Hr as [[k Hk] Ha]. split.
    + exists k. rewrite Hw. exact Hk.
    + rewrite Hw. 
      setoid_replace (inject_Z (Z.neg p) * bpow e) with (- (inject_Z (Z.pos p) * bpow e)); [exact Ha|].
      change (Z.neg p) with (- Z.pos p)%Z. rewrite inject_Z_opp. ring.
Qed.

Lemma rounded_refl U v k e : v == inject_Z k * bpow e -> rounded U v v.
Proof.
  intros Hv. exists (Z.min e U). split; [lia|]. split.
  - exists (k * 2 ^ (e - Z.min e U))%Z.
    rewrite Hv, (bpow_split (Z.min e U) e), inject_Z_mult by lia. ring.
  - setoid_replace (v - v) with 0 by ring. cbn. apply bpow_pos.
Qed.

Lemma SF2Q_dyadic f : exists k e, SF2Q f == inject_Z k * bpow e.
Proof.
  destruct f as [s|s| |s m e]; cbn [SF2Q];
    try (exists 0%Z, 0%Z; change (inject_Z 0) with 0; ring).
  destruct s; cbn [cond_Qopp].
  - exists (- Z.pos m)%Z, e. rewrite inject_Z_opp. ring.
  - exists (Z.pos m), e. reflexivity.
Qed.

Lemma rounded_float U f : rounded U (SF2Q f) (SF2Q f).
Proof. destruct (SF2Q_dyadic f) as (k & e & H). eapply rounded_refl; eauto. Qed.

Lemma rounded_eq U v v' w w' : v == v' -> w == w' -> rounded U v w -> rounded U v' w'.
Proof.
  intros Hv Hw (E & HE & [k Hk] & Ha). exists E. split; [exact HE|]. split.
  - exists k. rewrite <- Hw. exact Hk.
  - rewrite <- Hv, <- Hw. exact Ha.
Qed.

Lemma binary_normalize_rounded m e sz U :
  (emin prec emax <= U)%Z -> (U < emax - prec)%Z ->
  Qabs (inject_Z m * bpow e) < bpow (U + prec) ->
  isfinite (binary_normalize prec emax m e sz) = true /\
  rounded U (inject_Z m * bpow e) (SF2Q (binary_normalize prec emax m e sz)).
Proof.
  intros Hmin Hmax Hlt.
  assert (HE : (fexp prec emax (Zdigits2 m + e) <= U)%Z \/ m = 0%Z).
  { destruct (Z.eq_dec m 0) as [|Hne]; [right; assumption|left].
    rewrite fexp_spec.
    assert (Hd : (Zdigits2 m + e <= U + prec)%Z).
    { destruct m as [|p|p]; try lia.
      - apply digits_bound; [lia|]. rewrite Qabs_pos in Hlt; [exact Hlt|].
        pose proof (bpow_pos e). assert (0 < inject_Z (Z.pos p)) by (apply (inject_Z_lt 0); lia). nra.
      - change (Zdigits2 (Z.neg p)) with (Zdigits2 (Z.pos p)).
        apply digits_bound; [lia|]. rewrite <- Qabs_opp, Qabs_pos in Hlt.
        + eapply Qle_lt_trans; [|exact Hlt].
          change (Z.neg p) with (- Z.pos p)%Z. rewrite inject_Z_opp. lra.
        + pose proof (bpow_pos e). assert (0 < inject_Z (Z.pos p)) by (apply (inject_Z_lt 0); lia).
          change (Z.neg p) with (- Z.pos p)%Z. rewrite inject_Z_opp. nra. }
    lia. }
  destruct HE as [HE | ->].
  - destruct (binary_normalize_Q m e sz) as [Hfin Hr]; [lia|].
    split; [exact Hfin|]. eexists; split; [exact HE|exact Hr].
  - cbn [binary_normalize isfinite SF2Q]. split; [reflexivity|].
    apply rounded_eq with (v := 0) (w := 0);
      [change (inject_Z 0) with 0; ring | reflexivity |].
    apply (rounded_refl U 0 0%Z 0%Z). reflexivity.
Qed.

Lemma shl_align_fst_Q s m e ez :
  (ez <= e)%Z ->
  inject_Z (cond_Zopp s (Z.pos (fst (shl_align m e ez)))) * bpow ez
  == SF2Q (S754_finite s m e).
Proof.
  intros Hle. pose proof (shl_align_spec m e ez) as H.
  destruct (shl_align m e ez) as [mz e']. destruct H as [He' Hmz]. cbn [fst SF2Q].
  replace e' with ez in Hmz by lia.
  destruct s; cbn [cond_Zopp cond_Qopp].
  - rewrite inject_Z_opp, Hmz, inject_Z_mult, (bpow_split ez e) by lia. ring.
  - rewrite Hmz, inject_Z_mult, (bpow_split ez e) by lia. ring.
Qed.

Lemma SFsub_rounded x y U :
  isfinite x = true -> isfinite y = true ->
  (emin prec emax <= U)%Z -> (U < emax - prec)%Z ->
  Qabs (SF2Q x - SF2Q y) < bpow (U + prec) ->
  isfinite (SFsub prec emax x y) = true /\
  rounded U (SF2Q x - SF2Q y) (SF2Q (SFsub prec emax x y)).
Proof.
  intros Hx Hy Hmin Hmax Hlt.
  destruct x as [sx|sx| |sx mx ex]; try discriminate;
    destruct y as [sy|sy| |sy my ey]; try discriminate.
  - split; [destruct sx, sy; reflexivity|].
    apply rounded_eq with (v := 0) (w := 0).
    + cbn [SF2Q]. ring.
    + destruct sx, sy; reflexivity.
    + apply (rounded_refl U 0 0%Z 0%Z). reflexivity.
  - split; [reflexivity|]. cbn [SFsub].
    apply rounded_eq with (v := SF2Q (S754_finite (negb sy) my ey))
                          (w := SF2Q (S754_finite (negb sy) my ey));
      [|reflexivity|apply rounded_float].
    cbn [SF2Q]. destruct sy; cbn [negb cond_Qopp]; ring.
  - split; [reflexivity|]. cbn [SFsub].
    apply rounded_eq with (v := SF2Q (S754_finite sx mx ex))
                          (w := SF2Q (S754_finite sx mx ex));
      [|reflexivity|apply rounded_float].
    cbn [SF2Q]. ring.
  - cbn [SFsub].
    set (ez := Z.min ex ey).
    pose proof (shl_align_fst_Q sx mx ex ez ltac:(lia)) as Hvx.
    pose proof (shl_align_fst_Q sy my ey ez ltac:(lia)) as Hvy.
    set (zx := cond_Zopp sx (Z.pos (fst (shl_align mx ex ez)))) in *.
    set (zy := cond_Zopp sy (Z.pos (fst (shl_align my ey ez)))) in *.
    assert (Hv : inject_Z (zx - zy) * bpow ez
                 == SF2Q (S754_finite sx mx ex) - SF2Q (S754_finite sy my ey)).
    { rewrite <- Hvx, <- Hvy. unfold Z.sub. rewrite inject_Z_plus, inject_Z_opp. ring. }
    destruct (binary_normalize_rounded (zx - zy) ez false U) as [Hfin Hr]; auto.
    + rewrite Hv. exact Hlt.
    + split; [exact Hfin|]. eapply rounded_eq; [exact Hv|reflexivity|exact Hr].
Qed.

Lemma SFadd_rounded x y U :
  isfinite x = true -> isfinite y = true ->
  (emin prec emax <= U)%Z -> (U < emax - prec)%Z ->
  Qabs (SF2Q x + SF2Q y) < bpow (U + prec) ->
  isfinite (SFadd prec emax x y) = true /\
  rounded U (SF2Q x + SF2Q y) (SF2Q (SFadd prec emax x y)).
Proof.
  intros Hx Hy Hmin Hmax Hlt.
  destruct x as [sx|sx| |sx mx ex]; try discriminate;
    destruct y as [sy|sy| |sy my ey]; try discriminate.
  - split; [destruct sx, sy; reflexivity|].
    apply rounded_eq with (v := 0) (w := 0).
    + cbn [SF2Q]. ring.
    + destruct sx, sy; reflexivity.
    + apply (rounded_refl U 0 0%Z 0%Z). reflexivity.
  - split; [reflexivity|]. cbn [SFadd].
    apply rounded_eq with (v := SF2Q (S754_finite sy my ey))
                          (w := SF2Q (S754_finite sy my ey));
      [|reflexivity|apply rounded_float].
    cbn [SF2Q]. ring.
  - split; [reflexivity|]. cbn [SFadd].
    apply rounded_eq with (v := SF2Q (S754_finite sx mx ex))
                          (w := SF2Q (S754_finite sx mx ex));
      [|reflexivity|apply rounded_float].
    cbn [SF2Q]. ring.
  - cbn [SFadd].
    set (ez := Z.min ex ey).
    pose proof (shl_align_fst_Q sx mx ex ez ltac:(lia)) as Hvx.
    pose proof (shl_align_fst_Q sy my ey ez ltac:(lia)) as Hvy.
    set (zx := cond_Zopp sx (Z.pos (fst (shl_align mx ex ez)))) in *.
    set (zy := cond_Zopp sy (Z.pos (fst (shl_align my ey ez)))) in *.
    assert (Hv : inject_Z (zx + zy) * bpow ez
                 == SF2Q (S754_finite sx mx ex) + SF2Q (S754_finite sy my ey)).
    { rewrite <- Hvx, <- Hvy. rewrite inject_Z_plus. ring. }
    destruct (binary_normalize_rounded (zx + zy) ez false U) as [Hfin Hr]; auto.
    + rewrite Hv. exact Hlt.
    + split; [exact Hfin|]. eapply rounded_eq; [exact Hv|reflexivity|exact Hr].
Qed.
End Ops.

Lemma new_location_zero n : new_location n 0 = loc_Exact.
Proof. unfold new_location, new_location_even, new_location_odd. destruct (Z.even n); reflexivity. Qed.

Lemma new_location_nonzero n r : new_location n r = loc_Exact -> r = 0%Z.
Proof.
  unfold new_location, new_location_even, new_location_odd.
  destruct (Z.even n); destruct (Z.eqb_spec r 0); auto; discriminate.
Qed.

Section Div.
Variables prec emax : Z.
Hypothesis Hprec : (0 < prec)%Z.

Lemma SFdiv_core_binary_spec mx ex my ey :
  let '(q, e', l) := SFdiv_core_binary prec emax (Z.pos mx) ex (Z.pos my) ey in
  let v := (inject_Z (Z.pos mx) * bpow ex) / (inject_Z (Z.pos my) * bpow ey) in
  (0 <= q)%Z /\
  (e' <= fexp prec emax (Zdigits2 (Z.pos mx) + ex - (Zdigits2 (Z.pos my) + ey)))%Z /\
  inject_Z q * bpow e' <= v /\ v < (inject_Z q + 1) * bpow e' /\
  (v == inject_Z q * bpow e' -> l = loc_Exact).
Proof.
  unfold SFdiv_core_binary.
  set (d1 := Zdigits2 (Z.pos mx)). set (d2 := Zdigits2 (Z.pos my)).
  set (e' := Z.min (fexp prec emax (d1 + ex - (d2 + ey))) (ex - ey)).
  set (s := (ex - ey - e')%Z).
  assert (Hs : (0 <= s)%Z) by (unfold s, e'; lia).
  set (m' := match s with Z.pos _ => Z.shiftl (Z.pos mx) s | 0%Z => Z.pos mx | Z.neg _ => 0%Z end).
  assert (Hm' : m' = (Z.pos mx * 2 ^ s)%Z).
  { unfold m'. destruct s as [|p|p] eqn:Hsp; try lia.
    rewrite Z.shiftl_mul_pow2 by lia. reflexivity. }
  clearbody m'.
  pose proof (Z_div_mod m' (Z.pos my) ltac:(lia)) as Hdm.
  change (IntDef.Z.div_eucl m' (Z.pos my)) with (Z.div_eucl m' (Z.pos my)).
  destruct (Z.div_eucl m' (Z.pos my)) as [q r]. destruct Hdm as [Hdm Hr].
  assert (Hp : (0 < 2 ^ s)%Z) by (apply Z.pow_pos_nonneg; lia).
  assert (Hq : (0 <= q)%Z) by nia.
  split; [exact Hq|]. split; [unfold e'; lia|].
  assert (Hbx : bpow ex == inject_Z (2 ^ s) * bpow e' * bpow ey).
  { rewrite bpow_inject, <- !bpow_add by lia. replace (s + e' + ey)%Z with ex by (unfold s; lia).
    reflexivity. }
  pose proof (bpow_pos ey) as Hby. pose proof (bpow_pos e') as Hbe.
  assert (Hmy : 0 < inject_Z (Z.pos my)) by (apply (inject_Z_lt 0); lia).
  assert (Hv : inject_Z (Z.pos mx) * bpow ex / (inject_Z (Z.pos my) * bpow ey)
               == (inject_Z q + inject_Z r / inject_Z (Z.pos my)) * bpow e').
  { rewrite Hbx. 
    assert (Hm'' : inject_Z (Z.pos mx) * inject_Z (2 ^ s) == inject_Z (Z.pos my) * inject_Z q + inject_Z r).
    { rewrite <- !inject_Z_mult, <- inject_Z_plus, <- Hm', Hdm. reflexivity. }
    setoid_replace (inject_Z (Z.pos mx) * (inject_Z (2 ^ s) * bpow e' * bpow ey))
      with ((inject_Z (Z.pos my) * inject_Z q + inject_Z r) * bpow e' * bpow ey)
      by (rewrite <- Hm''; ring).
    field. split; lra. }
  assert (Hr0 : 0 <= inject_Z r / inject_Z (Z.pos my)).
  { apply Qle_shift_div_l; [exact Hmy|]. rewrite Qmult_0_l. apply (inject_Z_le 0). lia. }
  assert (Hr1 : inject_Z r / inject_Z (Z.pos my) < 1).
  { apply Qlt_shift_div_r; [exact Hmy|]. rewrite Qmult_1_l. apply inject_Z_lt. lia. }
  assert (Hrt : inject_Z r == inject_Z r / inject_Z (Z.pos my) * inject_Z (Z.pos my)).
  { field. lra. }
  rewrite Hv. generalize dependent (inject_Z r / inject_Z (Z.pos my)). intros t Hv Ht0 Ht1 Hrt.
  split; [nra|]. split; [nra|].
  intros Heq. assert (Ht : t == 0) by nra.
  assert (Hrz : r = 0%Z).
  { apply inject_Z_injective. rewrite Hrt, Ht. ring. }
  subst r. apply new_location_zero.
Qed.

Lemma SFdiv_rounded x sy my ey U :
  isfinite x = true ->
  (emin prec emax <= U)%Z -> (U < emax - prec)%Z ->
  Qabs (SF2Q x / SF2Q (S754_finite sy my ey)) < bpow (U + prec) ->
  isfinite (SFdiv prec emax x (S754_finite sy my ey)) = true /\
  rounded U (SF2Q x / SF2Q (S754_finite sy my ey))
            (SF2Q (SFdiv prec emax x (S754_finite sy my ey))).
Proof.
  intros Hx Hmin Hmax Hlt.
  pose proof (bpow_pos ey) as Hby.
  assert (Hmy : 0 < inject_Z (Z.pos my)) by (apply (inject_Z_lt 0); lia).
  assert (Hden : 0 < inject_Z (Z.pos my) * bpow ey) by nra.
  destruct x as [sx|sx| |sx mx ex]; try discriminate.
  - split; [reflexivity|]. cbn [SFdiv].
    apply rounded_eq with (v := 0) (w := 0).
    + cbn [SF2Q]. destruct sy; cbn [cond_Qopp]; field; lra.
    + reflexivity.
    + apply (rounded_refl U 0 0%Z 0%Z). reflexivity.
  - cbn [SFdiv].
    pose proof (SFdiv_core_binary_spec mx ex my ey) as Hcore.
    destruct (SFdiv_core_binary prec emax (Z.pos mx) ex (Z.pos my) ey) as [[q e'] l].
    set (v := inject_Z (Z.pos mx) * bpow ex / (inject_Z (Z.pos my) * bpow ey)) in *.
    cbv zeta in Hcore. destruct Hcore as (Hq & He' & Hlo & Hhi & Hex).
    pose proof (bpow_pos ex) as Hbx. pose proof (bpow_pos e') as Hbe.
    assert (Hmx : 0 < inject_Z (Z.pos mx)) by (apply (inject_Z_lt 0); lia).
    assert (Hvpos : 0 < v).
    { unfold v. apply Qlt_shift_div_l; [exact Hden|]. nra. }
    assert (Hquot : SF2Q (S754_finite sx mx ex) / SF2Q (S754_finite sy my ey)
                    == cond_Qopp (xorb sx sy) v).
    { unfold v. cbn [SF2Q]. destruct sx, sy; cbn [xorb cond_Qopp]; field; lra. }
    assert (Hv : v < bpow (U + prec)).
    { rewrite Hquot in Hlt. destruct (xorb sx sy); cbn [cond_Qopp] in Hlt.
      - rewrite Qabs_opp, Qabs_pos in Hlt; lra.
      - rewrite Qabs_pos in Hlt; lra. }
    set (d1 := Zdigits2 (Z.pos mx)) in *. set (d2 := Zdigits2 (Z.pos my)) in *.
    assert (Hd : (d1 + ex - (d2 + ey) <= U + prec)%Z).
    { pose proof (Zdigits2_bounds (Z.pos mx) ltac:(lia)) as [H1 _].
      pose proof (Zdigits2_bounds (Z.pos my) ltac:(lia)) as [_ H2].
      fold d1 in H1. fold d2 in H2.
      assert (Hd1 : (0 < d1)%Z) by (unfold d1; cbn; lia).
      assert (Hd2 : (0 < d2)%Z) by (unfold d2; cbn; lia).
      apply inject_Z_le in H1. apply inject_Z_lt in H2.
      rewrite bpow_inject in H1, H2 by lia.
      assert (Hlow : bpow (d1 - 1 + ex - (d2 + ey)) < v).
      { unfold v. apply Qlt_shift_div_l; [exact Hden|].
        assert (Hsplit : bpow (d1 - 1 + ex) == bpow (d1 - 1 + ex - (d2 + ey)) * (bpow d2 * bpow ey)).
        { rewrite <- !bpow_add. replace (d1 - 1 + ex - (d2 + ey) + (d2 + ey))%Z with (d1 - 1 + ex)%Z by lia.
          reflexivity. }
        rewrite bpow_add in Hsplit.
        pose proof (bpow_pos (d1 - 1 + ex - (d2 + ey))) as Hb0.
        pose proof (bpow_pos d2) as Hbd2. pose proof (bpow_pos (d1 - 1)) as Hbd1.
        generalize dependent (bpow (d1 - 1 + ex - (d2 + ey))). intros b0. intros.
        generalize dependent (bpow d2). intros bd2. intros.
        generalize dependent (bpow (d1 - 1)). intros bd1. intros.
        generalize dependent (bpow ex). intros bx. intros.
        generalize dependent (bpow ey). intros byy. intros.
        generalize dependent (inject_Z (Z.pos mx)). intros qx. intros.
        generalize dependent (inject_Z (Z.pos my)). intros qy. intros.
        assert (Hbb : 0 < b0 * byy) by nra.
        assert (b0 * (qy * byy) < b0 * (bd2 * byy)).
        { setoid_replace (b0 * (qy * byy)) with (qy * (b0 * byy)) by ring.
          setoid_replace (b0 * (bd2 * byy)) with (bd2 * (b0 * byy)) by ring.
          apply Qmult_lt_compat_r; assumption. }
        assert (bd1 * bx <= qx * bx) by nra. lra. }
      assert (Hlt2 : bpow (d1 - 1 + ex - (d2 + ey)) < bpow (U + prec)) by lra.
      apply bpow_lt_inv in Hlt2. lia. }
    assert (HE : (Z.max e' (fexp prec emax (Zdigits2 q + e')) <= U)%Z).
    { rewrite fexp_spec in He'. rewrite fexp_spec. clearbody d1 d2. clear Hex.
      destruct (Z.eq_dec q 0) as [->|Hne].
      - cbn [Zdigits2]. lia.
      - pose proof (digits_bound q e' (U + prec) ltac:(lia) ltac:(lra)). lia. }
    destruct (binary_round_aux_Q prec emax Hprec (xorb sx sy) q e' l v Hq Hlo Hhi Hex)
      as (Hfin & w & Hw & Hr); [lia|].
    split; [exact Hfin|].
    exists (Z.max e' (fexp prec emax (Zdigits2 q + e'))). split; [exact HE|].
    apply (rnd_to_cond_opp _ (xorb sx sy)) in Hr.
    destruct Hr as [[k Hk] Ha]. split.
    + exists k. rewrite Hw. exact Hk.
    + rewrite Hw, Hquot. exact Ha.
Qed.
End Div.

Lemma bpow_lt a b : (a < b)%Z -> bpow a < bpow b.
Proof. intros H. apply Qpower_lt_compat_l; [assumption|reflexivity]. Qed.

Section Valid.
Variables prec emax : Z.
Hypothesis Hprec : (0 < prec)%Z.

Lemma bounded_spec m e :
  bounded prec emax m e = true ->
  (emin prec emax <= e <= emax - prec)%Z /\
  (Zdigits2 (Z.pos m) <= prec)%Z /\
  ((emin prec emax < e)%Z -> Zdigits2 (Z.pos m) = prec).
Proof.
  unfold bounded, canonical_mantissa. intros H.
  apply andb_true_iff in H. destruct H as [Hc He].
  apply Z.eqb_eq in Hc. apply Z.leb_le in He. rewrite fexp_spec in Hc.
  cbn [Zdigits2]. lia.
Qed.

Lemma finite_pos_Q m e : 0 < inject_Z (Z.pos m) * bpow e.
Proof.
  pose proof (bpow_pos e). assert (0 < inject_Z (Z.pos m)) by (apply (inject_Z_lt 0); lia). nra.
Qed.

(** On canonical mantissas, comparing exponents first and mantissas second
    compares the values. *)
Lemma compare_canonical m1 e1 m2 e2 :
  bounded prec emax m1 e1 = true -> bounded prec emax m2 e2 = true ->
  (inject_Z (Z.pos m1) * bpow e1 ?= inject_Z (Z.pos m2) * bpow e2)
  = match Z.compare e1 e2 with
    | Lt => Lt
    | Gt => Gt
    | Eq => Pos.compare_cont Eq m1 m2
    end.
Proof.
  intros H1 H2. apply bounded_spec in H1, H2.
  destruct H1 as (He1 & Hd1 & Hn1). destruct H2 as (He2 & Hd2 & Hn2).
  assert (Hlt : forall ma ea mb eb,
             (Zdigits2 (Z.pos ma) <= prec)%Z -> Zdigits2 (Z.pos mb) = prec -> (ea < eb)%Z ->
             inject_Z (Z.pos ma) * bpow ea < inject_Z (Z.pos mb) * bpow eb).
  { intros ma ea mb eb Hda Hdb Hlt.
    pose proof (Zdigits2_bounds (Z.pos ma) ltac:(lia)) as [_ Ha].
    pose proof (Zdigits2_bounds (Z.pos mb) ltac:(lia)) as [Hb _].
    assert (Ha' : (Z.pos ma < 2 ^ prec)%Z).
    { eapply Z.lt_le_trans; [exact Ha|]. apply Z.pow_le_mono_r; lia. }
    rewrite Hdb in Hb. apply inject_Z_lt in Ha'. apply inject_Z_le in Hb.
    rewrite bpow_inject in Ha', Hb by lia.
    assert (Hs : bpow (prec + ea) <= bpow (prec - 1 + eb)) by (apply bpow_le; lia).
    rewrite !bpow_add in Hs.
    pose proof (bpow_pos ea). pose proof (bpow_pos eb).
    assert (inject_Z (Z.pos ma) * bpow ea < bpow prec * bpow ea) by (apply Qmult_lt_compat_r; assumption).
    assert (bpow (prec - 1) * bpow eb <= inject_Z (Z.pos mb) * bpow eb) by (apply Qmult_le_compat_r; [assumption|lra]).
    lra. }
  destruct (Z.compare_spec e1 e2) as [Heq|Hl|Hg].
  - subst e2. change (Pos.compare_cont Eq m1 m2) with (Pos.compare m1 m2).
    pose proof (bpow_pos e1) as Hb.
    destruct (Pos.compare_spec m1 m2) as [Hm|Hm|Hm].
    + subst. apply (proj1 (Qeq_alt _ _)). reflexivity.
    + apply (proj1 (Qlt_alt _ _)). apply Qmult_lt_compat_r; [exact Hb|]. apply inject_Z_lt. lia.
    + apply (proj1 (Qgt_alt _ _)). apply Qmult_lt_compat_r; [exact Hb|]. apply inject_Z_lt. lia.
  - apply (proj1 (Qlt_alt _ _)). apply Hlt; auto. apply Hn2. lia.
  - apply (proj1 (Qgt_alt _ _)). apply Hlt; auto. apply Hn1. lia.
Qed.

Lemma Qcompare_opp p q : (- p ?= - q) = CompOpp (p ?= q).
Proof.
  destruct (Qcompare_spec p q) as [H|H|H]; cbn [CompOpp].
  - apply (proj1 (Qeq_alt _ _)). rewrite H. reflexivity.
  - apply (proj1 (Qgt_alt _ _)). lra.
  - apply (proj1 (Qlt_alt _ _)). lra.
Qed.

Lemma SFcompare_Q x y :
  valid_binary prec emax x = true -> valid_binary prec emax y = true ->
  isfinite x = true -> isfinite y = true ->
  SFcompare x y = Some (SF2Q x ?= SF2Q y).
Proof.
  intros Vx Vy Fx Fy.
  destruct x as [sx|sx| |sx mx ex]; try discriminate;
    destruct y as [sy|sy| |sy my ey]; try discriminate;
    cbn [SFcompare SF2Q valid_binary] in *.
  - reflexivity.
  - f_equal. symmetry. pose proof (finite_pos_Q my ey).
    destruct sy; cbn [cond_Qopp]; [apply (proj1 (Qgt_alt _ _)) | apply (proj1 (Qlt_alt _ _))]; lra.
  - f_equal. symmetry. pose proof (finite_pos_Q mx ex).
    destruct sx; cbn [cond_Qopp]; [apply (proj1 (Qlt_alt _ _)) | apply (proj1 (Qgt_alt _ _))]; lra.
  - f_equal. symmetry. pose proof (finite_pos_Q mx ex). pose proof (finite_pos_Q my ey).
    destruct sx, sy; cbn [cond_Qopp].
    + rewrite Qcompare_opp, (compare_canonical _ _ _ _ Vx Vy).
      destruct (Z.compare ex ey); reflexivity.
    + apply (proj1 (Qlt_alt _ _)). lra.
    + apply (proj1 (Qgt_alt _ _)). lra.
    + apply compare_canonical; assumption.
Qed.

Lemma SFleb_Q x y :
  valid_binary prec emax x = true -> valid_binary prec emax y = true ->
  isfinite x = true -> isfinite y = true ->
  SFleb x y = true <-> SF2Q x <= SF2Q y.
Proof.
  intros Vx Vy Fx Fy. unfold SFleb. rewrite (SFcompare_Q x y Vx Vy Fx Fy).
  rewrite Qle_alt. destruct (SF2Q x ?= SF2Q y); split; congruence.
Qed.

Lemma SFltb_Q x y :
  valid_binary prec emax x = true -> valid_binary prec emax y = true ->
  isfinite x = true -> isfinite y = true ->
  SFltb x y = true <-> SF2Q x < SF2Q y.
Proof.
  intros Vx Vy Fx Fy. unfold SFltb. rewrite (SFcompare_Q x y Vx Vy Fx Fy).
  rewrite Qlt_alt. destruct (SF2Q x ?= SF2Q y); split; congruence.
Qed.

Lemma SF2Q_abs x : SF2Q (SFabs x) == Qabs (SF2Q x).
Proof.
  destruct x as [s|s| |s m e]; cbn [SFabs SF2Q]; try reflexivity.
  pose proof (finite_pos_Q m e). destruct s; cbn [cond_Qopp].
  - rewrite Qabs_opp, Qabs_pos; lra.
  - rewrite Qabs_pos; lra.
Qed.

Lemma SF2Q_opp x : SF2Q (SFopp x) == - SF2Q x.
Proof.
  destruct x as [s|s| |s m e]; cbn [SFopp SF2Q]; try reflexivity.
  destruct s; cbn [negb cond_Qopp]; ring.
Qed.

Lemma binary_normalize_exact m e sz :
  (fexp prec emax (Zdigits2 m + e) <= e)%Z ->
  (fexp prec emax (Zdigits2 m + e) < emax - prec)%Z ->
  isfinite (binary_normalize prec emax m e sz) = true /\
  SF2Q (binary_normalize prec emax m e sz) == inject_Z m * bpow e.
Proof.
  intros Hle Hover.
  destruct (binary_normalize_Q prec emax Hprec m e sz Hover) as [Hfin Hr].
  split; [exact Hfin|]. apply (rnd_to_exact _ _ _ Hr).
  eapply multiple_weaken; [exact Hle|]. exists m. reflexivity.
Qed.
End Valid.

(** ** Rounding to nearest, ties to even *)

Lemma shr_1_loc mrs :
  (0 <= shr_m mrs)%Z ->
  loc_of_shr_record (shr_1 mrs)
  = shift_loc (Z.odd (shr_m mrs)) (loc_of_shr_record mrs).
Proof.
  destruct mrs as [m r s]. cbn [shr_m]. intros Hm.
  destruct m as [|[p|p|]|p]; try lia; destruct r, s; reflexivity.
Qed.

Lemma bpow_succ e : bpow (e + 1) == 2 * bpow e.
Proof. rewrite bpow_add. change (bpow 1) with 2. ring. Qed.

Lemma loc_ok_shift m e l v :
  (0 <= m)%Z -> loc_ok m e l v ->
  loc_ok (m / 2) (e + 1) (shift_loc (Z.odd m) l) v.
Proof.
  intros Hm Hl.
  pose proof (Z.div_mod m 2 ltac:(lia)) as Hdm.
  pose proof (Zmod_odd m) as Hodd.
  pose proof (bpow_pos e) as Hb. pose proof (bpow_succ e) as Hs.
  assert (Hq : inject_Z m == 2 * inject_Z (m / 2) + (if Z.odd m then 1 else 0)).
  { rewrite Hdm at 1. rewrite Hodd, inject_Z_plus, inject_Z_mult.
    destruct (Z.odd m); reflexivity. }
  clear Hdm Hodd.
  destruct (Z.odd m); destruct l as [|c]; cbn [shift_loc loc_ok] in *;
    set (M := inject_Z m) in *; set (M' := inject_Z (m / 2)) in *;
    set (b := bpow e) in *; set (b' := bpow (e + 1)) in *;
    clearbody M M' b b';
    assert (E1 : M' * b' == 2 * (M' * b)) by (rewrite Hs; ring);
    assert (E2 : (M' + 1) * b' == 2 * (M' * b) + 2 * b) by (rewrite Hs; ring);
    assert (E3 : (M' + (1 # 2)) * b' == 2 * (M' * b) + b) by (rewrite Hs; ring);
    assert (E4 : M * b == 2 * (M' * b) + (M - 2 * M') * b) by ring;
    assert (E5 : (M + 1) * b == M * b + b) by ring;
    assert (E6 : (M - 2 * M') * b == (M - 2 * M') * b) by reflexivity.
  - (* odd, exact: the middle *)
    assert (E7 : (M - 2 * M') * b == b) by (rewrite Hq; ring).
    repeat split; [lra | lra |].
    apply (proj1 (Qeq_alt _ _)). lra.
  - assert (E7 : (M - 2 * M') * b == b) by (rewrite Hq; ring).
    destruct Hl as (H1 & H2 & _).
    repeat split; [lra | lra |].
    apply (proj1 (Qgt_alt _ _)). lra.
  - assert (E7 : (M - 2 * M') * b == 0) by (rewrite Hq; ring).
    lra.
  - assert (E7 : (M - 2 * M') * b == 0) by (rewrite Hq; ring).
    destruct Hl as (H1 & H2 & _).
    repeat split; [lra | lra |].
    apply (proj1 (Qlt_alt _ _)). lra.
Qed.

Lemma loc_of_record_of_loc m l : loc_of_shr_record (shr_record_of_loc m l) = l.
Proof. destruct l as [|[]]; reflexivity. Qed.

Lemma shr_m_record_of_loc m l : shr_m (shr_record_of_loc m l) = m.
Proof. destruct l as [|[]]; reflexivity. Qed.

Lemma shr_iter_loc n mrs e v :
  (0 <= shr_m mrs)%Z ->
  loc_ok (shr_m mrs) e (loc_of_shr_record mrs) v ->
  loc_ok (shr_m (Nat.iter n shr_1 mrs)) (e + Z.of_nat n)
         (loc_of_shr_record (Nat.iter n shr_1 mrs)) v.
Proof.
  intros Hm Hl. induction n as [|n IH].
  - change (Nat.iter 0 shr_1 mrs) with mrs.
    replace (e + Z.of_nat 0)%Z with e by lia. exact Hl.
  - change (Nat.iter (S n) shr_1 mrs) with (shr_1 (Nat.iter n shr_1 mrs)).
    assert (Hmn : (0 <= shr_m (Nat.iter n shr_1 mrs))%Z).
    { rewrite shr_iter_m by assumption. apply Z.div_pos; [assumption|].
      apply Z.pow_pos_nonneg; lia. }
    rewrite shr_1_loc, shr_1_m by assumption.
    replace (e + Z.of_nat (S n))%Z with (e + Z.of_nat n + 1)%Z by lia.
    apply loc_ok_shift; assumption.
Qed.

Section Nearest.
Variables prec emax : Z.
Hypothesis Hprec : (0 < prec)%Z.

Lemma shr_fexp_loc m e l v :
(0 <= m)%Z -> loc_ok m e l v ->
loc_ok (shr_m (fst (shr_fexp prec emax m e l))) (snd (shr_fexp prec emax m e l))
       (loc_of_shr_record (fst (shr_fexp prec emax m e l))) v.
Proof.
intros Hm Hl. unfold shr_fexp, shr.
destruct (fexp prec emax (Zdigits2 m + e) - e)%Z as [|p|p]; cbn [fst snd].
- rewrite shr_m_record_of_loc, loc_of_record_of_loc. exact Hl.
- rewrite iter_pos_nat. rewrite <- (positive_nat_Z p).
  apply shr_iter_loc.
  + rewrite shr_m_record_of_loc. exact Hm.
  + rewrite shr_m_record_of_loc, loc_of_record_of_loc. exact Hl.
- rewrite shr_m_record_of_loc, loc_of_record_of_loc. exact Hl.
Qed.

Lemma round_nearest_even_RNE m E l v :
loc_ok m E l v ->
let m2 := round_nearest_even m l in
Qabs (inject_Z m2 * bpow E - v) <= (1 # 2) * bpow E /\
(Qabs (inject_Z m2 * bpow E - v) == (1 # 2) * bpow E -> Z.even m2 = true).
Proof.
intros Hl. pose proof (bpow_pos E) as Hb.
destruct l as [|c]; cbn [loc_ok round_nearest_even] in *.
- assert (H0 : inject_Z m * bpow E - v == 0) by (rewrite Hl; ring).
  rewrite H0. cbn [Qabs Z.abs Qnum Qden]. change (Qabs 0) with 0. split; [nra|].
  intros H. exfalso. nra.
- destruct Hl as (H1 & H2 & Hc). destruct c.
  + apply Qeq_alt in Hc.
    destruct (Z.even m) eqn:Hev.
    * assert (Hd : inject_Z m * bpow E - v == - ((1 # 2) * bpow E)) by (rewrite Hc; ring).
      rewrite Hd, Qabs_opp, Qabs_pos by nra. split; [apply Qle_refl|intros _; exact Hev].
    * assert (Hd : inject_Z (m + 1) * bpow E - v == (1 # 2) * bpow E).
      { rewrite Hc, inject_Z_plus. change (inject_Z 1) with 1. ring. }
      rewrite Hd, Qabs_pos by nra. split; [apply Qle_refl|]. intros _.
      rewrite Z.even_add, Hev. reflexivity.
  + apply Qlt_alt in Hc.
    assert (Hd : Qabs (inject_Z m * bpow E - v) < (1 # 2) * bpow E).
    { apply Qabs_Qlt_condition. split; nra. }
    split; [apply Qlt_le_weak; exact Hd|]. intros Heq. rewrite Heq in Hd. exfalso.
    apply (Qlt_irrefl _ Hd).
  + apply Qgt_alt in Hc.
    assert (Hd : Qabs (inject_Z (m + 1) * bpow E - v) < (1 # 2) * bpow E).
    { rewrite inject_Z_plus. change (inject_Z 1) with 1.
      apply Qabs_Qlt_condition. split; nra. }
    split; [apply Qlt_le_weak; exact Hd|]. intros Heq. rewrite Heq in Hd. exfalso.
    apply (Qlt_irrefl _ Hd).
Qed.
End Nearest.

Lemma RNE_opp E v w : RNE E v w -> RNE E (- v) (- w).
Proof.
  intros (k & Hk & Ha & He). exists (- k)%Z.
  assert (Hd : - w - - v == - (w - v)) by ring.
  split; [rewrite inject_Z_opp, Hk; ring|].
  rewrite Hd, Qabs_opp. split; [exact Ha|].
  intros H. rewrite Z.even_opp. apply He. exact H.
Qed.

(** Rounding to nearest even is monotone at a fixed exponent. *)
Lemma RNE_monotone E v v' w w' :
  RNE E v w -> RNE E v' w' -> v <= v' -> w <= w'.
Proof.
  intros (k & Hk & Ha & He) (k' & Hk' & Ha' & He') Hle.
  pose proof (bpow_pos E) as Hb.
  destruct (Z_le_gt_dec k k') as [Hkk|Hkk].
  - rewrite Hk, Hk'. apply Qmult_le_compat_r; [apply inject_Z_le; exact Hkk | lra].
  - exfalso.
    assert (Hk1 : (k' + 1 <= k)%Z) by lia. apply inject_Z_le in Hk1.
    rewrite inject_Z_plus in Hk1. change (inject_Z 1) with 1 in Hk1.
    apply Qabs_Qle_condition in Ha, Ha'.
    assert (Hkb : inject_Z k' * bpow E + bpow E <= inject_Z k * bpow E).
    { assert (H : (inject_Z k' + 1) * bpow E <= inject_Z k * bpow E)
        by (apply Qmult_le_compat_r; [exact Hk1 | lra]).
      lra. }
    (* both are ties at the same value, and k = k' + 1 *)
    assert (Hv : v == v') by lra.
    assert (Ht : w - v == (1 # 2) * bpow E) by lra.
    assert (Ht' : w' - v' == - ((1 # 2) * bpow E)) by lra.
    assert (Hkeq : inject_Z k * bpow E == (inject_Z k' + 1) * bpow E) by lra.
    assert (Hk2 : inject_Z k <= inject_Z (k' + 1)).
    { rewrite inject_Z_plus. change (inject_Z 1) with 1.
      apply (Qmult_le_r _ _ (bpow E) Hb). lra. }
    apply inject_Z_le_inv in Hk2.
    assert (Hkz : k = (k' + 1)%Z) by lia.
    assert (He1 : Z.even k = true).
    { apply He. rewrite Ht. apply Qabs_pos. nra. }
    assert (He2 : Z.even k' = true).
    { apply He'. rewrite Ht', Qabs_opp. apply Qabs_pos. nra. }
    rewrite Hkz, Z.even_add, He2 in He1. discriminate He1.
Qed.

Lemma digits_lower m e L :
  (0 < m)%Z -> bpow (L - 1) <= inject_Z m * bpow e -> (L <= Zdigits2 m + e)%Z.
Proof.
  intros Hm Hle. pose proof (Zdigits2_bounds m Hm) as [_ Hhi].
  assert (Hd : (0 <= Zdigits2 m)%Z) by apply Zdigits2_nonneg.
  apply inject_Z_lt in Hhi. rewrite bpow_inject in Hhi by lia.
  pose proof (bpow_pos e) as Hb.
  assert (H : bpow (L - 1) < bpow (Zdigits2 m + e)).
  { rewrite bpow_add. eapply Qle_lt_trans; [exact Hle|].
    apply Qmult_lt_compat_r; assumption. }
  apply bpow_lt_inv in H. lia.
Qed.

Lemma RNE_eq E v v' w w' : v == v' -> w == w' -> RNE E v w -> RNE E v' w'.
Proof.
  intros Hv Hw (k & Hk & Ha & He). exists k.
  split; [rewrite <- Hw; exact Hk|]. rewrite <- Hv, <- Hw. split; assumption.
Qed.

Lemma RNE_cond_opp E s v w : RNE E v w -> RNE E (cond_Qopp s v) (cond_Qopp s w).
Proof. destruct s; cbn [cond_Qopp]; [apply RNE_opp|auto]. Qed.

Lemma RNE_rounded E v w : RNE E v w -> rounded E v w.
Proof.
  intros (k & Hk & Ha & _). exists E. split; [lia|]. split; [exists k; exact Hk|].
  pose proof (bpow_pos E). eapply Qle_lt_trans; [exact Ha|]. lra.
Qed.

Lemma finite_nonzero f :
  isfinite f = true -> ~ SF2Q f == 0 -> exists s m e, f = S754_finite s m e.
Proof.
  intros Hf Hnz. destruct f as [s|s| |s m e]; try discriminate.
  - exfalso. apply Hnz. reflexivity.
  - exists s, m, e. reflexivity.
Qed.

Section NearestOps.
Variables prec emax : Z.
Hypothesis Hprec : (0 < prec)%Z.

Lemma binary_round_aux_RNE sx mx ex lx v :
(0 <= mx)%Z -> loc_ok mx ex lx v ->
let E := Z.max ex (fexp prec emax (Zdigits2 mx + ex)) in
(E < emax - prec)%Z ->
isfinite (binary_round_aux prec emax sx mx ex lx) = true /\
exists w, SF2Q (binary_round_aux prec emax sx mx ex lx) == cond_Qopp sx w /\
          RNE E v w.
Proof.
intros Hmx Hl E Hover.
destruct (binary_round_aux_repr prec emax Hprec sx mx ex lx Hmx Hover)
  as (m2 & Hm2 & _ & _ & Hrepr). fold E in Hrepr.
apply SFrepr_Q in Hrepr. destruct Hrepr as [Hfin Hval].
split; [exact Hfin|]. exists (inject_Z m2 * bpow E). split; [exact Hval|].
pose proof (shr_fexp_loc prec emax mx ex lx v Hmx Hl) as Hl1.
destruct (shr_fexp_spec prec emax mx ex lx Hmx) as (He1 & _ & _).
rewrite He1 in Hl1. fold E in Hl1.
destruct (round_nearest_even_RNE _ _ _ _ Hl1) as [Ha He].
rewrite <- Hm2 in Ha, He.
exists m2. split; [reflexivity|]. split; assumption.
Qed.

Lemma binary_round_RNE sx mx ex L :
bpow (L - 1) <= inject_Z (Z.pos mx) * bpow ex ->
inject_Z (Z.pos mx) * bpow ex < bpow L ->
(fexp prec emax L < emax - prec)%Z ->
isfinite (binary_round prec emax sx mx ex) = true /\
exists w, SF2Q (binary_round prec emax sx mx ex) == cond_Qopp sx w /\
          RNE (fexp prec emax L) (inject_Z (Z.pos mx) * bpow ex) w.
Proof.
intros Hlo Hhi Hover. unfold binary_round.
assert (HL : (Zdigits2 (Z.pos mx) + ex = L)%Z).
{ apply Z.le_antisymm; [apply digits_bound | apply digits_lower]; auto; lia. }
cbn [Zdigits2] in HL. rewrite HL.
pose proof (shl_align_spec mx ex (fexp prec emax L)) as Hal.
destruct (shl_align mx ex (fexp prec emax L)) as [mz ez]. destruct Hal as [Hez Hmz].
assert (Hd : (Zdigits2 (Z.pos mz) + ez = L)%Z).
{ rewrite Hmz, Zdigits2_shift by lia. cbn [Zdigits2]. lia. }
assert (Hv : inject_Z (Z.pos mz) * bpow ez == inject_Z (Z.pos mx) * bpow ex).
{ rewrite Hmz, inject_Z_mult, (bpow_split ez ex) by lia. ring. }
assert (HE : Z.max ez (fexp prec emax (Zdigits2 (Z.pos mz) + ez)) = fexp prec emax L).
{ rewrite Hd. lia. }
destruct (binary_round_aux_RNE sx (Z.pos mz) ez loc_Exact
            (inject_Z (Z.pos mx) * bpow ex)) as (Hfin & w & Hw & Hr).
- lia.
- cbn [loc_ok]. rewrite Hv. reflexivity.
- rewrite HE. exact Hover.
- rewrite HE in Hr. split; [exact Hfin|]. exists w. split; assumption.
Qed.

Lemma binary_normalize_RNE m e sz L :
bpow (L - 1) <= Qabs (inject_Z m * bpow e) ->
Qabs (inject_Z m * bpow e) < bpow L ->
(fexp prec emax L < emax - prec)%Z ->
isfinite (binary_normalize prec emax m e sz) = true /\
RNE (fexp prec emax L) (inject_Z m * bpow e) (SF2Q (binary_normalize prec emax m e sz)).
Proof.
intros Hlo Hhi Hover. pose proof (bpow_pos e) as Hb. pose proof (bpow_pos (L - 1)) as HbL.
destruct m as [|p|p]; cbn [binary_normalize].
- exfalso. change (inject_Z 0) with 0 in Hlo.
  assert (H0 : 0 * bpow e == 0) by ring. rewrite H0 in Hlo. cbn in Hlo. lra.
- pose proof (finite_pos_Q p e) as Hpos. rewrite Qabs_pos in Hlo, Hhi by lra.
  destruct (binary_round_RNE false p e L Hlo Hhi Hover) as (Hfin & w & Hw & Hr).
  split; [exact Hfin|]. cbn [cond_Qopp] in Hw.
  apply (RNE_eq _ _ _ _ _ (Qeq_refl _) (Qeq_sym _ _ Hw)). exact Hr.
- pose proof (finite_pos_Q p e) as Hpos.
  assert (Hneg : inject_Z (Z.neg p) * bpow e == - (inject_Z (Z.pos p) * bpow e)).
  { change (Z.neg p) with (- Z.pos p)%Z. rewrite inject_Z_opp. ring. }
  rewrite Hneg, Qabs_opp, Qabs_pos in Hlo, Hhi by lra.
  destruct (binary_round_RNE true p e L Hlo Hhi Hover) as (Hfin & w & Hw & Hr).
  split; [exact Hfin|]. cbn [cond_Qopp] in Hw. apply RNE_opp in Hr.
  apply (RNE_eq _ _ _ _ _ (Qeq_sym _ _ Hneg) (Qeq_sym _ _ Hw)). exact Hr.
Qed.

Lemma SFsub_RNE x y L :
isfinite x = true -> isfinite y = true -> ~ SF2Q x == 0 -> ~ SF2Q y == 0 ->
bpow (L - 1) <= Qabs (SF2Q x - SF2Q y) -> Qabs (SF2Q x - SF2Q y) < bpow L ->
(fexp prec emax L < emax - prec)%Z ->
isfinite (SFsub prec emax x y) = true /\
RNE (fexp prec emax L) (SF2Q x - SF2Q y) (SF2Q (SFsub prec emax x y)).
Proof.
intros Fx Fy Hx Hy Hlo Hhi Hover.
destruct (finite_nonzero x Fx Hx) as (sx & mx & ex & ->).
destruct (finite_nonzero y Fy Hy) as (sy & my & ey & ->).
cbn [SFsub]. set (ez := Z.min ex ey).
pose proof (shl_align_fst_Q sx mx ex ez ltac:(lia)) as Hvx.
pose proof (shl_align_fst_Q sy my ey ez ltac:(lia)) as Hvy.
set (zx := cond_Zopp sx (Z.pos (fst (shl_align mx ex ez)))) in *.
set (zy := cond_Zopp sy (Z.pos (fst (shl_align my ey ez)))) in *.
assert (Hv : inject_Z (zx - zy) * bpow ez
             == SF2Q (S754_finite sx mx ex) - SF2Q (S754_finite sy my ey)).
{ rewrite <- Hvx, <- Hvy. unfold Z.sub. rewrite inject_Z_plus, inject_Z_opp. ring. }
destruct (binary_normalize_RNE (zx - zy) ez false L) as [Hfin Hr]; auto.
- rewrite Hv. exact Hlo.
- rewrite Hv. exact Hhi.
- split; [exact Hfin|]. apply (RNE_eq _ _ _ _ _ Hv (Qeq_refl _)). exact Hr.
Qed.

Lemma SFadd_RNE x y L :
isfinite x = true -> isfinite y = true -> ~ SF2Q x == 0 -> ~ SF2Q y == 0 ->
bpow (L - 1) <= Qabs (SF2Q x + SF2Q y) -> Qabs (SF2Q x + SF2Q y) < bpow L ->
(fexp prec emax L < emax - prec)%Z ->
isfinite (SFadd prec emax x y) = true /\
RNE (fexp prec emax L) (SF2Q x + SF2Q y) (SF2Q (SFadd prec emax x y)).
Proof.
intros Fx Fy Hx Hy Hlo Hhi Hover.
destruct (finite_nonzero x Fx Hx) as (sx & mx & ex & ->).
destruct (finite_nonzero y Fy Hy) as (sy & my & ey & ->).
cbn [SFadd]. set (ez := Z.min ex ey).
pose proof (shl_align_fst_Q sx mx ex ez ltac:(lia)) as Hvx.
pose proof (shl_align_fst_Q sy my ey ez ltac:(lia)) as Hvy.
set (zx := cond_Zopp sx (Z.pos (fst (shl_align mx ex ez)))) in *.
set (zy := cond_Zopp sy (Z.pos (fst (shl_align my ey ez)))) in *.
assert (Hv : inject_Z (zx + zy) * bpow ez
             == SF2Q (S754_finite sx mx ex) + SF2Q (S754_finite sy my ey)).
{ rewrite <- Hvx, <- Hvy. rewrite inject_Z_plus. ring. }
destruct (binary_normalize_RNE (zx + zy) ez false L) as [Hfin Hr]; auto.
- rewrite Hv. exact Hlo.
- rewrite Hv. exact Hhi.
- split; [exact Hfin|]. apply (RNE_eq _ _ _ _ _ Hv (Qeq_refl _)). exact Hr.
Qed.
End NearestOps.

Lemma new_location_eq my r :
  new_location my r =
  if (r =? 0)%Z then loc_Exact
  else loc_Inexact (if Z.even my then (2 * r ?= my)%Z
                    else match (2 * r + 1 ?= my)%Z with Gt => Gt | _ => Lt end).
Proof.
  unfold new_location, new_location_even, new_location_odd.
  change IntDef.Z.even with Z.even. change IntDef.Z.eqb with Z.eqb.
  change IntDef.Z.compare with Z.compare. change IntDef.Z.mul with Z.mul.
  change IntDef.Z.add with Z.add.
  destruct (Z.even my); destruct (r =? 0)%Z; try reflexivity;
    destruct (2 * r + 1 ?= my)%Z; reflexivity.
Qed.

Lemma new_location_ok my r q e' v t :
  (0 < my)%Z -> (0 <= r < my)%Z ->
  inject_Z r == t * inject_Z my ->
  v == (inject_Z q + t) * bpow e' ->
  loc_ok q e' (new_location my r) v.
Proof.
  intros Hmy Hr Hrt Hv. pose proof (bpow_pos e') as Hb.
  assert (Hmyq : 0 < inject_Z my) by (apply (inject_Z_lt 0); exact Hmy).
  assert (E1 : (inject_Z q + t) * bpow e' == inject_Z q * bpow e' + t * bpow e') by ring.
  assert (E2 : (inject_Z q + 1) * bpow e' == inject_Z q * bpow e' + bpow e') by ring.
  assert (E3 : (inject_Z q + (1 # 2)) * bpow e' == inject_Z q * bpow e' + (1 # 2) * bpow e') by ring.
  rewrite new_location_eq.
  destruct (Z.eqb_spec r 0) as [Hr0|Hr0].
  - assert (Ht : t == 0).
    { subst r. change (inject_Z 0) with 0 in Hrt.
      apply (Qmult_inj_r _ _ (inject_Z my)); [lra|]. rewrite <- Hrt. ring. }
    cbn [loc_ok]. rewrite Hv, Ht. ring.
  - assert (Hrpos : (0 < r)%Z) by lia.
    assert (Ht0 : 0 < t).
    { apply inject_Z_lt in Hrpos. change (inject_Z 0) with 0 in Hrpos.
      rewrite Hrt in Hrpos.
      destruct (Qlt_le_dec 0 t) as [|Hle]; [assumption|exfalso].
      assert (t * inject_Z my <= 0 * inject_Z my)
        by (apply Qmult_le_compat_r; [exact Hle | lra]).
      lra. }
    assert (Ht1 : t < 1).
    { destruct Hr as [_ Hr]. apply inject_Z_lt in Hr. rewrite Hrt in Hr.
      destruct (Qlt_le_dec t 1) as [|Hle]; [assumption|exfalso].
      assert (1 * inject_Z my <= t * inject_Z my)
        by (apply Qmult_le_compat_r; [exact Hle | lra]).
      lra. }
    assert (Htb0 : 0 < t * bpow e').
    { assert (0 * bpow e' < t * bpow e') by (apply Qmult_lt_compat_r; assumption). lra. }
    assert (Htb1 : t * bpow e' < bpow e').
    { assert (t * bpow e' < 1 * bpow e') by (apply Qmult_lt_compat_r; assumption). lra. }
    (* the position of [t] relative to 1/2 is that of [2 r] relative to [my] *)
    assert (Hcmp : forall c, (2 * r ?= my)%Z = c ->
                             (v ?= (inject_Z q + (1 # 2)) * bpow e') = c).
    { intros c Hc.
      assert (H2 : inject_Z (2 * r) == (2 * t) * inject_Z my).
      { rewrite inject_Z_mult, Hrt. change (inject_Z 2) with 2. ring. }
      destruct (Z.compare_spec (2 * r) my) as [Heq|Hlt|Hgt]; subst c.
      - apply (proj1 (Qeq_alt _ _)).
        assert (Ht : t == 1 # 2).
        { assert (H : (2 * t) * inject_Z my == 1 * inject_Z my)
            by (rewrite <- H2, Heq; ring).
          apply Qmult_inj_r in H; [lra|lra]. }
        rewrite Hv, Ht. reflexivity.
      - apply (proj1 (Qlt_alt _ _)).
        apply inject_Z_lt in Hlt. rewrite H2 in Hlt.
        assert (Ht : 2 * t < 1).
        { apply (Qmult_lt_r _ _ (inject_Z my) Hmyq). lra. }
        assert (t * bpow e' < (1 # 2) * bpow e')
          by (apply Qmult_lt_compat_r; [assumption | lra]).
        lra.
      - apply (proj1 (Qgt_alt _ _)).
        apply inject_Z_lt in Hgt. rewrite H2 in Hgt.
        assert (Ht : 1 < 2 * t).
        { apply (Qmult_lt_r _ _ (inject_Z my) Hmyq). lra. }
        assert ((1 # 2) * bpow e' < t * bpow e')
          by (apply Qmult_lt_compat_r; [assumption | lra]).
        lra. }
    destruct (Z.even my) eqn:Hev; cbn [loc_ok].
    + split; [lra|]. split; [lra|]. apply Hcmp. reflexivity.
    + split; [lra|]. split; [lra|]. apply Hcmp.
      assert (Hne : (2 * r <> my)%Z).
      { intros Heq. rewrite <- Heq, Z.even_mul in Hev. discriminate Hev. }
      destruct (Z.compare_spec (2 * r + 1) my) as [H|H|H];
        destruct (Z.compare_spec (2 * r) my) as [H'|H'|H']; try reflexivity; lia.
Qed.

Section NearestDiv.
Variables prec emax : Z.
Hypothesis Hprec : (0 < prec)%Z.

Lemma SFdiv_core_binary_loc mx ex my ey :
let '(q, e', l) := SFdiv_core_binary prec emax (Z.pos mx) ex (Z.pos my) ey in
let v := (inject_Z (Z.pos mx) * bpow ex) / (inject_Z (Z.pos my) * bpow ey) in
(0 <= q)%Z /\
(e' <= fexp prec emax (Zdigits2 (Z.pos mx) + ex - (Zdigits2 (Z.pos my) + ey)))%Z /\
loc_ok q e' l v.
Proof.
unfold SFdiv_core_binary.
set (d1 := Zdigits2 (Z.pos mx)). set (d2 := Zdigits2 (Z.pos my)).
set (e' := Z.min (fexp prec emax (d1 + ex - (d2 + ey))) (ex - ey)).
set (s := (ex - ey - e')%Z).
assert (Hs : (0 <= s)%Z) by (unfold s, e'; lia).
set (m' := match s with Z.pos _ => Z.shiftl (Z.pos mx) s | 0%Z => Z.pos mx | Z.neg _ => 0%Z end).
assert (Hm' : m' = (Z.pos mx * 2 ^ s)%Z).
{ unfold m'. destruct s as [|p|p] eqn:Hsp; try lia.
  rewrite Z.shiftl_mul_pow2 by lia. reflexivity. }
clearbody m'.
pose proof (Z_div_mod m' (Z.pos my) ltac:(lia)) as Hdm.
change (IntDef.Z.div_eucl m' (Z.pos my)) with (Z.div_eucl m' (Z.pos my)).
destruct (Z.div_eucl m' (Z.pos my)) as [q r]. destruct Hdm as [Hdm Hr].
assert (Hp : (0 < 2 ^ s)%Z) by (apply Z.pow_pos_nonneg; lia).
assert (Hq : (0 <= q)%Z) by nia.
split; [exact Hq|]. split; [unfold e'; lia|].
assert (Hbx : bpow ex == inject_Z (2 ^ s) * bpow e' * bpow ey).
{ rewrite bpow_inject, <- !bpow_add by lia. replace (s + e' + ey)%Z with ex by (unfold s; lia).
  reflexivity. }
pose proof (bpow_pos ey) as Hby. pose proof (bpow_pos e') as Hbe.
assert (Hmy : 0 < inject_Z (Z.pos my)) by (apply (inject_Z_lt 0); lia).
apply (new_location_ok (Z.pos my) r q e' _ (inject_Z r / inject_Z (Z.pos my)));
  [lia | exact Hr | field; lra |].
rewrite Hbx.
assert (Hm'' : inject_Z (Z.pos mx) * inject_Z (2 ^ s)
               == inject_Z (Z.pos my) * inject_Z q + inject_Z r).
{ rewrite <- !inject_Z_mult, <- inject_Z_plus, <- Hm', Hdm. reflexivity. }
setoid_replace (inject_Z (Z.pos mx) * (inject_Z (2 ^ s) * bpow e' * bpow ey))
  with ((inject_Z (Z.pos my) * inject_Z q + inject_Z r) * bpow e' * bpow ey)
  by (rewrite <- Hm''; ring).
field. split; lra.
Qed.

Lemma loc_ok_bounds q e l v :
loc_ok q e l v -> inject_Z q * bpow e <= v /\ v < (inject_Z q + 1) * bpow e.
Proof.
pose proof (bpow_pos e) as Hb.
assert (E2 : (inject_Z q + 1) * bpow e == inject_Z q * bpow e + bpow e) by ring.
destruct l as [|c]; cbn [loc_ok].
- intros ->. split; lra.
- intros (H1 & H2 & _). split; lra.
Qed.

Lemma SFdiv_RNE x y L :
isfinite x = true -> isfinite y = true -> ~ SF2Q x == 0 -> ~ SF2Q y == 0 ->
bpow (L - 1) <= Qabs (SF2Q x / SF2Q y) -> Qabs (SF2Q x / SF2Q y) < bpow L ->
(fexp prec emax L < emax - prec)%Z -> (emin prec emax < L)%Z ->
isfinite (SFdiv prec emax x y) = true /\
RNE (fexp prec emax L) (SF2Q x / SF2Q y) (SF2Q (SFdiv prec emax x y)).
Proof.
intros Fx Fy Hx Hy Hlo Hhi Hover Hmin.
destruct (finite_nonzero x Fx Hx) as (sx & mx & ex & ->).
destruct (finite_nonzero y Fy Hy) as (sy & my & ey & ->).
cbn [SFdiv].
pose proof (SFdiv_core_binary_loc mx ex my ey) as Hcore.
destruct (SFdiv_core_binary prec emax (Z.pos mx) ex (Z.pos my) ey) as [[q e'] l].
set (v := inject_Z (Z.pos mx) * bpow ex / (inject_Z (Z.pos my) * bpow ey)) in *.
cbv zeta in Hcore. destruct Hcore as (Hq & He' & Hloc).
destruct (loc_ok_bounds _ _ _ _ Hloc) as [Hvlo Hvhi].
pose proof (finite_pos_Q mx ex) as Hxpos. pose proof (finite_pos_Q my ey) as Hypos.
pose proof (bpow_pos e') as Hbe.
assert (Hvpos : 0 < v).
{ unfold v. apply Qlt_shift_div_l; [exact Hypos|]. lra. }
assert (Hquot : SF2Q (S754_finite sx mx ex) / SF2Q (S754_finite sy my ey)
                == cond_Qopp (xorb sx sy) v).
{ pose proof (bpow_pos ey) as Hby.
  assert (Hmy : 0 < inject_Z (Z.pos my)) by (apply (inject_Z_lt 0); lia).
  unfold v. cbn [SF2Q]. destruct sx, sy; cbn [xorb cond_Qopp]; field; repeat split; lra. }
assert (Habs : Qabs (SF2Q (S754_finite sx mx ex) / SF2Q (S754_finite sy my ey)) == v).
{ rewrite Hquot. destruct (xorb sx sy); cbn [cond_Qopp].
  - rewrite Qabs_opp, Qabs_pos; lra.
  - rewrite Qabs_pos; lra. }
rewrite Habs in Hlo, Hhi.
(* exponent of the quotient *)
set (d1 := Zdigits2 (Z.pos mx)) in *. set (d2 := Zdigits2 (Z.pos my)) in *.
assert (Hd : (d1 + ex - (d2 + ey) <= L)%Z).
{ pose proof (Zdigits2_bounds (Z.pos mx) ltac:(lia)) as [H1 _].
  pose proof (Zdigits2_bounds (Z.pos my) ltac:(lia)) as [_ H2].
  fold d1 in H1. fold d2 in H2.
  assert (Hd1 : (0 < d1)%Z) by (unfold d1; cbn; lia).
  assert (Hd2 : (0 < d2)%Z) by (unfold d2; cbn; lia).
  apply inject_Z_le in H1. apply inject_Z_lt in H2.
  rewrite bpow_inject in H1, H2 by lia.
  assert (Hlow : bpow (d1 - 1 + ex - (d2 + ey)) < v).
  { unfold v. apply Qlt_shift_div_l; [exact Hypos|].
    assert (Hsplit : bpow (d1 - 1 + ex) == bpow (d1 - 1 + ex - (d2 + ey)) * (bpow d2 * bpow ey)).
    { rewrite <- !bpow_add. replace (d1 - 1 + ex - (d2 + ey) + (d2 + ey))%Z with (d1 - 1 + ex)%Z by lia.
      reflexivity. }
    rewrite bpow_add in Hsplit.
    pose proof (bpow_pos (d1 - 1 + ex - (d2 + ey))) as Hb0.
    pose proof (bpow_pos ex) as Hbx. pose proof (bpow_pos ey) as Hby.
    assert (Hbb : 0 < bpow (d1 - 1 + ex - (d2 + ey)) * bpow ey) by nra.
    assert (H3 : bpow (d1 - 1 + ex - (d2 + ey)) * (inject_Z (Z.pos my) * bpow ey)
                 < bpow (d1 - 1 + ex - (d2 + ey)) * (bpow d2 * bpow ey)).
    { setoid_replace (bpow (d1 - 1 + ex - (d2 + ey)) * (inject_Z (Z.pos my) * bpow ey))
        with (inject_Z (Z.pos my) * (bpow (d1 - 1 + ex - (d2 + ey)) * bpow ey)) by ring.
      setoid_replace (bpow (d1 - 1 + ex - (d2 + ey)) * (bpow d2 * bpow ey))
        with (bpow d2 * (bpow (d1 - 1 + ex - (d2 + ey)) * bpow ey)) by ring.
      apply Qmult_lt_compat_r; assumption. }
    assert (H4 : bpow (d1 - 1) * bpow ex <= inject_Z (Z.pos mx) * bpow ex)
      by (apply Qmult_le_compat_r; [exact H1 | lra]).
    lra. }
  assert (Hlt2 : bpow (d1 - 1 + ex - (d2 + ey)) < bpow L) by lra.
  apply bpow_lt_inv in Hlt2. lia. }
assert (HeL : (e' <= fexp prec emax L)%Z).
{ rewrite fexp_spec in He' |- *. lia. }
assert (HeL1 : (e' <= L - 1)%Z) by (rewrite fexp_spec in HeL; lia).
assert (Hq2 : (2 ^ (L - 1 - e') <= q)%Z).
{ assert (Hsp : bpow (L - 1) == inject_Z (2 ^ (L - 1 - e')) * bpow e')
    by (apply bpow_split; lia).
  assert (H1 : inject_Z (2 ^ (L - 1 - e')) * bpow e' < (inject_Z q + 1) * bpow e') by lra.
  apply Qmult_lt_r in H1; [|exact Hbe].
  change 1 with (inject_Z 1) in H1. rewrite <- inject_Z_plus in H1.
  apply inject_Z_lt_inv in H1. lia. }
assert (Hqpos : (0 < q)%Z).
{ pose proof (Z.pow_pos_nonneg 2 (L - 1 - e') ltac:(lia) ltac:(lia)). lia. }
assert (HL : (Zdigits2 q + e' = L)%Z).
{ apply Z.le_antisymm.
  - apply digits_bound; [exact Hqpos | lra].
  - pose proof (Zdigits2_ge q (L - 1 - e') Hq2 ltac:(lia)). lia. }
assert (HE : Z.max e' (fexp prec emax (Zdigits2 q + e')) = fexp prec emax L).
{ rewrite HL. lia. }
destruct (binary_round_aux_RNE prec emax Hprec (xorb sx sy) q e' l v Hq Hloc)
  as (Hfin & w & Hw & Hr); [rewrite HE; exact Hover|].
rewrite HE in Hr.
split; [exact Hfin|].
apply (RNE_cond_opp _ (xorb sx sy)) in Hr.
apply (RNE_eq _ _ _ _ _ (Qeq_sym _ _ Hquot) (Qeq_sym _ _ Hw)). exact Hr.
Qed.
End NearestDiv.

(** ** The double-precision steps of [Compute] *)

Lemma cond_Zopp_Q s m e :
  inject_Z (cond_Zopp s (Z.pos m)) * bpow e == cond_Qopp s (inject_Z (Z.pos m) * bpow e).
Proof.
  destruct s; cbn [cond_Zopp cond_Qopp]; [|reflexivity].
  rewrite inject_Z_opp. ring.
Qed.

Lemma Zdigits2_cond_Zopp s m : Zdigits2 (cond_Zopp s (Z.pos m)) = Zdigits2 (Z.pos m).
Proof. destruct s; reflexivity. Qed.

Lemma F64_of_float_Q x :
  F32.valid x = true -> isfinite x = true ->
  isfinite (F64.of_float x) = true /\ SF2Q (F64.of_float x) == SF2Q x.
Proof.
  intros Hv Hf. destruct x as [s|s| |s m e]; try discriminate.
  - split; reflexivity.
  - cbn [F64.of_float SF2Q]. unfold F32.valid in Hv. cbn [valid_binary] in Hv.
    apply (bounded_spec F32.prec F32.emax) in Hv.
    destruct Hv as (He & Hd & _). rewrite emin_spec in He.
    unfold F32.prec, F32.emax in *.
    rewrite <- cond_Zopp_Q.
    apply (binary_normalize_exact F64.prec F64.emax eq_refl);
      rewrite Zdigits2_cond_Zopp, fexp_spec, emin_spec; unfold F64.prec, F64.emax; lia.
Qed.

Lemma F64_of_int_Q C :
  (Z.abs C < 2 ^ 53)%Z ->
  isfinite (F64.of_int C) = true /\ SF2Q (F64.of_int C) == inject_Z C.
Proof.
  intros HC. unfold F64.of_int.
  assert (Hd : (Zdigits2 C <= 53)%Z).
  { destruct C as [|p|p]; [cbn; lia | apply Zdigits2_le; lia |].
    change (Zdigits2 (Z.neg p)) with (Zdigits2 (Z.pos p)). apply Zdigits2_le; lia. }
  destruct (binary_normalize_exact F64.prec F64.emax eq_refl C 0 false) as [Hfin Hval].
  - rewrite fexp_spec, emin_spec. unfold F64.prec, F64.emax. lia.
  - rewrite fexp_spec, emin_spec. unfold F64.prec, F64.emax. lia.
  - split; [exact Hfin|]. rewrite Hval. unfold bpow. rewrite Qpower_0_r. ring.
Qed.

Lemma F64_half_Q : SF2Q F64.half == 1 # 2.
Proof. vm_compute. reflexivity. Qed.

Lemma rounded_bounds U v w : rounded U v w -> v - bpow U < w /\ w < v + bpow U.
Proof.
  intros H. apply rounded_err in H. apply Qabs_Qlt_condition in H. split; lra.
Qed.

Lemma F64_sub_rounded x y U :
  isfinite x = true -> isfinite y = true ->
  (-1074 <= U < 971)%Z ->
  Qabs (SF2Q x - SF2Q y) < bpow (U + 53) ->
  isfinite (F64.sub x y) = true /\ rounded U (SF2Q x - SF2Q y) (SF2Q (F64.sub x y)).
Proof.
  intros Hx Hy HU Hlt.
  apply (SFsub_rounded F64.prec F64.emax eq_refl); auto;
    rewrite ?emin_spec; unfold F64.prec, F64.emax; lia.
Qed.

Lemma F64_add_rounded x y U :
  isfinite x = true -> isfinite y = true ->
  (-1074 <= U < 971)%Z ->
  Qabs (SF2Q x + SF2Q y) < bpow (U + 53) ->
  isfinite (F64.add x y) = true /\ rounded U (SF2Q x + SF2Q y) (SF2Q (F64.add x y)).
Proof.
  intros Hx Hy HU Hlt.
  apply (SFadd_rounded F64.prec F64.emax eq_refl); auto;
    rewrite ?emin_spec; unfold F64.prec, F64.emax; lia.
Qed.

Lemma F64_div_rounded x y U :
  isfinite x = true -> isfinite y = true -> ~ SF2Q y == 0 ->
  (-1074 <= U < 971)%Z ->
  Qabs (SF2Q x / SF2Q y) < bpow (U + 53) ->
  isfinite (F64.div x y) = true /\ rounded U (SF2Q x / SF2Q y) (SF2Q (F64.div x y)).
Proof.
  intros Hx Hy Hy0 HU Hlt.
  destruct y as [s|s| |sy my ey]; try discriminate.
  - exfalso. apply Hy0. reflexivity.
  - apply (SFdiv_rounded F64.prec F64.emax eq_refl); auto;
      rewrite ?emin_spec; unfold F64.prec, F64.emax; lia.
Qed.

(** The whole of one component of [Compute], up to the truncation. *)
Lemma Compute_chain (C : Z) (x co size : spec_float) (CO ISZ : Q) (Ua Ub Ud Ug : Z) :
  F32.valid x = true -> isfinite x = true ->
  F32.valid co = true -> isfinite co = true -> SF2Q co == CO ->
  F32.valid size = true -> isfinite size = true -> 0 < SF2Q size -> ISZ == / SF2Q size ->
  (Z.abs C < 2 ^ 53)%Z ->
  (-1074 <= Ua < 971)%Z -> (-1074 <= Ub < 971)%Z ->
  (-1074 <= Ud < 971)%Z -> (-1074 <= Ug < 971)%Z ->
  Qabs (SF2Q x - CO) < bpow (Ua + 53) ->
  (forall a, rounded Ua (SF2Q x - CO) a -> Qabs (a * ISZ) < bpow (Ub + 53)) ->
  (forall a b, rounded Ua (SF2Q x - CO) a -> rounded Ub (a * ISZ) b ->
               Qabs (b + inject_Z C) < bpow (Ud + 53)) ->
  (forall a b d, rounded Ua (SF2Q x - CO) a -> rounded Ub (a * ISZ) b ->
                 rounded Ud (b + inject_Z C) d ->
                 Qabs (d + (1 # 2)) < bpow (Ug + 53)) ->
  let G := F64.add (F64.add (Trinity.Compute_offset x co size) (F64.of_int C)) F64.half in
  isfinite G = true /\
  exists a b d,
    rounded Ua (SF2Q x - CO) a /\ rounded Ub (a * ISZ) b /\
    rounded Ud (b + inject_Z C) d /\ rounded Ug (d + (1 # 2)) (SF2Q G).
Proof.
  intros Vx Fx Vco Fco HCO Vsz Fsz Hszpos HISZ HC HUa HUb HUd HUg Ha Hb Hd Hg G.
  destruct (F64_of_float_Q x Vx Fx) as [Fx' Xq].
  destruct (F64_of_float_Q co Vco Fco) as [Fco' COq].
  destruct (F64_of_float_Q size Vsz Fsz) as [Fsz' SZq].
  destruct (F64_of_int_Q C HC) as [FC Cq].
  assert (Hsub : forall a', a' == SF2Q (F64.of_float x) - SF2Q (F64.of_float co) ->
                            a' == SF2Q x - CO).
  { intros a' ->. rewrite Xq, COq, HCO. reflexivity. }
  destruct (F64_sub_rounded (F64.of_float x) (F64.of_float co) Ua Fx' Fco' HUa) as [Fa Ra].
  { rewrite (Hsub _ (Qeq_refl _)). exact Ha. }
  apply (rounded_eq Ua _ (SF2Q x - CO) _ _ (Hsub _ (Qeq_refl _)) (Qeq_refl _)) in Ra.
  set (a := F64.sub (F64.of_float x) (F64.of_float co)) in *.
  assert (Hdiv : SF2Q a / SF2Q (F64.of_float size) == SF2Q a * ISZ).
  { rewrite SZq, HISZ. reflexivity. }
  destruct (F64_div_rounded a (F64.of_float size) Ub Fa Fsz') as [Fb Rb]; auto.
  { rewrite SZq. lra. }
  { rewrite Hdiv. apply Hb. exact Ra. }
  apply (rounded_eq Ub _ (SF2Q a * ISZ) _ _ Hdiv (Qeq_refl _)) in Rb.
  fold (Trinity.Compute_offset x co size) in Rb, Fb.
  set (b := Trinity.Compute_offset x co size) in *.
  assert (Hadd : SF2Q b + SF2Q (F64.of_int C) == SF2Q b + inject_Z C).
  { rewrite Cq. reflexivity. }
  destruct (F64_add_rounded b (F64.of_int C) Ud Fb FC HUd) as [Fd Rd].
  { rewrite Hadd. apply (Hd (SF2Q a)); assumption. }
  apply (rounded_eq Ud _ (SF2Q b + inject_Z C) _ _ Hadd (Qeq_refl _)) in Rd.
  set (d := F64.add b (F64.of_int C)) in *.
  assert (Hadd2 : SF2Q d + SF2Q F64.half == SF2Q d + (1 # 2)).
  { rewrite F64_half_Q. reflexivity. }
  destruct (F64_add_rounded d F64.half Ug Fd eq_refl HUg) as [Fg Rg].
  { rewrite Hadd2. apply (Hg (SF2Q a) (SF2Q b)); assumption. }
  apply (rounded_eq Ug _ (SF2Q d + (1 # 2)) _ _ Hadd2 (Qeq_refl _)) in Rg.
  split; [exact Fg|].
  exists (SF2Q a), (SF2Q b), (SF2Q d). repeat split; assumption.
Qed.

(** Truncation of a non-negative double. *)
Lemma F64_trunc_nonneg d :
  isfinite d = true -> 0 <= SF2Q d ->
  exists n, F64.trunc d = Some n /\ inject_Z n <= SF2Q d /\ SF2Q d < inject_Z n + 1.
Proof.
  intros Hf Hnn. destruct d as [s|s| |s m e]; try discriminate.
  - exists 0%Z. cbn [F64.trunc SF2Q]. split; [reflexivity|]. split; [apply Qle_refl|reflexivity].
  - pose proof (finite_pos_Q m e) as Hpos.
    destruct s; cbn [SF2Q cond_Qopp] in Hnn; [exfalso; lra|].
    cbn [F64.trunc SF2Q cond_Qopp cond_Zopp].
    destruct e as [|p|p].
    + exists (Z.pos m * 2 ^ 0)%Z. split; [reflexivity|].
      rewrite Z.pow_0_r, Z.mul_1_r. unfold bpow. rewrite Qpower_0_r. split; lra.
    + exists (Z.pos m * 2 ^ Z.pos p)%Z. split; [reflexivity|].
      rewrite inject_Z_mult, bpow_inject by lia. split; lra.
    + exists (Z.pos m / 2 ^ Z.pos p)%Z. split; [reflexivity|].
      assert (HP : (0 < 2 ^ Z.pos p)%Z) by (apply Z.pow_pos_nonneg; lia).
      pose proof (Z.mul_div_le (Z.pos m) _ HP) as H1.
      pose proof (Z.mul_succ_div_gt (Z.pos m) _ HP) as H2.
      set (n := (Z.pos m / 2 ^ Z.pos p)%Z) in *.
      apply inject_Z_le in H1. apply inject_Z_lt in H2.
      rewrite inject_Z_mult in H1, H2. unfold Z.succ in H2. rewrite inject_Z_plus in H2.
      change (inject_Z 1) with 1 in H2.
      pose proof (bpow_split (Z.neg p) 0 ltac:(lia)) as Hb.
      replace (0 - Z.neg p)%Z with (Z.pos p) in Hb by lia.
      change (bpow 0) with 1 in Hb.
      pose proof (bpow_pos (Z.neg p)) as Hbp.
      generalize dependent (bpow (Z.neg p)). intros b. intros.
      generalize dependent (inject_Z (2 ^ Z.pos p)). intros P. intros.
      generalize dependent (inject_Z (Z.pos m)). intros M. intros.
      generalize dependent (inject_Z n). intros N. intros.
      assert (HPpos : 0 < P) by nra.
      split; nra.
Qed.

Lemma F64_to_int_floor d k :
  isfinite d = true ->
  inject_Z k <= SF2Q d -> SF2Q d < inject_Z k + 1 ->
  (0 <= k <= INT_MAX)%Z ->
  F64.to_int d = Some k.
Proof.
  intros Hf Hlo Hhi Hk.
  assert (Hnn : 0 <= SF2Q d).
  { eapply Qle_trans; [|exact Hlo]. apply (inject_Z_le 0). lia. }
  destruct (F64_trunc_nonneg d Hf Hnn) as (n & Hn & Hn1 & Hn2).
  assert (Hnk : n = k).
  { assert (H1 : inject_Z n < inject_Z (k + 1)) by (rewrite inject_Z_plus; change (inject_Z 1) with 1; lra).
    assert (H2 : inject_Z k < inject_Z (n + 1)) by (rewrite inject_Z_plus; change (inject_Z 1) with 1; lra).
    apply inject_Z_lt_inv in H1, H2. lia. }
  subst n. unfold F64.to_int. rewrite Hn.
  replace (INT_MIN <=? k)%Z with true by (symmetry; apply Z.leb_le; unfold INT_MIN, INT_MAX in *; lia).
  replace (k <=? INT_MAX)%Z with true by (symmetry; apply Z.leb_le; lia).
  reflexivity.
Qed.

(** ** Round-to-nearest-even steps in double precision *)

Lemma F64_fexp L : (-1021 <= L)%Z -> fexp F64.prec F64.emax L = (L - 53)%Z.
Proof. intros H. rewrite fexp_spec, emin_spec. unfold F64.prec, F64.emax. lia. Qed.

Lemma F64_sub_RNE x y L :
  isfinite x = true -> isfinite y = true -> ~ SF2Q x == 0 -> ~ SF2Q y == 0 ->
  (-1021 <= L <= 1023)%Z ->
  bpow (L - 1) <= Qabs (SF2Q x - SF2Q y) /\ Qabs (SF2Q x - SF2Q y) < bpow L ->
  isfinite (F64.sub x y) = true /\ RNE (L - 53) (SF2Q x - SF2Q y) (SF2Q (F64.sub x y)).
Proof.
  intros Fx Fy Hx Hy HL [Hlo Hhi].
  rewrite <- (F64_fexp L) by lia.
  apply (SFsub_RNE F64.prec F64.emax eq_refl); auto.
  rewrite F64_fexp by lia. unfold F64.prec, F64.emax. lia.
Qed.

Lemma F64_add_RNE x y L :
  isfinite x = true -> isfinite y = true -> ~ SF2Q x == 0 -> ~ SF2Q y == 0 ->
  (-1021 <= L <= 1023)%Z ->
  bpow (L - 1) <= Qabs (SF2Q x + SF2Q y) /\ Qabs (SF2Q x + SF2Q y) < bpow L ->
  isfinite (F64.add x y) = true /\ RNE (L - 53) (SF2Q x + SF2Q y) (SF2Q (F64.add x y)).
Proof.
  intros Fx Fy Hx Hy HL [Hlo Hhi].
  rewrite <- (F64_fexp L) by lia.
  apply (SFadd_RNE F64.prec F64.emax eq_refl); auto.
  rewrite F64_fexp by lia. unfold F64.prec, F64.emax. lia.
Qed.

Lemma F64_div_RNE x y L :
  isfinite x = true -> isfinite y = true -> ~ SF2Q x == 0 -> ~ SF2Q y == 0 ->
  (-1021 <= L <= 1023)%Z ->
  bpow (L - 1) <= Qabs (SF2Q x / SF2Q y) /\ Qabs (SF2Q x / SF2Q y) < bpow L ->
  isfinite (F64.div x y) = true /\ RNE (L - 53) (SF2Q x / SF2Q y) (SF2Q (F64.div x y)).
Proof.
  intros Fx Fy Hx Hy HL [Hlo Hhi].
  rewrite <- (F64_fexp L) by lia.
  apply (SFdiv_RNE F64.prec F64.emax eq_refl); auto.
  - rewrite F64_fexp by lia. unfold F64.prec, F64.emax. lia.
  - rewrite emin_spec. unfold F64.prec, F64.emax. lia.
Qed.

Lemma Qabs_range_neg v lo hi :
  - hi < v -> v <= - lo -> 0 <= lo -> lo <= Qabs v /\ Qabs v < hi.
Proof. intros H1 H2 H3. rewrite Qabs_neg by lra. split; lra. Qed.

Lemma Qabs_range_pos v lo hi :
  lo <= v -> v < hi -> 0 <= lo -> lo <= Qabs v /\ Qabs v < hi.
Proof. intros H1 H2 H3. rewrite Qabs_pos by lra. split; lra. Qed.

(** One component of [Compute] up to the addition of [CENTER_VAL], each
    step rounded to nearest in a known binade. *)
Lemma Compute_chain_RNE (C : Z) (x co size : spec_float) (CO ISZ : Q) (La Lb Ld : Z) :
  F32.valid x = true -> isfinite x = true -> ~ SF2Q x == 0 ->
  F32.valid co = true -> isfinite co = true -> SF2Q co == CO -> ~ CO == 0 ->
  F32.valid size = true -> isfinite size = true -> 0 < SF2Q size -> ISZ == / SF2Q size ->
  (Z.abs C < 2 ^ 53)%Z -> C <> 0%Z ->
  (-1021 <= La <= 1023)%Z -> (-1021 <= Lb <= 1023)%Z -> (-1021 <= Ld <= 1023)%Z ->
  (bpow (La - 1) <= Qabs (SF2Q x - CO) /\ Qabs (SF2Q x - CO) < bpow La) ->
  (forall a, RNE (La - 53) (SF2Q x - CO) a ->
             bpow (Lb - 1) <= Qabs (a * ISZ) /\ Qabs (a * ISZ) < bpow Lb) ->
  (forall a b, RNE (La - 53) (SF2Q x - CO) a -> RNE (Lb - 53) (a * ISZ) b ->
               ~ b == 0 /\
               bpow (Ld - 1) <= Qabs (b + inject_Z C) /\ Qabs (b + inject_Z C) < bpow Ld) ->
  let D := F64.add (Trinity.Compute_offset x co size) (F64.of_int C) in
  isfinite D = true /\
  exists a b,
    RNE (La - 53) (SF2Q x - CO) a /\ RNE (Lb - 53) (a * ISZ) b /\
    RNE (Ld - 53) (b + inject_Z C) (SF2Q D).
Proof.
  intros Vx Fx Hx0 Vco Fco HCO HCO0 Vsz Fsz Hszpos HISZ HC HC0 HLa HLb HLd Ha Hb Hd D.
  destruct (F64_of_float_Q x Vx Fx) as [Fx' Xq].
  destruct (F64_of_float_Q co Vco Fco) as [Fco' COq].
  destruct (F64_of_float_Q size Vsz Fsz) as [Fsz' SZq].
  destruct (F64_of_int_Q C HC) as [FC Cq].
  assert (Hsub : SF2Q (F64.of_float x) - SF2Q (F64.of_float co) == SF2Q x - CO).
  { rewrite Xq, COq, HCO. reflexivity. }
  destruct (F64_sub_RNE (F64.of_float x) (F64.of_float co) La Fx' Fco') as [Fa Ra].
  { rewrite Xq. exact Hx0. }
  { rewrite COq, HCO. exact HCO0. }
  { exact HLa. }
  { rewrite Hsub. exact Ha. }
  apply (RNE_eq _ _ _ _ _ Hsub (Qeq_refl _)) in Ra.
  set (a := F64.sub (F64.of_float x) (F64.of_float co)) in *.
  assert (Hdiv : SF2Q a / SF2Q (F64.of_float size) == SF2Q a * ISZ).
  { rewrite SZq, HISZ. reflexivity. }
  pose proof (Hb _ Ra) as Hb'.
  assert (Ha0 : ~ SF2Q a == 0).
  { intros H0. destruct Hb' as [Hlo _]. rewrite H0 in Hlo.
    setoid_replace (0 * ISZ) with 0 in Hlo by ring.
    change (Qabs 0) with 0 in Hlo. pose proof (bpow_pos (Lb - 1)). lra. }
  destruct (F64_div_RNE a (F64.of_float size) Lb Fa Fsz' Ha0) as [Fb Rb].
  { rewrite SZq. lra. }
  { exact HLb. }
  { rewrite Hdiv. exact Hb'. }
  apply (RNE_eq _ _ _ _ _ Hdiv (Qeq_refl _)) in Rb.
  fold (Trinity.Compute_offset x co size) in Rb, Fb.
  set (b := Trinity.Compute_offset x co size) in *.
  assert (Hadd : SF2Q b + SF2Q (F64.of_int C) == SF2Q b + inject_Z C).
  { rewrite Cq. reflexivity. }
  destruct (Hd _ _ Ra Rb) as (Hb0 & Hd').
  destruct (F64_add_RNE b (F64.of_int C) Ld Fb FC Hb0) as [Fd Rd].
  { rewrite Cq. intros H0. apply HC0.
    assert (H1 : inject_Z C <= inject_Z 0) by (rewrite H0; apply Qle_refl).
    assert (H2 : inject_Z 0 <= inject_Z C) by (rewrite H0; apply Qle_refl).
    apply inject_Z_le_inv in H1, H2. lia. }
  { exact HLd. }
  { rewrite Hadd. exact Hd'. }
  apply (RNE_eq _ _ _ _ _ Hadd (Qeq_refl _)) in Rd.
  split; [exact Fd|].
  exists (SF2Q a), (SF2Q b). repeat split; assumption.
Qed.

(** * Properties of [CoordPair] *)

Local Open Scope Z_scope.

Lemma wrap32_small z : is_uint32 z -> wrap32 z = z.
Proof. intros H. unfold wrap32. apply Z.mod_small. exact H. Qed.

Lemma wrap32_range z : is_uint32 (wrap32 z).
Proof. unfold wrap32, is_uint32. apply Z.mod_pos_bound. lia. Qed.

Section CoordPairFacts.
Variable LIMIT : Z.
Hypothesis HLIMIT : is_uint32 LIMIT.

Lemma IsCoordValid_spec p :
  IsCoordValid LIMIT p = true <-> x_coord p < LIMIT /\ y_coord p < LIMIT.
Proof.
  unfold IsCoordValid. rewrite andb_true_iff, !Z.ltb_lt. reflexivity.
Qed.

Lemma wrap32_pred_LIMIT : 0 < LIMIT -> wrap32 (LIMIT - 1) = LIMIT - 1.
Proof. intros H. apply wrap32_small. unfold is_uint32 in *. lia. Qed.

Lemma normalize_valid p :
  0 < LIMIT -> IsCoordValid LIMIT (normalize LIMIT p) = true.
Proof.
  intros H. apply IsCoordValid_spec. unfold normalize. cbn [x_coord y_coord].
  rewrite wrap32_pred_LIMIT by assumption. lia.
Qed.

Lemma normalize_id p :
  0 <= x_coord p -> IsCoordValid LIMIT p = true -> normalize LIMIT p = p.
Proof.
  intros Hx H. apply IsCoordValid_spec in H. destruct p as [x y]. cbn [x_coord y_coord] in *.
  unfold normalize. cbn [x_coord y_coord].
  assert (0 < LIMIT) by lia.
  rewrite wrap32_pred_LIMIT by assumption.
  f_equal; lia.
Qed.
End CoordPairFacts.

(** C8. On a valid [CoordPair<LIMIT>] the four stepping operations keep the
    coordinate valid; [dec_x] subtracts with truncation at zero and [inc_x]
    adds (as a 32-bit sum) with saturation at [LIMIT - 1]. *)
Theorem C8_inc_dec_preserve_validity (LIMIT : Z) (p : CoordPair) (val : Z) :
  is_uint32 LIMIT -> is_uint32 (x_coord p) -> is_uint32 (y_coord p) -> is_uint32 val ->
  IsCoordValid LIMIT p = true ->
  (IsCoordValid LIMIT (inc_x LIMIT p val) = true /\
   IsCoordValid LIMIT (inc_y LIMIT p val) = true /\
   IsCoordValid LIMIT (dec_x p val) = true /\
   IsCoordValid LIMIT (dec_y p val) = true) /\
  x_coord (dec_x p val) = (if val <? x_coord p then x_coord p - val else 0) /\
  x_coord (inc_x LIMIT p val) =
    (if wrap32 (x_coord p + val) <? LIMIT then wrap32 (x_coord p + val) else LIMIT - 1).
Proof.
  intros HL Hx Hy Hv Hvalid.
  pose proof Hvalid as Hxy. apply IsCoordValid_spec in Hxy. destruct Hxy as [Hxl Hyl].
  assert (Hpos : 0 < LIMIT) by (unfold is_uint32 in *; lia).
  destruct p as [x y]. cbn [x_coord y_coord] in *.
  unfold inc_x, inc_y, dec_x, dec_y. cbn [x_coord y_coord].
  rewrite (wrap32_pred_LIMIT LIMIT HL Hpos). unfold is_uint32 in *.
  repeat split.
  - destruct (Z.ltb_spec (wrap32 (x + val)) LIMIT); apply IsCoordValid_spec; cbn [x_coord y_coord]; lia.
  - destruct (Z.ltb_spec (wrap32 (y + val)) LIMIT); apply IsCoordValid_spec; cbn [x_coord y_coord]; lia.
  - destruct (Z.ltb_spec val x); apply IsCoordValid_spec; cbn [x_coord y_coord].
    + assert (Hu : is_uint32 (x - val)) by (unfold is_uint32; lia).
      rewrite (wrap32_small _ Hu). lia.
    + lia.
  - destruct (Z.ltb_spec val y); apply IsCoordValid_spec; cbn [x_coord y_coord].
    + assert (Hu : is_uint32 (y - val)) by (unfold is_uint32; lia).
      rewrite (wrap32_small _ Hu). lia.
    + lia.
  - destruct (Z.ltb_spec val x); cbn [x_coord];
      [apply wrap32_small; unfold is_uint32; lia | reflexivity].
  - destruct (Z.ltb_spec (wrap32 (x + val)) LIMIT); reflexivity.
Qed.

Lemma C8_witness :
  IsCoordValid 64 (inc_x 64 (mkCoordPair 60 3) 4294967295) = true /\
  x_coord (inc_x 64 (mkCoordPair 60 3) 4294967295) = 59 /\
  x_coord (inc_x 64 (mkCoordPair 60 3) 10) = 63 /\
  x_coord (dec_x (mkCoordPair 60 3) 70) = 0.
Proof.
  pose proof (C8_inc_dec_preserve_validity 64 (mkCoordPair 60 3) 4294967295
                ltac:(unfold is_uint32; lia) ltac:(unfold is_uint32; cbn; lia)
                ltac:(unfold is_uint32; cbn; lia) ltac:(unfold is_uint32; lia)
                eq_refl) as [[H _] _].
  split; [exact H|]. split; [reflexivity|]. split; reflexivity.
Defined.

(** [GetId] on a limit whose square fits 32 bits: no product or sum wraps,
    the identifier is [y * LIMIT + x], it is below [LIMIT * LIMIT], and it
    determines the coordinate. *)
Lemma GetId_small_limit (LIMIT : Z) (p q : CoordPair) :
  LIMIT * LIMIT <= 2 ^ 32 ->
  0 <= x_coord p -> 0 <= y_coord p -> 0 <= x_coord q -> 0 <= y_coord q ->
  IsCoordValid LIMIT p = true -> IsCoordValid LIMIT q = true ->
  GetId LIMIT p = y_coord p * LIMIT + x_coord p /\
  0 <= GetId LIMIT p < LIMIT * LIMIT /\
  (GetId LIMIT p = GetId LIMIT q <-> p = q).
Proof.
  intros HL Hpx Hpy Hqx Hqy Hp Hq.
  unfold IsCoordValid in Hp, Hq. apply andb_true_iff in Hp, Hq.
  rewrite !Z.ltb_lt in Hp, Hq. destruct Hp as [Hp1 Hp2], Hq as [Hq1 Hq2].
  assert (Hid : forall r, 0 <= x_coord r < LIMIT -> 0 <= y_coord r < LIMIT ->
                          GetId LIMIT r = y_coord r * LIMIT + x_coord r /\
                          0 <= y_coord r * LIMIT + x_coord r < LIMIT * LIMIT).
  { intros r Hx Hy. assert (Hb : 0 <= y_coord r * LIMIT + x_coord r < LIMIT * LIMIT) by nia.
    split; [|exact Hb]. unfold GetId.
    rewrite (wrap32_small (y_coord r * LIMIT)) by (unfold is_uint32; nia).
    apply wrap32_small. unfold is_uint32. lia. }
  destruct (Hid p ltac:(lia) ltac:(lia)) as [Hidp Hbp].
  destruct (Hid q ltac:(lia) ltac:(lia)) as [Hidq Hbq].
  split; [exact Hidp|]. split; [rewrite Hidp; exact Hbp|].
  split.
  - rewrite Hidp, Hidq. intros Heq. destruct p as [px py], q as [qx qy].
    cbn [x_coord y_coord] in *.
    assert (py = qy) by nia. subst. f_equal. lia.
  - intros ->. reflexivity.
Qed.

(** C10. For the two instances of the template, [GridCoord] (limit 64) and
    [CellCoord] (limit 512), and any two valid coordinates, [GetId] is
    [y * LIMIT + x], it is below [LIMIT * LIMIT], and two identifiers are
    equal exactly when the coordinates are equal: [GetId] is an injective
    key on valid coordinates. The components are [uint32] values. *)
Theorem C10_GetId_injective (LIMIT : Z) (p q : CoordPair) :
  LIMIT = GRID_LIMIT \/ LIMIT = CELL_LIMIT ->
  is_uint32 (x_coord p) -> is_uint32 (y_coord p) ->
  is_uint32 (x_coord q) -> is_uint32 (y_coord q) ->
  IsCoordValid LIMIT p = true -> IsCoordValid LIMIT q = true ->
  GetId LIMIT p = y_coord p * LIMIT + x_coord p /\
  0 <= GetId LIMIT p < LIMIT * LIMIT /\
  (GetId LIMIT p = GetId LIMIT q <-> p = q).
Proof.
  intros HL Hpx Hpy Hqx Hqy Hp Hq. unfold is_uint32 in *.
  apply GetId_small_limit; try lia; try assumption.
  destruct HL as [-> | ->]; vm_compute; discriminate.
Qed.

Lemma C10_witness :
  GetId CELL_LIMIT (mkCoordPair 511 511) = 262143 /\
  0 <= GetId CELL_LIMIT (mkCoordPair 511 511) < CELL_LIMIT * CELL_LIMIT /\
  (GetId CELL_LIMIT (mkCoordPair 511 511) = GetId CELL_LIMIT (mkCoordPair 63 7)
   <-> mkCoordPair 511 511 = mkCoordPair 63 7).
Proof.
  apply (C10_GetId_injective CELL_LIMIT (mkCoordPair 511 511) (mkCoordPair 63 7));
    [right; reflexivity | | | | | reflexivity | reflexivity];
    unfold is_uint32; cbn; lia.
Defined.

(** * The constants *)

Lemma SIZE_OF_GRIDS_eq : SIZE_OF_GRIDS = S754_finite false 8738133 (-14).
Proof. vm_compute. reflexivity. Qed.

Lemma CENTER_GRID_OFFSET_eq : CENTER_GRID_OFFSET = S754_finite false 8738133 (-15).
Proof. vm_compute. reflexivity. Qed.

Lemma SIZE_OF_GRID_CELL_eq : SIZE_OF_GRID_CELL = S754_finite false 8738133 (-17).
Proof. vm_compute. reflexivity. Qed.

Lemma CENTER_GRID_CELL_OFFSET_eq : CENTER_GRID_CELL_OFFSET = S754_finite false 8738133 (-18).
Proof. vm_compute. reflexivity. Qed.

Lemma MAP_BOUND_eq : Trinity.MAP_BOUND = S754_finite false 8737877 (-9).
Proof. vm_compute. reflexivity. Qed.

Lemma half_f_double : F64.of_float half_f = F64.half.
Proof. vm_compute. reflexivity. Qed.

Local Open Scope Q_scope.

Lemma MAP_BOUND_Q_eq : SF2Q Trinity.MAP_BOUND == MAP_BOUND_Q.
Proof. rewrite MAP_BOUND_eq. vm_compute. reflexivity. Qed.

Lemma MAP_HALFSIZE_Q_eq : SF2Q MAP_HALFSIZE - (1 # 2) == MAP_BOUND_Q.
Proof. vm_compute. reflexivity. Qed.

Lemma MAP_BOUND_valid : F32.valid Trinity.MAP_BOUND = true.
Proof. vm_compute. reflexivity. Qed.

(** * Validity and clamping of map coordinates *)

Lemma valid_abs prec emax c : valid_binary prec emax (SFabs c) = valid_binary prec emax c.
Proof. destruct c; reflexivity. Qed.

Lemma valid_opp prec emax c : valid_binary prec emax (SFopp c) = valid_binary prec emax c.
Proof. destruct c; reflexivity. Qed.

Lemma isfinite_abs c : isfinite (SFabs c) = isfinite c.
Proof. destruct c; reflexivity. Qed.

Lemma isfinite_opp c : isfinite (SFopp c) = isfinite c.
Proof. destruct c; reflexivity. Qed.

Lemma IsValidMapCoord_Q c :
  F32.valid c = true ->
  Trinity.IsValidMapCoord c = true <->
  isfinite c = true /\ Qabs (SF2Q c) <= MAP_BOUND_Q.
Proof.
  intros Hv. unfold Trinity.IsValidMapCoord. rewrite andb_true_iff.
  split; intros [Hf H]; (split; [exact Hf|]).
  - apply (SFleb_Q F32.prec F32.emax) in H;
      [| reflexivity | rewrite valid_abs; exact Hv | exact MAP_BOUND_valid
       | rewrite isfinite_abs; exact Hf | reflexivity ].
    rewrite SF2Q_abs, MAP_BOUND_Q_eq in H. exact H.
  - apply (SFleb_Q F32.prec F32.emax);
      [ reflexivity | rewrite valid_abs; exact Hv | exact MAP_BOUND_valid
       | rewrite isfinite_abs; exact Hf | reflexivity |].
    rewrite SF2Q_abs, MAP_BOUND_Q_eq. exact H.
Qed.

(** C3, as stated: the orientation [o] is only required to be finite; an
    orientation far beyond the map bound is accepted. *)
Lemma C3_counterexample :
  Trinity.IsValidMapCoord4 (S754_zero false) (S754_zero false) (S754_zero false)
                           (S754_finite false 12800000 (-7)) = true /\
  F32.valid (S754_finite false 12800000 (-7)) = true /\
  ~ Qabs (SF2Q (S754_finite false 12800000 (-7))) <= MAP_BOUND_Q.
Proof.
  split; [vm_compute; reflexivity|]. split; [vm_compute; reflexivity|].
  vm_compute. intros H. apply H. reflexivity.
Qed.

(** C3, amended. [IsValidMapCoord] holds exactly when each of the components
    x, y, z is finite and of absolute value at most [MAP_HALFSIZE - 0.5]
    (the bound itself included) and the orientation [o], where supplied, is
    finite. *)
Theorem C3_IsValidMapCoord_iff (x y z o : spec_float) :
  F32.valid x = true -> F32.valid y = true -> F32.valid z = true ->
  let within c := isfinite c = true /\ Qabs (SF2Q c) <= MAP_BOUND_Q in
  (Trinity.IsValidMapCoord x = true <-> within x) /\
  (Trinity.IsValidMapCoord2 x y = true <-> within x /\ within y) /\
  (Trinity.IsValidMapCoord3 x y z = true <-> within x /\ within y /\ within z) /\
  (Trinity.IsValidMapCoord4 x y z o = true <->
     within x /\ within y /\ within z /\ isfinite o = true) /\
  Trinity.IsValidMapCoord Trinity.MAP_BOUND = true /\
  Trinity.IsValidMapCoord (SFopp Trinity.MAP_BOUND) = true /\
  SF2Q MAP_HALFSIZE - (1 # 2) == MAP_BOUND_Q /\
  SF2Q Trinity.MAP_BOUND == MAP_BOUND_Q.
Proof.
  intros Vx Vy Vz within.
  pose proof (IsValidMapCoord_Q x Vx) as Hx.
  pose proof (IsValidMapCoord_Q y Vy) as Hy.
  pose proof (IsValidMapCoord_Q z Vz) as Hz.
  fold (within x) in Hx. fold (within y) in Hy. fold (within z) in Hz.
  unfold Trinity.IsValidMapCoord4, Trinity.IsValidMapCoord3, Trinity.IsValidMapCoord2.
  rewrite !andb_true_iff.
  split; [exact Hx|]. split; [tauto|]. split; [tauto|]. split; [tauto|].
  split; [vm_compute; reflexivity|]. split; [vm_compute; reflexivity|].
  split; [exact MAP_HALFSIZE_Q_eq | exact MAP_BOUND_Q_eq].
Qed.

Lemma C3_witness :
  Trinity.IsValidMapCoord4 Trinity.MAP_BOUND (SFopp Trinity.MAP_BOUND) (S754_zero true)
                           (S754_finite false 12800000 (-7)) = true.
Proof.
  pose proof (C3_IsValidMapCoord_iff Trinity.MAP_BOUND (SFopp Trinity.MAP_BOUND)
                (S754_zero true) (S754_finite false 12800000 (-7))
                eq_refl eq_refl eq_refl) as (_ & _ & _ & H & _).
  apply H. repeat split; try reflexivity; vm_compute; discriminate.
Defined.

Lemma NormalizeMapCoord_cases c :
  F32.valid c = true -> isfinite c = true ->
  (MAP_BOUND_Q < SF2Q c /\ Trinity.NormalizeMapCoord c = Trinity.MAP_BOUND) \/
  (SF2Q c < - MAP_BOUND_Q /\ Trinity.NormalizeMapCoord c = SFopp Trinity.MAP_BOUND) \/
  (Qabs (SF2Q c) <= MAP_BOUND_Q /\ Trinity.NormalizeMapCoord c = c).
Proof.
  intros Hv Hf. unfold Trinity.NormalizeMapCoord.
  pose proof (SFltb_Q F32.prec F32.emax eq_refl Trinity.MAP_BOUND c
                MAP_BOUND_valid Hv eq_refl Hf) as H1.
  pose proof (SFltb_Q F32.prec F32.emax eq_refl c (SFopp Trinity.MAP_BOUND)
                Hv eq_refl Hf eq_refl) as H2.
  rewrite MAP_BOUND_Q_eq in H1. rewrite SF2Q_opp, MAP_BOUND_Q_eq in H2.
  destruct (SFltb Trinity.MAP_BOUND c).
  - left. split; [apply H1|]; reflexivity.
  - destruct (SFltb c (SFopp Trinity.MAP_BOUND)).
    + right; left. split; [apply H2|]; reflexivity.
    + right; right. split; [|reflexivity].
      apply Qabs_Qle_condition. split.
      * destruct (Qlt_le_dec (SF2Q c) (- MAP_BOUND_Q)) as [Hlt|Hle]; [|exact Hle].
        apply H2 in Hlt. discriminate.
      * destruct (Qlt_le_dec MAP_BOUND_Q (SF2Q c)) as [Hlt|Hle]; [|exact Hle].
        apply H1 in Hlt. discriminate.
Qed.

(** C4. [NormalizeMapCoord] brings every finite coordinate into the valid
    range, leaves valid coordinates unchanged, and is idempotent. *)
Theorem C4_NormalizeMapCoord_valid (c : spec_float) :
  F32.valid c = true -> isfinite c = true ->
  Trinity.IsValidMapCoord (Trinity.NormalizeMapCoord c) = true /\
  (- MAP_BOUND_Q <= SF2Q (Trinity.NormalizeMapCoord c) <= MAP_BOUND_Q) /\
  (Trinity.IsValidMapCoord c = true -> Trinity.NormalizeMapCoord c = c) /\
  Trinity.NormalizeMapCoord (Trinity.NormalizeMapCoord c) = Trinity.NormalizeMapCoord c.
Proof.
  intros Hv Hf.
  assert (Hid : forall d, F32.valid d = true -> Trinity.IsValidMapCoord d = true ->
                          Trinity.NormalizeMapCoord d = d).
  { intros d Vd Hd. apply (IsValidMapCoord_Q d Vd) in Hd. destruct Hd as [Fd Hd].
    apply Qabs_Qle_condition in Hd.
    destruct (NormalizeMapCoord_cases d Vd Fd) as [[H _]|[[H _]|[_ H]]]; [lra|lra|exact H]. }
  assert (Hres : F32.valid (Trinity.NormalizeMapCoord c) = true /\
                 Trinity.IsValidMapCoord (Trinity.NormalizeMapCoord c) = true).
  { destruct (NormalizeMapCoord_cases c Hv Hf) as [[_ ->]|[[_ ->]|[H ->]]].
    - split; vm_compute; reflexivity.
    - split; vm_compute; reflexivity.
    - split; [exact Hv|]. apply (IsValidMapCoord_Q c Hv). split; assumption. }
  destruct Hres as [Vr Hr].
  split; [exact Hr|]. split.
  - apply (IsValidMapCoord_Q _ Vr) in Hr. destruct Hr as [_ Hr].
    apply Qabs_Qle_condition in Hr. exact Hr.
  - split; [intros H; apply Hid; assumption|]. apply Hid; assumption.
Qed.

Lemma C4_witness :
  Trinity.NormalizeMapCoord (S754_finite false 12800000 (-7)) = Trinity.MAP_BOUND /\
  Trinity.IsValidMapCoord (Trinity.NormalizeMapCoord (S754_finite false 12800000 (-7))) = true.
Proof.
  split; [vm_compute; reflexivity|].
  apply (C4_NormalizeMapCoord_valid (S754_finite false 12800000 (-7)) eq_refl eq_refl).
Defined.

(** * The coordinate computation *)

Local Open Scope Z_scope.

(** C6. The origin lies in the centre grid (32, 32) and in the centre cell
    (256, 256). *)
Theorem C6_origin_is_center :
  Trinity.ComputeGridCoord (S754_zero false) (S754_zero false)
  = Some (mkCoordPair 32 32) /\
  Trinity.ComputeCellCoord (S754_zero false) (S754_zero false)
  = Some (mkCoordPair 256 256) /\
  CENTER_GRID_ID = 32 /\ CENTER_GRID_CELL_ID = 256.
Proof. repeat split; vm_compute; reflexivity. Qed.

(** C9. The overload of [ComputeCellCoord] that also reports the offsets
    returns the same [CellCoord] as the plain one. *)
Theorem C9_ComputeCellCoord_overloads_agree (x y : spec_float) :
  Trinity.ComputeCellCoord_off x y = Trinity.ComputeCellCoord x y.
Proof.
  unfold Trinity.ComputeCellCoord_off, Trinity.ComputeCellCoord, Trinity.Compute,
    Trinity.Compute_val, Trinity.Compute_offset.
  rewrite half_f_double. reflexivity.
Qed.

Lemma Compute_uint32 C x y co size p :
  Trinity.Compute C x y co size = Some p ->
  is_uint32 (x_coord p) /\ is_uint32 (y_coord p).
Proof.
  unfold Trinity.Compute.
  destruct (Trinity.Compute_val C (Trinity.Compute_offset x co size)); [|discriminate].
  destruct (Trinity.Compute_val C (Trinity.Compute_offset y co size)); [|discriminate].
  intros H. injection H as <-. cbn [CoordPair_of_int x_coord y_coord].
  split; apply wrap32_range.
Qed.

(** The conversion [int(double)], when defined, yields an [int]. *)
Lemma F64_to_int_is_int d n : F64.to_int d = Some n -> INT_MIN <= n <= INT_MAX.
Proof.
  unfold F64.to_int. destruct (F64.trunc d) as [z|]; [|discriminate].
  destruct ((INT_MIN <=? z) && (z <=? INT_MAX)) eqn:E; [|discriminate].
  intros H. injection H as <-. apply andb_true_iff in E. lia.
Qed.

Section Clamp.
Variable LIMIT : Z.
Hypothesis HLIMIT : 0 < LIMIT < 2 ^ 31.

(** [normalize] on a coordinate built from the [int] indices [nx], [ny]:
    the result is valid, a valid coordinate is unchanged, and a component
    whose index is not negative goes to the nearest valid index. *)
Lemma normalize_of_int nx ny :
  INT_MIN <= nx <= INT_MAX -> INT_MIN <= ny <= INT_MAX ->
  let p := CoordPair_of_int nx ny in
  IsCoordValid LIMIT (normalize LIMIT p) = true /\
  (IsCoordValid LIMIT p = true -> normalize LIMIT p = p) /\
  (0 <= nx -> forall v, 0 <= v < LIMIT ->
     Z.abs (x_coord (normalize LIMIT p) - nx) <= Z.abs (v - nx)) /\
  (0 <= ny -> forall v, 0 <= v < LIMIT ->
     Z.abs (y_coord (normalize LIMIT p) - ny) <= Z.abs (v - ny)).
Proof.
  intros Hx Hy p.
  assert (HL : is_uint32 LIMIT) by (unfold is_uint32; lia).
  split; [apply normalize_valid; [exact HL | lia]|].
  split.
  { apply normalize_id; [exact HL|]. apply wrap32_range. }
  unfold p, normalize, CoordPair_of_int. cbn [x_coord y_coord].
  rewrite (wrap32_pred_LIMIT LIMIT HL) by lia.
  unfold INT_MIN, INT_MAX in *.
  split; intros Hn v Hv;
    rewrite wrap32_small by (unfold is_uint32; lia); lia.
Qed.
End Clamp.

(** C2, as stated: the computation does not clamp. A position beyond the map
    edge yields grid indices 69 and 2^32 - 5. *)
Lemma C2_counterexample :
  Trinity.ComputeGridCoord (S754_finite false 10240000 (-9)) (S754_finite true 10240000 (-9))
  = Some (mkCoordPair 69 4294967291) /\
  IsCoordValid GRID_LIMIT (mkCoordPair 69 4294967291) = false /\
  F32.valid (S754_finite false 10240000 (-9)) = true /\
  F32.valid (S754_finite true 10240000 (-9)) = true.
Proof. repeat split; vm_compute; reflexivity. Qed.

(** C2, amended. Clamping is the separate step [normalize]. Whenever
    [ComputeGridCoord] is defined, with the [int] indices [nx], [ny] of the
    two components, [normalize] makes the computed coordinate valid, leaves
    it unchanged when it is valid, and replaces a component whose index is
    not negative by the nearest valid index; the same holds for
    [ComputeCellCoord]. *)
Theorem C2_normalize_clamps (x y : spec_float) :
  (forall nx ny,
     Trinity.Compute_val CENTER_GRID_ID
       (Trinity.Compute_offset x CENTER_GRID_OFFSET SIZE_OF_GRIDS) = Some nx ->
     Trinity.Compute_val CENTER_GRID_ID
       (Trinity.Compute_offset y CENTER_GRID_OFFSET SIZE_OF_GRIDS) = Some ny ->
     exists g,
       Trinity.ComputeGridCoord x y = Some g /\
       IsCoordValid GRID_LIMIT (normalize GRID_LIMIT g) = true /\
       (IsCoordValid GRID_LIMIT g = true -> normalize GRID_LIMIT g = g) /\
       (0 <= nx -> forall v, 0 <= v < GRID_LIMIT ->
          Z.abs (x_coord (normalize GRID_LIMIT g) - nx) <= Z.abs (v - nx)) /\
       (0 <= ny -> forall v, 0 <= v < GRID_LIMIT ->
          Z.abs (y_coord (normalize GRID_LIMIT g) - ny) <= Z.abs (v - ny))) /\
  (forall nx ny,
     Trinity.Compute_val CENTER_GRID_CELL_ID
       (Trinity.Compute_offset x CENTER_GRID_CELL_OFFSET SIZE_OF_GRID_CELL) = Some nx ->
     Trinity.Compute_val CENTER_GRID_CELL_ID
       (Trinity.Compute_offset y CENTER_GRID_CELL_OFFSET SIZE_OF_GRID_CELL) = Some ny ->
     exists c,
       Trinity.ComputeCellCoord x y = Some c /\
       IsCoordValid CELL_LIMIT (normalize CELL_LIMIT c) = true /\
       (IsCoordValid CELL_LIMIT c = true -> normalize CELL_LIMIT c = c) /\
       (0 <= nx -> forall v, 0 <= v < CELL_LIMIT ->
          Z.abs (x_coord (normalize CELL_LIMIT c) - nx) <= Z.abs (v - nx)) /\
       (0 <= ny -> forall v, 0 <= v < CELL_LIMIT ->
          Z.abs (y_coord (normalize CELL_LIMIT c) - ny) <= Z.abs (v - ny))).
Proof.
  split; intros nx ny Hx Hy; exists (CoordPair_of_int nx ny);
    (split;
     [unfold Trinity.ComputeGridCoord, Trinity.ComputeCellCoord, Trinity.Compute;
      rewrite Hx, Hy; reflexivity|]);
    unfold Trinity.Compute_val in Hx, Hy;
    apply F64_to_int_is_int in Hx, Hy;
    apply normalize_of_int; try assumption; vm_compute; split; reflexivity.
Qed.

Lemma C2_witness :
  exists g,
    Trinity.ComputeGridCoord (S754_finite false 10240000 (-9))
                             (S754_finite false 10240000 (-9)) = Some g /\
    IsCoordValid GRID_LIMIT (normalize GRID_LIMIT g) = true /\
    (IsCoordValid GRID_LIMIT g = true -> normalize GRID_LIMIT g = g) /\
    (0 <= 69 -> forall v, 0 <= v < GRID_LIMIT ->
       Z.abs (x_coord (normalize GRID_LIMIT g) - 69) <= Z.abs (v - 69)) /\
    (0 <= 69 -> forall v, 0 <= v < GRID_LIMIT ->
       Z.abs (y_coord (normalize GRID_LIMIT g) - 69) <= Z.abs (v - 69)).
Proof.
  apply (proj1 (C2_normalize_clamps (S754_finite false 10240000 (-9))
                  (S754_finite false 10240000 (-9))) 69 69);
    vm_compute; reflexivity.
Defined.

Local Open Scope Q_scope.

Ltac bpow_num :=
  repeat match goal with
         | |- context [bpow ?u] =>
             tryif is_var u then fail
             else (let c := eval vm_compute in (bpow u) in change (bpow u) with c)
         end.

Ltac bpow_num_in H :=
  repeat match type of H with
         | context [bpow ?u] =>
             tryif is_var u then fail
             else (let c := eval vm_compute in (bpow u) in change (bpow u) with c in H)
         end.

(** [rb H]: the numeric error bounds of a rounding hypothesis [H]. *)
Ltac rb H :=
  let B := fresh "B" in
  pose proof (rounded_bounds _ _ _ H) as B; bpow_num_in B.

(** [mag]: a magnitude obligation [Qabs v < bpow K] by linear arithmetic. *)
Ltac mag := apply Qabs_Qlt_condition; bpow_num; split; lra.

Lemma F64_to_int_range d lo hi :
  isfinite d = true ->
  inject_Z lo <= SF2Q d -> SF2Q d < inject_Z hi ->
  (0 <= lo)%Z -> (hi <= INT_MAX + 1)%Z ->
  exists n, F64.to_int d = Some n /\ (lo <= n < hi)%Z.
Proof.
  intros Hf Hlo Hhi Hl Hh.
  assert (Hnn : 0 <= SF2Q d).
  { eapply Qle_trans; [|exact Hlo]. apply (inject_Z_le 0). exact Hl. }
  destruct (F64_trunc_nonneg d Hf Hnn) as (n & Hn & Hn1 & Hn2).
  assert (H1 : inject_Z lo < inject_Z (n + 1)).
  { rewrite inject_Z_plus. change (inject_Z 1) with 1. lra. }
  assert (H2 : inject_Z n < inject_Z hi) by lra.
  apply inject_Z_lt_inv in H1, H2.
  exists n. split; [|lia].
  apply F64_to_int_floor; auto. lia.
Qed.

Lemma grid_chain (x : spec_float) (Ua Ub Ud Ug : Z) :
  F32.valid x = true -> isfinite x = true ->
  (-1074 <= Ua < 971)%Z -> (-1074 <= Ub < 971)%Z ->
  (-1074 <= Ud < 971)%Z -> (-1074 <= Ug < 971)%Z ->
  Qabs (SF2Q x - GRID_CO) < bpow (Ua + 53) ->
  (forall a, rounded Ua (SF2Q x - GRID_CO) a -> Qabs (a * GRID_ISZ) < bpow (Ub + 53)) ->
  (forall a b, rounded Ua (SF2Q x - GRID_CO) a -> rounded Ub (a * GRID_ISZ) b ->
               Qabs (b + 32) < bpow (Ud + 53)) ->
  (forall a b d, rounded Ua (SF2Q x - GRID_CO) a -> rounded Ub (a * GRID_ISZ) b ->
                 rounded Ud (b + 32) d -> Qabs (d + (1 # 2)) < bpow (Ug + 53)) ->
  isfinite (grid_sum x) = true /\
  exists a b d,
    rounded Ua (SF2Q x - GRID_CO) a /\ rounded Ub (a * GRID_ISZ) b /\
    rounded Ud (b + 32) d /\ rounded Ug (d + (1 # 2)) (SF2Q (grid_sum x)).
Proof.
  intros Vx Fx HUa HUb HUd HUg Ha Hb Hd Hg.
  apply (Compute_chain 32 x CENTER_GRID_OFFSET SIZE_OF_GRIDS GRID_CO GRID_ISZ Ua Ub Ud Ug);
    auto.
  all: vm_compute; reflexivity.
Qed.

Lemma cell_chain (x : spec_float) (Ua Ub Ud Ug : Z) :
  F32.valid x = true -> isfinite x = true ->
  (-1074 <= Ua < 971)%Z -> (-1074 <= Ub < 971)%Z ->
  (-1074 <= Ud < 971)%Z -> (-1074 <= Ug < 971)%Z ->
  Qabs (SF2Q x - CELL_CO) < bpow (Ua + 53) ->
  (forall a, rounded Ua (SF2Q x - CELL_CO) a -> Qabs (a * CELL_ISZ) < bpow (Ub + 53)) ->
  (forall a b, rounded Ua (SF2Q x - CELL_CO) a -> rounded Ub (a * CELL_ISZ) b ->
               Qabs (b + 256) < bpow (Ud + 53)) ->
  (forall a b d, rounded Ua (SF2Q x - CELL_CO) a -> rounded Ub (a * CELL_ISZ) b ->
                 rounded Ud (b + 256) d -> Qabs (d + (1 # 2)) < bpow (Ug + 53)) ->
  isfinite (cell_sum x) = true /\
  exists a b d,
    rounded Ua (SF2Q x - CELL_CO) a /\ rounded Ub (a * CELL_ISZ) b /\
    rounded Ud (b + 256) d /\ rounded Ug (d + (1 # 2)) (SF2Q (cell_sum x)).
Proof.
  intros Vx Fx HUa HUb HUd HUg Ha Hb Hd Hg.
  apply (Compute_chain 256 x CENTER_GRID_CELL_OFFSET SIZE_OF_GRID_CELL
           CELL_CO CELL_ISZ Ua Ub Ud Ug);
    auto.
  all: vm_compute; reflexivity.
Qed.

(** For a valid coordinate the grid index of one component is in [0, 64). *)
Lemma grid_component_range x :
  F32.valid x = true -> Trinity.IsValidMapCoord x = true ->
  exists n, F64.to_int (grid_sum x) = Some n /\ (0 <= n < 64)%Z.
Proof.
  intros Vx Hx. apply (IsValidMapCoord_Q x Vx) in Hx. destruct Hx as [Fx Hx].
  apply Qabs_Qle_condition in Hx. unfold MAP_BOUND_Q in Hx.
  destruct (grid_chain x (-38) (-47) (-47) (-46) Vx Fx)
    as (Fg & a & b & d & Ra & Rb & Rd & Rg); unfold GRID_CO, GRID_ISZ in *; try lia.
  - mag.
  - intros a Ra. rb Ra. mag.
  - intros a b Ra Rb. rb Ra. rb Rb. mag.
  - intros a b d Ra Rb Rd. rb Ra. rb Rb. rb Rd. mag.
  - rb Ra. rb Rb. rb Rd. rb Rg.
    apply F64_to_int_range; [exact Fg | | | lia | vm_compute; discriminate].
    + change (inject_Z 0) with 0. lra.
    + change (inject_Z 64) with 64. lra.
Qed.

(** For a valid coordinate the cell index of one component is in [0, 512). *)
Lemma cell_component_range x :
  F32.valid x = true -> Trinity.IsValidMapCoord x = true ->
  exists n, F64.to_int (cell_sum x) = Some n /\ (0 <= n < 512)%Z.
Proof.
  intros Vx Hx. apply (IsValidMapCoord_Q x Vx) in Hx. destruct Hx as [Fx Hx].
  apply Qabs_Qle_condition in Hx. unfold MAP_BOUND_Q in Hx.
  destruct (cell_chain x (-38) (-44) (-44) (-43) Vx Fx)
    as (Fg & a & b & d & Ra & Rb & Rd & Rg); unfold CELL_CO, CELL_ISZ in *; try lia.
  - mag.
  - intros a Ra. rb Ra. mag.
  - intros a b Ra Rb. rb Ra. rb Rb. mag.
  - intros a b d Ra Rb Rd. rb Ra. rb Rb. rb Rd. mag.
  - rb Ra. rb Rb. rb Rd. rb Rg.
    apply F64_to_int_range; [exact Fg | | | lia | vm_compute; discriminate].
    + change (inject_Z 0) with 0. lra.
    + change (inject_Z 512) with 512. lra.
Qed.

(** C1. A valid position maps to a grid coordinate with both components in
    [0, 64) and to a cell coordinate with both components in [0, 512). *)
Theorem C1_valid_position_in_bounds (x y : spec_float) :
  F32.valid x = true -> F32.valid y = true ->
  Trinity.IsValidMapCoord2 x y = true ->
  exists g c,
    Trinity.ComputeGridCoord x y = Some g /\
    Trinity.ComputeCellCoord x y = Some c /\
    IsCoordValid GRID_LIMIT g = true /\ IsCoordValid CELL_LIMIT c = true /\
    (0 <= x_coord g < 64 /\ 0 <= y_coord g < 64)%Z /\
    (0 <= x_coord c < 512 /\ 0 <= y_coord c < 512)%Z.
Proof.
  intros Vx Vy H. unfold Trinity.IsValidMapCoord2 in H.
  apply andb_true_iff in H. destruct H as [Hx Hy].
  destruct (grid_component_range x Vx Hx) as (gx & Hgx & Rgx).
  destruct (grid_component_range y Vy Hy) as (gy & Hgy & Rgy).
  destruct (cell_component_range x Vx Hx) as (cx & Hcx & Rcx).
  destruct (cell_component_range y Vy Hy) as (cy & Hcy & Rcy).
  exists (mkCoordPair gx gy), (mkCoordPair cx cy).
  unfold grid_sum, cell_sum in *.
  unfold Trinity.ComputeGridCoord, Trinity.ComputeCellCoord, Trinity.Compute,
    Trinity.Compute_val.
  rewrite Hgx, Hgy, Hcx, Hcy. unfold CoordPair_of_int.
  rewrite !wrap32_small by (unfold is_uint32; lia).
  change GRID_LIMIT with 64%Z. change CELL_LIMIT with 512%Z.
  split; [reflexivity|]. split; [reflexivity|].
  split; [apply IsCoordValid_spec; cbn [x_coord y_coord]; lia|].
  split; [apply IsCoordValid_spec; cbn [x_coord y_coord]; lia|].
  cbn [x_coord y_coord]. lia.
Qed.

Lemma C1_witness :
  exists g c,
    Trinity.ComputeGridCoord Trinity.MAP_BOUND (SFopp Trinity.MAP_BOUND) = Some g /\
    Trinity.ComputeCellCoord Trinity.MAP_BOUND (SFopp Trinity.MAP_BOUND) = Some c /\
    IsCoordValid GRID_LIMIT g = true /\ IsCoordValid CELL_LIMIT c = true /\
    (0 <= x_coord g < 64 /\ 0 <= y_coord g < 64)%Z /\
    (0 <= x_coord c < 512 /\ 0 <= y_coord c < 512)%Z.
Proof.
  apply (C1_valid_position_in_bounds Trinity.MAP_BOUND (SFopp Trinity.MAP_BOUND)
           eq_refl eq_refl eq_refl).
Defined.

(** * Consistency of cell and grid indices *)

(** C7. The valid position [(-0x1.0bp-40, 0)]: the grid index of its first
    component is 32 but the cell index is 255, and 255 / 8 is 31. The cell
    computation places the coordinate below the centre and the grid
    computation places it in the centre, although the constants nest eight
    cells in every grid. *)
Theorem C7_seam_divergence :
  F32.valid (S754_finite true 8749056 (-63)) = true /\
  Trinity.IsValidMapCoord2 (S754_finite true 8749056 (-63)) (S754_zero false) = true /\
  Trinity.ComputeGridCoord (S754_finite true 8749056 (-63)) (S754_zero false)
  = Some (mkCoordPair 32 32) /\
  Trinity.ComputeCellCoord (S754_finite true 8749056 (-63)) (S754_zero false)
  = Some (mkCoordPair 255 256) /\
  (255 / MAX_NUMBER_OF_CELLS = 31)%Z /\
  SF2Q SIZE_OF_GRIDS == inject_Z MAX_NUMBER_OF_CELLS * SF2Q SIZE_OF_GRID_CELL /\
  CENTER_GRID_CELL_ID = (MAX_NUMBER_OF_CELLS * CENTER_GRID_ID)%Z.
Proof. repeat split; vm_compute; reflexivity. Qed.

(** [inj]: moves [inject_Z] to the variables and turns it into numerals on
    the constants. *)
Ltac inj_consts :=
  repeat match goal with
         | |- context [inject_Z (Z.pos ?p)] => change (inject_Z (Z.pos p)) with (Z.pos p # 1)
         | |- context [inject_Z (Z.neg ?p)] => change (inject_Z (Z.neg p)) with (Z.neg p # 1)
         | |- context [inject_Z 0] => change (inject_Z 0) with 0
         end.

Ltac inj_consts_in H :=
  repeat match type of H with
         | context [inject_Z (Z.pos ?p)] => change (inject_Z (Z.pos p)) with (Z.pos p # 1) in H
         | context [inject_Z (Z.neg ?p)] => change (inject_Z (Z.neg p)) with (Z.neg p # 1) in H
         | context [inject_Z 0] => change (inject_Z 0) with 0 in H
         end.

Ltac inj :=
  unfold Z.sub; inj_consts;
  repeat (first [rewrite inject_Z_plus | rewrite inject_Z_mult | rewrite inject_Z_opp];
          inj_consts).

Ltac inj_in H :=
  unfold Z.sub in H; inj_consts_in H;
  repeat (first [rewrite inject_Z_plus in H | rewrite inject_Z_mult in H
                | rewrite inject_Z_opp in H];
          inj_consts_in H).

(** [Z2Q H]: an integer inequality or equation [H] as a rational one. *)
Ltac Z2Q H :=
  let Hq := fresh "Q" in
  match type of H with
  | (?a <= ?b)%Z => pose proof (inject_Z_le _ _ H) as Hq
  | (?a < ?b)%Z => pose proof (inject_Z_lt _ _ H) as Hq
  | (?a = ?b)%Z => assert (Hq : inject_Z a == inject_Z b) by (rewrite H; reflexivity)
  end; inj_in Hq.

(** [multiple k]: the goal [exists j, v == inject_Z j * bpow U] with witness [k]. *)
Ltac multiple k := exists k; inj; bpow_num; lra.

(** The same for a closed integer expression [k]. *)
Ltac multiple_c k :=
  let k' := eval vm_compute in k in (exists k'; inj_consts; bpow_num; lra).

(** A valid binary32 number is a multiple of 2^-14 or below 512 in magnitude. *)
Lemma float32_multiple_or_small x :
  F32.valid x = true -> isfinite x = true ->
  (exists N : Z, SF2Q x == inject_Z N * bpow (-14)) \/ Qabs (SF2Q x) < 512.
Proof.
  intros Vx Fx. destruct x as [s|s| |s m e]; try discriminate.
  - left. exists 0%Z. cbn [SF2Q]. change (inject_Z 0) with 0. ring.
  - unfold F32.valid in Vx. cbn [valid_binary] in Vx.
    apply (bounded_spec F32.prec F32.emax) in Vx. destruct Vx as (_ & Hd & _).
    unfold F32.prec in Hd.
    destruct (Z_le_gt_dec (-14) e) as [He|He].
    + left. exists (cond_Zopp s (Z.pos m) * 2 ^ (e - -14))%Z.
      cbn [SF2Q]. rewrite <- cond_Zopp_Q, inject_Z_mult, (bpow_split (-14) e He). ring.
    + right. rewrite <- SF2Q_abs. cbn [SFabs SF2Q cond_Qopp].
      pose proof (Zdigits2_bounds (Z.pos m) ltac:(lia)) as [_ Hm].
      assert (Hm' : (Z.pos m < 2 ^ 24)%Z).
      { eapply Z.lt_le_trans; [exact Hm|]. apply Z.pow_le_mono_r; lia. }
      apply inject_Z_lt in Hm'.
      assert (Hb : bpow e <= bpow (-15)) by (apply bpow_le; lia).
      pose proof (bpow_pos e) as Hbp.
      assert (Hm0 : 0 < inject_Z (Z.pos m)) by (apply (inject_Z_lt 0); lia).
      change (inject_Z (2 ^ 24)) with (16777216 # 1) in Hm'.
      bpow_num_in Hb.
      generalize dependent (bpow e). intros b. intros.
      generalize dependent (inject_Z (Z.pos m)). intros M. intros.
      assert (H1 : M * b <= M * (1 # 32768)) by (apply Qmult_le_l; lra).
      lra.
Qed.

(** A small non-negative coordinate lies in grid 32 and in one of its cells. *)
Lemma component_small_nonneg x :
  F32.valid x = true -> isfinite x = true ->
  0 <= SF2Q x -> SF2Q x < 512 ->
  F64.to_int (grid_sum x) = Some 32%Z /\
  exists c, F64.to_int (cell_sum x) = Some c /\ (8 * 32 <= c < 8 * 32 + 8)%Z.
Proof.
  intros Vx Fx Hlo Hhi. split.
  - destruct (grid_chain x (-43) (-52) (-47) (-46) Vx Fx)
      as (Fg & a & b & d & Ra & Rb & Rd & Rg); unfold GRID_CO, GRID_ISZ in *; try lia.
    + mag.
    + intros a Ra. rb Ra. mag.
    + intros a b Ra Rb. rb Ra. rb Rb. mag.
    + intros a b d Ra Rb Rd. rb Ra. rb Rb. rb Rd. mag.
    + assert (La : - (8738133 # 32768) <= a).
      { apply (rounded_lb _ _ _ _ Ra); [multiple_c (- 8738133 * 2 ^ 28)%Z | lra]. }
      assert (Lb : - (1 # 2) <= b).
      { apply (rounded_lb _ _ _ _ Rb); [multiple_c (- 2 ^ 51)%Z | lra]. }
      assert (Ld : 63 # 2 <= d).
      { apply (rounded_lb _ _ _ _ Rd); [multiple_c (63 * 2 ^ 46)%Z | lra]. }
      assert (Lg : 32 <= SF2Q (grid_sum x)).
      { apply (rounded_lb _ _ _ _ Rg); [multiple_c (32 * 2 ^ 46)%Z | lra]. }
      rb Ra. rb Rb. rb Rd. rb Rg.
      apply F64_to_int_floor; [exact Fg | | | unfold INT_MAX; lia].
      * change (inject_Z 32) with 32. lra.
      * change (inject_Z 32) with 32. lra.
  - destruct (cell_chain x (-43) (-49) (-44) (-43) Vx Fx)
      as (Fg & a & b & d & Ra & Rb & Rd & Rg); unfold CELL_CO, CELL_ISZ in *; try lia.
    + mag.
    + intros a Ra. rb Ra. mag.
    + intros a b Ra Rb. rb Ra. rb Rb. mag.
    + intros a b d Ra Rb Rd. rb Ra. rb Rb. rb Rd. mag.
    + assert (La : - (8738133 # 262144) <= a).
      { apply (rounded_lb _ _ _ _ Ra); [multiple_c (- 8738133 * 2 ^ 25)%Z | lra]. }
      assert (Lb : - (1 # 2) <= b).
      { apply (rounded_lb _ _ _ _ Rb); [multiple_c (- 2 ^ 48)%Z | lra]. }
      assert (Ld : 511 # 2 <= d).
      { apply (rounded_lb _ _ _ _ Rd); [multiple_c (511 * 2 ^ 43)%Z | lra]. }
      assert (Lg : 256 <= SF2Q (cell_sum x)).
      { apply (rounded_lb _ _ _ _ Rg); [multiple_c (256 * 2 ^ 43)%Z | lra]. }
      rb Ra. rb Rb. rb Rd. rb Rg.
      apply F64_to_int_range; [exact Fg | | | lia | vm_compute; discriminate].
      * change (inject_Z (8 * 32)) with 256. lra.
      * change (inject_Z (8 * 32 + 8)) with 264. lra.
Qed.

(** A small coordinate at most [-2^-37] lies in grid 31 and in one of its cells. *)
Lemma component_small_negative x :
  F32.valid x = true -> isfinite x = true ->
  - (512) < SF2Q x -> SF2Q x <= - bpow (-37) ->
  F64.to_int (grid_sum x) = Some 31%Z /\
  exists c, F64.to_int (cell_sum x) = Some c /\ (8 * 31 <= c < 8 * 31 + 8)%Z.
Proof.
  intros Vx Fx Hlo Hhi. bpow_num_in Hhi. split.
  - destruct (grid_chain x (-43) (-52) (-48) (-47) Vx Fx)
      as (Fg & a & b & d & Ra & Rb & Rd & Rg); unfold GRID_CO, GRID_ISZ in *; try lia.
    + mag.
    + intros a Ra. rb Ra. mag.
    + intros a b Ra Rb. rb Ra. rb Rb. mag.
    + intros a b d Ra Rb Rd. rb Ra. rb Rb. rb Rd. mag.
    + rb Ra. rb Rb. rb Rd. rb Rg.
      apply F64_to_int_floor; [exact Fg | | | unfold INT_MAX; lia].
      * change (inject_Z 31) with 31. lra.
      * change (inject_Z 31) with 31. lra.
  - destruct (cell_chain x (-43) (-49) (-45) (-44) Vx Fx)
      as (Fg & a & b & d & Ra & Rb & Rd & Rg); unfold CELL_CO, CELL_ISZ in *; try lia.
    + mag.
    + intros a Ra. rb Ra. mag.
    + intros a b Ra Rb. rb Ra. rb Rb. mag.
    + intros a b d Ra Rb Rd. rb Ra. rb Rb. rb Rd. mag.
    + rb Ra. rb Rb. rb Rd. rb Rg.
      apply F64_to_int_range; [exact Fg | | | lia | vm_compute; discriminate].
      * change (inject_Z (8 * 31)) with 248. lra.
      * change (inject_Z (8 * 31 + 8)) with 256. lra.
Qed.

(** A valid coordinate that is a multiple of 2^-14 lies in grid [k] and in
    one of the eight cells of that grid, for [k] the integer part of its
    exact scaled position. *)
Lemma component_multiple x N :
  F32.valid x = true -> isfinite x = true ->
  Qabs (SF2Q x) <= MAP_BOUND_Q ->
  SF2Q x == inject_Z N * bpow (-14) ->
  exists k, (0 <= k < 64)%Z /\
    F64.to_int (grid_sum x) = Some k /\
    exists c, F64.to_int (cell_sum x) = Some c /\ (8 * k <= c < 8 * k + 8)%Z.
Proof.
  intros Vx Fx Hx HN. apply Qabs_Qle_condition in Hx. unfold MAP_BOUND_Q in Hx.
  bpow_num_in HN.
  assert (HNlo : (-279612064 <= N)%Z).
  { apply inject_Z_le_inv. change (inject_Z (-279612064)) with (-279612064 # 1). lra. }
  assert (HNhi : (N <= 279612064)%Z).
  { apply inject_Z_le_inv. change (inject_Z 279612064) with (279612064 # 1). lra. }
  set (k := ((N + 279620256) / 8738133)%Z).
  set (r := ((N + 279620256) mod 8738133)%Z).
  assert (HT : (N + 279620256 = 8738133 * k + r)%Z) by (apply Z.div_mod; lia).
  assert (Hr : (0 <= r < 8738133)%Z) by (apply Z.mod_pos_bound; lia).
  assert (Hk : (0 <= k < 64)%Z) by lia.
  assert (Hkmax : (0 <= k <= INT_MAX)%Z) by (unfold INT_MAX; lia).
  assert (Hcmax : (8 * k + 8 <= INT_MAX + 1)%Z) by (unfold INT_MAX; lia).
  clearbody k r.
  Z2Q HT. destruct Hr as [Hr0 Hr1].
  assert (Hr1' : (r <= 8738132)%Z) by lia.
  Z2Q Hr0. Z2Q Hr1'.
  exists k. split; [exact Hk|].
  destruct (grid_chain x (-38) (-47) (-47) (-46) Vx Fx)
    as (Fg & a & b & d & Ra & Rb & Rd & Rg); unfold GRID_CO, GRID_ISZ in *; try lia;
    [ mag
    | intros a Ra; rb Ra; mag
    | intros a b Ra Rb; rb Ra; rb Rb; mag
    | intros a b d Ra Rb Rd; rb Ra; rb Rb; rb Rd; mag |].
  destruct (cell_chain x (-38) (-44) (-44) (-43) Vx Fx)
    as (Fc & a' & b' & d' & Ra' & Rb' & Rd' & Rc); unfold CELL_CO, CELL_ISZ in *; try lia;
    [ mag
    | intros a' Ra'; rb Ra'; mag
    | intros a' b' Ra' Rb'; rb Ra'; rb Rb'; mag
    | intros a' b' d' Ra' Rb' Rd'; rb Ra'; rb Rb'; rb Rd'; mag |].
  destruct (Z.eq_dec r 0) as [Hrz|Hrnz].
  - (* the coordinate is on a grid boundary: every step is exact *)
    Z2Q Hrz.
    assert (Ea : a == SF2Q x - (8738133 # 32768)).
    { apply (rounded_exact _ _ _ Ra). multiple ((2 * N - 8738133) * 8388608)%Z. }
    assert (Eb : b == a * (16384 # 8738133)).
    { apply (rounded_exact _ _ _ Rb). multiple ((2 * k - 65) * 70368744177664)%Z. }
    assert (Ed : d == b + 32).
    { apply (rounded_exact _ _ _ Rd). multiple ((2 * k - 1) * 70368744177664)%Z. }
    assert (Eg : SF2Q (grid_sum x) == d + (1 # 2)).
    { apply (rounded_exact _ _ _ Rg). multiple (k * 70368744177664)%Z. }
    assert (Ea' : a' == SF2Q x - (8738133 # 262144)).
    { apply (rounded_exact _ _ _ Ra'). multiple ((16 * N - 8738133) * 1048576)%Z. }
    assert (Eb' : b' == a' * (131072 # 8738133)).
    { apply (rounded_exact _ _ _ Rb'). multiple ((16 * k - 513) * 8796093022208)%Z. }
    assert (Ed' : d' == b' + 256).
    { apply (rounded_exact _ _ _ Rd'). multiple ((16 * k - 1) * 8796093022208)%Z. }
    assert (Ec : SF2Q (cell_sum x) == d' + (1 # 2)).
    { apply (rounded_exact _ _ _ Rc). multiple (8 * k * 8796093022208)%Z. }
    split.
    + apply F64_to_int_floor; [exact Fg | lra | lra | exact Hkmax].
    + apply F64_to_int_range; [exact Fc | inj; lra | inj; lra | lia | exact Hcmax].
  - (* off the boundary the exact position is 1/8738133 away from it *)
    assert (Hr1'' : (1 <= r)%Z) by lia. Z2Q Hr1''.
    split.
    + rb Ra. rb Rb. rb Rd. rb Rg.
      apply F64_to_int_floor; [exact Fg | lra | lra | exact Hkmax].
    + rb Ra'. rb Rb'. rb Rd'. rb Rc.
      apply F64_to_int_range; [exact Fc | inj; lra | inj; lra | lia | exact Hcmax].
Qed.

Ltac rn H :=
  let R := fresh "R" in
  pose proof (RNE_rounded _ _ _ H) as R; rb R.

Lemma grid_tiny_chain x :
  F32.valid x = true -> isfinite x = true ->
  - bpow (-37) <= SF2Q x -> SF2Q x < 0 ->
  isfinite (grid_pre x) = true /\
  exists a b,
    RNE (-44) (SF2Q x - GRID_CO) a /\ RNE (-53) (a * GRID_ISZ) b /\
    RNE (-48) (b + 32) (SF2Q (grid_pre x)) /\
    b <= - (1 # 2) /\ SF2Q (grid_pre x) <= 63 # 2.
Proof.
  intros Vx Fx Hlo Hhi. bpow_num_in Hlo.
  assert (Ua : forall a, RNE (-44) (SF2Q x - GRID_CO) a -> a <= - (8738133 # 32768)).
  { intros a Ra. apply RNE_rounded in Ra. unfold GRID_CO in Ra.
    apply (rounded_ub _ _ _ _ Ra); [multiple_c (- 8738133 * 2 ^ 29)%Z | lra]. }
  assert (Ub : forall a b, RNE (-44) (SF2Q x - GRID_CO) a -> RNE (-53) (a * GRID_ISZ) b ->
                           b <= - (1 # 2)).
  { intros a b Ra Rb. pose proof (Ua a Ra) as La. apply RNE_rounded in Rb.
    unfold GRID_ISZ in Rb.
    apply (rounded_ub _ _ _ _ Rb); [multiple_c (- 2 ^ 52)%Z | lra]. }
  destruct (Compute_chain_RNE 32 x CENTER_GRID_OFFSET SIZE_OF_GRIDS GRID_CO GRID_ISZ 9 0 5 Vx Fx)
    as (Fd & a & b & Ra & Rb & Rd).
  1: lra.
  1-10: try (vm_compute; reflexivity); try (vm_compute; discriminate); try lia.
  1-3: lia.
  - unfold GRID_CO. bpow_num. apply Qabs_range_neg; lra.
  - intros a Ra. pose proof (Ua a Ra) as La. rn Ra. unfold GRID_CO, GRID_ISZ in *.
    bpow_num. apply Qabs_range_neg; lra.
  - intros a b Ra Rb. pose proof (Ua a Ra) as La. pose proof (Ub a b Ra Rb) as Lb.
    rn Ra. rn Rb. unfold GRID_CO, GRID_ISZ in *.
    split; [lra|]. bpow_num. change (inject_Z 32) with 32. apply Qabs_range_pos; lra.
  - split; [exact Fd|]. exists a, b. change (inject_Z 32) with 32 in Rd.
    fold (grid_pre x) in Rd.
    pose proof (Ub a b Ra Rb) as Lb.
    repeat split; try assumption.
    apply RNE_rounded in Rd.
    apply (rounded_ub _ _ _ _ Rd); [multiple_c (63 * 2 ^ 47)%Z | lra].
Qed.

Lemma cell_tiny_chain x :
  F32.valid x = true -> isfinite x = true ->
  - bpow (-37) <= SF2Q x -> SF2Q x < 0 ->
  isfinite (cell_pre x) = true /\
  exists a b,
    RNE (-47) (SF2Q x - CELL_CO) a /\ RNE (-53) (a * CELL_ISZ) b /\
    RNE (-45) (b + 256) (SF2Q (cell_pre x)) /\
    b <= - (1 # 2) /\ SF2Q (cell_pre x) <= 511 # 2.
Proof.
  intros Vx Fx Hlo Hhi. bpow_num_in Hlo.
  assert (Ua : forall a, RNE (-47) (SF2Q x - CELL_CO) a -> a <= - (8738133 # 262144)).
  { intros a Ra. apply RNE_rounded in Ra. unfold CELL_CO in Ra.
    apply (rounded_ub _ _ _ _ Ra); [multiple_c (- 8738133 * 2 ^ 29)%Z | lra]. }
  assert (Ub : forall a b, RNE (-47) (SF2Q x - CELL_CO) a -> RNE (-53) (a * CELL_ISZ) b ->
                           b <= - (1 # 2)).
  { intros a b Ra Rb. pose proof (Ua a Ra) as La. apply RNE_rounded in Rb.
    unfold CELL_ISZ in Rb.
    apply (rounded_ub _ _ _ _ Rb); [multiple_c (- 2 ^ 52)%Z | lra]. }
  destruct (Compute_chain_RNE 256 x CENTER_GRID_CELL_OFFSET SIZE_OF_GRID_CELL
              CELL_CO CELL_ISZ 6 0 8 Vx Fx)
    as (Fd & a & b & Ra & Rb & Rd).
  1: lra.
  1-10: try (vm_compute; reflexivity); try (vm_compute; discriminate); try lia.
  1-3: lia.
  - unfold CELL_CO. bpow_num. apply Qabs_range_neg; lra.
  - intros a Ra. pose proof (Ua a Ra) as La. rn Ra. unfold CELL_CO, CELL_ISZ in *.
    bpow_num. apply Qabs_range_neg; lra.
  - intros a b Ra Rb. pose proof (Ua a Ra) as La. pose proof (Ub a b Ra Rb) as Lb.
    rn Ra. rn Rb. unfold CELL_CO, CELL_ISZ in *.
    split; [lra|]. bpow_num. change (inject_Z 256) with 256. apply Qabs_range_pos; lra.
  - split; [exact Fd|]. exists a, b. change (inject_Z 256) with 256 in Rd.
    fold (cell_pre x) in Rd.
    pose proof (Ub a b Ra Rb) as Lb.
    repeat split; try assumption.
    apply RNE_rounded in Rd.
    apply (rounded_ub _ _ _ _ Rd); [multiple_c (511 * 2 ^ 44)%Z | lra].
Qed.

(** Adding 0.5 to a double that is a multiple of [2^E] and whose sum does
    not exceed [2^(E+53)] is exact. *)
Lemma F64_add_half_exact d k E :
  isfinite d = true -> (-1074 <= E <= -1)%Z ->
  SF2Q d == inject_Z k * bpow E ->
  0 <= SF2Q d + (1 # 2) -> SF2Q d + (1 # 2) <= bpow (E + 53) ->
  isfinite (F64.add d F64.half) = true /\
  SF2Q (F64.add d F64.half) == SF2Q d + (1 # 2).
Proof.
  intros Fd HE Hk Hlo Hhi.
  assert (Hhalf : 1 # 2 == inject_Z (2 ^ (-1 - E)) * bpow E).
  { rewrite <- (bpow_split E (-1)) by lia. reflexivity. }
  assert (Hv : SF2Q d + (1 # 2) == inject_Z (k + 2 ^ (-1 - E)) * bpow E).
  { rewrite inject_Z_plus, Hk. rewrite Hhalf at 1. ring. }
  assert (Hsum : SF2Q d + SF2Q F64.half == SF2Q d + (1 # 2))
    by (rewrite F64_half_Q; reflexivity).
  destruct (Qlt_le_dec (SF2Q d + (1 # 2)) (bpow (E + 53))) as [Hlt|Hge].
  - destruct (F64_add_rounded d F64.half E Fd eq_refl) as [Fg Rg]; [lia| |].
    + rewrite Hsum, Qabs_pos by exact Hlo. exact Hlt.
    + split; [exact Fg|].
      apply (rounded_eq _ _ _ _ _ Hsum (Qeq_refl _)) in Rg.
      apply (rounded_exact _ _ _ Rg). eexists. exact Hv.
  - assert (Heq : SF2Q d + (1 # 2) == bpow (E + 53)) by (apply Qle_antisym; assumption).
    destruct (F64_add_rounded d F64.half (E + 1) Fd eq_refl) as [Fg Rg]; [lia| |].
    + rewrite Hsum, Qabs_pos by exact Hlo. rewrite Heq. apply bpow_lt. lia.
    + split; [exact Fg|].
      apply (rounded_eq _ _ _ _ _ Hsum (Qeq_refl _)) in Rg.
      apply (rounded_exact _ _ _ Rg).
      exists (2 ^ 52)%Z. rewrite Heq. rewrite (bpow_split (E + 1) (E + 53)) by lia.
      replace (E + 53 - (E + 1))%Z with 52%Z by lia. reflexivity.
Qed.

Lemma grid_tiny_sum x :
  F32.valid x = true -> isfinite x = true ->
  - bpow (-37) <= SF2Q x -> SF2Q x < 0 ->
  isfinite (grid_sum x) = true /\
  SF2Q (grid_sum x) == SF2Q (grid_pre x) + (1 # 2) /\
  31 <= SF2Q (grid_pre x) + (1 # 2) /\ SF2Q (grid_pre x) + (1 # 2) <= 32.
Proof.
  intros Vx Fx Hlo Hhi.
  destruct (grid_tiny_chain x Vx Fx Hlo Hhi) as (Fd & a & b & Ra & Rb & Rd & Lb & Ld).
  bpow_num_in Hlo. rn Ra. rn Rb. rn Rd. unfold GRID_CO, GRID_ISZ in *.
  destruct Rd as (k & Hk & _).
  change (grid_sum x) with (F64.add (grid_pre x) F64.half).
  destruct (F64_add_half_exact (grid_pre x) k (-48) Fd ltac:(lia) Hk) as [Fg Eg].
  - lra.
  - bpow_num. lra.
  - split; [exact Fg|]. split; [exact Eg|]. split; lra.
Qed.

Lemma cell_tiny_sum x :
  F32.valid x = true -> isfinite x = true ->
  - bpow (-37) <= SF2Q x -> SF2Q x < 0 ->
  isfinite (cell_sum x) = true /\
  SF2Q (cell_sum x) == SF2Q (cell_pre x) + (1 # 2) /\
  255 <= SF2Q (cell_pre x) + (1 # 2) /\ SF2Q (cell_pre x) + (1 # 2) <= 256.
Proof.
  intros Vx Fx Hlo Hhi.
  destruct (cell_tiny_chain x Vx Fx Hlo Hhi) as (Fd & a & b & Ra & Rb & Rd & Lb & Ld).
  bpow_num_in Hlo. rn Ra. rn Rb. rn Rd. unfold CELL_CO, CELL_ISZ in *.
  destruct Rd as (k & Hk & _).
  change (cell_sum x) with (F64.add (cell_pre x) F64.half).
  destruct (F64_add_half_exact (cell_pre x) k (-45) Fd ltac:(lia) Hk) as [Fg Eg].
  - lra.
  - bpow_num. lra.
  - split; [exact Fg|]. split; [exact Eg|]. split; lra.
Qed.

(** Just below zero the rounded sums are monotone in the coordinate. *)
Lemma grid_tiny_monotone x x' :
  F32.valid x = true -> isfinite x = true ->
  F32.valid x' = true -> isfinite x' = true ->
  - bpow (-37) <= SF2Q x -> SF2Q x <= SF2Q x' -> SF2Q x' < 0 ->
  SF2Q (grid_pre x) <= SF2Q (grid_pre x').
Proof.
  intros Vx Fx Vx' Fx' Hlo Hle Hhi.
  destruct (grid_tiny_chain x Vx Fx Hlo) as (_ & a & b & Ra & Rb & Rd & _); [lra|].
  destruct (grid_tiny_chain x' Vx' Fx') as (_ & a' & b' & Ra' & Rb' & Rd' & _); [lra|lra|].
  assert (Ha : a <= a') by (apply (RNE_monotone _ _ _ _ _ Ra Ra'); lra).
  assert (Hb : b <= b').
  { apply (RNE_monotone _ _ _ _ _ Rb Rb'). unfold GRID_ISZ. lra. }
  apply (RNE_monotone _ _ _ _ _ Rd Rd'). lra.
Qed.

Lemma cell_tiny_monotone x x' :
  F32.valid x = true -> isfinite x = true ->
  F32.valid x' = true -> isfinite x' = true ->
  - bpow (-37) <= SF2Q x -> SF2Q x <= SF2Q x' -> SF2Q x' < 0 ->
  SF2Q (cell_pre x) <= SF2Q (cell_pre x').
Proof.
  intros Vx Fx Vx' Fx' Hlo Hle Hhi.
  destruct (cell_tiny_chain x Vx Fx Hlo) as (_ & a & b & Ra & Rb & Rd & _); [lra|].
  destruct (cell_tiny_chain x' Vx' Fx') as (_ & a' & b' & Ra' & Rb' & Rd' & _); [lra|lra|].
  assert (Ha : a <= a') by (apply (RNE_monotone _ _ _ _ _ Ra Ra'); lra).
  assert (Hb : b <= b').
  { apply (RNE_monotone _ _ _ _ _ Rb Rb'). unfold CELL_ISZ. lra. }
  apply (RNE_monotone _ _ _ _ _ Rd Rd'). lra.
Qed.

Lemma on_seam_Q c :
  F32.valid c = true -> isfinite c = true ->
  on_seam c = true <->
  - (9175039 # 1) * bpow (-63) <= SF2Q c /\ SF2Q c <= - (8749056 # 1) * bpow (-63).
Proof.
  intros Vc Fc. unfold on_seam. rewrite andb_true_iff.
  rewrite (SFleb_Q F32.prec F32.emax eq_refl SEAM_LO c eq_refl Vc eq_refl Fc).
  rewrite (SFleb_Q F32.prec F32.emax eq_refl c SEAM_HI Vc eq_refl Fc eq_refl).
  assert (E1 : SF2Q SEAM_LO == - (9175039 # 1) * bpow (-63))
    by (cbn [SEAM_LO SF2Q cond_Qopp]; inj_consts; ring).
  assert (E2 : SF2Q SEAM_HI == - (8749056 # 1) * bpow (-63))
    by (cbn [SEAM_HI SF2Q cond_Qopp]; inj_consts; ring).
  rewrite E1, E2. reflexivity.
Qed.

(** Between [-(N+1) 2^-63] and [-N 2^-63], for [N] at least [2^23], there is
    no binary32 number. *)
Lemma float32_gap x N :
  F32.valid x = true -> isfinite x = true -> (2 ^ 23 <= N)%Z ->
  SF2Q x <= - inject_Z (N + 1) * bpow (-63) \/ - inject_Z N * bpow (-63) <= SF2Q x.
Proof.
  intros Vx Fx HN. pose proof (bpow_pos (-63)) as Hb.
  assert (HNq : 0 < inject_Z N) by (apply (inject_Z_lt 0); lia).
  assert (HNb : 0 < inject_Z N * bpow (-63)) by nra.
  destruct x as [s|s| |s m e]; try discriminate.
  - right. cbn [SF2Q]. lra.
  - pose proof (finite_pos_Q m e) as Hpos.
    destruct s; cbn [SF2Q cond_Qopp]; [|right; lra].
    unfold F32.valid in Vx. cbn [valid_binary] in Vx.
    apply (bounded_spec F32.prec F32.emax) in Vx. destruct Vx as (_ & Hd & _).
    unfold F32.prec in Hd.
    pose proof (Zdigits2_bounds (Z.pos m) ltac:(lia)) as [_ Hm].
    assert (Hm' : (Z.pos m < 2 ^ 24)%Z).
    { eapply Z.lt_le_trans; [exact Hm|]. apply Z.pow_le_mono_r; lia. }
    destruct (Z_le_gt_dec (-63) e) as [He|He].
    + rewrite (bpow_split (-63) e He).
      set (K := (Z.pos m * 2 ^ (e - -63))%Z).
      assert (HK : inject_Z (Z.pos m) * (inject_Z (2 ^ (e - -63)) * bpow (-63))
                   == inject_Z K * bpow (-63)).
      { unfold K. rewrite inject_Z_mult. ring. }
      rewrite HK. clearbody K.
      destruct (Z_le_gt_dec K N) as [HKN|HKN].
      * right. apply inject_Z_le in HKN.
        assert (inject_Z K * bpow (-63) <= inject_Z N * bpow (-63))
          by (apply Qmult_le_compat_r; lra).
        lra.
      * left. assert (HKN' : (N + 1 <= K)%Z) by lia. apply inject_Z_le in HKN'.
        assert (inject_Z (N + 1) * bpow (-63) <= inject_Z K * bpow (-63))
          by (apply Qmult_le_compat_r; lra).
        lra.
    + right.
      assert (Hbe : bpow e <= bpow (-64)) by (apply bpow_le; lia).
      pose proof (bpow_pos e) as Hbp.
      assert (Hm0 : 0 < inject_Z (Z.pos m)) by (apply (inject_Z_lt 0); lia).
      apply inject_Z_lt in Hm'. apply inject_Z_le in HN.
      change (inject_Z (2 ^ 24)) with (16777216 # 1) in Hm'.
      change (inject_Z (2 ^ 23)) with (8388608 # 1) in HN.
      bpow_num_in Hbe. bpow_num_in Hb. bpow_num_in HNb. bpow_num.
      generalize dependent (bpow e). intros b. intros.
      generalize dependent (inject_Z (Z.pos m)). intros M. intros.
      generalize dependent (inject_Z N). intros N'. intros.
      assert (H1 : M * b <= M * (1 # 18446744073709551616)) by (apply Qmult_le_l; lra).
      lra.
Qed.

Lemma grid_pre_low :
  grid_pre (S754_finite true 9175040 (-63)) = S754_finite false 8866461766385663 (-48).
Proof. vm_compute. reflexivity. Qed.

Lemma grid_pre_high :
  grid_pre (S754_finite true 9175039 (-63)) = S754_finite false 8866461766385664 (-48).
Proof. vm_compute. reflexivity. Qed.

Lemma cell_pre_low :
  cell_pre (S754_finite true 8749056 (-63)) = S754_finite false 8989607068696575 (-45).
Proof. vm_compute. reflexivity. Qed.

Lemma cell_pre_high :
  cell_pre (S754_finite true 8749055 (-63)) = S754_finite false 8989607068696576 (-45).
Proof. vm_compute. reflexivity. Qed.

Ltac seam_value H :=
  cbn [SF2Q cond_Qopp] in H; inj_consts_in H; bpow_num_in H.

Lemma grid_tiny_low x :
  F32.valid x = true -> isfinite x = true ->
  - bpow (-37) <= SF2Q x -> SF2Q x <= - (9175040 # 1) * bpow (-63) ->
  F64.to_int (grid_sum x) = Some 31%Z.
Proof.
  intros Vx Fx Hlo Hhi.
  set (x0 := S754_finite true 9175040 (-63)).
  assert (E0 : SF2Q x0 == - (9175040 # 1) * bpow (-63))
    by (cbn [x0 SF2Q cond_Qopp]; inj_consts; ring).
  pose proof (grid_tiny_monotone x x0 Vx Fx eq_refl eq_refl Hlo) as Hm.
  unfold x0 in Hm at 3. rewrite grid_pre_low in Hm. rewrite E0 in Hm.
  bpow_num_in Hhi. bpow_num_in Hm. seam_value Hm.
  destruct (grid_tiny_sum x Vx Fx Hlo) as (Fg & Eg & Lg & Ug); [lra|].
  apply F64_to_int_floor; [exact Fg | | | unfold INT_MAX; lia].
  - change (inject_Z 31) with 31. lra.
  - change (inject_Z 31) with 31. lra.
Qed.

Lemma grid_tiny_high x :
  F32.valid x = true -> isfinite x = true ->
  - (9175039 # 1) * bpow (-63) <= SF2Q x -> SF2Q x < 0 ->
  F64.to_int (grid_sum x) = Some 32%Z.
Proof.
  intros Vx Fx Hlo Hhi.
  set (x0 := S754_finite true 9175039 (-63)).
  assert (E0 : SF2Q x0 == - (9175039 # 1) * bpow (-63))
    by (cbn [x0 SF2Q cond_Qopp]; inj_consts; ring).
  assert (Hlo0 : - bpow (-37) <= SF2Q x0) by (rewrite E0; bpow_num; lra).
  pose proof (grid_tiny_monotone x0 x eq_refl eq_refl Vx Fx Hlo0) as Hm.
  unfold x0 in Hm at 2. rewrite grid_pre_high in Hm. rewrite E0 in Hm.
  bpow_num_in Hlo. bpow_num_in Hm. seam_value Hm.
  destruct (grid_tiny_sum x Vx Fx) as (Fg & Eg & Lg & Ug); [bpow_num; lra | lra |].
  apply F64_to_int_floor; [exact Fg | | | unfold INT_MAX; lia].
  - change (inject_Z 32) with 32. lra.
  - change (inject_Z 32) with 32. lra.
Qed.

Lemma cell_tiny_low x :
  F32.valid x = true -> isfinite x = true ->
  - bpow (-37) <= SF2Q x -> SF2Q x <= - (8749056 # 1) * bpow (-63) ->
  F64.to_int (cell_sum x) = Some 255%Z.
Proof.
  intros Vx Fx Hlo Hhi.
  set (x0 := S754_finite true 8749056 (-63)).
  assert (E0 : SF2Q x0 == - (8749056 # 1) * bpow (-63))
    by (cbn [x0 SF2Q cond_Qopp]; inj_consts; ring).
  pose proof (cell_tiny_monotone x x0 Vx Fx eq_refl eq_refl Hlo) as Hm.
  unfold x0 in Hm at 3. rewrite cell_pre_low in Hm. rewrite E0 in Hm.
  bpow_num_in Hhi. bpow_num_in Hm. seam_value Hm.
  destruct (cell_tiny_sum x Vx Fx Hlo) as (Fg & Eg & Lg & Ug); [lra|].
  apply F64_to_int_floor; [exact Fg | | | unfold INT_MAX; lia].
  - change (inject_Z 255) with 255. lra.
  - change (inject_Z 255) with 255. lra.
Qed.

Lemma cell_tiny_high x :
  F32.valid x = true -> isfinite x = true ->
  - (8749055 # 1) * bpow (-63) <= SF2Q x -> SF2Q x < 0 ->
  F64.to_int (cell_sum x) = Some 256%Z.
Proof.
  intros Vx Fx Hlo Hhi.
  set (x0 := S754_finite true 8749055 (-63)).
  assert (E0 : SF2Q x0 == - (8749055 # 1) * bpow (-63))
    by (cbn [x0 SF2Q cond_Qopp]; inj_consts; ring).
  assert (Hlo0 : - bpow (-37) <= SF2Q x0) by (rewrite E0; bpow_num; lra).
  pose proof (cell_tiny_monotone x0 x eq_refl eq_refl Vx Fx Hlo0) as Hm.
  unfold x0 in Hm at 2. rewrite cell_pre_high in Hm. rewrite E0 in Hm.
  bpow_num_in Hlo. bpow_num_in Hm. seam_value Hm.
  destruct (cell_tiny_sum x Vx Fx) as (Fg & Eg & Lg & Ug); [bpow_num; lra | lra |].
  apply F64_to_int_floor; [exact Fg | | | unfold INT_MAX; lia].
  - change (inject_Z 256) with 256. lra.
  - change (inject_Z 256) with 256. lra.
Qed.

(** Just below zero: grid 31 and cell 255 up to the seam, grid 32 and cell
    255 on it, grid 32 and cell 256 above it. *)
Lemma component_tiny x :
  F32.valid x = true -> isfinite x = true ->
  - bpow (-37) <= SF2Q x -> SF2Q x < 0 ->
  exists k c,
    F64.to_int (grid_sum x) = Some k /\ F64.to_int (cell_sum x) = Some c /\
    if on_seam x then k = 32%Z /\ c = 255%Z
    else (k = 31%Z /\ c = 255%Z) \/ (k = 32%Z /\ c = 256%Z).
Proof.
  intros Vx Fx Hlo Hhi.
  pose proof (on_seam_Q x Vx Fx) as Hs.
  pose proof (float32_gap x 9175039 Vx Fx ltac:(lia)) as Hg.
  pose proof (float32_gap x 8749055 Vx Fx ltac:(lia)) as Hc.
  change (inject_Z (9175039 + 1)) with (9175040 # 1) in Hg.
  change (inject_Z 9175039) with (9175039 # 1) in Hg.
  change (inject_Z (8749055 + 1)) with (8749056 # 1) in Hc.
  change (inject_Z 8749055) with (8749055 # 1) in Hc.
  pose proof (bpow_pos (-63)) as Hb.
  destruct Hg as [Hg|Hg].
  - exists 31%Z, 255%Z.
    split; [apply grid_tiny_low; assumption|].
    split; [apply cell_tiny_low; try assumption; lra|].
    destruct (on_seam x); [|left; split; reflexivity].
    exfalso. destruct (proj1 Hs eq_refl) as [H1 _]. lra.
  - destruct Hc as [Hc|Hc].
    + exists 32%Z, 255%Z.
      split; [apply grid_tiny_high; assumption|].
      split; [apply cell_tiny_low; assumption|].
      rewrite (proj2 Hs (conj Hg Hc)). split; reflexivity.
    + exists 32%Z, 256%Z.
      split; [apply grid_tiny_high; assumption|].
      split; [apply cell_tiny_high; assumption|].
      destruct (on_seam x); [|right; split; reflexivity].
      exfalso. destruct (proj1 Hs eq_refl) as [_ H2]. lra.
Qed.

(** One component: off the seam the cell index lies among the eight cells
    of the grid index; on the seam the grid index is 32 and the cell index
    is 255. *)
Lemma component_exact x :
  F32.valid x = true -> Trinity.IsValidMapCoord x = true ->
  exists k c, (0 <= k < 64)%Z /\
    F64.to_int (grid_sum x) = Some k /\ F64.to_int (cell_sum x) = Some c /\
    if on_seam x then k = 32%Z /\ c = 255%Z else (8 * k <= c < 8 * k + 8)%Z.
Proof.
  intros Vx Hx. apply (IsValidMapCoord_Q x Vx) in Hx. destruct Hx as [Fx Hx].
  pose proof (on_seam_Q x Vx Fx) as Hs. bpow_num_in Hs.
  destruct (float32_multiple_or_small x Vx Fx) as [[N HN]|Hsmall].
  - destruct (component_multiple x N Vx Fx Hx HN) as (k & Hk & Hg & c & Hc & Hkc).
    exists k, c. repeat split; try assumption; try lia.
    destruct (on_seam x); [exfalso|exact Hkc].
    destruct (proj1 Hs eq_refl) as [H1 H2]. bpow_num_in HN.
    destruct (Z_le_gt_dec N (-1)) as [Hn|Hn].
    + Z2Q Hn. lra.
    + assert (Hn' : (0 <= N)%Z) by lia. Z2Q Hn'. lra.
  - apply Qabs_Qlt_condition in Hsmall. destruct Hsmall as [Hlo Hhi].
    destruct (Qlt_le_dec (SF2Q x) 0) as [Hneg|Hnn].
    + destruct (Qlt_le_dec (- bpow (-37)) (SF2Q x)) as [Htiny|Hle].
      * destruct (component_tiny x Vx Fx) as (k & c & Hg & Hc & Hkc); [lra|exact Hneg|].
        exists k, c.
        destruct (on_seam x).
        -- repeat split; try assumption; lia.
        -- repeat split; try assumption; lia.
      * destruct (component_small_negative x Vx Fx Hlo Hle) as (Hg & c & Hc & Hkc).
        exists 31%Z, c. repeat split; try assumption; try lia.
        destruct (on_seam x); [exfalso|exact Hkc].
        destruct (proj1 Hs eq_refl) as [H1 H2]. bpow_num_in Hle. lra.
    + destruct (component_small_nonneg x Vx Fx Hnn Hhi) as (Hg & c & Hc & Hkc).
      exists 32%Z, c. repeat split; try assumption; try lia.
      destruct (on_seam x); [exfalso|exact Hkc].
      destruct (proj1 Hs eq_refl) as [H1 H2]. lra.
Qed.

(** The extent of the disagreement between the two computations: for a
    valid position the grid and the cell coordinates are defined, and a
    component of the cell coordinate divided by [MAX_NUMBER_OF_CELLS] is the
    corresponding component of the grid coordinate exactly when that
    component of the position is not on the seam [SEAM_LO, SEAM_HI] just
    below zero. *)
Lemma cell_grid_consistent_iff (x y : spec_float) :
  F32.valid x = true -> F32.valid y = true ->
  Trinity.IsValidMapCoord2 x y = true ->
  exists g c,
    Trinity.ComputeGridCoord x y = Some g /\
    Trinity.ComputeCellCoord x y = Some c /\
    ((x_coord c / MAX_NUMBER_OF_CELLS = x_coord g)%Z <-> on_seam x = false) /\
    ((y_coord c / MAX_NUMBER_OF_CELLS = y_coord g)%Z <-> on_seam y = false).
Proof.
  intros Vx Vy H. unfold Trinity.IsValidMapCoord2 in H.
  apply andb_true_iff in H. destruct H as [Hx Hy].
  destruct (component_exact x Vx Hx) as (kx & cx & Hkx & Hgx & Hcx & Hkcx).
  destruct (component_exact y Vy Hy) as (ky & cy & Hky & Hgy & Hcy & Hkcy).
  exists (mkCoordPair kx ky), (mkCoordPair cx cy).
  unfold grid_sum, cell_sum in *.
  unfold Trinity.ComputeGridCoord, Trinity.ComputeCellCoord, Trinity.Compute,
    Trinity.Compute_val.
  rewrite Hgx, Hgy, Hcx, Hcy. unfold CoordPair_of_int.
  assert (Hcxr : (0 <= cx < 512)%Z) by (destruct (on_seam x); lia).
  assert (Hcyr : (0 <= cy < 512)%Z) by (destruct (on_seam y); lia).
  rewrite !wrap32_small by (unfold is_uint32; lia).
  split; [reflexivity|]. split; [reflexivity|].
  cbn [x_coord y_coord]. change MAX_NUMBER_OF_CELLS with 8%Z.
  clear - Hkcx Hkcy. split.
  - destruct (on_seam x).
    + destruct Hkcx as [-> ->]. split; intros H; [vm_compute in H|]; discriminate H.
    + split; [reflexivity|]. intros _. symmetry.
      apply (Z.div_unique cx 8 kx (cx - 8 * kx)); lia.
  - destruct (on_seam y).
    + destruct Hkcy as [-> ->]. split; intros H; [vm_compute in H|]; discriminate H.
    + split; [reflexivity|]. intros _. symmetry.
      apply (Z.div_unique cy 8 ky (cy - 8 * ky)); lia.
Qed.

Local Open Scope Z_scope.

(** * Further properties of [CoordPair] *)

Section CoordPairSteps.
Variable LIMIT : Z.
Hypothesis HLIMIT : is_uint32 LIMIT.

Lemma inc_x_no_wrap p val :
0 < LIMIT -> is_uint32 (x_coord p) -> is_uint32 val -> x_coord p + val < 2 ^ 32 ->
inc_x LIMIT p val = mkCoordPair (Z.min (x_coord p + val) (wrap32 (LIMIT - 1))) (y_coord p).
Proof.
intros Hpos Hx Hv Hs. unfold inc_x, is_uint32 in *.
rewrite (wrap32_small (x_coord p + val)) by (unfold is_uint32; lia).
rewrite wrap32_pred_LIMIT by (unfold is_uint32; lia).
destruct (Z.ltb_spec (x_coord p + val) LIMIT) as [Hlt|Hge]; f_equal; lia.
Qed.

Lemma wrap32_overflow z : 2 ^ 32 <= z < 2 ^ 33 -> wrap32 z = z - 2 ^ 32.
Proof.
intros H. unfold wrap32. symmetry. apply (Z.mod_unique z (2 ^ 32) 1); lia.
Qed.
End CoordPairSteps.

(** X1. Stepping forth and back: on a valid coordinate, [inc_x] by [val]
    followed by [dec_x] by [val] returns the coordinate when the step stays
    below [LIMIT], and [dec_x] followed by [inc_x] returns it when [val] is
    below the component; the same for [inc_y] and [dec_y]. *)
Theorem X1_inc_dec_round_trip (LIMIT : Z) (p : CoordPair) (val : Z) :
  is_uint32 LIMIT -> is_uint32 (x_coord p) -> is_uint32 (y_coord p) -> is_uint32 val ->
  IsCoordValid LIMIT p = true ->
  (x_coord p + val < LIMIT -> dec_x (inc_x LIMIT p val) val = p) /\
  (y_coord p + val < LIMIT -> dec_y (inc_y LIMIT p val) val = p) /\
  (val < x_coord p -> inc_x LIMIT (dec_x p val) val = p) /\
  (val < y_coord p -> inc_y LIMIT (dec_y p val) val = p).
Proof.
  intros HL Hx Hy Hv Hp. apply IsCoordValid_spec in Hp. destruct Hp as [Hpx Hpy].
  destruct p as [x y]. cbn [x_coord y_coord] in *. unfold is_uint32 in *.
  repeat split; intros H.
  - unfold inc_x. cbn [x_coord y_coord].
    rewrite (wrap32_small (x + val)) by (unfold is_uint32; lia).
    destruct (Z.ltb_spec (x + val) LIMIT); [|lia].
    unfold dec_x. cbn [x_coord y_coord].
    destruct (Z.ltb_spec val (x + val)).
    + rewrite wrap32_small by (unfold is_uint32; lia). f_equal. lia.
    + f_equal. lia.
  - unfold inc_y. cbn [x_coord y_coord].
    rewrite (wrap32_small (y + val)) by (unfold is_uint32; lia).
    destruct (Z.ltb_spec (y + val) LIMIT); [|lia].
    unfold dec_y. cbn [x_coord y_coord].
    destruct (Z.ltb_spec val (y + val)).
    + rewrite wrap32_small by (unfold is_uint32; lia). f_equal. lia.
    + f_equal. lia.
  - unfold dec_x. cbn [x_coord y_coord].
    destruct (Z.ltb_spec val x); [|lia].
    rewrite (wrap32_small (x - val)) by (unfold is_uint32; lia).
    unfold inc_x. cbn [x_coord y_coord].
    replace (x - val + val) with x by lia.
    rewrite (wrap32_small x) by (unfold is_uint32; lia).
    destruct (Z.ltb_spec x LIMIT); [reflexivity|lia].
  - unfold dec_y. cbn [x_coord y_coord].
    destruct (Z.ltb_spec val y); [|lia].
    rewrite (wrap32_small (y - val)) by (unfold is_uint32; lia).
    unfold inc_y. cbn [x_coord y_coord].
    replace (y - val + val) with y by lia.
    rewrite (wrap32_small y) by (unfold is_uint32; lia).
    destruct (Z.ltb_spec y LIMIT); [reflexivity|lia].
Qed.

Lemma X1_witness :
  (3 + 4 < 64 -> dec_x (inc_x 64 (mkCoordPair 3 5) 4) 4 = mkCoordPair 3 5) /\
  (5 + 4 < 64 -> dec_y (inc_y 64 (mkCoordPair 3 5) 4) 4 = mkCoordPair 3 5) /\
  (4 < 3 -> inc_x 64 (dec_x (mkCoordPair 3 5) 4) 4 = mkCoordPair 3 5) /\
  (4 < 5 -> inc_y 64 (dec_y (mkCoordPair 3 5) 4) 4 = mkCoordPair 3 5).
Proof.
  apply (X1_inc_dec_round_trip 64 (mkCoordPair 3 5) 4);
    try (unfold is_uint32; cbn [x_coord y_coord]; lia).
  reflexivity.
Defined.

(** X2. [dec_x] never increases the component. [inc_x] does not decrease
    it, and is the sum capped at [LIMIT - 1], as long as the 32-bit sum
    does not wrap; when the sum wraps, the component becomes the wrapped
    sum, which is below the component it started from. *)
Theorem X2_inc_wraps (LIMIT : Z) (p : CoordPair) (val : Z) :
  is_uint32 LIMIT -> is_uint32 (x_coord p) -> is_uint32 (y_coord p) -> is_uint32 val ->
  IsCoordValid LIMIT p = true ->
  x_coord (dec_x p val) = Z.max 0 (x_coord p - val) /\
  x_coord (dec_x p val) <= x_coord p /\
  (x_coord p + val < 2 ^ 32 ->
   x_coord (inc_x LIMIT p val) = Z.min (x_coord p + val) (LIMIT - 1) /\
   x_coord p <= x_coord (inc_x LIMIT p val)) /\
  (2 ^ 32 <= x_coord p + val ->
   x_coord (inc_x LIMIT p val) = x_coord p + val - 2 ^ 32 /\
   x_coord (inc_x LIMIT p val) < x_coord p).
Proof.
  intros HL Hx Hy Hv Hp. apply IsCoordValid_spec in Hp. destruct Hp as [Hpx Hpy].
  destruct p as [x y]. cbn [x_coord y_coord] in *. unfold is_uint32 in *.
  assert (Hd : x_coord (dec_x (mkCoordPair x y) val) = Z.max 0 (x - val)).
  { unfold dec_x. cbn [x_coord y_coord]. destruct (Z.ltb_spec val x); cbn [x_coord].
    - rewrite wrap32_small by (unfold is_uint32; lia). lia.
    - lia. }
  split; [exact Hd|]. split; [rewrite Hd; lia|]. split; intros H.
  - rewrite (inc_x_no_wrap LIMIT HL) by (unfold is_uint32; cbn [x_coord]; lia).
    cbn [x_coord]. rewrite (wrap32_pred_LIMIT LIMIT HL) by lia. lia.
  - unfold inc_x. cbn [x_coord y_coord].
    rewrite (wrap32_overflow (x + val)) by lia.
    destruct (Z.ltb_spec (x + val - 2 ^ 32) LIMIT); cbn [x_coord]; lia.
Qed.

Lemma X2_witness :
  x_coord (dec_x (mkCoordPair 5 0) 4294967293) = Z.max 0 (5 - 4294967293) /\
  x_coord (dec_x (mkCoordPair 5 0) 4294967293) <= 5 /\
  (5 + 4294967293 < 2 ^ 32 ->
   x_coord (inc_x 64 (mkCoordPair 5 0) 4294967293) = Z.min (5 + 4294967293) (64 - 1) /\
   5 <= x_coord (inc_x 64 (mkCoordPair 5 0) 4294967293)) /\
  (2 ^ 32 <= 5 + 4294967293 ->
   x_coord (inc_x 64 (mkCoordPair 5 0) 4294967293) = 5 + 4294967293 - 2 ^ 32 /\
   x_coord (inc_x 64 (mkCoordPair 5 0) 4294967293) < 5).
Proof.
  apply (X2_inc_wraps 64 (mkCoordPair 5 0) 4294967293);
    try (unfold is_uint32; cbn [x_coord y_coord]; lia).
  reflexivity.
Defined.

(** X3. [normalize] for an arbitrary template argument: with [LIMIT]
    positive the result is valid, each component is the minimum of the
    component and [LIMIT - 1], the coordinate is unchanged exactly when it
    was valid, and a second [normalize] changes nothing. With [LIMIT] zero,
    [LIMIT - 1] wraps to 2^32 - 1: nothing is changed and no coordinate is
    valid. *)
Theorem X3_normalize_general (LIMIT : Z) (p : CoordPair) :
  is_uint32 LIMIT -> is_uint32 (x_coord p) -> is_uint32 (y_coord p) ->
  (0 < LIMIT ->
   IsCoordValid LIMIT (normalize LIMIT p) = true /\
   normalize LIMIT p = mkCoordPair (Z.min (x_coord p) (LIMIT - 1))
                                   (Z.min (y_coord p) (LIMIT - 1)) /\
   (normalize LIMIT p = p <-> IsCoordValid LIMIT p = true) /\
   normalize LIMIT (normalize LIMIT p) = normalize LIMIT p) /\
  (LIMIT = 0 -> normalize LIMIT p = p /\ IsCoordValid LIMIT p = false).
Proof.
  intros HL Hx Hy. destruct p as [x y]. cbn [x_coord y_coord] in *. split.
  - intros Hpos.
    assert (Hn : normalize LIMIT (mkCoordPair x y)
                 = mkCoordPair (Z.min x (LIMIT - 1)) (Z.min y (LIMIT - 1))).
    { unfold normalize. cbn [x_coord y_coord].
      rewrite (wrap32_pred_LIMIT LIMIT HL Hpos). reflexivity. }
    split; [apply (normalize_valid LIMIT HL); exact Hpos|].
    split; [exact Hn|]. split.
    + rewrite Hn, IsCoordValid_spec. cbn [x_coord y_coord]. split.
      * intros H. injection H as H1 H2. lia.
      * intros [H1 H2]. f_equal; lia.
    + rewrite Hn. unfold normalize. cbn [x_coord y_coord].
      rewrite (wrap32_pred_LIMIT LIMIT HL Hpos). f_equal; lia.
  - intros ->. unfold is_uint32 in *. split.
    + unfold normalize. cbn [x_coord y_coord].
      change (wrap32 (0 - 1)) with (2 ^ 32 - 1). f_equal; lia.
    + unfold IsCoordValid. cbn [x_coord y_coord].
      destruct (Z.ltb_spec x 0); [lia|reflexivity].
Qed.

Lemma X3_witness :
  (0 < 64 ->
   IsCoordValid 64 (normalize 64 (mkCoordPair 69 4294967291)) = true /\
   normalize 64 (mkCoordPair 69 4294967291)
   = mkCoordPair (Z.min 69 (64 - 1)) (Z.min 4294967291 (64 - 1)) /\
   (normalize 64 (mkCoordPair 69 4294967291) = mkCoordPair 69 4294967291
    <-> IsCoordValid 64 (mkCoordPair 69 4294967291) = true) /\
   normalize 64 (normalize 64 (mkCoordPair 69 4294967291))
   = normalize 64 (mkCoordPair 69 4294967291)) /\
  (64 = 0 -> normalize 64 (mkCoordPair 69 4294967291) = mkCoordPair 69 4294967291 /\
             IsCoordValid 64 (mkCoordPair 69 4294967291) = false).
Proof.
  apply (X3_normalize_general 64 (mkCoordPair 69 4294967291));
    unfold is_uint32; cbn [x_coord y_coord]; lia.
Defined.

(** X4. The identifier decodes: when [LIMIT * LIMIT] fits 32 bits, the
    components of a valid coordinate are the remainder and the quotient of
    its [GetId] by [LIMIT]. *)
Theorem X4_GetId_decodes (LIMIT : Z) (p : CoordPair) :
  LIMIT * LIMIT <= 2 ^ 32 ->
  0 <= x_coord p -> 0 <= y_coord p ->
  IsCoordValid LIMIT p = true ->
  GetId LIMIT p mod LIMIT = x_coord p /\ GetId LIMIT p / LIMIT = y_coord p.
Proof.
  intros HL Hx Hy Hp. apply IsCoordValid_spec in Hp. destruct Hp as [Hpx Hpy].
  destruct p as [x y]. cbn [x_coord y_coord] in *.
  assert (Hpos : 0 < LIMIT) by lia.
  assert (Hyl : y * LIMIT <= (LIMIT - 1) * LIMIT) by nia.
  assert (Hid : GetId LIMIT (mkCoordPair x y) = y * LIMIT + x).
  { unfold GetId. cbn [x_coord y_coord].
    rewrite (wrap32_small (y * LIMIT)) by (unfold is_uint32; nia).
    apply wrap32_small. unfold is_uint32. nia. }
  rewrite Hid. split.
  - symmetry. apply (Z.mod_unique (y * LIMIT + x) LIMIT y x); lia.
  - symmetry. apply (Z.div_unique (y * LIMIT + x) LIMIT y x); lia.
Qed.

Lemma X4_witness :
  GetId 512 (mkCoordPair 511 300) mod 512 = 511 /\ GetId 512 (mkCoordPair 511 300) / 512 = 300.
Proof.
  apply (X4_GetId_decodes 512 (mkCoordPair 511 300)); cbn [x_coord y_coord]; try lia.
  reflexivity.
Defined.

Local Open Scope Q_scope.

(** * Further properties of validity and clamping *)

Lemma NormalizeMapCoord_result c :
  F32.valid c = true -> c <> S754_nan ->
  F32.valid (Trinity.NormalizeMapCoord c) = true /\
  Trinity.IsValidMapCoord (Trinity.NormalizeMapCoord c) = true.
Proof.
  intros Vc Hc. destruct (isfinite c) eqn:Fc.
  - destruct (NormalizeMapCoord_cases c Vc Fc) as [[_ ->]|[[_ ->]|[Hin ->]]].
    + split; vm_compute; reflexivity.
    + split; vm_compute; reflexivity.
    + split; [exact Vc|]. apply (IsValidMapCoord_Q c Vc). split; assumption.
  - destruct c as [s|[|]| |s m e]; try discriminate Fc.
    + split; vm_compute; reflexivity.
    + split; vm_compute; reflexivity.
    + exfalso. apply Hc. reflexivity.
Qed.

(** X5. [NormalizeMapCoord] on the values that are not finite: an infinity
    is clamped to the bound of its sign, a NaN is returned as it is, so the
    result is a valid coordinate for every input except a NaN. *)
Theorem X5_NormalizeMapCoord_not_finite (c : spec_float) :
  F32.valid c = true ->
  Trinity.NormalizeMapCoord (S754_infinity false) = Trinity.MAP_BOUND /\
  Trinity.NormalizeMapCoord (S754_infinity true) = SFopp Trinity.MAP_BOUND /\
  Trinity.NormalizeMapCoord S754_nan = S754_nan /\
  (Trinity.IsValidMapCoord (Trinity.NormalizeMapCoord c) = true <-> c <> S754_nan).
Proof.
  intros Vc.
  split; [vm_compute; reflexivity|]. split; [vm_compute; reflexivity|].
  split; [vm_compute; reflexivity|]. split.
  - intros H ->. vm_compute in H. discriminate H.
  - intros Hc. apply (NormalizeMapCoord_result c Vc Hc).
Qed.

Lemma X5_witness :
  Trinity.NormalizeMapCoord (S754_infinity false) = Trinity.MAP_BOUND /\
  Trinity.NormalizeMapCoord (S754_infinity true) = SFopp Trinity.MAP_BOUND /\
  Trinity.NormalizeMapCoord S754_nan = S754_nan /\
  (Trinity.IsValidMapCoord (Trinity.NormalizeMapCoord (S754_infinity true)) = true
   <-> S754_infinity true <> S754_nan).
Proof. exact (X5_NormalizeMapCoord_not_finite (S754_infinity true) eq_refl). Defined.

Lemma NormalizeMapCoord_Q c :
  F32.valid c = true -> isfinite c = true ->
  F32.valid (Trinity.NormalizeMapCoord c) = true /\
  isfinite (Trinity.NormalizeMapCoord c) = true /\
  (MAP_BOUND_Q < SF2Q c /\ SF2Q (Trinity.NormalizeMapCoord c) == MAP_BOUND_Q \/
   SF2Q c < - MAP_BOUND_Q /\ SF2Q (Trinity.NormalizeMapCoord c) == - MAP_BOUND_Q \/
   Qabs (SF2Q c) <= MAP_BOUND_Q /\ SF2Q (Trinity.NormalizeMapCoord c) == SF2Q c).
Proof.
  intros Vc Fc.
  destruct (NormalizeMapCoord_cases c Vc Fc) as [[H ->]|[[H ->]|[H ->]]].
  - split; [reflexivity|]. split; [reflexivity|]. left. split; [exact H|]. apply MAP_BOUND_Q_eq.
  - split; [reflexivity|]. split; [reflexivity|]. right; left. split; [exact H|].
    rewrite SF2Q_opp, MAP_BOUND_Q_eq. reflexivity.
  - split; [exact Vc|]. split; [exact Fc|]. right; right. split; [exact H|reflexivity].
Qed.

(** X6. [NormalizeMapCoord] is the projection on the valid range: the
    result is a valid coordinate, no valid coordinate is nearer to the
    argument, every valid coordinate of another value is strictly farther,
    and the function is monotone. *)
Theorem X6_NormalizeMapCoord_projection (c c' v : spec_float) :
  F32.valid c = true -> isfinite c = true ->
  F32.valid c' = true -> isfinite c' = true ->
  F32.valid v = true -> Trinity.IsValidMapCoord v = true ->
  F32.valid (Trinity.NormalizeMapCoord c) = true /\
  Trinity.IsValidMapCoord (Trinity.NormalizeMapCoord c) = true /\
  Qabs (SF2Q (Trinity.NormalizeMapCoord c) - SF2Q c) <= Qabs (SF2Q v - SF2Q c) /\
  (SF2Q v == SF2Q (Trinity.NormalizeMapCoord c) \/
   Qabs (SF2Q (Trinity.NormalizeMapCoord c) - SF2Q c) < Qabs (SF2Q v - SF2Q c)) /\
  (SF2Q c <= SF2Q c' ->
   SF2Q (Trinity.NormalizeMapCoord c) <= SF2Q (Trinity.NormalizeMapCoord c')).
Proof.
  intros Vc Fc Vc' Fc' Vv Hv.
  assert (Hn : c <> S754_nan) by (intros ->; discriminate Fc).
  destruct (NormalizeMapCoord_result c Vc Hn) as [Vr Hr].
  split; [exact Vr|]. split; [exact Hr|].
  apply (IsValidMapCoord_Q v Vv) in Hv. destruct Hv as [_ Hv].
  apply Qabs_Qle_condition in Hv.
  destruct (NormalizeMapCoord_Q c Vc Fc) as (_ & _ & Hc).
  destruct (NormalizeMapCoord_Q c' Vc' Fc') as (_ & _ & Hc').
  unfold MAP_BOUND_Q in *.
  split; [|split].
  - destruct Hc as [[H E]|[[H E]|[H E]]]; rewrite E.
    + rewrite Qabs_neg by lra. rewrite Qabs_neg by lra. lra.
    + rewrite Qabs_pos by lra. rewrite Qabs_pos by lra. lra.
    + setoid_replace (SF2Q c - SF2Q c) with 0 by ring. apply Qabs_nonneg.
  - destruct Hc as [[H E]|[[H E]|[H E]]]; rewrite E.
    + rewrite Qabs_neg by lra. rewrite Qabs_neg by lra.
      destruct (Qlt_le_dec (SF2Q v) (8737877 # 512)); [right; lra|left; lra].
    + rewrite Qabs_pos by lra. rewrite Qabs_pos by lra.
      destruct (Qlt_le_dec (- (8737877 # 512)) (SF2Q v)); [right; lra|left; lra].
    + assert (Z0 : Qabs (SF2Q c - SF2Q c) == 0)
        by (setoid_replace (SF2Q c - SF2Q c) with 0 by ring; reflexivity).
      rewrite Z0.
      destruct (Qlt_le_dec (SF2Q v) (SF2Q c)) as [L|L].
      * right. rewrite Qabs_neg by lra. lra.
      * destruct (Qlt_le_dec (SF2Q c) (SF2Q v)) as [L'|L'].
        -- right. rewrite Qabs_pos by lra. lra.
        -- left. lra.
  - intros Hle.
    destruct Hc as [[H E]|[[H E]|[H E]]]; rewrite E;
      destruct Hc' as [[H' E']|[[H' E']|[H' E']]]; rewrite E';
      try apply Qabs_Qle_condition in H; try apply Qabs_Qle_condition in H'; lra.
Qed.

Lemma X6_witness :
  F32.valid (Trinity.NormalizeMapCoord (S754_finite true 10240000 (-9))) = true /\
  Trinity.IsValidMapCoord (Trinity.NormalizeMapCoord (S754_finite true 10240000 (-9))) = true /\
  Qabs (SF2Q (Trinity.NormalizeMapCoord (S754_finite true 10240000 (-9)))
        - SF2Q (S754_finite true 10240000 (-9)))
  <= Qabs (SF2Q (S754_zero false) - SF2Q (S754_finite true 10240000 (-9))) /\
  (SF2Q (S754_zero false) == SF2Q (Trinity.NormalizeMapCoord (S754_finite true 10240000 (-9))) \/
   Qabs (SF2Q (Trinity.NormalizeMapCoord (S754_finite true 10240000 (-9)))
         - SF2Q (S754_finite true 10240000 (-9)))
   < Qabs (SF2Q (S754_zero false) - SF2Q (S754_finite true 10240000 (-9)))) /\
  (SF2Q (S754_finite true 10240000 (-9)) <= SF2Q (S754_finite false 8388608 (-23)) ->
   SF2Q (Trinity.NormalizeMapCoord (S754_finite true 10240000 (-9)))
   <= SF2Q (Trinity.NormalizeMapCoord (S754_finite false 8388608 (-23)))).
Proof.
  exact (X6_NormalizeMapCoord_projection (S754_finite true 10240000 (-9))
           (S754_finite false 8388608 (-23)) (S754_zero false)
           eq_refl eq_refl eq_refl eq_refl eq_refl eq_refl).
Defined.

(** * The coordinate computations outside their domain *)

Lemma grid_val_not_finite x :
  isfinite x = false ->
  Trinity.Compute_val CENTER_GRID_ID
    (Trinity.Compute_offset x CENTER_GRID_OFFSET SIZE_OF_GRIDS) = None.
Proof. destruct x as [s|[|]| |s m e]; try discriminate; intros _; vm_compute; reflexivity. Qed.

Lemma cell_val_not_finite x :
  isfinite x = false ->
  Trinity.Compute_val CENTER_GRID_CELL_ID
    (Trinity.Compute_offset x CENTER_GRID_CELL_OFFSET SIZE_OF_GRID_CELL) = None.
Proof. destruct x as [s|[|]| |s m e]; try discriminate; intros _; vm_compute; reflexivity. Qed.

Lemma cell_off_val_not_finite x :
  isfinite x = false ->
  F64.to_int
    (F64.add (F64.add (F64.div (F64.sub (F64.of_float x) (F64.of_float CENTER_GRID_CELL_OFFSET))
                               (F64.of_float SIZE_OF_GRID_CELL))
                      (F64.of_int CENTER_GRID_CELL_ID))
             (F64.of_float half_f)) = None.
Proof. destruct x as [s|[|]| |s m e]; try discriminate; intros _; vm_compute; reflexivity. Qed.

Lemma simple_val_not_finite x :
  isfinite x = false -> Trinity.ComputeGridCoordSimple_val x = None.
Proof. destruct x as [s|[|]| |s m e]; try discriminate; intros _; vm_compute; reflexivity. Qed.

(** X7. The coordinate computations are undefined on a position with an
    infinite or NaN component: the conversion to [int] has no value there,
    for [ComputeGridCoord], [ComputeCellCoord] (both overloads) and
    [ComputeGridCoordSimple] alike. *)
Theorem X7_undefined_when_not_finite (x y : spec_float) :
  isfinite x = false \/ isfinite y = false ->
  Trinity.ComputeGridCoord x y = None /\
  Trinity.ComputeCellCoord x y = None /\
  Trinity.ComputeCellCoord_offsets x y = None /\
  Trinity.ComputeGridCoordSimple x y = None.
Proof.
  intros H.
  unfold Trinity.ComputeGridCoord, Trinity.ComputeCellCoord, Trinity.Compute,
    Trinity.ComputeCellCoord_offsets, Trinity.ComputeGridCoordSimple.
  destruct H as [H|H].
  - rewrite (grid_val_not_finite x H), (cell_val_not_finite x H),
      (cell_off_val_not_finite x H), (simple_val_not_finite x H).
    repeat split; reflexivity.
  - rewrite (grid_val_not_finite y H), (cell_val_not_finite y H),
      (cell_off_val_not_finite y H), (simple_val_not_finite y H).
    repeat split;
      match goal with |- match ?t with _ => _ end = None => destruct t; reflexivity end.
Qed.

Lemma X7_witness :
  Trinity.ComputeGridCoord (S754_zero false) S754_nan = None /\
  Trinity.ComputeCellCoord (S754_zero false) S754_nan = None /\
  Trinity.ComputeCellCoord_offsets (S754_zero false) S754_nan = None /\
  Trinity.ComputeGridCoordSimple (S754_zero false) S754_nan = None.
Proof.
  apply (X7_undefined_when_not_finite (S754_zero false) S754_nan). right. reflexivity.
Defined.

(** * The coordinate computations in exact arithmetic *)

Lemma Qfloor_unique q k : inject_Z k <= q -> q < inject_Z k + 1 -> Qfloor q = k.
Proof.
  intros Hlo Hhi.
  pose proof (Qfloor_le q) as H1. pose proof (Qlt_floor q) as H2.
  rewrite inject_Z_plus in H2. change (inject_Z 1) with 1 in H2.
  assert (Ha : inject_Z k < inject_Z (Qfloor q + 1))
    by (rewrite inject_Z_plus; change (inject_Z 1) with 1; lra).
  assert (Hb : inject_Z (Qfloor q) < inject_Z (k + 1))
    by (rewrite inject_Z_plus; change (inject_Z 1) with 1; lra).
  apply inject_Z_lt_inv in Ha, Hb. lia.
Qed.

Lemma grid_scaled_Q x : SF2Q x / SF2Q SIZE_OF_GRIDS == SF2Q x * GRID_ISZ.
Proof.
  rewrite SIZE_OF_GRIDS_eq. unfold Qdiv. apply Qmult_comp; [reflexivity|].
  vm_compute. reflexivity.
Qed.

Lemma cell_scaled_Q x : SF2Q x / SF2Q SIZE_OF_GRID_CELL == SF2Q x * CELL_ISZ.
Proof.
  rewrite SIZE_OF_GRID_CELL_eq. unfold Qdiv. apply Qmult_comp; [reflexivity|].
  vm_compute. reflexivity.
Qed.

Lemma below_zero_from_Q lo c :
  F32.valid lo = true -> isfinite lo = true ->
  F32.valid c = true -> isfinite c = true ->
  below_zero_from lo c = true <-> SF2Q lo <= SF2Q c /\ SF2Q c < 0.
Proof.
  intros Vl Fl Vc Fc. unfold below_zero_from. rewrite andb_true_iff.
  rewrite (SFleb_Q F32.prec F32.emax eq_refl lo c Vl Vc Fl Fc).
  rewrite (SFltb_Q F32.prec F32.emax eq_refl c (S754_zero false) Vc eq_refl Fc eq_refl).
  reflexivity.
Qed.

(** A valid coordinate that is a multiple of 2^-14: the grid index is the
    integer part of the exact scaled position. *)
Lemma grid_multiple_floor x N :
  F32.valid x = true -> isfinite x = true ->
  Qabs (SF2Q x) <= MAP_BOUND_Q ->
  SF2Q x == inject_Z N * bpow (-14) ->
  F64.to_int (grid_sum x) = Some (32 + Qfloor (SF2Q x * GRID_ISZ))%Z.
Proof.
  intros Vx Fx Hx HN. apply Qabs_Qle_condition in Hx. unfold MAP_BOUND_Q in Hx.
  bpow_num_in HN.
  assert (HNlo : (-279612064 <= N)%Z).
  { apply inject_Z_le_inv. change (inject_Z (-279612064)) with (-279612064 # 1). lra. }
  assert (HNhi : (N <= 279612064)%Z).
  { apply inject_Z_le_inv. change (inject_Z 279612064) with (279612064 # 1). lra. }
  set (k := ((N + 279620256) / 8738133)%Z).
  set (r := ((N + 279620256) mod 8738133)%Z).
  assert (HT : (N + 279620256 = 8738133 * k + r)%Z) by (apply Z.div_mod; lia).
  assert (Hr : (0 <= r < 8738133)%Z) by (apply Z.mod_pos_bound; lia).
  assert (Hk : (0 <= k < 64)%Z) by lia.
  assert (Hkmax : (0 <= k <= INT_MAX)%Z) by (unfold INT_MAX; lia).
  clearbody k r.
  Z2Q HT. destruct Hr as [Hr0 Hr1].
  assert (Hr1' : (r <= 8738132)%Z) by lia.
  Z2Q Hr0. Z2Q Hr1'.
  assert (Hfl : Qfloor (SF2Q x * GRID_ISZ) = (k - 32)%Z).
  { apply Qfloor_unique; unfold GRID_ISZ; inj; lra. }
  rewrite Hfl. replace (32 + (k - 32))%Z with k by lia.
  destruct (grid_chain x (-38) (-47) (-47) (-46) Vx Fx)
    as (Fg & a & b & d & Ra & Rb & Rd & Rg); unfold GRID_CO, GRID_ISZ in *; try lia;
    [ mag
    | intros a Ra; rb Ra; mag
    | intros a b Ra Rb; rb Ra; rb Rb; mag
    | intros a b d Ra Rb Rd; rb Ra; rb Rb; rb Rd; mag |].
  destruct (Z.eq_dec r 0) as [Hrz|Hrnz].
  - Z2Q Hrz.
    assert (Ea : a == SF2Q x - (8738133 # 32768)).
    { apply (rounded_exact _ _ _ Ra). multiple ((2 * N - 8738133) * 8388608)%Z. }
    assert (Eb : b == a * (16384 # 8738133)).
    { apply (rounded_exact _ _ _ Rb). multiple ((2 * k - 65) * 70368744177664)%Z. }
    assert (Ed : d == b + 32).
    { apply (rounded_exact _ _ _ Rd). multiple ((2 * k - 1) * 70368744177664)%Z. }
    assert (Eg : SF2Q (grid_sum x) == d + (1 # 2)).
    { apply (rounded_exact _ _ _ Rg). multiple (k * 70368744177664)%Z. }
    apply F64_to_int_floor; [exact Fg | lra | lra | exact Hkmax].
  - assert (Hr1'' : (1 <= r)%Z) by lia. Z2Q Hr1''.
    rb Ra. rb Rb. rb Rd. rb Rg.
    apply F64_to_int_floor; [exact Fg | lra | lra | exact Hkmax].
Qed.

(** A valid binary32 number is a multiple of [2^e0] or below [2^(e0+23)]
    in magnitude. *)
Lemma float32_multiple_or_below x e0 :
  F32.valid x = true -> isfinite x = true ->
  (exists N : Z, SF2Q x == inject_Z N * bpow e0) \/ Qabs (SF2Q x) < bpow (e0 + 23).
Proof.
  intros Vx Fx. destruct x as [s|s| |s m e]; try discriminate.
  - left. exists 0%Z. cbn [SF2Q]. change (inject_Z 0) with 0. ring.
  - unfold F32.valid in Vx. cbn [valid_binary] in Vx.
    apply (bounded_spec F32.prec F32.emax) in Vx. destruct Vx as (_ & Hd & _).
    unfold F32.prec in Hd.
    destruct (Z_le_gt_dec e0 e) as [He|He].
    + left. exists (cond_Zopp s (Z.pos m) * 2 ^ (e - e0))%Z.
      cbn [SF2Q]. rewrite <- cond_Zopp_Q, inject_Z_mult, (bpow_split e0 e He). ring.
    + right. rewrite <- SF2Q_abs. cbn [SFabs SF2Q cond_Qopp].
      pose proof (Zdigits2_bounds (Z.pos m) ltac:(lia)) as [_ Hm].
      assert (Hm' : (Z.pos m < 2 ^ 24)%Z).
      { eapply Z.lt_le_trans; [exact Hm|]. apply Z.pow_le_mono_r; lia. }
      apply inject_Z_lt in Hm'. rewrite bpow_inject in Hm' by lia.
      assert (Hb : bpow e <= bpow (e0 - 1)) by (apply bpow_le; lia).
      pose proof (bpow_pos e) as Hbp. pose proof (bpow_pos (e0 - 1)) as Hbp0.
      assert (Hm0 : 0 < inject_Z (Z.pos m)) by (apply (inject_Z_lt 0); lia).
      replace (e0 + 23)%Z with (24 + (e0 - 1))%Z by lia. rewrite bpow_add.
      eapply Qle_lt_trans.
      * apply Qmult_le_l; [exact Hm0 | exact Hb].
      * apply Qmult_lt_compat_r; assumption.
Qed.

(** A valid coordinate that is a multiple of 2^-17: the cell index is the
    integer part of the exact scaled position. *)
Lemma cell_multiple_floor x N :
  F32.valid x = true -> isfinite x = true ->
  Qabs (SF2Q x) <= MAP_BOUND_Q ->
  SF2Q x == inject_Z N * bpow (-17) ->
  F64.to_int (cell_sum x) = Some (256 + Qfloor (SF2Q x * CELL_ISZ))%Z.
Proof.
  intros Vx Fx Hx HN. apply Qabs_Qle_condition in Hx. unfold MAP_BOUND_Q in Hx.
  bpow_num_in HN.
  assert (HNlo : (-2236896512 <= N)%Z).
  { apply inject_Z_le_inv. change (inject_Z (-2236896512)) with (-2236896512 # 1). lra. }
  assert (HNhi : (N <= 2236896512)%Z).
  { apply inject_Z_le_inv. change (inject_Z 2236896512) with (2236896512 # 1). lra. }
  set (k := ((N + 2236962048) / 8738133)%Z).
  set (r := ((N + 2236962048) mod 8738133)%Z).
  assert (HT : (N + 2236962048 = 8738133 * k + r)%Z) by (apply Z.div_mod; lia).
  assert (Hr : (0 <= r < 8738133)%Z) by (apply Z.mod_pos_bound; lia).
  assert (Hk : (0 <= k < 512)%Z) by lia.
  assert (Hkmax : (0 <= k <= INT_MAX)%Z) by (unfold INT_MAX; lia).
  clearbody k r.
  Z2Q HT. destruct Hr as [Hr0 Hr1].
  assert (Hr1' : (r <= 8738132)%Z) by lia.
  Z2Q Hr0. Z2Q Hr1'.
  assert (Hfl : Qfloor (SF2Q x * CELL_ISZ) = (k - 256)%Z).
  { apply Qfloor_unique; unfold CELL_ISZ; inj; lra. }
  rewrite Hfl. replace (256 + (k - 256))%Z with k by lia.
  destruct (cell_chain x (-38) (-44) (-44) (-43) Vx Fx)
    as (Fc & a & b & d & Ra & Rb & Rd & Rc); unfold CELL_CO, CELL_ISZ in *; try lia;
    [ mag
    | intros a Ra; rb Ra; mag
    | intros a b Ra Rb; rb Ra; rb Rb; mag
    | intros a b d Ra Rb Rd; rb Ra; rb Rb; rb Rd; mag |].
  destruct (Z.eq_dec r 0) as [Hrz|Hrnz].
  - Z2Q Hrz.
    assert (Ea : a == SF2Q x - (8738133 # 262144)).
    { apply (rounded_exact _ _ _ Ra). multiple ((2 * N - 8738133) * 1048576)%Z. }
    assert (Eb : b == a * (131072 # 8738133)).
    { apply (rounded_exact _ _ _ Rb). multiple ((2 * k - 513) * 8796093022208)%Z. }
    assert (Ed : d == b + 256).
    { apply (rounded_exact _ _ _ Rd). multiple ((2 * k - 1) * 8796093022208)%Z. }
    assert (Ec : SF2Q (cell_sum x) == d + (1 # 2)).
    { apply (rounded_exact _ _ _ Rc). multiple (k * 8796093022208)%Z. }
    apply F64_to_int_floor; [exact Fc | lra | lra | exact Hkmax].
  - assert (Hr1'' : (1 <= r)%Z) by lia. Z2Q Hr1''.
    rb Ra. rb Rb. rb Rd. rb Rc.
    apply F64_to_int_floor; [exact Fc | lra | lra | exact Hkmax].
Qed.

(** A non-negative coordinate below 64 lies in cell 256, a coordinate
    between -64 and [-2^-37] in cell 255. *)
Lemma cell_small_nonneg x :
  F32.valid x = true -> isfinite x = true ->
  0 <= SF2Q x -> SF2Q x < 64 ->
  F64.to_int (cell_sum x) = Some 256%Z.
Proof.
  intros Vx Fx Hlo Hhi.
  destruct (cell_chain x (-43) (-49) (-44) (-43) Vx Fx)
    as (Fg & a & b & d & Ra & Rb & Rd & Rg); unfold CELL_CO, CELL_ISZ in *; try lia.
  - mag.
  - intros a Ra. rb Ra. mag.
  - intros a b Ra Rb. rb Ra. rb Rb. mag.
  - intros a b d Ra Rb Rd. rb Ra. rb Rb. rb Rd. mag.
  - assert (La : - (8738133 # 262144) <= a).
    { apply (rounded_lb _ _ _ _ Ra); [multiple_c (- 8738133 * 2 ^ 25)%Z | lra]. }
    assert (Lb : - (1 # 2) <= b).
    { apply (rounded_lb _ _ _ _ Rb); [multiple_c (- 2 ^ 48)%Z | lra]. }
    assert (Ld : 511 # 2 <= d).
    { apply (rounded_lb _ _ _ _ Rd); [multiple_c (511 * 2 ^ 43)%Z | lra]. }
    assert (Lg : 256 <= SF2Q (cell_sum x)).
    { apply (rounded_lb _ _ _ _ Rg); [multiple_c (256 * 2 ^ 43)%Z | lra]. }
    rb Ra. rb Rb. rb Rd. rb Rg.
    apply F64_to_int_floor; [exact Fg | | | unfold INT_MAX; lia].
    + change (inject_Z 256) with 256. lra.
    + change (inject_Z 256) with 256. lra.
Qed.

Lemma cell_small_negative x :
  F32.valid x = true -> isfinite x = true ->
  - (64) < SF2Q x -> SF2Q x <= - bpow (-37) ->
  F64.to_int (cell_sum x) = Some 255%Z.
Proof.
  intros Vx Fx Hlo Hhi. bpow_num_in Hhi.
  destruct (cell_chain x (-43) (-49) (-45) (-44) Vx Fx)
    as (Fg & a & b & d & Ra & Rb & Rd & Rg); unfold CELL_CO, CELL_ISZ in *; try lia.
  - mag.
  - intros a Ra. rb Ra. mag.
  - intros a b Ra Rb. rb Ra. rb Rb. mag.
  - intros a b d Ra Rb Rd. rb Ra. rb Rb. rb Rd. mag.
  - rb Ra. rb Rb. rb Rd. rb Rg.
    apply F64_to_int_floor; [exact Fg | | | unfold INT_MAX; lia].
    + change (inject_Z 255) with 255. lra.
    + change (inject_Z 255) with 255. lra.
Qed.

Lemma SEAM_LO_Q : SF2Q SEAM_LO == - (9175039 # 1) * bpow (-63).
Proof. cbn [SEAM_LO SF2Q cond_Qopp]. inj_consts. ring. Qed.

Lemma CELL_SEAM_LO_Q : SF2Q CELL_SEAM_LO == - (8749055 # 1) * bpow (-63).
Proof. cbn [CELL_SEAM_LO SF2Q cond_Qopp]. inj_consts. ring. Qed.

(** One component of [ComputeGridCoord] on a valid coordinate. *)
Lemma grid_index_correct x :
  F32.valid x = true -> Trinity.IsValidMapCoord x = true ->
  F64.to_int (grid_sum x) = Some (grid_index x).
Proof.
  intros Vx Hx. apply (IsValidMapCoord_Q x Vx) in Hx. destruct Hx as [Fx Hx].
  pose proof (below_zero_from_Q SEAM_LO x eq_refl eq_refl Vx Fx) as Hs.
  rewrite SEAM_LO_Q in Hs. bpow_num_in Hs.
  unfold grid_index. rewrite (grid_scaled_Q x).
  destruct (float32_multiple_or_below x (-14) Vx Fx) as [[N HN]|Hsmall].
  - rewrite (grid_multiple_floor x N Vx Fx Hx HN).
    destruct (below_zero_from SEAM_LO x); [exfalso|reflexivity].
    destruct (proj1 Hs eq_refl) as [H1 H2]. bpow_num_in HN.
    destruct (Z_le_gt_dec N (-1)) as [Hn|Hn].
    + Z2Q Hn. lra.
    + assert (Hn' : (0 <= N)%Z) by lia. Z2Q Hn'. lra.
  - change (-14 + 23)%Z with 9%Z in Hsmall. bpow_num_in Hsmall.
    apply Qabs_Qlt_condition in Hsmall. destruct Hsmall as [Hlo Hhi].
    destruct (Qlt_le_dec (SF2Q x) 0) as [Hneg|Hnn].
    + assert (Hfl : Qfloor (SF2Q x * GRID_ISZ) = (-1)%Z).
      { apply Qfloor_unique; unfold GRID_ISZ; inj_consts; lra. }
      destruct (Qlt_le_dec (- bpow (-37)) (SF2Q x)) as [Htiny|Hle].
      * pose proof (float32_gap x 9175039 Vx Fx ltac:(lia)) as Hg.
        change (inject_Z (9175039 + 1)) with (9175040 # 1) in Hg.
        change (inject_Z 9175039) with (9175039 # 1) in Hg.
        destruct Hg as [Hg|Hg].
        -- rewrite (grid_tiny_low x Vx Fx) by (try assumption; lra).
           rewrite Hfl.
           destruct (below_zero_from SEAM_LO x); [exfalso|reflexivity].
           destruct (proj1 Hs eq_refl) as [H1 H2]. bpow_num_in Hg. lra.
        -- rewrite (grid_tiny_high x Vx Fx Hg Hneg).
           bpow_num_in Hg. rewrite (proj2 Hs (conj Hg Hneg)). reflexivity.
      * destruct (component_small_negative x Vx Fx Hlo Hle) as (Hg & _).
        rewrite Hg, Hfl.
        destruct (below_zero_from SEAM_LO x); [exfalso|reflexivity].
        destruct (proj1 Hs eq_refl) as [H1 H2]. bpow_num_in Hle. lra.
    + assert (Hfl : Qfloor (SF2Q x * GRID_ISZ) = 0%Z).
      { apply Qfloor_unique; unfold GRID_ISZ; inj_consts; lra. }
      destruct (component_small_nonneg x Vx Fx Hnn Hhi) as (Hg & _).
      rewrite Hg, Hfl.
      destruct (below_zero_from SEAM_LO x); [exfalso|reflexivity].
      destruct (proj1 Hs eq_refl) as [H1 H2]. lra.
Qed.

(** One component of [ComputeCellCoord] on a valid coordinate. *)
Lemma cell_index_correct x :
  F32.valid x = true -> Trinity.IsValidMapCoord x = true ->
  F64.to_int (cell_sum x) = Some (cell_index x).
Proof.
  intros Vx Hx. apply (IsValidMapCoord_Q x Vx) in Hx. destruct Hx as [Fx Hx].
  pose proof (below_zero_from_Q CELL_SEAM_LO x eq_refl eq_refl Vx Fx) as Hs.
  rewrite CELL_SEAM_LO_Q in Hs. bpow_num_in Hs.
  unfold cell_index. rewrite (cell_scaled_Q x).
  destruct (float32_multiple_or_below x (-17) Vx Fx) as [[N HN]|Hsmall].
  - rewrite (cell_multiple_floor x N Vx Fx Hx HN).
    destruct (below_zero_from CELL_SEAM_LO x); [exfalso|reflexivity].
    destruct (proj1 Hs eq_refl) as [H1 H2]. bpow_num_in HN.
    destruct (Z_le_gt_dec N (-1)) as [Hn|Hn].
    + Z2Q Hn. lra.
    + assert (Hn' : (0 <= N)%Z) by lia. Z2Q Hn'. lra.
  - change (-17 + 23)%Z with 6%Z in Hsmall. bpow_num_in Hsmall.
    apply Qabs_Qlt_condition in Hsmall. destruct Hsmall as [Hlo Hhi].
    destruct (Qlt_le_dec (SF2Q x) 0) as [Hneg|Hnn].
    + assert (Hfl : Qfloor (SF2Q x * CELL_ISZ) = (-1)%Z).
      { apply Qfloor_unique; unfold CELL_ISZ; inj_consts; lra. }
      destruct (Qlt_le_dec (- bpow (-37)) (SF2Q x)) as [Htiny|Hle].
      * pose proof (float32_gap x 8749055 Vx Fx ltac:(lia)) as Hg.
        change (inject_Z (8749055 + 1)) with (8749056 # 1) in Hg.
        change (inject_Z 8749055) with (8749055 # 1) in Hg.
        destruct Hg as [Hg|Hg].
        -- rewrite (cell_tiny_low x Vx Fx) by (try assumption; lra).
           rewrite Hfl.
           destruct (below_zero_from CELL_SEAM_LO x); [exfalso|reflexivity].
           destruct (proj1 Hs eq_refl) as [H1 H2]. bpow_num_in Hg. lra.
        -- rewrite (cell_tiny_high x Vx Fx Hg Hneg).
           bpow_num_in Hg. rewrite (proj2 Hs (conj Hg Hneg)). reflexivity.
      * rewrite (cell_small_negative x Vx Fx Hlo Hle), Hfl.
        destruct (below_zero_from CELL_SEAM_LO x); [exfalso|reflexivity].
        destruct (proj1 Hs eq_refl) as [H1 H2]. bpow_num_in Hle. lra.
    + assert (Hfl : Qfloor (SF2Q x * CELL_ISZ) = 0%Z).
      { apply Qfloor_unique; unfold CELL_ISZ; inj_consts; lra. }
      rewrite (cell_small_nonneg x Vx Fx Hnn Hhi), Hfl.
      destruct (below_zero_from CELL_SEAM_LO x); [exfalso|reflexivity].
      destruct (proj1 Hs eq_refl) as [H1 H2]. lra.
Qed.

Lemma grid_index_range x :
  F32.valid x = true -> Trinity.IsValidMapCoord x = true -> (0 <= grid_index x < 64)%Z.
Proof.
  intros Vx Hx. destruct (grid_component_range x Vx Hx) as (n & Hn & Hr).
  rewrite (grid_index_correct x Vx Hx) in Hn. injection Hn as ->. exact Hr.
Qed.

Lemma cell_index_range x :
  F32.valid x = true -> Trinity.IsValidMapCoord x = true -> (0 <= cell_index x < 512)%Z.
Proof.
  intros Vx Hx. destruct (cell_component_range x Vx Hx) as (n & Hn & Hr).
  rewrite (cell_index_correct x Vx Hx) in Hn. injection Hn as ->. exact Hr.
Qed.

(** [Compute] from its two components, when both fit [uint32]. *)
Lemma Compute_components C x y co size nx ny :
  Trinity.Compute_val C (Trinity.Compute_offset x co size) = Some nx ->
  Trinity.Compute_val C (Trinity.Compute_offset y co size) = Some ny ->
  is_uint32 nx -> is_uint32 ny ->
  Trinity.Compute C x y co size = Some (mkCoordPair nx ny).
Proof.
  intros Hx Hy Ux Uy. unfold Trinity.Compute. rewrite Hx, Hy.
  unfold CoordPair_of_int. rewrite (wrap32_small nx Ux), (wrap32_small ny Uy). reflexivity.
Qed.

Lemma grid_index_uint32 x :
  F32.valid x = true -> Trinity.IsValidMapCoord x = true -> is_uint32 (grid_index x).
Proof. intros Vx Hx. pose proof (grid_index_range x Vx Hx). unfold is_uint32. lia. Qed.

Lemma cell_index_uint32 x :
  F32.valid x = true -> Trinity.IsValidMapCoord x = true -> is_uint32 (cell_index x).
Proof. intros Vx Hx. pose proof (cell_index_range x Vx Hx). unfold is_uint32. lia. Qed.

(** X8. [ComputeGridCoord] in exact arithmetic: on a valid position each
    component is 32 plus the integer part (floor) of the coordinate divided
    by [SIZE_OF_GRIDS], except for the negative coordinates from [SEAM_LO]
    up to zero, which are placed in grid 32 and not in grid 31. *)
Theorem X8_ComputeGridCoord_floor (x y : spec_float) :
  F32.valid x = true -> F32.valid y = true ->
  Trinity.IsValidMapCoord2 x y = true ->
  Trinity.ComputeGridCoord x y = Some (mkCoordPair (grid_index x) (grid_index y)).
Proof.
  intros Vx Vy H. unfold Trinity.IsValidMapCoord2 in H.
  apply andb_true_iff in H. destruct H as [Hx Hy].
  apply Compute_components.
  - apply (grid_index_correct x Vx Hx).
  - apply (grid_index_correct y Vy Hy).
  - apply grid_index_uint32; assumption.
  - apply grid_index_uint32; assumption.
Qed.

Lemma X8_witness :
  Trinity.ComputeGridCoord (S754_finite true 8738133 (-14)) (S754_finite true 9175039 (-63))
  = Some (mkCoordPair (grid_index (S754_finite true 8738133 (-14)))
                      (grid_index (S754_finite true 9175039 (-63)))).
Proof.
  exact (X8_ComputeGridCoord_floor (S754_finite true 8738133 (-14))
           (S754_finite true 9175039 (-63)) eq_refl eq_refl eq_refl).
Defined.

(** X9. [ComputeCellCoord] in exact arithmetic: on a valid position each
    component is 256 plus the integer part (floor) of the coordinate
    divided by [SIZE_OF_GRID_CELL], except for the negative coordinates
    from [CELL_SEAM_LO] up to zero, which are placed in cell 256. *)
Theorem X9_ComputeCellCoord_floor (x y : spec_float) :
  F32.valid x = true -> F32.valid y = true ->
  Trinity.IsValidMapCoord2 x y = true ->
  Trinity.ComputeCellCoord x y = Some (mkCoordPair (cell_index x) (cell_index y)).
Proof.
  intros Vx Vy H. unfold Trinity.IsValidMapCoord2 in H.
  apply andb_true_iff in H. destruct H as [Hx Hy].
  apply Compute_components.
  - apply (cell_index_correct x Vx Hx).
  - apply (cell_index_correct y Vy Hy).
  - apply cell_index_uint32; assumption.
  - apply cell_index_uint32; assumption.
Qed.

Lemma X9_witness :
  Trinity.ComputeCellCoord (S754_finite true 8738133 (-14)) (S754_finite true 8749055 (-63))
  = Some (mkCoordPair (cell_index (S754_finite true 8738133 (-14)))
                      (cell_index (S754_finite true 8749055 (-63)))).
Proof.
  exact (X9_ComputeCellCoord_floor (S754_finite true 8738133 (-14))
           (S754_finite true 8749055 (-63)) eq_refl eq_refl eq_refl).
Defined.

(** The exact indices are monotone in the coordinate. *)
Lemma index_monotone (lo size : spec_float) (C : Z) (x x' : spec_float) :
  F32.valid lo = true -> isfinite lo = true ->
  0 < SF2Q size ->
  F32.valid x = true -> isfinite x = true ->
  F32.valid x' = true -> isfinite x' = true ->
  SF2Q x <= SF2Q x' ->
  ((if below_zero_from lo x then C else C + Qfloor (SF2Q x / SF2Q size))
   <= (if below_zero_from lo x' then C else C + Qfloor (SF2Q x' / SF2Q size)))%Z.
Proof.
  intros Vl Fl Hsz Vx Fx Vx' Fx' Hle.
  pose proof (below_zero_from_Q lo x Vl Fl Vx Fx) as Hs.
  pose proof (below_zero_from_Q lo x' Vl Fl Vx' Fx') as Hs'.
  assert (Hinv : 0 < / SF2Q size) by (apply Qinv_lt_0_compat; exact Hsz).
  assert (Hmono : SF2Q x / SF2Q size <= SF2Q x' / SF2Q size).
  { unfold Qdiv. apply Qmult_le_compat_r; [exact Hle | lra]. }
  assert (Hneg : forall c, SF2Q c < 0 -> (Qfloor (SF2Q c / SF2Q size) <= -1)%Z).
  { intros c Hc.
    assert (Hq : SF2Q c / SF2Q size < 0).
    { unfold Qdiv. setoid_replace 0 with (0 * / SF2Q size) by ring.
      apply Qmult_lt_compat_r; assumption. }
    pose proof (Qfloor_le (SF2Q c / SF2Q size)) as Hf.
    assert (Hz : inject_Z (Qfloor (SF2Q c / SF2Q size)) < inject_Z 0)
      by (change (inject_Z 0) with 0; lra).
    apply inject_Z_lt_inv in Hz. lia. }
  assert (Hpos : forall c, 0 <= SF2Q c -> (0 <= Qfloor (SF2Q c / SF2Q size))%Z).
  { intros c Hc.
    assert (Hq : 0 <= SF2Q c / SF2Q size).
    { unfold Qdiv. setoid_replace 0 with (0 * / SF2Q size) by ring.
      apply Qmult_le_compat_r; [assumption | lra]. }
    change 0%Z with (Qfloor 0). apply Qfloor_resp_le. exact Hq. }
  destruct (below_zero_from lo x) eqn:E; destruct (below_zero_from lo x') eqn:E'.
  - lia.
  - destruct (proj1 Hs eq_refl) as [H1 H2].
    destruct (Qlt_le_dec (SF2Q x') 0) as [Hn|Hp].
    + exfalso. assert (Ht : false = true) by (apply Hs'; split; lra).
      discriminate Ht.
    + pose proof (Hpos x' Hp). lia.
  - destruct (proj1 Hs' eq_refl) as [H1 H2].
    pose proof (Hneg x ltac:(lra)). lia.
  - pose proof (Qfloor_resp_le _ _ Hmono). lia.
Qed.

(** X10. On valid positions the grid and the cell coordinate are monotone
    in the position, component by component. *)
Theorem X10_coordinates_monotone (x y x' y' : spec_float) :
  F32.valid x = true -> F32.valid y = true ->
  F32.valid x' = true -> F32.valid y' = true ->
  Trinity.IsValidMapCoord2 x y = true -> Trinity.IsValidMapCoord2 x' y' = true ->
  SF2Q x <= SF2Q x' -> SF2Q y <= SF2Q y' ->
  exists g g' c c',
    Trinity.ComputeGridCoord x y = Some g /\ Trinity.ComputeGridCoord x' y' = Some g' /\
    Trinity.ComputeCellCoord x y = Some c /\ Trinity.ComputeCellCoord x' y' = Some c' /\
    (x_coord g <= x_coord g' /\ y_coord g <= y_coord g')%Z /\
    (x_coord c <= x_coord c' /\ y_coord c <= y_coord c')%Z.
Proof.
  intros Vx Vy Vx' Vy' H H' Hx Hy.
  unfold Trinity.IsValidMapCoord2 in H, H'.
  apply andb_true_iff in H, H'. destruct H as [H1 H2], H' as [H1' H2'].
  assert (G : Trinity.ComputeGridCoord x y = Some (mkCoordPair (grid_index x) (grid_index y))).
  { apply Compute_components; try (apply grid_index_uint32; assumption);
      apply grid_index_correct; assumption. }
  assert (G' : Trinity.ComputeGridCoord x' y'
               = Some (mkCoordPair (grid_index x') (grid_index y'))).
  { apply Compute_components; try (apply grid_index_uint32; assumption);
      apply grid_index_correct; assumption. }
  assert (C : Trinity.ComputeCellCoord x y = Some (mkCoordPair (cell_index x) (cell_index y))).
  { apply Compute_components; try (apply cell_index_uint32; assumption);
      apply cell_index_correct; assumption. }
  assert (C' : Trinity.ComputeCellCoord x' y'
               = Some (mkCoordPair (cell_index x') (cell_index y'))).
  { apply Compute_components; try (apply cell_index_uint32; assumption);
      apply cell_index_correct; assumption. }
  apply (IsValidMapCoord_Q x Vx) in H1. apply (IsValidMapCoord_Q y Vy) in H2.
  apply (IsValidMapCoord_Q x' Vx') in H1'. apply (IsValidMapCoord_Q y' Vy') in H2'.
  destruct H1 as [Fx _], H2 as [Fy _], H1' as [Fx' _], H2' as [Fy' _].
  exists (mkCoordPair (grid_index x) (grid_index y)),
         (mkCoordPair (grid_index x') (grid_index y')),
         (mkCoordPair (cell_index x) (cell_index y)),
         (mkCoordPair (cell_index x') (cell_index y')).
  repeat split; try assumption; cbn [x_coord y_coord]; unfold grid_index, cell_index.
  - apply (index_monotone SEAM_LO SIZE_OF_GRIDS 32); auto; vm_compute; reflexivity.
  - apply (index_monotone SEAM_LO SIZE_OF_GRIDS 32); auto; vm_compute; reflexivity.
  - apply (index_monotone CELL_SEAM_LO SIZE_OF_GRID_CELL 256); auto; vm_compute; reflexivity.
  - apply (index_monotone CELL_SEAM_LO SIZE_OF_GRID_CELL 256); auto; vm_compute; reflexivity.
Qed.

Lemma X10_witness :
  exists g g' c c',
    Trinity.ComputeGridCoord (S754_finite true 8388608 (-23)) (S754_zero false) = Some g /\
    Trinity.ComputeGridCoord (S754_finite false 8388608 (-23)) (S754_finite false 8738133 (-14))
    = Some g' /\
    Trinity.ComputeCellCoord (S754_finite true 8388608 (-23)) (S754_zero false) = Some c /\
    Trinity.ComputeCellCoord (S754_finite false 8388608 (-23)) (S754_finite false 8738133 (-14))
    = Some c' /\
    (x_coord g <= x_coord g' /\ y_coord g <= y_coord g')%Z /\
    (x_coord c <= x_coord c' /\ y_coord c <= y_coord c')%Z.
Proof.
  apply (X10_coordinates_monotone (S754_finite true 8388608 (-23)) (S754_zero false)
           (S754_finite false 8388608 (-23)) (S754_finite false 8738133 (-14)));
    try reflexivity; vm_compute; discriminate.
Defined.

(** * [ComputeGridCoordSimple] *)

(** ** Single-precision steps *)

Lemma F32_sub_rounded x y U :
  isfinite x = true -> isfinite y = true ->
  (-149 <= U < 104)%Z ->
  Qabs (SF2Q x - SF2Q y) < bpow (U + 24) ->
  isfinite (F32.sub x y) = true /\ rounded U (SF2Q x - SF2Q y) (SF2Q (F32.sub x y)).
Proof.
  intros Hx Hy HU Hlt.
  apply (SFsub_rounded F32.prec F32.emax eq_refl); auto;
    rewrite ?emin_spec; unfold F32.prec, F32.emax; lia.
Qed.

Lemma F32_add_rounded x y U :
  isfinite x = true -> isfinite y = true ->
  (-149 <= U < 104)%Z ->
  Qabs (SF2Q x + SF2Q y) < bpow (U + 24) ->
  isfinite (F32.add x y) = true /\ rounded U (SF2Q x + SF2Q y) (SF2Q (F32.add x y)).
Proof.
  intros Hx Hy HU Hlt.
  apply (SFadd_rounded F32.prec F32.emax eq_refl); auto;
    rewrite ?emin_spec; unfold F32.prec, F32.emax; lia.
Qed.

Lemma F32_div_rounded x y U :
  isfinite x = true -> isfinite y = true -> ~ SF2Q y == 0 ->
  (-149 <= U < 104)%Z ->
  Qabs (SF2Q x / SF2Q y) < bpow (U + 24) ->
  isfinite (F32.div x y) = true /\ rounded U (SF2Q x / SF2Q y) (SF2Q (F32.div x y)).
Proof.
  intros Hx Hy Hy0 HU Hlt.
  destruct y as [s|s| |sy my ey]; try discriminate.
  - exfalso. apply Hy0. reflexivity.
  - apply (SFdiv_rounded F32.prec F32.emax eq_refl); auto;
      rewrite ?emin_spec; unfold F32.prec, F32.emax; lia.
Qed.

Lemma float_to_int_floor f k :
  isfinite f = true ->
  inject_Z k <= SF2Q f -> SF2Q f < inject_Z k + 1 ->
  (0 <= k <= INT_MAX)%Z ->
  float_to_int f = Some k.
Proof. apply F64_to_int_floor. Qed.

(** One component of [ComputeGridCoordSimple] on a valid coordinate: with
    [k] the integer part of the exact scaled position, the truncated value
    is [31 - k] or [32 - k]. *)
Lemma simple_val_cases x :
  F32.valid x = true -> Trinity.IsValidMapCoord x = true ->
  exists gx,
    Trinity.ComputeGridCoordSimple_val x = Some gx /\ (0 <= gx <= 63)%Z /\
    (gx = 31 - Qfloor (SF2Q x * GRID_ISZ) \/ gx = 32 - Qfloor (SF2Q x * GRID_ISZ))%Z /\
    (SF2Q x * GRID_ISZ == inject_Z (Qfloor (SF2Q x * GRID_ISZ)) ->
     gx = 32 - Qfloor (SF2Q x * GRID_ISZ))%Z /\
    (- bpow (-37) <= SF2Q x -> SF2Q x < 0 -> gx = 32%Z).
Proof.
  intros Vx Hx. apply (IsValidMapCoord_Q x Vx) in Hx. destruct Hx as [Fx Hx].
  apply Qabs_Qle_condition in Hx. unfold MAP_BOUND_Q in Hx.
  assert (Hdiv : SF2Q x / SF2Q SIZE_OF_GRIDS == SF2Q x * GRID_ISZ) by apply grid_scaled_Q.
  remember (SF2Q x * GRID_ISZ) as t eqn:Et. remember (Qfloor t) as k eqn:Ek.
  pose proof (Qfloor_le t) as Hk1. pose proof (Qlt_floor t) as Hk2.
  rewrite <- Ek in Hk1, Hk2.
  rewrite inject_Z_plus in Hk2. change (inject_Z 1) with 1 in Hk2.
  assert (Ht : t == SF2Q x * (16384 # 8738133)) by (rewrite Et; reflexivity).
  clear Et Ek.
  revert Hdiv.
  assert (Hklo : (-32 <= k)%Z).
  { assert (H : inject_Z (-32) < inject_Z k + 1) by (inj_consts; lra).
    change 1 with (inject_Z 1) in H. rewrite <- inject_Z_plus in H.
    apply inject_Z_lt_inv in H. lia. }
  assert (Hkhi : (k <= 31)%Z).
  { assert (H : inject_Z k < inject_Z 32) by (inj_consts; lra).
    apply inject_Z_lt_inv in H. lia. }
  Z2Q Hklo. Z2Q Hkhi. intros Hdiv.
  destruct (F32_div_rounded x SIZE_OF_GRIDS (-19) Fx eq_refl) as [Fq Rq];
    [vm_compute; discriminate | lia | rewrite Hdiv, Ht; clear Hdiv; mag |].
  apply (rounded_eq _ _ t _ _ Hdiv (Qeq_refl _)) in Rq. clear Hdiv.
  set (q := F32.div x SIZE_OF_GRIDS) in *.
  assert (Lq : inject_Z k <= SF2Q q).
  { apply (rounded_lb _ _ _ _ Rq); [|exact Hk1].
    exists (k * 524288)%Z. inj. bpow_num. lra. }
  assert (Uq : SF2Q q <= inject_Z k + 1).
  { apply (rounded_ub _ _ _ _ Rq); [|lra].
    exists ((k + 1) * 524288)%Z. inj. bpow_num. lra. }
  assert (H32 : SF2Q (F32.of_int CENTER_GRID_ID) == 32) by (vm_compute; reflexivity).
  destruct (F32_sub_rounded (F32.of_int CENTER_GRID_ID) q (-18) eq_refl Fq) as [Fs Rs];
    [lia | rewrite H32; rb Rq; mag |].
  apply (rounded_eq _ _ (32 - SF2Q q) _ _
           (Qplus_comp _ _ H32 _ _ (Qeq_refl (- SF2Q q))) (Qeq_refl _)) in Rs.
  set (s := F32.sub (F32.of_int CENTER_GRID_ID) q) in *.
  assert (Ls : 31 - inject_Z k <= SF2Q s).
  { apply (rounded_lb _ _ _ _ Rs); [|lra].
    exists ((31 - k) * 262144)%Z. inj. bpow_num. lra. }
  assert (Us : SF2Q s <= 32 - inject_Z k).
  { apply (rounded_ub _ _ _ _ Rs); [|lra].
    exists ((32 - k) * 262144)%Z. inj. bpow_num. lra. }
  destruct (F64_trunc_nonneg s Fs ltac:(lra)) as (n & Hn & Hn1 & Hn2).
  assert (Hnlo : (31 - k <= n)%Z).
  { assert (H : inject_Z (31 - k) < inject_Z (n + 1)) by (inj; lra).
    apply inject_Z_lt_inv in H. lia. }
  assert (Hnhi : (n <= 32 - k)%Z).
  { assert (H : inject_Z n <= inject_Z (32 - k)) by (inj; lra).
    apply inject_Z_le_inv in H. exact H. }
  assert (Hn63 : (n <= 63)%Z).
  { rb Rq. rb Rs.
    assert (H : inject_Z n < inject_Z 64) by (inj_consts; lra).
    apply inject_Z_lt_inv in H. lia. }
  exists n. split; [|split; [lia|split; [lia|split]]].
  - unfold Trinity.ComputeGridCoordSimple_val. fold q. fold s.
    apply float_to_int_floor; [exact Fs | exact Hn1 | exact Hn2 | unfold INT_MAX; lia].
  - (* on a grid boundary both operations are exact *)
    intros Hint.
    assert (Eq : SF2Q q == t).
    { apply (rounded_exact _ _ _ Rq). exists (k * 524288)%Z. rewrite Hint. inj. bpow_num. lra. }
    assert (Es : SF2Q s == 32 - SF2Q q).
    { apply (rounded_exact _ _ _ Rs). exists ((32 - k) * 262144)%Z.
      rewrite Eq, Hint. inj. bpow_num. lra. }
    assert (H : inject_Z (32 - k) < inject_Z (n + 1)) by (inj; lra).
    apply inject_Z_lt_inv in H. lia.
  - intros Hlo Hneg. bpow_num_in Hlo. rb Rq. rb Rs.
    assert (Hk : k = (-1)%Z).
    { assert (Ha : inject_Z k < inject_Z 0) by (inj_consts; lra).
      assert (Hb : inject_Z (-2) < inject_Z k) by (inj_consts; lra).
      apply inject_Z_lt_inv in Ha, Hb. lia. }
    assert (Hkq : inject_Z k == -1) by (rewrite Hk; reflexivity).
    assert (H : inject_Z n < inject_Z 33) by (inj_consts; lra).
    apply inject_Z_lt_inv in H. lia.
Qed.

Lemma simple_component x :
  F32.valid x = true -> Trinity.IsValidMapCoord x = true ->
  exists gx,
    Trinity.ComputeGridCoordSimple_val x = Some gx /\ (0 <= gx <= 63)%Z /\
    (63 - gx = grid_index x \/ 63 - gx = grid_index x - 1)%Z /\
    ((exists j : Z, SF2Q x == inject_Z j * SF2Q SIZE_OF_GRIDS) ->
     63 - gx = grid_index x - 1)%Z.
Proof.
  intros Vx Hx.
  destruct (simple_val_cases x Vx Hx) as (gx & Hgx & Hr & Hc & Hint & Htiny).
  apply (IsValidMapCoord_Q x Vx) in Hx. destruct Hx as [Fx Hx].
  pose proof (below_zero_from_Q SEAM_LO x eq_refl eq_refl Vx Fx) as Hs.
  rewrite SEAM_LO_Q in Hs. bpow_num_in Hs.
  exists gx. split; [exact Hgx|]. split; [exact Hr|].
  unfold grid_index. rewrite (grid_scaled_Q x).
  destruct (below_zero_from SEAM_LO x).
  - destruct (proj1 Hs eq_refl) as [H1 H2].
    assert (Hg : gx = 32%Z) by (apply Htiny; [bpow_num; lra | exact H2]).
    split; [right; lia | intros _; lia].
  - split; [lia|]. intros [j Hj].
    assert (Ht : SF2Q x * GRID_ISZ == inject_Z j).
    { rewrite Hj, SIZE_OF_GRIDS_eq.
      setoid_replace (SF2Q (S754_finite false 8738133 (-14))) with (8738133 # 16384)
        by (vm_compute; reflexivity).
      unfold GRID_ISZ. field. }
    assert (Hfl : Qfloor (SF2Q x * GRID_ISZ) = j).
    { apply Qfloor_unique; rewrite Ht; [apply Qle_refl | lra]. }
    rewrite Hfl in Hint |- *. specialize (Hint Ht). lia.
Qed.

(** X11. [ComputeGridCoordSimple] on a valid position: the result is
    defined and within the grid matrix, and each component is the
    component of [ComputeGridCoord] or one less; it is one less whenever
    the coordinate is an integer multiple of [SIZE_OF_GRIDS], as at the
    origin. *)
Theorem X11_ComputeGridCoordSimple (x y : spec_float) :
  F32.valid x = true -> F32.valid y = true ->
  Trinity.IsValidMapCoord2 x y = true ->
  exists gs g,
    Trinity.ComputeGridCoordSimple x y = Some gs /\
    Trinity.ComputeGridCoord x y = Some g /\
    IsCoordValid GRID_LIMIT gs = true /\
    (x_coord gs = x_coord g \/ x_coord gs = x_coord g - 1)%Z /\
    (y_coord gs = y_coord g \/ y_coord gs = y_coord g - 1)%Z /\
    ((exists j : Z, SF2Q x == inject_Z j * SF2Q SIZE_OF_GRIDS) ->
     x_coord gs = x_coord g - 1)%Z /\
    ((exists j : Z, SF2Q y == inject_Z j * SF2Q SIZE_OF_GRIDS) ->
     y_coord gs = y_coord g - 1)%Z.
Proof.
  intros Vx Vy H.
  unfold Trinity.IsValidMapCoord2 in H.
  apply andb_true_iff in H. destruct H as [Hx Hy].
  assert (G : Trinity.ComputeGridCoord x y = Some (mkCoordPair (grid_index x) (grid_index y))).
  { apply Compute_components; try (apply grid_index_uint32; assumption);
      apply grid_index_correct; assumption. }
  destruct (simple_component x Vx Hx) as (gx & Hgx & Rx & Cx & Ix).
  destruct (simple_component y Vy Hy) as (gy & Hgy & Ry & Cy & Iy).
  exists (mkCoordPair (63 - gx) (63 - gy)), (mkCoordPair (grid_index x) (grid_index y)).
  split.
  - unfold Trinity.ComputeGridCoordSimple. rewrite Hgx, Hgy.
    change (MAX_NUMBER_OF_GRIDS - 1)%Z with 63%Z. unfold int_sub, INT_MIN, INT_MAX.
    destruct (Z.leb_spec (- 2 ^ 31) (63 - gx)); [|lia].
    destruct (Z.leb_spec (63 - gx) (2 ^ 31 - 1)); [|lia].
    destruct (Z.leb_spec (- 2 ^ 31) (63 - gy)); [|lia].
    destruct (Z.leb_spec (63 - gy) (2 ^ 31 - 1)); [|lia].
    cbn [andb]. unfold CoordPair_of_int.
    rewrite !wrap32_small by (unfold is_uint32; lia). reflexivity.
  - split; [exact G|]. cbn [x_coord y_coord]. split.
    + apply IsCoordValid_spec. cbn [x_coord y_coord].
      change GRID_LIMIT with 64%Z. lia.
    + repeat split; assumption.
Qed.

Lemma X11_witness :
  exists gs g,
    Trinity.ComputeGridCoordSimple (S754_zero false) (S754_finite false 8388608 (-23)) = Some gs /\
    Trinity.ComputeGridCoord (S754_zero false) (S754_finite false 8388608 (-23)) = Some g /\
    IsCoordValid GRID_LIMIT gs = true /\
    (x_coord gs = x_coord g \/ x_coord gs = x_coord g - 1)%Z /\
    (y_coord gs = y_coord g \/ y_coord gs = y_coord g - 1)%Z /\
    ((exists j : Z, SF2Q (S754_zero false) == inject_Z j * SF2Q SIZE_OF_GRIDS) ->
     x_coord gs = x_coord g - 1)%Z /\
    ((exists j : Z, SF2Q (S754_finite false 8388608 (-23)) == inject_Z j * SF2Q SIZE_OF_GRIDS) ->
     y_coord gs = y_coord g - 1)%Z.
Proof.
  exact (X11_ComputeGridCoordSimple (S754_zero false) (S754_finite false 8388608 (-23))
           eq_refl eq_refl eq_refl).
Defined.

(** * The offsets of [ComputeCellCoord] *)

Section Mul.
Variables prec emax : Z.
Hypothesis Hprec : (0 < prec)%Z.

(** A product is within one unit [2^U] of the exact product when the exact
  product is below [2^(U+prec)]. *)
Lemma SFmul_rounded x y U :
isfinite x = true -> isfinite y = true ->
(emin prec emax <= U)%Z -> (U <= emax - prec - prec)%Z ->
Qabs (SF2Q x * SF2Q y) < bpow (U + prec) ->
isfinite (SFmul prec emax x y) = true /\
rounded U (SF2Q x * SF2Q y) (SF2Q (SFmul prec emax x y)).
Proof.
intros Fx Fy Hmin Hmax Hlt.
assert (Hzero : forall s v, v == 0 ->
          isfinite (S754_zero s) = true /\ rounded U v (SF2Q (S754_zero s))).
{ intros s v Hv. split; [reflexivity|].
  apply rounded_eq with (v := 0) (w := 0); [symmetry; exact Hv | reflexivity |].
  apply (rounded_refl U 0 0%Z 0%Z). reflexivity. }
destruct x as [sx|sx| |sx mx ex]; try discriminate;
  destruct y as [sy|sy| |sy my ey]; try discriminate; cbn [SFmul];
  try (apply Hzero; cbn [SF2Q]; ring).
set (v := inject_Z (Z.pos (mx * my)) * bpow (ex + ey)).
assert (Hv : SF2Q (S754_finite sx mx ex) * SF2Q (S754_finite sy my ey)
             == cond_Qopp (xorb sx sy) v).
{ assert (Hvv : v == inject_Z (Z.pos mx) * bpow ex * (inject_Z (Z.pos my) * bpow ey)).
  { unfold v. rewrite Pos2Z.inj_mul, inject_Z_mult, bpow_add. ring. }
  cbn [SF2Q]. destruct sx, sy; cbn [xorb cond_Qopp]; rewrite Hvv; ring. }
assert (Hvpos : 0 < v) by apply finite_pos_Q.
assert (Hvlt : v < bpow (U + prec)).
{ rewrite Hv in Hlt. destruct (xorb sx sy); cbn [cond_Qopp] in Hlt.
  - rewrite Qabs_opp, Qabs_pos in Hlt by lra. exact Hlt.
  - rewrite Qabs_pos in Hlt by lra. exact Hlt. }
assert (Hd : (Zdigits2 (Z.pos (mx * my)) + (ex + ey) <= U + prec)%Z)
  by (apply digits_bound; [lia | exact Hvlt]).
assert (Hd1 : (1 <= Zdigits2 (Z.pos (mx * my)))%Z) by (cbn; lia).
set (E := Z.max (ex + ey) (fexp prec emax (Zdigits2 (Z.pos (mx * my)) + (ex + ey)))).
assert (HE : (E < emax - prec)%Z) by (unfold E; rewrite fexp_spec; lia).
destruct (binary_round_aux_Q prec emax Hprec (xorb sx sy) (Z.pos (mx * my)) (ex + ey)
            loc_Exact v) as (Hfin & w & Hw & Hr).
- lia.
- apply Qle_refl.
- unfold v. pose proof (bpow_pos (ex + ey)).
  setoid_replace ((inject_Z (Z.pos (mx * my)) + 1) * bpow (ex + ey))
    with (inject_Z (Z.pos (mx * my)) * bpow (ex + ey) + bpow (ex + ey)) by ring.
  lra.
- reflexivity.
- exact HE.
- fold E in Hr. split; [exact Hfin|].
  apply (rounded_eq U (cond_Qopp (xorb sx sy) v) _ (cond_Qopp (xorb sx sy) w) _
           (Qeq_sym _ _ Hv) (Qeq_sym _ _ Hw)).
  assert (Hrr : rounded U v w).
  { destruct (Z_le_gt_dec E U) as [HEU|HEU].
    - exists E. split; [exact HEU | exact Hr].
    - (* the product needs no rounding *)
      assert (HEe : E = (ex + ey)%Z) by (unfold E in *; rewrite fexp_spec in *; lia).
      assert (Hwv : w == v).
      { apply (rnd_to_exact _ _ _ Hr). exists (Z.pos (mx * my)). rewrite HEe. reflexivity. }
      apply (rounded_eq U v v v w (Qeq_refl _) (Qeq_sym _ _ Hwv)).
      apply (rounded_refl U v (Z.pos (mx * my)) (ex + ey)). reflexivity. }
  destruct Hrr as (E' & HE' & Hr'). exists E'. split; [exact HE'|].
  apply rnd_to_cond_opp. exact Hr'.
Qed.
End Mul.

(** ** Single-precision steps, continued *)

Lemma F32_mul_rounded x y U :
  isfinite x = true -> isfinite y = true ->
  (-149 <= U <= 80)%Z ->
  Qabs (SF2Q x * SF2Q y) < bpow (U + 24) ->
  isfinite (F32.mul x y) = true /\ rounded U (SF2Q x * SF2Q y) (SF2Q (F32.mul x y)).
Proof.
  intros Hx Hy HU Hlt.
  apply (SFmul_rounded F32.prec F32.emax eq_refl); auto;
    rewrite ?emin_spec; unfold F32.prec, F32.emax; lia.
Qed.

Lemma F32_of_int_Q C :
  (Z.abs C < 2 ^ 24)%Z ->
  isfinite (F32.of_int C) = true /\ SF2Q (F32.of_int C) == inject_Z C.
Proof.
  intros HC. unfold F32.of_int.
  assert (Hd : (Zdigits2 C <= 24)%Z).
  { destruct C as [|p|p]; [cbn; lia | apply Zdigits2_le; lia |].
    change (Zdigits2 (Z.neg p)) with (Zdigits2 (Z.pos p)). apply Zdigits2_le; lia. }
  destruct (binary_normalize_exact F32.prec F32.emax eq_refl C 0 false) as [Hfin Hval].
  - rewrite fexp_spec, emin_spec. unfold F32.prec, F32.emax. lia.
  - rewrite fexp_spec, emin_spec. unfold F32.prec, F32.emax. lia.
  - split; [exact Hfin|]. rewrite Hval. unfold bpow. rewrite Qpower_0_r. ring.
Qed.

Lemma float_of_double_rounded d U :
  isfinite d = true -> (-149 <= U < 104)%Z ->
  Qabs (SF2Q d) < bpow (U + 24) ->
  isfinite (float_of_double d) = true /\ rounded U (SF2Q d) (SF2Q (float_of_double d)).
Proof.
  intros Fd HU Hlt. destruct d as [s|s| |s m e]; try discriminate.
  - split; [reflexivity|]. apply rounded_float.
  - cbn [float_of_double]. cbn [SF2Q] in Hlt. rewrite <- cond_Zopp_Q in Hlt.
    destruct (binary_normalize_rounded F32.prec F32.emax eq_refl
                (cond_Zopp s (Z.pos m)) e s U) as [Hfin Hr];
      [rewrite emin_spec; unfold F32.prec, F32.emax; lia
      | unfold F32.prec, F32.emax; lia | exact Hlt |].
    split; [exact Hfin|].
    apply (rounded_eq U _ _ _ _ (cond_Zopp_Q s m e) (Qeq_refl _)). exact Hr.
Qed.

Lemma float_of_double_RNE d L :
  isfinite d = true -> (-125 <= L <= 127)%Z ->
  bpow (L - 1) <= Qabs (SF2Q d) -> Qabs (SF2Q d) < bpow L ->
  isfinite (float_of_double d) = true /\ RNE (L - 24) (SF2Q d) (SF2Q (float_of_double d)).
Proof.
  intros Fd HL Hlo Hhi.
  assert (HE : fexp F32.prec F32.emax L = (L - 24)%Z).
  { rewrite fexp_spec, emin_spec. unfold F32.prec, F32.emax. lia. }
  destruct d as [s|s| |s m e]; try discriminate.
  - exfalso. cbn [SF2Q] in Hlo. change (Qabs 0) with 0 in Hlo.
    pose proof (bpow_pos (L - 1)). lra.
  - cbn [float_of_double]. cbn [SF2Q] in Hlo, Hhi.
    rewrite <- cond_Zopp_Q in Hlo, Hhi.
    destruct (binary_normalize_RNE F32.prec F32.emax eq_refl
                (cond_Zopp s (Z.pos m)) e s L Hlo Hhi) as [Hfin Hr];
      [rewrite HE; unfold F32.prec, F32.emax; lia|].
    split; [exact Hfin|]. rewrite HE in Hr.
    apply (RNE_eq _ _ _ _ _ (cond_Zopp_Q s m e) (Qeq_refl _)). exact Hr.
Qed.

Lemma rounded_weaken U U' v w : (U <= U')%Z -> rounded U v w -> rounded U' v w.
Proof. intros H (E & HE & Hr). exists E. split; [lia | exact Hr]. Qed.

(** The double [x_offset] of the cell computation. *)
Lemma cell_offset_chain x :
  F32.valid x = true -> isfinite x = true ->
  Qabs (SF2Q x) <= MAP_BOUND_Q ->
  let o := Trinity.Compute_offset x CENTER_GRID_CELL_OFFSET SIZE_OF_GRID_CELL in
  isfinite o = true /\
  exists a, rounded (-38) (SF2Q x - CELL_CO) a /\ rounded (-44) (a * CELL_ISZ) (SF2Q o).
Proof.
  intros Vx Fx Hx o. apply Qabs_Qle_condition in Hx. unfold MAP_BOUND_Q in Hx.
  destruct (F64_of_float_Q x Vx Fx) as [Fx' Xq].
  destruct (F64_of_float_Q CENTER_GRID_CELL_OFFSET eq_refl eq_refl) as [Fco COq].
  destruct (F64_of_float_Q SIZE_OF_GRID_CELL eq_refl eq_refl) as [Fsz SZq].
  assert (HCO : SF2Q CENTER_GRID_CELL_OFFSET == CELL_CO) by (vm_compute; reflexivity).
  assert (HSZ : / SF2Q SIZE_OF_GRID_CELL == CELL_ISZ) by (vm_compute; reflexivity).
  assert (Hsub : SF2Q (F64.of_float x) - SF2Q (F64.of_float CENTER_GRID_CELL_OFFSET)
                 == SF2Q x - CELL_CO).
  { rewrite Xq, COq, HCO. reflexivity. }
  destruct (F64_sub_rounded (F64.of_float x) (F64.of_float CENTER_GRID_CELL_OFFSET) (-38)
              Fx' Fco) as [Fa Ra]; [lia | rewrite Hsub; unfold CELL_CO; mag |].
  apply (rounded_eq _ _ _ _ _ Hsub (Qeq_refl _)) in Ra.
  set (a := F64.sub (F64.of_float x) (F64.of_float CENTER_GRID_CELL_OFFSET)) in *.
  assert (Hdiv : SF2Q a / SF2Q (F64.of_float SIZE_OF_GRID_CELL) == SF2Q a * CELL_ISZ).
  { rewrite SZq. unfold Qdiv. rewrite HSZ. reflexivity. }
  destruct (F64_div_rounded a (F64.of_float SIZE_OF_GRID_CELL) (-44) Fa Fsz) as [Fb Rb].
  - rewrite SZq. vm_compute. discriminate.
  - lia.
  - rewrite Hdiv. clear Hdiv Hsub. unfold CELL_CO, CELL_ISZ in *. rb Ra. mag.
  - apply (rounded_eq _ _ _ _ _ Hdiv (Qeq_refl _)) in Rb.
    split; [exact Fb|]. exists (SF2Q a). split; assumption.
Qed.

(** One offset of [ComputeCellCoord]: it is finite, at most half a cell in
    magnitude, and within [2^-7] of the distance of the coordinate from the
    centre of its cell. *)
Lemma cell_offset_component x :
  F32.valid x = true -> Trinity.IsValidMapCoord x = true ->
  let w := Trinity.cell_offset
             (Trinity.Compute_offset x CENTER_GRID_CELL_OFFSET SIZE_OF_GRID_CELL)
             (cell_index x) in
  isfinite w = true /\
  Qabs (SF2Q w) <= CELL_CO /\
  Qabs (SF2Q w - (SF2Q x - ((inject_Z (cell_index x) - 256) * (8738133 # 131072) + CELL_CO)))
  <= bpow (-7).
Proof.
  intros Vx Hx w.
  pose proof (cell_index_range x Vx Hx) as Hv.
  apply (IsValidMapCoord_Q x Vx) in Hx. destruct Hx as [Fx Hx].
  destruct (cell_offset_chain x Vx Fx Hx) as (Fo & a & Ra & Ro).
  apply Qabs_Qle_condition in Hx. unfold MAP_BOUND_Q in Hx.
  pose proof (below_zero_from_Q CELL_SEAM_LO x eq_refl eq_refl Vx Fx) as Hs.
  rewrite CELL_SEAM_LO_Q in Hs. bpow_num_in Hs.
  unfold w, Trinity.cell_offset. clear w.
  set (o := Trinity.Compute_offset x CENTER_GRID_CELL_OFFSET SIZE_OF_GRID_CELL) in *.
  remember (cell_index x) as v eqn:Ev.
  set (kv := (v - 256)%Z).
  assert (Hkv : inject_Z v == inject_Z kv + 256).
  { unfold kv. inj. ring. }
  assert (Hkvr : (-256 <= kv < 256)%Z) by (unfold kv; lia).
  assert (Hvk : v = (256 + kv)%Z) by (unfold kv; lia).
  clearbody kv. destruct Hkvr as [Hk1 Hk2]. Z2Q Hk1. assert (Hk2' : (kv <= 255)%Z) by lia.
  Z2Q Hk2'. clear Hk1 Hk2 Hk2'.
  unfold CELL_CO, CELL_ISZ in *.
  (* the single-precision copy of the offset lies in the cell *)
  assert (Hof : isfinite (float_of_double o) = true /\
                inject_Z kv - (1 # 2) <= SF2Q (float_of_double o) /\
                SF2Q (float_of_double o) <= inject_Z kv + (1 # 2) /\
                SF2Q o - bpow (-15) < SF2Q (float_of_double o) /\
                SF2Q (float_of_double o) < SF2Q o + bpow (-15)).
  { unfold cell_index in Ev. rewrite (cell_scaled_Q x) in Ev. unfold CELL_ISZ in Ev.
    destruct (below_zero_from CELL_SEAM_LO x).
    - (* on the seam the offset is just below -1/2 and is rounded to -1/2 *)
      destruct (proj1 Hs eq_refl) as [H1 H2].
      assert (Hkv0 : inject_Z kv == 0).
      { assert (Hz : kv = 0%Z) by lia. rewrite Hz. reflexivity. }
      assert (Ua : a <= - (8738133 # 262144)).
      { apply (rounded_ub _ _ _ _ Ra); [multiple_c (- 8738133 * 2 ^ 20)%Z | lra]. }
      assert (Uo : SF2Q o <= - (1 # 2)).
      { apply (rounded_ub _ _ _ _ Ro); [multiple_c (- 2 ^ 43)%Z | lra]. }
      rb Ra. rb Ro.
      destruct (float_of_double_RNE o 0 Fo ltac:(lia)) as [Ff Rf].
      + bpow_num. rewrite Qabs_neg by lra. lra.
      + bpow_num. rewrite Qabs_neg by lra. lra.
      + change (0 - 24)%Z with (-24)%Z in Rf.
        pose proof (RNE_rounded _ _ _ Rf) as Rf'. rb Rf'.
        destruct Rf as (j & Hj & Hjd & _). bpow_num_in Hj. bpow_num_in Hjd.
        apply Qabs_Qle_condition in Hjd.
        assert (Hj1 : (-8388609 < j)%Z).
        { apply inject_Z_lt_inv. inj_consts. lra. }
        assert (Hj2 : (j < -8388607)%Z).
        { apply inject_Z_lt_inv. inj_consts. lra. }
        assert (Hj3 : j = (-8388608)%Z) by lia.
        rewrite Hj3 in Hj. inj_consts_in Hj.
        split; [exact Ff|]. bpow_num. repeat split; lra.
    - assert (Hfl : Qfloor (SF2Q x * (131072 # 8738133)) = kv).
      { lia. }
      pose proof (Qfloor_le (SF2Q x * (131072 # 8738133))) as Hf1.
      pose proof (Qlt_floor (SF2Q x * (131072 # 8738133))) as Hf2.
      rewrite Hfl in Hf1, Hf2. rewrite inject_Z_plus in Hf2. change (inject_Z 1) with 1 in Hf2.
      clear Hfl Ev.
      assert (La : (inject_Z kv - (1 # 2)) * (8738133 # 131072) <= a).
      { apply (rounded_lb _ _ _ _ Ra); [multiple ((2 * kv - 1) * 9162596548608)%Z | lra]. }
      assert (Ua : a <= (inject_Z kv + (1 # 2)) * (8738133 # 131072)).
      { apply (rounded_ub _ _ _ _ Ra); [multiple ((2 * kv + 1) * 9162596548608)%Z | lra]. }
      assert (Lo : inject_Z kv - (1 # 2) <= SF2Q o).
      { apply (rounded_lb _ _ _ _ Ro); [multiple ((2 * kv - 1) * 8796093022208)%Z | lra]. }
      assert (Uo : SF2Q o <= inject_Z kv + (1 # 2)).
      { apply (rounded_ub _ _ _ _ Ro); [multiple ((2 * kv + 1) * 8796093022208)%Z | lra]. }
      destruct (float_of_double_rounded o (-15) Fo ltac:(lia)) as [Ff Rf]; [mag|].
      split; [exact Ff|]. split; [|split].
      + apply (rounded_lb _ _ _ _ Rf); [multiple ((2 * kv - 1) * 16384)%Z | exact Lo].
      + apply (rounded_ub _ _ _ _ Rf); [multiple ((2 * kv + 1) * 16384)%Z | exact Uo].
      + apply rounded_bounds. exact Rf. }
  clear Hs. destruct Hof as (Ff & Lf & Uf & Ef1 & Ef2). bpow_num_in Ef1. bpow_num_in Ef2.
  rb Ra. rb Ro.
  set (f := float_of_double o) in *.
  (* float(x_val) is exact *)
  destruct (F32_of_int_Q v ltac:(lia)) as [Fv Qv].
  assert (Hsub : SF2Q f - SF2Q (F32.of_int v) == SF2Q f - (inject_Z kv + 256)).
  { rewrite Qv, Hkv. reflexivity. }
  destruct (F32_sub_rounded f (F32.of_int v) (-15) Ff Fv) as [F1 R1]; [lia | rewrite Hsub; mag |].
  apply (rounded_eq _ _ _ _ _ Hsub (Qeq_refl _)) in R1. clear Hsub.
  set (s1 := F32.sub f (F32.of_int v)) in *.
  assert (L1 : - (513 # 2) <= SF2Q s1).
  { apply (rounded_lb _ _ _ _ R1); [multiple_c (- 513 * 2 ^ 14)%Z | lra]. }
  assert (U1 : SF2Q s1 <= - (511 # 2)).
  { apply (rounded_ub _ _ _ _ R1); [multiple_c (- 511 * 2 ^ 14)%Z | lra]. }
  destruct (F32_of_int_Q CENTER_GRID_CELL_ID ltac:(vm_compute; reflexivity)) as [FC QC].
  change (inject_Z CENTER_GRID_CELL_ID) with 256 in QC.
  assert (Hadd : SF2Q s1 + SF2Q (F32.of_int CENTER_GRID_CELL_ID) == SF2Q s1 + 256).
  { rewrite QC. reflexivity. }
  destruct (F32_add_rounded s1 (F32.of_int CENTER_GRID_CELL_ID) (-24) F1 FC) as [F2 R2];
    [lia | rewrite Hadd; mag |].
  apply (rounded_eq _ _ _ _ _ Hadd (Qeq_refl _)) in R2. clear Hadd.
  set (s2 := F32.add s1 (F32.of_int CENTER_GRID_CELL_ID)) in *.
  assert (L2 : - (1 # 2) <= SF2Q s2).
  { apply (rounded_lb _ _ _ _ R2); [multiple_c (- 2 ^ 23)%Z | lra]. }
  assert (U2 : SF2Q s2 <= 1 # 2).
  { apply (rounded_ub _ _ _ _ R2); [multiple_c (2 ^ 23)%Z | lra]. }
  assert (HSZ : SF2Q SIZE_OF_GRID_CELL == 8738133 # 131072) by (vm_compute; reflexivity).
  assert (Hmul : SF2Q s2 * SF2Q SIZE_OF_GRID_CELL == SF2Q s2 * (8738133 # 131072)).
  { rewrite HSZ. reflexivity. }
  destruct (F32_mul_rounded s2 SIZE_OF_GRID_CELL (-18) F2 eq_refl) as [F3 R3];
    [lia | rewrite Hmul; mag |].
  apply (rounded_eq _ _ _ _ _ Hmul (Qeq_refl _)) in R3. clear Hmul HSZ.
  set (w := F32.mul s2 SIZE_OF_GRID_CELL) in *.
  assert (L3 : - (8738133 # 262144) <= SF2Q w).
  { apply (rounded_lb _ _ _ _ R3); [multiple_c (- 8738133)%Z | lra]. }
  assert (U3 : SF2Q w <= 8738133 # 262144).
  { apply (rounded_ub _ _ _ _ R3); [multiple_c 8738133%Z | lra]. }
  split; [exact F3|]. split.
  - apply Qabs_Qle_condition. split; lra.
  - rb R1. rb R2. rb R3. rewrite Hkv. bpow_num.
    apply Qabs_Qle_condition. split; lra.
Qed.

(** X12. The overload of [ComputeCellCoord] with the out-parameters, on a
    valid position: it returns the cell coordinate of the plain overload,
    and each offset is finite, at most [CENTER_GRID_CELL_OFFSET] (half a
    cell) in magnitude, and within [2^-7] of the distance of the
    coordinate from the centre of its cell, the centre of cell [c] being
    [(c - 256) * SIZE_OF_GRID_CELL + CENTER_GRID_CELL_OFFSET]. *)
Theorem X12_ComputeCellCoord_offsets (x y : spec_float) :
  F32.valid x = true -> F32.valid y = true ->
  Trinity.IsValidMapCoord2 x y = true ->
  exists c x_off y_off,
    Trinity.ComputeCellCoord_offsets x y = Some (c, (x_off, y_off)) /\
    Trinity.ComputeCellCoord x y = Some c /\
    isfinite x_off = true /\ isfinite y_off = true /\
    Qabs (SF2Q x_off) <= SF2Q CENTER_GRID_CELL_OFFSET /\
    Qabs (SF2Q y_off) <= SF2Q CENTER_GRID_CELL_OFFSET /\
    Qabs (SF2Q x_off -
          (SF2Q x - ((inject_Z (x_coord c) - 256) * SF2Q SIZE_OF_GRID_CELL
                     + SF2Q CENTER_GRID_CELL_OFFSET))) <= bpow (-7) /\
    Qabs (SF2Q y_off -
          (SF2Q y - ((inject_Z (y_coord c) - 256) * SF2Q SIZE_OF_GRID_CELL
                     + SF2Q CENTER_GRID_CELL_OFFSET))) <= bpow (-7).
Proof.
  intros Vx Vy H.
  unfold Trinity.IsValidMapCoord2 in H.
  apply andb_true_iff in H. destruct H as [Hx Hy].
  assert (C : Trinity.ComputeCellCoord x y = Some (mkCoordPair (cell_index x) (cell_index y))).
  { apply Compute_components; try (apply cell_index_uint32; assumption);
      apply cell_index_correct; assumption. }
  pose proof (cell_index_correct x Vx Hx) as Gx.
  pose proof (cell_index_correct y Vy Hy) as Gy.
  pose proof (cell_index_range x Vx Hx) as Rx.
  pose proof (cell_index_range y Vy Hy) as Ry.
  destruct (cell_offset_component x Vx Hx) as (Fxo & Bxo & Axo).
  destruct (cell_offset_component y Vy Hy) as (Fyo & Byo & Ayo).
  assert (HCO : SF2Q CENTER_GRID_CELL_OFFSET == CELL_CO) by (vm_compute; reflexivity).
  assert (HSZ : SF2Q SIZE_OF_GRID_CELL == 8738133 # 131072) by (vm_compute; reflexivity).
  eexists _, _, _. split; [|split; [exact C|]].
  - unfold Trinity.ComputeCellCoord_offsets. rewrite half_f_double.
    unfold cell_sum, Trinity.Compute_offset in Gx, Gy. rewrite Gx, Gy.
    unfold CoordPair_of_int. rewrite !wrap32_small by (unfold is_uint32; lia).
    reflexivity.
  - cbn [x_coord y_coord]. rewrite HCO, HSZ.
    repeat split; assumption.
Qed.

Lemma X12_witness :
  exists c x_off y_off,
    Trinity.ComputeCellCoord_offsets (S754_finite false 13172736 (-17))
                                     (S754_finite true 8749055 (-63))
    = Some (c, (x_off, y_off)) /\
    Trinity.ComputeCellCoord (S754_finite false 13172736 (-17))
                             (S754_finite true 8749055 (-63)) = Some c /\
    isfinite x_off = true /\ isfinite y_off = true /\
    Qabs (SF2Q x_off) <= SF2Q CENTER_GRID_CELL_OFFSET /\
    Qabs (SF2Q y_off) <= SF2Q CENTER_GRID_CELL_OFFSET /\
    Qabs (SF2Q x_off -
          (SF2Q (S754_finite false 13172736 (-17))
           - ((inject_Z (x_coord c) - 256) * SF2Q SIZE_OF_GRID_CELL
              + SF2Q CENTER_GRID_CELL_OFFSET))) <= bpow (-7) /\
    Qabs (SF2Q y_off -
          (SF2Q (S754_finite true 8749055 (-63))
           - ((inject_Z (y_coord c) - 256) * SF2Q SIZE_OF_GRID_CELL
              + SF2Q CENTER_GRID_CELL_OFFSET))) <= bpow (-7).
Proof.
  exact (X12_ComputeCellCoord_offsets (S754_finite false 13172736 (-17))
           (S754_finite true 8749055 (-63)) eq_refl eq_refl eq_refl).
Defined.

(** * Positions beyond the map *)

Lemma F64_trunc_opp d : F64.trunc (SFopp d) = option_map Z.opp (F64.trunc d).
Proof.
  destruct d as [s|s| |s m e]; try reflexivity.
  cbn [SFopp F64.trunc option_map]. f_equal. destruct s; cbn [negb cond_Zopp]; lia.
Qed.

(** Truncation of a non-positive double rounds up. *)
Lemma F64_to_int_ceil d k :
  isfinite d = true ->
  inject_Z k - 1 < SF2Q d -> SF2Q d <= inject_Z k ->
  (INT_MIN <= k <= 0)%Z ->
  F64.to_int d = Some k.
Proof.
  intros Hf Hlo Hhi Hk.
  assert (Hf' : isfinite (SFopp d) = true) by (rewrite isfinite_opp; exact Hf).
  assert (Hk0 : inject_Z k <= 0) by (apply (inject_Z_le k 0); lia).
  assert (Hnn : 0 <= SF2Q (SFopp d)) by (rewrite SF2Q_opp; lra).
  destruct (F64_trunc_nonneg (SFopp d) Hf' Hnn) as (n & Hn & Hn1 & Hn2).
  rewrite SF2Q_opp in Hn1, Hn2.
  rewrite F64_trunc_opp in Hn.
  unfold F64.to_int. destruct (F64.trunc d) as [z|]; [|discriminate Hn].
  cbn [option_map] in Hn. injection Hn as Hz.
  assert (Hzk : z = k).
  { assert (H1 : inject_Z (- k) < inject_Z (n + 1)) by (inj; lra).
    assert (H2 : inject_Z n < inject_Z (- k + 1)) by (inj; lra).
    apply inject_Z_lt_inv in H1, H2. lia. }
  rewrite Hzk.
  replace (INT_MIN <=? k)%Z with true by (symmetry; apply Z.leb_le; lia).
  replace (k <=? INT_MAX)%Z with true by (symmetry; apply Z.leb_le; unfold INT_MAX; lia).
  reflexivity.
Qed.

(** A coordinate of magnitude up to [2^24] that is a multiple of [2^-9]:
    the grid index is the exact scaled position truncated toward zero,
    and it lies in [0, 64) exactly for coordinates between [-33] and [32]
    grid sizes. *)
Lemma grid_wide x N :
  F32.valid x = true -> isfinite x = true ->
  Qabs (SF2Q x) <= bpow 24 ->
  SF2Q x == inject_Z N * bpow (-9) ->
  exists n, F64.to_int (grid_sum x) = Some n /\
    (INT_MIN <= n <= INT_MAX)%Z /\
    ((0 <= n < 64)%Z <->
     - (33 # 1) * (8738133 # 16384) < SF2Q x /\ SF2Q x < (32 # 1) * (8738133 # 16384)).
Proof.
  intros Vx Fx Hx HN. apply Qabs_Qle_condition in Hx. bpow_num_in Hx. bpow_num_in HN.
  assert (HNlo : (-8589934592 <= N)%Z).
  { apply inject_Z_le_inv. change (inject_Z (-8589934592)) with (-8589934592 # 1). lra. }
  assert (HNhi : (N <= 8589934592)%Z).
  { apply inject_Z_le_inv. change (inject_Z 8589934592) with (8589934592 # 1). lra. }
  set (k := ((32 * N + 279620256) / 8738133)%Z).
  set (r := ((32 * N + 279620256) mod 8738133)%Z).
  assert (HT : (32 * N + 279620256 = 8738133 * k + r)%Z) by (apply Z.div_mod; lia).
  assert (Hr : (0 <= r < 8738133)%Z) by (apply Z.mod_pos_bound; lia).
  assert (Hk : (-32000 <= k <= 32000)%Z) by lia.
  clearbody k r.
  assert (Hin : - (33 # 1) * (8738133 # 16384) < SF2Q x /\ SF2Q x < (32 # 1) * (8738133 # 16384)
                <-> (-8738133 < 8738133 * k + r /\ k <= 63)%Z).
  { rewrite <- HT. split.
    - intros [H1 H2].
      assert (Ha : inject_Z (-8738133) < inject_Z (32 * N + 279620256)) by (inj; lra).
      assert (Hb : inject_Z (32 * N + 279620256) < inject_Z (64 * 8738133)) by (inj; lra).
      apply inject_Z_lt_inv in Ha, Hb. lia.
    - intros [H1 H2].
      assert (H3 : (32 * N + 279620256 < 64 * 8738133)%Z) by lia.
      Z2Q H1. Z2Q H3. split; lra. }
  destruct Hk as [Hklo Hkhi].
  pose proof HT as HTz. Z2Q HT. destruct Hr as [Hr0 Hr1].
  assert (Hr1' : (r <= 8738132)%Z) by lia.
  pose proof Hr0 as Hr0z. Z2Q Hr0. Z2Q Hr1'. Z2Q Hklo. Z2Q Hkhi.
  destruct (grid_chain x (-28) (-37) (-36) (-36) Vx Fx)
    as (Fg & a & b & d & Ra & Rb & Rd & Rg); unfold GRID_CO, GRID_ISZ in *; try lia;
    [ mag
    | intros a Ra; rb Ra; mag
    | intros a b Ra Rb; rb Ra; rb Rb; mag
    | intros a b d Ra Rb Rd; rb Ra; rb Rb; rb Rd; mag |].
  destruct (Z.eq_dec r 0) as [Hrz|Hrnz].
  - (* on a grid boundary every step is exact *)
    pose proof Hrz as Hrzz. Z2Q Hrz.
    assert (Ea : a == SF2Q x - (8738133 # 32768)).
    { apply (rounded_exact _ _ _ Ra). multiple ((64 * N - 8738133) * 8192)%Z. }
    assert (Eb : b == a * (16384 # 8738133)).
    { apply (rounded_exact _ _ _ Rb). multiple ((2 * k - 65) * 68719476736)%Z. }
    assert (Ed : d == b + 32).
    { apply (rounded_exact _ _ _ Rd). multiple ((2 * k - 1) * 34359738368)%Z. }
    assert (Eg : SF2Q (grid_sum x) == d + (1 # 2)).
    { apply (rounded_exact _ _ _ Rg). multiple (k * 68719476736)%Z. }
    exists k. split; [|split; [unfold INT_MIN, INT_MAX; lia | rewrite Hin; lia]].
    destruct (Z_le_gt_dec 0 k).
    + apply F64_to_int_floor; [exact Fg | lra | lra | unfold INT_MAX; lia].
    + apply F64_to_int_ceil; [exact Fg | lra | lra | unfold INT_MIN; lia].
  - assert (Hr1'' : (1 <= r)%Z) by lia. Z2Q Hr1''.
    rb Ra. rb Rb. rb Rd. rb Rg.
    destruct (Z_le_gt_dec 0 k).
    + exists k. split; [|split; [unfold INT_MIN, INT_MAX; lia | rewrite Hin; lia]].
      apply F64_to_int_floor; [exact Fg | lra | lra | unfold INT_MAX; lia].
    + exists (k + 1)%Z. split; [|split; [unfold INT_MIN, INT_MAX; lia | rewrite Hin; lia]].
      apply F64_to_int_ceil; [exact Fg | inj; lra | inj; lra | unfold INT_MIN; lia].
Qed.

Lemma cell_wide x N :
  F32.valid x = true -> isfinite x = true ->
  Qabs (SF2Q x) <= bpow 24 ->
  SF2Q x == inject_Z N * bpow (-9) ->
  exists n, F64.to_int (cell_sum x) = Some n /\
    (INT_MIN <= n <= INT_MAX)%Z /\
    ((0 <= n < 512)%Z <->
     - (257 # 1) * (8738133 # 131072) < SF2Q x /\ SF2Q x < (256 # 1) * (8738133 # 131072)).
Proof.
  intros Vx Fx Hx HN. apply Qabs_Qle_condition in Hx. bpow_num_in Hx. bpow_num_in HN.
  assert (HNlo : (-8589934592 <= N)%Z).
  { apply inject_Z_le_inv. change (inject_Z (-8589934592)) with (-8589934592 # 1). lra. }
  assert (HNhi : (N <= 8589934592)%Z).
  { apply inject_Z_le_inv. change (inject_Z 8589934592) with (8589934592 # 1). lra. }
  set (k := ((256 * N + 2236962048) / 8738133)%Z).
  set (r := ((256 * N + 2236962048) mod 8738133)%Z).
  assert (HT : (256 * N + 2236962048 = 8738133 * k + r)%Z) by (apply Z.div_mod; lia).
  assert (Hr : (0 <= r < 8738133)%Z) by (apply Z.mod_pos_bound; lia).
  assert (Hk : (-256000 <= k <= 256000)%Z) by lia.
  clearbody k r.
  assert (Hin : - (257 # 1) * (8738133 # 131072) < SF2Q x /\
                SF2Q x < (256 # 1) * (8738133 # 131072)
                <-> (-8738133 < 8738133 * k + r /\ k <= 511)%Z).
  { rewrite <- HT. split.
    - intros [H1 H2].
      assert (Ha : inject_Z (-8738133) < inject_Z (256 * N + 2236962048)) by (inj; lra).
      assert (Hb : inject_Z (256 * N + 2236962048) < inject_Z (512 * 8738133)) by (inj; lra).
      apply inject_Z_lt_inv in Ha, Hb. lia.
    - intros [H1 H2].
      assert (H3 : (256 * N + 2236962048 < 512 * 8738133)%Z) by lia.
      Z2Q H1. Z2Q H3. split; lra. }
  destruct Hk as [Hklo Hkhi].
  pose proof HT as HTz. Z2Q HT. destruct Hr as [Hr0 Hr1].
  assert (Hr1' : (r <= 8738132)%Z) by lia.
  pose proof Hr0 as Hr0z. Z2Q Hr0. Z2Q Hr1'. Z2Q Hklo. Z2Q Hkhi.
  destruct (cell_chain x (-28) (-34) (-33) (-33) Vx Fx)
    as (Fg & a & b & d & Ra & Rb & Rd & Rg); unfold CELL_CO, CELL_ISZ in *; try lia;
    [ mag
    | intros a Ra; rb Ra; mag
    | intros a b Ra Rb; rb Ra; rb Rb; mag
    | intros a b d Ra Rb Rd; rb Ra; rb Rb; rb Rd; mag |].
  destruct (Z.eq_dec r 0) as [Hrz|Hrnz].
  - pose proof Hrz as Hrzz. Z2Q Hrz.
    assert (Ea : a == SF2Q x - (8738133 # 262144)).
    { apply (rounded_exact _ _ _ Ra). multiple ((512 * N - 8738133) * 1024)%Z. }
    assert (Eb : b == a * (131072 # 8738133)).
    { apply (rounded_exact _ _ _ Rb). multiple ((2 * k - 513) * 8589934592)%Z. }
    assert (Ed : d == b + 256).
    { apply (rounded_exact _ _ _ Rd). multiple ((2 * k - 1) * 4294967296)%Z. }
    assert (Eg : SF2Q (cell_sum x) == d + (1 # 2)).
    { apply (rounded_exact _ _ _ Rg). multiple (k * 8589934592)%Z. }
    exists k. split; [|split; [unfold INT_MIN, INT_MAX; lia | rewrite Hin; lia]].
    destruct (Z_le_gt_dec 0 k).
    + apply F64_to_int_floor; [exact Fg | lra | lra | unfold INT_MAX; lia].
    + apply F64_to_int_ceil; [exact Fg | lra | lra | unfold INT_MIN; lia].
  - assert (Hr1'' : (1 <= r)%Z) by lia. Z2Q Hr1''.
    rb Ra. rb Rb. rb Rd. rb Rg.
    destruct (Z_le_gt_dec 0 k).
    + exists k. split; [|split; [unfold INT_MIN, INT_MAX; lia | rewrite Hin; lia]].
      apply F64_to_int_floor; [exact Fg | lra | lra | unfold INT_MAX; lia].
    + exists (k + 1)%Z. split; [|split; [unfold INT_MIN, INT_MAX; lia | rewrite Hin; lia]].
      apply F64_to_int_ceil; [exact Fg | inj; lra | inj; lra | unfold INT_MIN; lia].
Qed.

Lemma grid_component_wide x :
  F32.valid x = true -> isfinite x = true -> Qabs (SF2Q x) <= bpow 24 ->
  exists n, F64.to_int (grid_sum x) = Some n /\
    (INT_MIN <= n <= INT_MAX)%Z /\
    ((0 <= n < 64)%Z <->
     - (33 # 1) * SF2Q SIZE_OF_GRIDS < SF2Q x /\ SF2Q x < (32 # 1) * SF2Q SIZE_OF_GRIDS).
Proof.
  intros Vx Fx Hx.
  assert (HS : SF2Q SIZE_OF_GRIDS == 8738133 # 16384) by (vm_compute; reflexivity).
  assert (Hnum : exists n, F64.to_int (grid_sum x) = Some n /\
            (INT_MIN <= n <= INT_MAX)%Z /\
            ((0 <= n < 64)%Z <->
             - (33 # 1) * (8738133 # 16384) < SF2Q x /\ SF2Q x < (32 # 1) * (8738133 # 16384))).
  { destruct (Qlt_le_dec MAP_BOUND_Q (Qabs (SF2Q x))) as [Hout|Hin].
    - destruct (float32_multiple_or_below x (-9) Vx Fx) as [[N HN]|Hsmall].
      + apply (grid_wide x N); assumption.
      + exfalso. change (-9 + 23)%Z with 14%Z in Hsmall. bpow_num_in Hsmall.
        unfold MAP_BOUND_Q in Hout. lra.
    - assert (Hv : Trinity.IsValidMapCoord x = true)
        by (apply (IsValidMapCoord_Q x Vx); split; assumption).
      destruct (grid_component_range x Vx Hv) as (n & Hn & Hr).
      exists n. split; [exact Hn|]. split; [unfold INT_MIN, INT_MAX; lia|].
      apply Qabs_Qle_condition in Hin. unfold MAP_BOUND_Q in Hin.
      split; [intros _; split; lra | intros _; exact Hr]. }
  destruct Hnum as (n & Hn & Hr & Hiff).
  exists n. split; [exact Hn|]. split; [exact Hr|]. rewrite HS. exact Hiff.
Qed.

Lemma cell_component_wide x :
  F32.valid x = true -> isfinite x = true -> Qabs (SF2Q x) <= bpow 24 ->
  exists n, F64.to_int (cell_sum x) = Some n /\
    (INT_MIN <= n <= INT_MAX)%Z /\
    ((0 <= n < 512)%Z <->
     - (257 # 1) * SF2Q SIZE_OF_GRID_CELL < SF2Q x /\
     SF2Q x < (256 # 1) * SF2Q SIZE_OF_GRID_CELL).
Proof.
  intros Vx Fx Hx.
  assert (HS : SF2Q SIZE_OF_GRID_CELL == 8738133 # 131072) by (vm_compute; reflexivity).
  assert (Hnum : exists n, F64.to_int (cell_sum x) = Some n /\
            (INT_MIN <= n <= INT_MAX)%Z /\
            ((0 <= n < 512)%Z <->
             - (257 # 1) * (8738133 # 131072) < SF2Q x /\ SF2Q x < (256 # 1) * (8738133 # 131072))).
  { destruct (Qlt_le_dec MAP_BOUND_Q (Qabs (SF2Q x))) as [Hout|Hin].
    - destruct (float32_multiple_or_below x (-9) Vx Fx) as [[N HN]|Hsmall].
      + apply (cell_wide x N); assumption.
      + exfalso. change (-9 + 23)%Z with 14%Z in Hsmall. bpow_num_in Hsmall.
        unfold MAP_BOUND_Q in Hout. lra.
    - assert (Hv : Trinity.IsValidMapCoord x = true)
        by (apply (IsValidMapCoord_Q x Vx); split; assumption).
      destruct (cell_component_range x Vx Hv) as (n & Hn & Hr).
      exists n. split; [exact Hn|]. split; [unfold INT_MIN, INT_MAX; lia|].
      apply Qabs_Qle_condition in Hin. unfold MAP_BOUND_Q in Hin.
      split; [intros _; split; lra | intros _; exact Hr]. }
  destruct Hnum as (n & Hn & Hr & Hiff).
  exists n. split; [exact Hn|]. split; [exact Hr|]. rewrite HS. exact Hiff.
Qed.

Lemma wrap32_int_below n L :
  (INT_MIN <= n <= INT_MAX)%Z -> (0 < L <= 2 ^ 31)%Z ->
  (wrap32 n <? L)%Z = true <-> (0 <= n < L)%Z.
Proof.
  intros Hn HL. unfold INT_MIN, INT_MAX in Hn. rewrite Z.ltb_lt.
  destruct (Z_le_gt_dec 0 n) as [Hpos|Hneg].
  - rewrite wrap32_small by (unfold is_uint32; lia). lia.
  - assert (Hw : wrap32 n = (n + 2 ^ 32)%Z).
    { unfold wrap32. symmetry. apply (Z.mod_unique n (2 ^ 32) (-1)); lia. }
    rewrite Hw. lia.
Qed.

(** X13. Beyond the map, for finite coordinates of magnitude up to [2^24]:
    the grid and the cell coordinate are defined, the grid coordinate is
    within the grid matrix exactly when both coordinates lie strictly
    between [-33] and [32] grid sizes, and the cell coordinate is within
    the cell matrix exactly when both lie strictly between [-257] and [256]
    cell sizes. The truncation toward zero thus maps a position up to one
    grid (or cell) beyond the negative edge of the map to index 0. *)
Theorem X13_valid_result_range (x y : spec_float) :
  F32.valid x = true -> F32.valid y = true ->
  isfinite x = true -> isfinite y = true ->
  Qabs (SF2Q x) <= bpow 24 -> Qabs (SF2Q y) <= bpow 24 ->
  let inside lo hi size c := - lo * SF2Q size < SF2Q c /\ SF2Q c < hi * SF2Q size in
  exists g c,
    Trinity.ComputeGridCoord x y = Some g /\
    Trinity.ComputeCellCoord x y = Some c /\
    (IsCoordValid GRID_LIMIT g = true <->
     inside (33 # 1) (32 # 1) SIZE_OF_GRIDS x /\ inside (33 # 1) (32 # 1) SIZE_OF_GRIDS y) /\
    (IsCoordValid CELL_LIMIT c = true <->
     inside (257 # 1) (256 # 1) SIZE_OF_GRID_CELL x /\
     inside (257 # 1) (256 # 1) SIZE_OF_GRID_CELL y).
Proof.
  intros Vx Vy Fx Fy Hx Hy inside. unfold inside. clear inside.
  destruct (grid_component_wide x Vx Fx Hx) as (gx & Hgx & Rgx & Igx).
  destruct (grid_component_wide y Vy Fy Hy) as (gy & Hgy & Rgy & Igy).
  destruct (cell_component_wide x Vx Fx Hx) as (cx & Hcx & Rcx & Icx).
  destruct (cell_component_wide y Vy Fy Hy) as (cy & Hcy & Rcy & Icy).
  exists (CoordPair_of_int gx gy), (CoordPair_of_int cx cy).
  unfold grid_sum, cell_sum in *.
  unfold Trinity.ComputeGridCoord, Trinity.ComputeCellCoord, Trinity.Compute,
    Trinity.Compute_val.
  rewrite Hgx, Hgy, Hcx, Hcy.
  split; [reflexivity|]. split; [reflexivity|].
  unfold IsCoordValid, CoordPair_of_int. cbn [x_coord y_coord].
  rewrite !andb_true_iff.
  change GRID_LIMIT with 64%Z. change CELL_LIMIT with 512%Z.
  rewrite (wrap32_int_below gx 64 Rgx ltac:(lia)), (wrap32_int_below gy 64 Rgy ltac:(lia)).
  rewrite (wrap32_int_below cx 512 Rcx ltac:(lia)), (wrap32_int_below cy 512 Rcy ltac:(lia)).
  rewrite Igx, Igy, Icx, Icy. split; reflexivity.
Qed.

Lemma X13_witness :
  let inside lo hi size c := - lo * SF2Q size < SF2Q c /\ SF2Q c < hi * SF2Q size in
  exists g c,
    Trinity.ComputeGridCoord (S754_finite true 8912896 (-9)) (S754_finite false 8738133 (-9))
    = Some g /\
    Trinity.ComputeCellCoord (S754_finite true 8912896 (-9)) (S754_finite false 8738133 (-9))
    = Some c /\
    (IsCoordValid GRID_LIMIT g = true <->
     inside (33 # 1) (32 # 1) SIZE_OF_GRIDS (S754_finite true 8912896 (-9)) /\
     inside (33 # 1) (32 # 1) SIZE_OF_GRIDS (S754_finite false 8738133 (-9))) /\
    (IsCoordValid CELL_LIMIT c = true <->
     inside (257 # 1) (256 # 1) SIZE_OF_GRID_CELL (S754_finite true 8912896 (-9)) /\
     inside (257 # 1) (256 # 1) SIZE_OF_GRID_CELL (S754_finite false 8738133 (-9))).
Proof.
  apply (X13_valid_result_range (S754_finite true 8912896 (-9))
           (S754_finite false 8738133 (-9)) eq_refl eq_refl eq_refl eq_refl);
    vm_compute; discriminate.
Defined.

(** * Clamping before the computation *)

(** X14. Clamping first makes the computations safe: for every position
    without a NaN component, finite or not, the grid and the cell
    coordinate of the position clamped by [NormalizeMapCoord] are defined
    and within their matrices. *)
Theorem X14_normalized_position_in_bounds (x y : spec_float) :
  F32.valid x = true -> F32.valid y = true ->
  x <> S754_nan -> y <> S754_nan ->
  exists g c,
    Trinity.ComputeGridCoord (Trinity.NormalizeMapCoord x) (Trinity.NormalizeMapCoord y)
    = Some g /\
    Trinity.ComputeCellCoord (Trinity.NormalizeMapCoord x) (Trinity.NormalizeMapCoord y)
    = Some c /\
    IsCoordValid GRID_LIMIT g = true /\ IsCoordValid CELL_LIMIT c = true.
Proof.
  intros Vx Vy Hx Hy.
  destruct (NormalizeMapCoord_result x Vx Hx) as [Vx' Ix].
  destruct (NormalizeMapCoord_result y Vy Hy) as [Vy' Iy].
  set (x' := Trinity.NormalizeMapCoord x) in *.
  set (y' := Trinity.NormalizeMapCoord y) in *.
  destruct (grid_component_range x' Vx' Ix) as (gx & Hgx & Rgx).
  destruct (grid_component_range y' Vy' Iy) as (gy & Hgy & Rgy).
  destruct (cell_component_range x' Vx' Ix) as (cx & Hcx & Rcx).
  destruct (cell_component_range y' Vy' Iy) as (cy & Hcy & Rcy).
  exists (mkCoordPair gx gy), (mkCoordPair cx cy).
  unfold grid_sum, cell_sum in *.
  unfold Trinity.ComputeGridCoord, Trinity.ComputeCellCoord, Trinity.Compute,
    Trinity.Compute_val.
  rewrite Hgx, Hgy, Hcx, Hcy. unfold CoordPair_of_int.
  rewrite !wrap32_small by (unfold is_uint32; lia).
  split; [reflexivity|]. split; [reflexivity|].
  split; apply IsCoordValid_spec; cbn [x_coord y_coord].
  - change GRID_LIMIT with 64%Z. lia.
  - change CELL_LIMIT with 512%Z. lia.
Qed.

Lemma X14_witness :
  exists g c,
    Trinity.ComputeGridCoord (Trinity.NormalizeMapCoord (S754_infinity true))
                             (Trinity.NormalizeMapCoord (S754_finite false 10240000 (-9)))
    = Some g /\
    Trinity.ComputeCellCoord (Trinity.NormalizeMapCoord (S754_infinity true))
                             (Trinity.NormalizeMapCoord (S754_finite false 10240000 (-9)))
    = Some c /\
    IsCoordValid GRID_LIMIT g = true /\ IsCoordValid CELL_LIMIT c = true.
Proof.
  apply (X14_normalized_position_in_bounds (S754_infinity true)
           (S754_finite false 10240000 (-9)) eq_refl eq_refl); discriminate.
Defined.

(** * The reference definition *)

(** ** Rounding of rationals *)

Lemma Qabs_make n d : Qabs (n # d) == inject_Z (Z.abs n) / inject_Z (Z.pos d).
Proof. unfold Qabs. rewrite (Qmake_Qdiv (Z.abs n) d). reflexivity. Qed.

Lemma ilog2_spec q :
  ~ q == 0 ->
  bpow (Reference.ilog2 q) <= Qabs q /\ Qabs q < bpow (Reference.ilog2 q + 1).
Proof.
  intros Hq. destruct q as [n d].
  assert (Hn : (0 < Z.abs n)%Z).
  { destruct n; try lia. exfalso. apply Hq. reflexivity. }
  unfold Reference.ilog2. cbn [Qnum Qden].
  set (a := Z.log2 (Z.abs n)). set (b := Z.log2 (Z.pos d)).
  pose proof (Z.log2_spec (Z.abs n) Hn) as Ha. fold a in Ha.
  pose proof (Z.log2_spec (Z.pos d) ltac:(lia)) as Hb. fold b in Hb.
  assert (Ha0 : (0 <= a)%Z) by apply Z.log2_nonneg.
  assert (Hb0 : (0 <= b)%Z) by apply Z.log2_nonneg.
  destruct Ha as [Ha1 Ha2], Hb as [Hb1 Hb2].
  apply inject_Z_le in Ha1, Hb1. apply inject_Z_lt in Ha2, Hb2.
  rewrite bpow_inject in Ha1, Hb1 by lia.
  rewrite bpow_inject in Ha2, Hb2 by lia.
  unfold Z.succ in Ha2, Hb2. rewrite bpow_succ in Ha2, Hb2.
  assert (Eab : bpow a == bpow (a - b) * bpow b).
  { rewrite <- bpow_add. replace (a - b + b)%Z with a by lia. reflexivity. }
  assert (E1 : bpow (a - b + 1) == 2 * bpow (a - b)) by apply bpow_succ.
  assert (E2 : bpow (a - b) == 2 * bpow (a - b - 1)).
  { rewrite <- bpow_succ. replace (a - b - 1 + 1)%Z with (a - b)%Z by lia. reflexivity. }
  pose proof (bpow_pos (a - b)) as HB. pose proof (bpow_pos b) as Hbb.
  pose proof (bpow_pos (a - b - 1)) as HB'.
  assert (HD : 0 < inject_Z (Z.pos d)) by (apply (inject_Z_lt 0); lia).
  assert (EX : Qabs (n # d) * inject_Z (Z.pos d) == inject_Z (Z.abs n)).
  { rewrite Qabs_make. field. lra. }
  assert (HX0 : 0 <= Qabs (n # d)) by apply Qabs_nonneg.
  assert (Hboth : bpow (a - b - 1) <= Qabs (n # d) /\ Qabs (n # d) < bpow (a - b + 1)).
  { generalize dependent (Qabs (n # d)). intros X EX HX0.
    generalize dependent (inject_Z (Z.abs n)). intros N. intros.
    generalize dependent (inject_Z (Z.pos d)). intros D. intros.
    generalize dependent (bpow (a - b + 1)). intros B1. intros.
    generalize dependent (bpow (a - b - 1)). intros B0. intros.
    generalize dependent (bpow (a - b)). intros B. intros.
    generalize dependent (bpow a). intros A. intros.
    generalize dependent (bpow b). intros Bb. intros.
    split.
    - destruct (Qlt_le_dec X B0) as [H|H]; [exfalso|exact H].
      assert (X * D <= B0 * D) by (apply Qmult_le_compat_r; lra).
      assert (B0 * D < B0 * (2 * Bb)) by (apply Qmult_lt_l; lra).
      assert (B0 * (2 * Bb) == A) by (rewrite Eab, E2; ring).
      lra.
    - destruct (Qlt_le_dec X B1) as [H|H]; [exact H|exfalso].
      assert (B1 * D <= X * D) by (apply Qmult_le_compat_r; lra).
      assert (B1 * Bb <= B1 * D) by (apply Qmult_le_l; lra).
      assert (B1 * Bb == 2 * A) by (rewrite E1, Eab; ring).
      lra. }
  destruct Hboth as [Hlo Hup].
  destruct (Qle_bool (bpow (a - b)) (Qabs (n # d))) eqn:E.
  - apply Qle_bool_iff in E. split; [exact E | exact Hup].
  - assert (HXB : Qabs (n # d) < bpow (a - b)).
    { destruct (Qlt_le_dec (Qabs (n # d)) (bpow (a - b))) as [H|H]; [exact H|].
      apply Qle_bool_iff in H. rewrite H in E. discriminate E. }
    split; [exact Hlo|].
    replace (a - b - 1 + 1)%Z with (a - b)%Z by lia. exact HXB.
Qed.

Lemma bpow_le_inv a b : bpow a <= bpow b -> (a <= b)%Z.
Proof.
  intros H. destruct (Z_le_gt_dec a b) as [L|G]; [exact L|exfalso].
  assert (bpow b < bpow a) by (apply bpow_lt; lia). lra.
Qed.

(** The binade of a rational is unique. *)
Lemma ilog2_unique q L :
  bpow (L - 1) <= Qabs q -> Qabs q < bpow L -> Reference.ilog2 q = (L - 1)%Z.
Proof.
  intros Hlo Hhi.
  assert (Hq : ~ q == 0).
  { intros E. rewrite E in Hlo. change (Qabs 0) with 0 in Hlo.
    pose proof (bpow_pos (L - 1)). lra. }
  destruct (ilog2_spec q Hq) as [H1 H2].
  assert (A : (Reference.ilog2 q < L)%Z) by (apply bpow_lt_inv; lra).
  assert (B : (L - 1 < Reference.ilog2 q + 1)%Z) by (apply bpow_lt_inv; lra).
  lia.
Qed.

Lemma round_even_spec q :
  Qabs (inject_Z (Reference.round_even q) - q) <= 1 # 2 /\
  (Qabs (inject_Z (Reference.round_even q) - q) == 1 # 2 ->
   Z.even (Reference.round_even q) = true).
Proof.
  unfold Reference.round_even.
  pose proof (Qfloor_le q) as H1. pose proof (Qlt_floor q) as H2.
  rewrite inject_Z_plus in H2. change (inject_Z 1) with 1 in H2.
  set (f := Qfloor q) in *.
  destruct (Qcompare_spec (q - inject_Z f) (1 # 2)) as [E|L|G].
  - destruct (Z.even f) eqn:Ev.
    + split; [|intros _; exact Ev].
      rewrite Qabs_neg by lra. lra.
    + split.
      * rewrite inject_Z_plus. change (inject_Z 1) with 1. rewrite Qabs_pos by lra. lra.
      * intros _. replace (f + 1)%Z with (Z.succ f) by lia.
        rewrite Z.even_succ, <- Z.negb_even, Ev. reflexivity.
  - split.
    + rewrite Qabs_neg by lra. lra.
    + intros E. rewrite Qabs_neg in E by lra. lra.
  - split.
    + rewrite inject_Z_plus. change (inject_Z 1) with 1. rewrite Qabs_pos by lra. lra.
    + intros E. rewrite inject_Z_plus in E. change (inject_Z 1) with 1 in E.
      rewrite Qabs_pos in E by lra. lra.
Qed.

(** [round_double] rounds to nearest even on the grid of the binade. *)
Lemma round_double_RNE v L :
  (-1021 <= L)%Z -> bpow (L - 1) <= Qabs v -> Qabs v < bpow L ->
  RNE (L - 53) v (Reference.round_double v).
Proof.
  intros HL Hlo Hhi.
  assert (Hv : ~ v == 0).
  { intros E. rewrite E in Hlo. change (Qabs 0) with 0 in Hlo.
    pose proof (bpow_pos (L - 1)). lra. }
  unfold Reference.round_double.
  destruct (Qeq_bool v 0) eqn:E0; [apply Qeq_bool_iff in E0; contradiction|].
  rewrite (ilog2_unique v L Hlo Hhi).
  replace (Z.max (L - 1 - 52) (-1074)) with (L - 53)%Z by lia.
  pose proof (bpow_pos (L - 53)) as HB.
  destruct (round_even_spec (v / bpow (L - 53))) as [R1 R2].
  set (k := Reference.round_even (v / bpow (L - 53))) in *.
  assert (Ev : inject_Z k * bpow (L - 53) - v
               == (inject_Z k - v / bpow (L - 53)) * bpow (L - 53)) by (field; lra).
  assert (Ea : Qabs (inject_Z k * bpow (L - 53) - v)
               == Qabs (inject_Z k - v / bpow (L - 53)) * bpow (L - 53)).
  { rewrite Ev, Qabs_Qmult, (Qabs_pos (bpow (L - 53))) by lra. reflexivity. }
  exists k. split; [reflexivity|]. split.
  - rewrite Ea. apply Qmult_le_compat_r; lra.
  - intros T. apply R2. rewrite Ea in T.
    apply (Qmult_inj_r _ _ (bpow (L - 53))); [lra|exact T].
Qed.

Lemma RNE_unique E v w w' : RNE E v w -> RNE E v w' -> w == w'.
Proof.
  intros H H'. apply Qle_antisym.
  - apply (RNE_monotone E v v w w' H H'). apply Qle_refl.
  - apply (RNE_monotone E v v w' w H' H). apply Qle_refl.
Qed.

(** The relative error of a rounding in the binade [L]. *)
Lemma RNE_relative L v w :
  RNE (L - 53) v w -> bpow (L - 1) <= Qabs v ->
  Qabs (w - v) <= bpow (-53) * Qabs v.
Proof.
  intros (k & _ & H & _) Hlo.
  assert (E : bpow (L - 53) == bpow (-52) * bpow (L - 1)).
  { rewrite <- bpow_add. replace (-52 + (L - 1))%Z with (L - 53)%Z by lia. reflexivity. }
  rewrite E in H.
  pose proof (bpow_pos (L - 1)) as HB.
  assert (bpow (-53) * bpow (L - 1) <= bpow (-53) * Qabs v).
  { apply Qmult_le_l; [apply bpow_pos|exact Hlo]. }
  assert (E2 : bpow (-52) == 2 * bpow (-53)) by reflexivity.
  rewrite E2 in H. lra.
Qed.

(** A rounded value stays in the closed binade and on its grid. *)
Lemma RNE_binade L v w :
  RNE (L - 53) v w -> bpow (L - 1) <= Qabs v -> Qabs v < bpow L ->
  bpow (L - 1) <= Qabs w /\ Qabs w <= bpow L /\
  exists k, w == inject_Z k * bpow (L - 53).
Proof.
  intros R Hlo Hhi.
  assert (Elo : bpow (L - 1) == inject_Z (2 ^ 52) * bpow (L - 53)).
  { rewrite (bpow_split (L - 53) (L - 1)) by lia.
    replace (L - 1 - (L - 53))%Z with 52%Z by lia. reflexivity. }
  assert (Ehi : bpow L == inject_Z (2 ^ 53) * bpow (L - 53)).
  { rewrite (bpow_split (L - 53) L) by lia.
    replace (L - (L - 53))%Z with 53%Z by lia. reflexivity. }
  pose proof (RNE_rounded _ _ _ R) as Rr.
  destruct (Qlt_le_dec v 0) as [Neg|Pos].
  - rewrite Qabs_neg in Hlo, Hhi by lra.
    assert (U : w <= - bpow (L - 1)).
    { apply (rounded_ub _ _ _ _ Rr); [|lra].
      exists (- 2 ^ 52)%Z. rewrite Elo, inject_Z_opp. ring. }
    assert (D : - bpow L <= w).
    { apply (rounded_lb _ _ _ _ Rr); [|lra].
      exists (- 2 ^ 53)%Z. rewrite Ehi, inject_Z_opp. ring. }
    pose proof (bpow_pos (L - 1)).
    rewrite Qabs_neg by lra. split; [lra|]. split; [lra|].
    destruct R as (k & Hk & _). exists k. exact Hk.
  - rewrite Qabs_pos in Hlo, Hhi by lra.
    assert (D : bpow (L - 1) <= w).
    { apply (rounded_lb _ _ _ _ Rr); [|lra]. exists (2 ^ 52)%Z. exact Elo. }
    assert (U : w <= bpow L).
    { apply (rounded_ub _ _ _ _ Rr); [|lra]. exists (2 ^ 53)%Z. exact Ehi. }
    pose proof (bpow_pos (L - 1)).
    rewrite Qabs_pos by lra. split; [lra|]. split; [lra|].
    destruct R as (k & Hk & _). exists k. exact Hk.
Qed.

(** ** The double operations as roundings of the exact result *)

Lemma binade_exists v :
  bpow (-1022) <= Qabs v -> Qabs v < bpow 1023 ->
  exists L, (-1021 <= L <= 1023)%Z /\ bpow (L - 1) <= Qabs v /\ Qabs v < bpow L.
Proof.
  intros Hlo Hhi.
  assert (Hv : ~ v == 0).
  { intros E. rewrite E in Hlo. change (Qabs 0) with 0 in Hlo.
    pose proof (bpow_pos (-1022)). lra. }
  destruct (ilog2_spec v Hv) as [H1 H2].
  exists (Reference.ilog2 v + 1)%Z.
  replace (Reference.ilog2 v + 1 - 1)%Z with (Reference.ilog2 v) by lia.
  split; [|split; assumption].
  assert (A : (-1022 < Reference.ilog2 v + 1)%Z) by (apply bpow_lt_inv; lra).
  assert (B : (Reference.ilog2 v < 1023)%Z) by (apply bpow_lt_inv; lra).
  lia.
Qed.

Lemma F64_sub_binade x y :
  isfinite x = true -> isfinite y = true -> ~ SF2Q x == 0 -> ~ SF2Q y == 0 ->
  bpow (-1022) <= Qabs (SF2Q x - SF2Q y) -> Qabs (SF2Q x - SF2Q y) < bpow 1023 ->
  isfinite (F64.sub x y) = true /\
  SF2Q (F64.sub x y) == Reference.round_double (SF2Q x - SF2Q y) /\
  exists L, (-1021 <= L <= 1023)%Z /\
            bpow (L - 1) <= Qabs (SF2Q x - SF2Q y) /\ Qabs (SF2Q x - SF2Q y) < bpow L /\
            RNE (L - 53) (SF2Q x - SF2Q y) (SF2Q (F64.sub x y)).
Proof.
  intros Fx Fy Hx Hy Hlo Hhi.
  destruct (binade_exists _ Hlo Hhi) as (L & HL & B1 & B2).
  destruct (F64_sub_RNE x y L Fx Fy Hx Hy HL (conj B1 B2)) as [F R].
  split; [exact F|]. split.
  - apply (RNE_unique (L - 53) (SF2Q x - SF2Q y)); [exact R|].
    apply round_double_RNE; [lia | exact B1 | exact B2].
  - exists L. repeat split; try assumption; lia.
Qed.

Lemma F64_add_binade x y :
  isfinite x = true -> isfinite y = true -> ~ SF2Q x == 0 -> ~ SF2Q y == 0 ->
  bpow (-1022) <= Qabs (SF2Q x + SF2Q y) -> Qabs (SF2Q x + SF2Q y) < bpow 1023 ->
  isfinite (F64.add x y) = true /\
  SF2Q (F64.add x y) == Reference.round_double (SF2Q x + SF2Q y) /\
  exists L, (-1021 <= L <= 1023)%Z /\
            bpow (L - 1) <= Qabs (SF2Q x + SF2Q y) /\ Qabs (SF2Q x + SF2Q y) < bpow L /\
            RNE (L - 53) (SF2Q x + SF2Q y) (SF2Q (F64.add x y)).
Proof.
  intros Fx Fy Hx Hy Hlo Hhi.
  destruct (binade_exists _ Hlo Hhi) as (L & HL & B1 & B2).
  destruct (F64_add_RNE x y L Fx Fy Hx Hy HL (conj B1 B2)) as [F R].
  split; [exact F|]. split.
  - apply (RNE_unique (L - 53) (SF2Q x + SF2Q y)); [exact R|].
    apply round_double_RNE; [lia | exact B1 | exact B2].
  - exists L. repeat split; try assumption; lia.
Qed.

Lemma F64_div_binade x y :
  isfinite x = true -> isfinite y = true -> ~ SF2Q x == 0 -> ~ SF2Q y == 0 ->
  bpow (-1022) <= Qabs (SF2Q x / SF2Q y) -> Qabs (SF2Q x / SF2Q y) < bpow 1023 ->
  isfinite (F64.div x y) = true /\
  SF2Q (F64.div x y) == Reference.round_double (SF2Q x / SF2Q y) /\
  exists L, (-1021 <= L <= 1023)%Z /\
            bpow (L - 1) <= Qabs (SF2Q x / SF2Q y) /\ Qabs (SF2Q x / SF2Q y) < bpow L /\
            RNE (L - 53) (SF2Q x / SF2Q y) (SF2Q (F64.div x y)).
Proof.
  intros Fx Fy Hx Hy Hlo Hhi.
  destruct (binade_exists _ Hlo Hhi) as (L & HL & B1 & B2).
  destruct (F64_div_RNE x y L Fx Fy Hx Hy HL (conj B1 B2)) as [F R].
  split; [exact F|]. split.
  - apply (RNE_unique (L - 53) (SF2Q x / SF2Q y)); [exact R|].
    apply round_double_RNE; [lia | exact B1 | exact B2].
  - exists L. repeat split; try assumption; lia.
Qed.

(** ** Truncation *)

Lemma truncate_nonneg q k :
  inject_Z k <= q -> q < inject_Z k + 1 -> (0 <= k)%Z -> Reference.truncate q = k.
Proof.
  intros H1 H2 Hk. unfold Reference.truncate.
  assert (H0 : 0 <= q).
  { eapply Qle_trans; [|exact H1]. apply (inject_Z_le 0). exact Hk. }
  apply Qle_bool_iff in H0. rewrite H0. apply Qfloor_unique; assumption.
Qed.

Lemma truncate_nonpos q k :
  inject_Z k - 1 < q -> q <= inject_Z k -> (k <= 0)%Z -> Reference.truncate q = k.
Proof.
  intros H1 H2 Hk. unfold Reference.truncate.
  assert (Hk0 : inject_Z k <= 0) by (apply (inject_Z_le k 0); exact Hk).
  destruct (Qle_bool 0 q) eqn:E.
  - apply Qle_bool_iff in E. apply Qfloor_unique; lra.
  - unfold Qceiling.
    assert (F : Qfloor (- q) = (- k)%Z).
    { apply Qfloor_unique; rewrite inject_Z_opp; lra. }
    rewrite F. lia.
Qed.

(** Two numbers strictly between the same consecutive integers have the
    same truncation. *)
Lemma truncate_same_cell s t k :
  inject_Z k < s -> s < inject_Z k + 1 -> inject_Z k < t -> t < inject_Z k + 1 ->
  Reference.truncate s = Reference.truncate t.
Proof.
  intros S1 S2 T1 T2. destruct (Z_le_gt_dec 0 k) as [Hk|Hk].
  - assert (Hs : Reference.truncate s = k) by (apply truncate_nonneg; [lra | lra | lia]).
    assert (Ht : Reference.truncate t = k) by (apply truncate_nonneg; [lra | lra | lia]).
    congruence.
  - assert (E : inject_Z (k + 1) == inject_Z k + 1)
      by (rewrite inject_Z_plus; reflexivity).
    assert (Hs : Reference.truncate s = (k + 1)%Z)
      by (apply truncate_nonpos; [rewrite E; lra | rewrite E; lra | lia]).
    assert (Ht : Reference.truncate t = (k + 1)%Z)
      by (apply truncate_nonpos; [rewrite E; lra | rewrite E; lra | lia]).
    congruence.
Qed.

Lemma truncate_comp s t : s == t -> Reference.truncate s = Reference.truncate t.
Proof.
  intros E. unfold Reference.truncate.
  assert (B : Qle_bool 0 s = Qle_bool 0 t).
  { destruct (Qle_bool 0 s) eqn:A; destruct (Qle_bool 0 t) eqn:B; try reflexivity.
    - apply Qle_bool_iff in A. rewrite E in A. apply Qle_bool_iff in A. congruence.
    - apply Qle_bool_iff in B. rewrite <- E in B. apply Qle_bool_iff in B. congruence. }
  assert (F1 : Qfloor s = Qfloor t) by (apply Qfloor_comp; exact E).
  assert (F2 : Qfloor (- s) = Qfloor (- t)) by (apply Qfloor_comp; rewrite E; reflexivity).
  rewrite B. unfold Qceiling. rewrite F1, F2. reflexivity.
Qed.

(** The conversion [int(double)] is the truncation of the exact value. *)
Lemma F64_trunc_truncate d :
  isfinite d = true -> F64.trunc d = Some (Reference.truncate (SF2Q d)).
Proof.
  intros Fd. destruct (Qlt_le_dec (SF2Q d) 0) as [Neg|Pos].
  - assert (Fd' : isfinite (SFopp d) = true) by (rewrite isfinite_opp; exact Fd).
    assert (Hnn : 0 <= SF2Q (SFopp d)) by (rewrite SF2Q_opp; lra).
    destruct (F64_trunc_nonneg (SFopp d) Fd' Hnn) as (n & Hn & Hn1 & Hn2).
    rewrite SF2Q_opp in Hn1, Hn2. rewrite F64_trunc_opp in Hn.
    destruct (F64.trunc d) as [z|]; [|discriminate Hn].
    cbn [option_map] in Hn. injection Hn as Hz. f_equal.
    assert (Hn0 : (-1 < n)%Z).
    { apply inject_Z_lt_inv. change (inject_Z (-1)) with (-1). lra. }
    symmetry. apply truncate_nonpos; try lia.
    + replace z with (- n)%Z by lia. rewrite inject_Z_opp. lra.
    + replace z with (- n)%Z by lia. rewrite inject_Z_opp. lra.
  - destruct (F64_trunc_nonneg d Fd Pos) as (n & Hn & Hn1 & Hn2).
    rewrite Hn. f_equal. symmetry.
    assert (Hn0 : (-1 < n)%Z).
    { apply inject_Z_lt_inv. change (inject_Z (-1)) with (-1). lra. }
    apply truncate_nonneg; try assumption. lia.
Qed.

Lemma F64_to_int_truncate d :
  isfinite d = true -> F64.to_int d = Reference.to_int (Reference.truncate (SF2Q d)).
Proof.
  intros Fd. unfold F64.to_int. rewrite (F64_trunc_truncate d Fd). reflexivity.
Qed.

(** ** The reference rounding respects equality of rationals *)

Lemma round_even_comp q q' : q == q' -> Reference.round_even q = Reference.round_even q'.
Proof.
  intros E. unfold Reference.round_even.
  assert (F : Qfloor q = Qfloor q') by (apply Qfloor_comp; exact E).
  rewrite F.
  assert (C : (q - inject_Z (Qfloor q') ?= 1 # 2) = (q' - inject_Z (Qfloor q') ?= 1 # 2)).
  { apply Qcompare_comp; [rewrite E; reflexivity | reflexivity]. }
  rewrite C. reflexivity.
Qed.

Lemma ilog2_comp q q' : ~ q == 0 -> q == q' -> Reference.ilog2 q = Reference.ilog2 q'.
Proof.
  intros Hq E. destruct (ilog2_spec q Hq) as [H1 H2].
  pose proof (Qabs_wd _ _ E) as EA. rewrite EA in H1, H2. symmetry.
  replace (Reference.ilog2 q) with (Reference.ilog2 q + 1 - 1)%Z by lia.
  apply ilog2_unique; [|exact H2].
  replace (Reference.ilog2 q + 1 - 1)%Z with (Reference.ilog2 q) by lia. exact H1.
Qed.

Lemma round_double_comp q q' :
  q == q' -> Reference.round_double q == Reference.round_double q'.
Proof.
  intros E. unfold Reference.round_double.
  destruct (Qeq_bool q 0) eqn:A; destruct (Qeq_bool q' 0) eqn:B.
  - reflexivity.
  - apply Qeq_bool_iff in A. rewrite E in A. apply Qeq_bool_iff in A. congruence.
  - apply Qeq_bool_iff in B. rewrite <- E in B. apply Qeq_bool_iff in B. congruence.
  - assert (Hq : ~ q == 0).
    { intros Z. apply Qeq_bool_iff in Z. congruence. }
    rewrite (ilog2_comp q q' Hq E).
    set (e := Z.max (Reference.ilog2 q' - 52) (-1074)).
    rewrite (round_even_comp (q / bpow e) (q' / bpow e)); [reflexivity|].
    rewrite E. reflexivity.
Qed.

Lemma round_double_zero q : q == 0 -> Reference.round_double q == 0.
Proof.
  intros E. unfold Reference.round_double.
  apply Qeq_bool_iff in E. rewrite E. reflexivity.
Qed.

(** ** Values of binary32 numbers *)

Lemma float32_bound x :
  F32.valid x = true -> isfinite x = true -> Qabs (SF2Q x) < bpow 128.
Proof.
  intros Vx Fx. destruct x as [s|s| |s m e]; try discriminate.
  - cbn [SF2Q]. apply bpow_pos.
  - unfold F32.valid in Vx. cbn [valid_binary] in Vx.
    apply (bounded_spec F32.prec F32.emax) in Vx. destruct Vx as (He & Hd & _).
    unfold F32.prec, F32.emax in *.
    rewrite <- SF2Q_abs. cbn [SFabs SF2Q cond_Qopp].
    pose proof (Zdigits2_bounds (Z.pos m) ltac:(lia)) as [_ Hm].
    assert (Hm' : (Z.pos m < 2 ^ 24)%Z).
    { eapply Z.lt_le_trans; [exact Hm|]. apply Z.pow_le_mono_r; lia. }
    apply inject_Z_lt in Hm'. rewrite bpow_inject in Hm' by lia.
    assert (Hb : bpow e <= bpow 104) by (apply bpow_le; lia).
    pose proof (bpow_pos e) as Hbp.
    assert (Hm0 : 0 < inject_Z (Z.pos m)) by (apply (inject_Z_lt 0); lia).
    replace 128%Z with (24 + 104)%Z by lia. rewrite bpow_add.
    eapply Qle_lt_trans.
    + apply Qmult_le_l; [exact Hm0 | exact Hb].
    + apply Qmult_lt_compat_r; [apply bpow_pos | exact Hm'].
Qed.

Lemma float32_multiple_149 x :
  F32.valid x = true -> isfinite x = true ->
  exists N : Z, SF2Q x == inject_Z N * bpow (-149).
Proof.
  intros Vx Fx. destruct x as [s|s| |s m e]; try discriminate.
  - exists 0%Z. cbn [SF2Q]. change (inject_Z 0) with 0. ring.
  - unfold F32.valid in Vx. cbn [valid_binary] in Vx.
    apply (bounded_spec F32.prec F32.emax) in Vx. destruct Vx as (He & _ & _).
    rewrite emin_spec in He. unfold F32.prec, F32.emax in He.
    exists (cond_Zopp s (Z.pos m) * 2 ^ (e - -149))%Z.
    cbn [SF2Q]. rewrite <- cond_Zopp_Q, inject_Z_mult, (bpow_split (-149) e) by lia. ring.
Qed.

(** A non-zero multiple of [2^E] is at least [2^E] in magnitude. *)
Lemma multiple_lower E v :
  (exists k, v == inject_Z k * bpow E) -> ~ v == 0 -> bpow E <= Qabs v.
Proof.
  intros (k & Hk) Hv. pose proof (bpow_pos E) as HB.
  assert (Hk0 : k <> 0%Z).
  { intros ->. apply Hv. rewrite Hk. change (inject_Z 0) with 0. ring. }
  rewrite Hk, Qabs_Qmult, (Qabs_pos (bpow E)) by lra.
  assert (H1 : 1 <= Qabs (inject_Z k)).
  { destruct (Z_lt_le_dec k 0) as [N|P].
    - assert (I : inject_Z k <= inject_Z (-1)) by (apply inject_Z_le; lia).
      change (inject_Z (-1)) with (-1) in I. rewrite Qabs_neg by lra. lra.
    - assert (I : inject_Z 1 <= inject_Z k) by (apply inject_Z_le; lia).
      change (inject_Z 1) with 1 in I. rewrite Qabs_pos by lra. lra. }
  setoid_replace (bpow E) with (1 * bpow E) at 1 by ring.
  apply Qmult_le_compat_r; lra.
Qed.

(** A valid binary32 number is determined by its value. *)
Lemma float32_of_value x m e :
  F32.valid x = true -> isfinite x = true ->
  F32.valid (S754_finite false m e) = true ->
  SF2Q x == inject_Z (Z.pos m) * bpow e ->
  x = S754_finite false m e.
Proof.
  intros Vx Fx Vy E. pose proof (finite_pos_Q m e) as Hpos.
  destruct x as [s|s| |s m' e']; try discriminate.
  - cbn [SF2Q] in E. lra.
  - pose proof (finite_pos_Q m' e') as Hpos'.
    destruct s; cbn [SF2Q cond_Qopp] in E; [lra|].
    unfold F32.valid in Vx, Vy. cbn [valid_binary] in Vx, Vy.
    pose proof (compare_canonical F32.prec F32.emax eq_refl m' e' m e Vx Vy) as C.
    apply Qeq_alt in E. rewrite E in C.
    destruct (Z.compare_spec e' e) as [Ee|Ee|Ee]; try discriminate C.
    subst e'. symmetry in C. change (Pos.compare_cont Eq m' m) with (Pos.compare m' m) in C.
    apply Pos.compare_eq in C. subst m'. reflexivity.
Qed.

(** ** The steps of [Compute] with the offset in view *)

Lemma Compute_chain_offset (C : Z) (x co size : spec_float) (CO ISZ : Q) (Ua Ub Ud Ug : Z) :
  F32.valid x = true -> isfinite x = true ->
  F32.valid co = true -> isfinite co = true -> SF2Q co == CO ->
  F32.valid size = true -> isfinite size = true -> 0 < SF2Q size -> ISZ == / SF2Q size ->
  (Z.abs C < 2 ^ 53)%Z ->
  (-1074 <= Ua < 971)%Z -> (-1074 <= Ub < 971)%Z ->
  (-1074 <= Ud < 971)%Z -> (-1074 <= Ug < 971)%Z ->
  Qabs (SF2Q x - CO) < bpow (Ua + 53) ->
  (forall a, rounded Ua (SF2Q x - CO) a -> Qabs (a * ISZ) < bpow (Ub + 53)) ->
  (forall a b, rounded Ua (SF2Q x - CO) a -> rounded Ub (a * ISZ) b ->
               Qabs (b + inject_Z C) < bpow (Ud + 53)) ->
  (forall a b d, rounded Ua (SF2Q x - CO) a -> rounded Ub (a * ISZ) b ->
                 rounded Ud (b + inject_Z C) d ->
                 Qabs (d + (1 # 2)) < bpow (Ug + 53)) ->
  let O := Trinity.Compute_offset x co size in
  let G := F64.add (F64.add O (F64.of_int C)) F64.half in
  isfinite O = true /\ isfinite G = true /\
  exists a d,
    rounded Ua (SF2Q x - CO) a /\ rounded Ub (a * ISZ) (SF2Q O) /\
    rounded Ud (SF2Q O + inject_Z C) d /\ rounded Ug (d + (1 # 2)) (SF2Q G).
Proof.
  intros Vx Fx Vco Fco HCO Vsz Fsz Hszpos HISZ HC HUa HUb HUd HUg Ha Hb Hd Hg O G.
  destruct (F64_of_float_Q x Vx Fx) as [Fx' Xq].
  destruct (F64_of_float_Q co Vco Fco) as [Fco' COq].
  destruct (F64_of_float_Q size Vsz Fsz) as [Fsz' SZq].
  destruct (F64_of_int_Q C HC) as [FC Cq].
  assert (Hsub : forall a', a' == SF2Q (F64.of_float x) - SF2Q (F64.of_float co) ->
                            a' == SF2Q x - CO).
  { intros a' ->. rewrite Xq, COq, HCO. reflexivity. }
  destruct (F64_sub_rounded (F64.of_float x) (F64.of_float co) Ua Fx' Fco' HUa) as [Fa Ra].
  { rewrite (Hsub _ (Qeq_refl _)). exact Ha. }
  apply (rounded_eq Ua _ (SF2Q x - CO) _ _ (Hsub _ (Qeq_refl _)) (Qeq_refl _)) in Ra.
  set (a := F64.sub (F64.of_float x) (F64.of_float co)) in *.
  assert (Hdiv : SF2Q a / SF2Q (F64.of_float size) == SF2Q a * ISZ).
  { rewrite SZq, HISZ. reflexivity. }
  destruct (F64_div_rounded a (F64.of_float size) Ub Fa Fsz') as [Fb Rb]; auto.
  { rewrite SZq. lra. }
  { rewrite Hdiv. apply Hb. exact Ra. }
  apply (rounded_eq Ub _ (SF2Q a * ISZ) _ _ Hdiv (Qeq_refl _)) in Rb.
  change (F64.div a (F64.of_float size)) with O in Rb, Fb.
  assert (Hadd : SF2Q O + SF2Q (F64.of_int C) == SF2Q O + inject_Z C).
  { rewrite Cq. reflexivity. }
  destruct (F64_add_rounded O (F64.of_int C) Ud Fb FC HUd) as [Fd Rd].
  { rewrite Hadd. apply (Hd (SF2Q a)); assumption. }
  apply (rounded_eq Ud _ (SF2Q O + inject_Z C) _ _ Hadd (Qeq_refl _)) in Rd.
  set (d := F64.add O (F64.of_int C)) in *.
  assert (Hadd2 : SF2Q d + SF2Q F64.half == SF2Q d + (1 # 2)).
  { rewrite F64_half_Q. reflexivity. }
  destruct (F64_add_rounded d F64.half Ug Fd eq_refl HUg) as [Fg Rg].
  { rewrite Hadd2. apply (Hg (SF2Q a) (SF2Q O)); assumption. }
  apply (rounded_eq Ug _ (SF2Q d + (1 # 2)) _ _ Hadd2 (Qeq_refl _)) in Rg.
  split; [exact Fb|]. split; [exact Fg|].
  exists (SF2Q a), (SF2Q d). repeat split; assumption.
Qed.

Lemma grid_chain_offset (x : spec_float) (Ua Ub Ud Ug : Z) :
  F32.valid x = true -> isfinite x = true ->
  (-1074 <= Ua < 971)%Z -> (-1074 <= Ub < 971)%Z ->
  (-1074 <= Ud < 971)%Z -> (-1074 <= Ug < 971)%Z ->
  Qabs (SF2Q x - GRID_CO) < bpow (Ua + 53) ->
  (forall a, rounded Ua (SF2Q x - GRID_CO) a -> Qabs (a * GRID_ISZ) < bpow (Ub + 53)) ->
  (forall a b, rounded Ua (SF2Q x - GRID_CO) a -> rounded Ub (a * GRID_ISZ) b ->
               Qabs (b + 32) < bpow (Ud + 53)) ->
  (forall a b d, rounded Ua (SF2Q x - GRID_CO) a -> rounded Ub (a * GRID_ISZ) b ->
                 rounded Ud (b + 32) d -> Qabs (d + (1 # 2)) < bpow (Ug + 53)) ->
  isfinite (grid_x_offset x) = true /\ isfinite (grid_sum x) = true /\
  exists a d,
    rounded Ua (SF2Q x - GRID_CO) a /\
    rounded Ub (a * GRID_ISZ) (SF2Q (grid_x_offset x)) /\
    rounded Ud (SF2Q (grid_x_offset x) + 32) d /\
    rounded Ug (d + (1 # 2)) (SF2Q (grid_sum x)).
Proof.
  intros Vx Fx HUa HUb HUd HUg Ha Hb Hd Hg.
  apply (Compute_chain_offset 32 x CENTER_GRID_OFFSET SIZE_OF_GRIDS GRID_CO GRID_ISZ
           Ua Ub Ud Ug); auto.
  all: vm_compute; reflexivity.
Qed.

Lemma cell_chain_offset (x : spec_float) (Ua Ub Ud Ug : Z) :
  F32.valid x = true -> isfinite x = true ->
  (-1074 <= Ua < 971)%Z -> (-1074 <= Ub < 971)%Z ->
  (-1074 <= Ud < 971)%Z -> (-1074 <= Ug < 971)%Z ->
  Qabs (SF2Q x - CELL_CO) < bpow (Ua + 53) ->
  (forall a, rounded Ua (SF2Q x - CELL_CO) a -> Qabs (a * CELL_ISZ) < bpow (Ub + 53)) ->
  (forall a b, rounded Ua (SF2Q x - CELL_CO) a -> rounded Ub (a * CELL_ISZ) b ->
               Qabs (b + 256) < bpow (Ud + 53)) ->
  (forall a b d, rounded Ua (SF2Q x - CELL_CO) a -> rounded Ub (a * CELL_ISZ) b ->
                 rounded Ud (b + 256) d -> Qabs (d + (1 # 2)) < bpow (Ug + 53)) ->
  isfinite (cell_x_offset x) = true /\ isfinite (cell_sum x) = true /\
  exists a d,
    rounded Ua (SF2Q x - CELL_CO) a /\
    rounded Ub (a * CELL_ISZ) (SF2Q (cell_x_offset x)) /\
    rounded Ud (SF2Q (cell_x_offset x) + 256) d /\
    rounded Ug (d + (1 # 2)) (SF2Q (cell_sum x)).
Proof.
  intros Vx Fx HUa HUb HUd HUg Ha Hb Hd Hg.
  apply (Compute_chain_offset 256 x CENTER_GRID_CELL_OFFSET SIZE_OF_GRID_CELL
           CELL_CO CELL_ISZ Ua Ub Ud Ug); auto.
  all: vm_compute; reflexivity.
Qed.

(** ** The index against the truncated reference *)

Lemma index_truncated_of_sum C O G :
  isfinite G = true ->
  Reference.truncate (SF2Q G) = Reference.truncate (SF2Q O + inject_Z C + (1 # 2)) ->
  F64.to_int G = Reference.index_truncated C (SF2Q O).
Proof.
  intros FG E. rewrite (F64_to_int_truncate G FG). unfold Reference.index_truncated.
  rewrite E. reflexivity.
Qed.

(** A coordinate that is a multiple of 2^-14, from [-2^36] to
    [8738133 * 2^13]. *)
Lemma grid_reference_multiple x N :
  F32.valid x = true -> isfinite x = true ->
  SF2Q x == inject_Z N * bpow (-14) ->
  - bpow 36 <= SF2Q x -> SF2Q x <= 8738133 * bpow 13 ->
  F64.to_int (grid_sum x) = Reference.index_truncated 32 (SF2Q (grid_x_offset x)).
Proof.
  intros Vx Fx HN Hlo Hhi. bpow_num_in HN. bpow_num_in Hlo. bpow_num_in Hhi.
  set (k := ((N + 279620256) / 8738133)%Z).
  set (r := ((N + 279620256) mod 8738133)%Z).
  assert (HT : (N + 279620256 = 8738133 * k + r)%Z) by (apply Z.div_mod; lia).
  assert (Hr : (0 <= r < 8738133)%Z) by (apply Z.mod_pos_bound; lia).
  clearbody k r.
  Z2Q HT. destruct Hr as [Hr0 Hr1].
  assert (Hr1' : (r <= 8738132)%Z) by lia.
  Z2Q Hr0. Z2Q Hr1'.
  destruct (grid_chain_offset x (-15) (-26) (-25) (-25) Vx Fx)
    as (Fo & Fg & a & d & Ra & Rb & Rd & Rg); unfold GRID_CO, GRID_ISZ in *; try lia;
    [ mag
    | intros a Ra; rb Ra; mag
    | intros a b Ra Rb; rb Ra; rb Rb; mag
    | intros a b d Ra Rb Rd; rb Ra; rb Rb; rb Rd; mag |].
  assert (Ea : a == SF2Q x - (8738133 # 32768)).
  { apply (rounded_exact _ _ _ Ra). multiple (2 * N - 8738133)%Z. }
  apply index_truncated_of_sum; [exact Fg|].
  change (inject_Z 32) with 32.
  destruct (Z.eq_dec r 0) as [Hrz|Hrnz].
  - Z2Q Hrz.
    assert (Eb : SF2Q (grid_x_offset x) == a * (16384 # 8738133)).
    { apply (rounded_exact _ _ _ Rb). multiple ((2 * k - 65) * 33554432)%Z. }
    assert (Ed : d == SF2Q (grid_x_offset x) + 32).
    { apply (rounded_exact _ _ _ Rd). multiple ((2 * k - 1) * 16777216)%Z. }
    assert (Eg : SF2Q (grid_sum x) == d + (1 # 2)).
    { apply (rounded_exact _ _ _ Rg). multiple (k * 33554432)%Z. }
    apply truncate_comp. lra.
  - assert (Hr1'' : (1 <= r)%Z) by lia. Z2Q Hr1''.
    rb Rb. rb Rd. rb Rg.
    apply (truncate_same_cell _ _ k); lra.
Qed.

Lemma index_truncated_value C O G n :
  isfinite G = true ->
  Reference.truncate (SF2Q G) = n ->
  Reference.truncate (SF2Q O + inject_Z C + (1 # 2)) = n ->
  F64.to_int G = Reference.index_truncated C (SF2Q O).
Proof.
  intros FG E1 E2. apply index_truncated_of_sum; [exact FG|]. congruence.
Qed.

(** A small coordinate that is not negative. *)
Lemma grid_reference_small_nonneg x :
  F32.valid x = true -> isfinite x = true ->
  0 <= SF2Q x -> SF2Q x < 512 ->
  F64.to_int (grid_sum x) = Reference.index_truncated 32 (SF2Q (grid_x_offset x)).
Proof.
  intros Vx Fx Hlo Hhi.
  destruct (grid_chain_offset x (-43) (-52) (-47) (-46) Vx Fx)
    as (Fo & Fg & a & d & Ra & Rb & Rd & Rg); unfold GRID_CO, GRID_ISZ in *; try lia;
    [ mag
    | intros a Ra; rb Ra; mag
    | intros a b Ra Rb; rb Ra; rb Rb; mag
    | intros a b d Ra Rb Rd; rb Ra; rb Rb; rb Rd; mag |].
  assert (La : - (8738133 # 32768) <= a).
  { apply (rounded_lb _ _ _ _ Ra); [multiple_c (- 8738133 * 2 ^ 28)%Z | lra]. }
  assert (Lb : - (1 # 2) <= SF2Q (grid_x_offset x)).
  { apply (rounded_lb _ _ _ _ Rb); [multiple_c (- 2 ^ 51)%Z | lra]. }
  assert (Ld : 63 # 2 <= d).
  { apply (rounded_lb _ _ _ _ Rd); [multiple_c (63 * 2 ^ 46)%Z | lra]. }
  assert (Lg : 32 <= SF2Q (grid_sum x)).
  { apply (rounded_lb _ _ _ _ Rg); [multiple_c (32 * 2 ^ 46)%Z | lra]. }
  rb Ra. rb Rb. rb Rd. rb Rg.
  apply (index_truncated_value _ _ _ 32%Z); [exact Fg | |];
    apply truncate_nonneg; change (inject_Z 32) with 32; try lra; lia.
Qed.

(** A small coordinate at most [-2^-37]. *)
Lemma grid_reference_small_negative x :
  F32.valid x = true -> isfinite x = true ->
  - (512) < SF2Q x -> SF2Q x <= - bpow (-37) ->
  F64.to_int (grid_sum x) = Reference.index_truncated 32 (SF2Q (grid_x_offset x)).
Proof.
  intros Vx Fx Hlo Hhi. bpow_num_in Hhi.
  destruct (grid_chain_offset x (-43) (-52) (-48) (-47) Vx Fx)
    as (Fo & Fg & a & d & Ra & Rb & Rd & Rg); unfold GRID_CO, GRID_ISZ in *; try lia;
    [ mag
    | intros a Ra; rb Ra; mag
    | intros a b Ra Rb; rb Ra; rb Rb; mag
    | intros a b d Ra Rb Rd; rb Ra; rb Rb; rb Rd; mag |].
  rb Ra. rb Rb. rb Rd. rb Rg.
  apply (index_truncated_value _ _ _ 31%Z); [exact Fg | |];
    apply truncate_nonneg; change (inject_Z 32) with 32; change (inject_Z 31) with 31;
    try lra; lia.
Qed.

(** A negative coordinate above [-2^-37] and below the seam. *)
Lemma grid_reference_tiny x :
  F32.valid x = true -> isfinite x = true ->
  - bpow (-37) <= SF2Q x -> SF2Q x <= - (9175040 # 1) * bpow (-63) ->
  F64.to_int (grid_sum x) = Reference.index_truncated 32 (SF2Q (grid_x_offset x)).
Proof.
  intros Vx Fx Hlo Hhi.
  rewrite (grid_tiny_low x Vx Fx Hlo Hhi).
  bpow_num_in Hlo. bpow_num_in Hhi.
  destruct (grid_chain_offset x (-44) (-53) (-48) (-47) Vx Fx)
    as (Fo & Fg & a & d & Ra & Rb & Rd & Rg); unfold GRID_CO, GRID_ISZ in *; try lia;
    [ mag
    | intros a Ra; rb Ra; mag
    | intros a b Ra Rb; rb Ra; rb Rb; mag
    | intros a b d Ra Rb Rd; rb Ra; rb Rb; rb Rd; mag |].
  assert (La : a <= - (8738133 # 32768) - 17 * bpow (-44)).
  { apply (rounded_ub _ _ _ _ Ra); [multiple_c (- (8738133 * 2 ^ 29 + 17))%Z | bpow_num; lra]. }
  bpow_num_in La.
  assert (Lb : SF2Q (grid_x_offset x) <= - (1 # 2) - 16 * bpow (-53)).
  { apply (rounded_ub _ _ _ _ Rb); [multiple_c (- (2 ^ 52 + 16))%Z | bpow_num; lra]. }
  bpow_num_in Lb. rb Ra. rb Rb.
  unfold Reference.index_truncated.
  rewrite (truncate_nonneg _ 31%Z); [reflexivity | | | lia];
    change (inject_Z 32) with 32; change (inject_Z 31) with 31; lra.
Qed.

(** ** Coordinates far from the centre *)

(** A sum on the grid of the offset is exact. *)
Lemma Compute_sum_exact (C : Z) (O : spec_float) (L k : Z) :
  isfinite O = true -> (Z.abs C < 2 ^ 53)%Z -> (-1021 <= L <= 52)%Z ->
  SF2Q O == inject_Z k * bpow (L - 53) ->
  Qabs (SF2Q O + inject_Z C) < bpow L ->
  Qabs (SF2Q O + inject_Z C + (1 # 2)) < bpow L ->
  let G := F64.add (F64.add O (F64.of_int C)) F64.half in
  isfinite G = true /\ SF2Q G == SF2Q O + inject_Z C + (1 # 2).
Proof.
  intros FO HC HL Hk H1 H2 G.
  destruct (F64_of_int_Q C HC) as [FC Cq].
  assert (E1 : inject_Z (2 ^ (53 - L)) * bpow (L - 53) == 1).
  { rewrite bpow_inject by lia. rewrite <- bpow_add.
    replace (53 - L + (L - 53))%Z with 0%Z by lia. reflexivity. }
  assert (E2 : inject_Z (2 ^ (52 - L)) * bpow (L - 53) == 1 # 2).
  { rewrite bpow_inject by lia. rewrite <- bpow_add.
    replace (52 - L + (L - 53))%Z with (-1)%Z by lia. reflexivity. }
  replace L with (L - 53 + 53)%Z in H1, H2 by lia.
  destruct (F64_add_rounded O (F64.of_int C) (L - 53) FO FC ltac:(lia)) as [Fd Rd].
  { rewrite Cq. exact H1. }
  assert (Ed : SF2Q (F64.add O (F64.of_int C)) == SF2Q O + inject_Z C).
  { rewrite <- Cq. apply (rounded_exact _ _ _ Rd).
    exists (k + C * 2 ^ (53 - L))%Z.
    rewrite Cq, Hk, inject_Z_plus, inject_Z_mult.
    setoid_replace ((inject_Z k + inject_Z C * inject_Z (2 ^ (53 - L))) * bpow (L - 53))
      with (inject_Z k * bpow (L - 53)
            + inject_Z C * (inject_Z (2 ^ (53 - L)) * bpow (L - 53))) by ring.
    rewrite E1. ring. }
  destruct (F64_add_rounded (F64.add O (F64.of_int C)) F64.half (L - 53) Fd eq_refl
              ltac:(lia)) as [Fg Rg].
  { rewrite Ed, F64_half_Q. exact H2. }
  split; [exact Fg|].
  rewrite <- Ed, <- F64_half_Q. apply (rounded_exact _ _ _ Rg).
  exists (k + C * 2 ^ (53 - L) + 2 ^ (52 - L))%Z.
  rewrite Ed, F64_half_Q, Hk, !inject_Z_plus, inject_Z_mult.
  setoid_replace ((inject_Z k + inject_Z C * inject_Z (2 ^ (53 - L))
                   + inject_Z (2 ^ (52 - L))) * bpow (L - 53))
    with (inject_Z k * bpow (L - 53)
          + inject_Z C * (inject_Z (2 ^ (53 - L)) * bpow (L - 53))
          + inject_Z (2 ^ (52 - L)) * bpow (L - 53)) by ring.
  rewrite E1, E2. ring.
Qed.

(** An addition does not go below a double under the exact sum. *)
Lemma F64_add_ge x y r j e0 :
  isfinite x = true -> isfinite y = true -> ~ SF2Q x == 0 -> ~ SF2Q y == 0 ->
  r == inject_Z j * bpow e0 -> (-1074 <= e0)%Z -> bpow (-1022) <= r -> r < bpow (e0 + 53) ->
  r <= SF2Q x + SF2Q y -> SF2Q x + SF2Q y < bpow 1023 ->
  isfinite (F64.add x y) = true /\ r <= SF2Q (F64.add x y) /\
  SF2Q (F64.add x y) <= 2 * (SF2Q x + SF2Q y).
Proof.
  intros Fx Fy Hx Hy Hr He Hr0 Hr1 Hle Hhi.
  pose proof (bpow_pos (-1022)) as Hp.
  destruct (F64_add_binade x y Fx Fy Hx Hy) as (F & _ & L & HL & B1 & B2 & R).
  { rewrite Qabs_pos by lra. lra. }
  { rewrite Qabs_pos by lra. exact Hhi. }
  split; [exact F|].
  rewrite Qabs_pos in B1, B2 by lra.
  split; [|
    assert (U : SF2Q (F64.add x y) <= bpow L);
    [ apply (rounded_ub _ _ _ _ (RNE_rounded _ _ _ R)); [|lra];
      exists (2 ^ 53)%Z; rewrite (bpow_split (L - 53) L) by lia;
      replace (L - (L - 53))%Z with 53%Z by lia; reflexivity
    | replace L with (L - 1 + 1)%Z in U by lia; rewrite bpow_succ in U; lra ] ].
  destruct (Z_le_gt_dec (L - 53) e0) as [A|A].
  - apply (rounded_lb _ _ _ _ (RNE_rounded _ _ _ R)); [|exact Hle].
    apply (multiple_weaken (L - 53) e0 r A). exists j. exact Hr.
  - destruct (RNE_binade L _ _ R) as (D & _ & _).
    + rewrite Qabs_pos by lra. exact B1.
    + rewrite Qabs_pos by lra. exact B2.
    + assert (P : 0 <= SF2Q (F64.add x y)).
      { apply (rounded_lb _ _ _ _ (RNE_rounded _ _ _ R)); [|lra].
        exists 0%Z. change (inject_Z 0) with 0. ring. }
      rewrite Qabs_pos in D by exact P.
      assert (bpow (e0 + 53) <= bpow (L - 1)) by (apply bpow_le; lia).
      lra.
Qed.

Lemma F64_add_le x y r j e0 :
  isfinite x = true -> isfinite y = true -> ~ SF2Q x == 0 -> ~ SF2Q y == 0 ->
  r == inject_Z j * bpow e0 -> (-1074 <= e0)%Z -> r <= - bpow (-1022) -> - bpow (e0 + 53) < r ->
  SF2Q x + SF2Q y <= r -> - bpow 1023 < SF2Q x + SF2Q y ->
  isfinite (F64.add x y) = true /\ SF2Q (F64.add x y) <= r /\
  2 * (SF2Q x + SF2Q y) <= SF2Q (F64.add x y).
Proof.
  intros Fx Fy Hx Hy Hr He Hr0 Hr1 Hle Hhi.
  pose proof (bpow_pos (-1022)) as Hp.
  destruct (F64_add_binade x y Fx Fy Hx Hy) as (F & _ & L & HL & B1 & B2 & R).
  { rewrite Qabs_neg by lra. lra. }
  { rewrite Qabs_neg by lra. lra. }
  split; [exact F|].
  rewrite Qabs_neg in B1, B2 by lra.
  split; [|
    assert (U : - bpow L <= SF2Q (F64.add x y));
    [ apply (rounded_lb _ _ _ _ (RNE_rounded _ _ _ R)); [|lra];
      exists (- 2 ^ 53)%Z; rewrite (bpow_split (L - 53) L) by lia;
      replace (L - (L - 53))%Z with 53%Z by lia; rewrite inject_Z_opp; ring
    | replace L with (L - 1 + 1)%Z in U by lia; rewrite bpow_succ in U; lra ] ].
  destruct (Z_le_gt_dec (L - 53) e0) as [A|A].
  - apply (rounded_ub _ _ _ _ (RNE_rounded _ _ _ R)); [|exact Hle].
    apply (multiple_weaken (L - 53) e0 r A). exists j. exact Hr.
  - destruct (RNE_binade L _ _ R) as (D & _ & _).
    + rewrite Qabs_neg by lra. exact B1.
    + rewrite Qabs_neg by lra. exact B2.
    + assert (P : SF2Q (F64.add x y) <= 0).
      { apply (rounded_ub _ _ _ _ (RNE_rounded _ _ _ R)); [|lra].
        exists 0%Z. change (inject_Z 0) with 0. ring. }
      rewrite Qabs_neg in D by exact P.
      assert (bpow (e0 + 53) <= bpow (L - 1)) by (apply bpow_le; lia).
      lra.
Qed.

(** ** Results outside the range of [int] *)

Lemma inject_Z_nonzero C : C <> 0%Z -> ~ inject_Z C == 0.
Proof.
  intros HC E. apply HC. change 0 with (inject_Z 0) in E.
  assert (A : (C <= 0)%Z) by (apply inject_Z_le_inv; rewrite E; apply Qle_refl).
  assert (B : (0 <= C)%Z) by (apply inject_Z_le_inv; rewrite E; apply Qle_refl).
  lia.
Qed.

Lemma to_int_above z : (INT_MAX < z)%Z -> Reference.to_int z = None.
Proof.
  intros H. unfold Reference.to_int.
  replace (z <=? INT_MAX)%Z with false by (symmetry; apply Z.leb_gt; exact H).
  rewrite andb_false_r. reflexivity.
Qed.

Lemma to_int_below z : (z < INT_MIN)%Z -> Reference.to_int z = None.
Proof.
  intros H. unfold Reference.to_int.
  replace (INT_MIN <=? z)%Z with false by (symmetry; apply Z.leb_gt; exact H).
  reflexivity.
Qed.

Lemma truncate_ge q n : inject_Z n <= q -> (0 <= n)%Z -> (n <= Reference.truncate q)%Z.
Proof.
  intros H Hn. unfold Reference.truncate.
  assert (H0 : 0 <= q).
  { eapply Qle_trans; [|exact H]. apply (inject_Z_le 0). exact Hn. }
  apply Qle_bool_iff in H0. rewrite H0.
  rewrite <- (Qfloor_Z n). apply Qfloor_resp_le. exact H.
Qed.

Lemma truncate_le q n : q <= inject_Z n -> (n <= 0)%Z -> (Reference.truncate q <= n)%Z.
Proof.
  intros H Hn. unfold Reference.truncate.
  assert (Hn0 : inject_Z n <= 0) by (apply (inject_Z_le n 0); exact Hn).
  destruct (Qle_bool 0 q) eqn:E.
  - apply Qle_bool_iff in E.
    assert (Hz : (0 <= n)%Z).
    { apply inject_Z_le_inv. change (inject_Z 0) with 0. lra. }
    assert (n = 0%Z) by lia. subst n.
    assert (Hq : q == 0) by (change (inject_Z 0) with 0 in H; lra).
    rewrite (Qfloor_comp _ _ Hq). reflexivity.
  - rewrite <- (Qceiling_Z n). apply Qceiling_resp_le. exact H.
Qed.

Lemma sum_none_above (C : Z) (O : spec_float) :
  isfinite O = true -> (Z.abs C < 2 ^ 53)%Z -> C <> 0%Z -> ~ SF2Q O == 0 ->
  2147483648 - (1 # 2) <= SF2Q O + inject_Z C -> SF2Q O + inject_Z C < bpow 1000 ->
  F64.to_int (F64.add (F64.add O (F64.of_int C)) F64.half) = None /\
  Reference.index_truncated C (SF2Q O) = None.
Proof.
  intros FO HC HC0 HO Hlo Hhi.
  destruct (F64_of_int_Q C HC) as [FC Cq].
  assert (HCq : ~ SF2Q (F64.of_int C) == 0).
  { rewrite Cq. apply inject_Z_nonzero. exact HC0. }
  assert (B1000 : bpow 1000 * 4 <= bpow 1023).
  { change 4 with (bpow 2). rewrite <- bpow_add. apply bpow_le. lia. }
  pose proof (bpow_pos 1000) as Hp.
  destruct (F64_add_ge O (F64.of_int C) (2147483648 - (1 # 2)) 4294967295 (-1) FO FC HO HCq)
    as (Fd & Ld & Ud);
    [ vm_compute; reflexivity | lia | bpow_num; lra | bpow_num; lra
    | rewrite Cq; exact Hlo | rewrite Cq; lra |].
  rewrite Cq in Ud.
  destruct (F64_add_ge (F64.add O (F64.of_int C)) F64.half 2147483648 2147483648 0 Fd eq_refl)
    as (Fg & Lg & _);
    [ lra | rewrite F64_half_Q; discriminate | vm_compute; reflexivity | lia
    | bpow_num; lra | bpow_num; lra | rewrite F64_half_Q; lra | rewrite F64_half_Q; lra |].
  split.
  - rewrite (F64_to_int_truncate _ Fg). apply to_int_above.
    assert (T := truncate_ge _ 2147483648%Z Lg ltac:(lia)). unfold INT_MAX. lia.
  - unfold Reference.index_truncated. apply to_int_above.
    assert (T : (2147483648 <= Reference.truncate (SF2Q O + inject_Z C + (1 # 2)))%Z).
    { apply truncate_ge; [|lia]. change (inject_Z 2147483648) with 2147483648. lra. }
    unfold INT_MAX. lia.
Qed.

Lemma sum_none_below (C : Z) (O : spec_float) :
  isfinite O = true -> (Z.abs C < 2 ^ 53)%Z -> C <> 0%Z -> ~ SF2Q O == 0 ->
  SF2Q O + inject_Z C <= - (2147483650) -> - bpow 1000 < SF2Q O + inject_Z C ->
  F64.to_int (F64.add (F64.add O (F64.of_int C)) F64.half) = None /\
  Reference.index_truncated C (SF2Q O) = None.
Proof.
  intros FO HC HC0 HO Hlo Hhi.
  destruct (F64_of_int_Q C HC) as [FC Cq].
  assert (HCq : ~ SF2Q (F64.of_int C) == 0).
  { rewrite Cq. apply inject_Z_nonzero. exact HC0. }
  assert (B1000 : bpow 1000 * 4 <= bpow 1023).
  { change 4 with (bpow 2). rewrite <- bpow_add. apply bpow_le. lia. }
  pose proof (bpow_pos 1000) as Hp.
  destruct (F64_add_le O (F64.of_int C) (- (2147483650)) (-2147483650) 0 FO FC HO HCq)
    as (Fd & Ld & Ud);
    [ vm_compute; reflexivity | lia | bpow_num; lra | bpow_num; lra
    | rewrite Cq; exact Hlo | rewrite Cq; lra |].
  rewrite Cq in Ud.
  destruct (F64_add_le (F64.add O (F64.of_int C)) F64.half (- (2147483649)) (-2147483649) 0
              Fd eq_refl)
    as (Fg & Lg & _);
    [ lra | rewrite F64_half_Q; discriminate | vm_compute; reflexivity | lia
    | bpow_num; lra | bpow_num; lra | rewrite F64_half_Q; lra | rewrite F64_half_Q; lra |].
  split.
  - rewrite (F64_to_int_truncate _ Fg). apply to_int_below.
    assert (T := truncate_le _ (-2147483649)%Z Lg ltac:(lia)). unfold INT_MIN. lia.
  - unfold Reference.index_truncated. apply to_int_below.
    assert (T : (Reference.truncate (SF2Q O + inject_Z C + (1 # 2)) <= -2147483649)%Z).
    { apply truncate_le; [|lia]. change (inject_Z (-2147483649)) with (-2147483649 # 1). lra. }
    unfold INT_MIN. lia.
Qed.

(** ** One component of [Compute] away from the centre

    When the scaled offset is at least [2 * CENTER_VAL + 1] in magnitude,
    the two additions are exact unless the sum enters the next binade or
    leaves the range of [int]; the first case is left to the caller. *)
Lemma Compute_far (C : Z) (x co size : spec_float) (CO ISZ : Q) :
  F32.valid x = true -> isfinite x = true -> ~ SF2Q x == 0 ->
  F32.valid co = true -> isfinite co = true -> SF2Q co == CO -> ~ CO == 0 ->
  F32.valid size = true -> isfinite size = true -> 0 < SF2Q size -> ISZ == / SF2Q size ->
  bpow (-20) <= ISZ -> ISZ <= bpow 20 ->
  (0 < C < 2 ^ 30)%Z ->
  bpow (-149) <= Qabs (SF2Q x - CO) ->
  (forall a, Qabs (a - (SF2Q x - CO)) <= bpow (-53) * Qabs (SF2Q x - CO) ->
             inject_Z (2 * C + 1) <= Qabs (a * ISZ)) ->
  let O := Trinity.Compute_offset x co size in
  let G := F64.add (F64.add O (F64.of_int C)) F64.half in
  isfinite O = true /\
  (F64.to_int G = Reference.index_truncated C (SF2Q O) \/
   exists a L, Qabs (a - (SF2Q x - CO)) <= bpow (-53) * Qabs (SF2Q x - CO) /\
               (L <= 30)%Z /\ bpow (L - 1) <= a * ISZ /\ a * ISZ < bpow L /\
               RNE (L - 53) (a * ISZ) (SF2Q O) /\
               bpow L <= SF2Q O + inject_Z C + (1 # 2)).
Proof.
  intros Vx Fx HX Vco Fco HCO HCO0 Vsz Fsz Hszpos HISZ HI1 HI2 HC Hv Hfar O G.
  destruct (F64_of_float_Q x Vx Fx) as [Fx' Xq].
  destruct (F64_of_float_Q co Vco Fco) as [Fco' COq].
  destruct (F64_of_float_Q size Vsz Fsz) as [Fsz' SZq].
  pose proof (float32_bound x Vx Fx) as BX.
  pose proof (float32_bound co Vco Fco) as BCO. rewrite HCO in BCO.
  assert (Hsub : SF2Q (F64.of_float x) - SF2Q (F64.of_float co) == SF2Q x - CO).
  { rewrite Xq, COq, HCO. reflexivity. }
  set (v := SF2Q x - CO) in *.
  assert (Bv : Qabs v < bpow 129).
  { unfold v. apply Qabs_Qlt_condition in BX, BCO. apply Qabs_Qlt_condition.
    replace 129%Z with (128 + 1)%Z by lia. rewrite bpow_succ. split; lra. }
  assert (E149 : bpow (-1022) <= bpow (-149)) by (apply bpow_le; lia).
  assert (E129 : bpow 129 <= bpow 1023) by (apply bpow_le; lia).
  destruct (F64_sub_binade (F64.of_float x) (F64.of_float co) Fx' Fco')
    as (Fa & _ & La & HLa & A1 & A2 & Ra).
  { rewrite Xq. exact HX. }
  { rewrite COq, HCO. exact HCO0. }
  { rewrite (Qabs_wd _ _ Hsub). lra. }
  { rewrite (Qabs_wd _ _ Hsub). lra. }
  rewrite (Qabs_wd _ _ Hsub) in A1, A2.
  apply (RNE_eq _ _ v _ _ Hsub (Qeq_refl _)) in Ra.
  set (fa := F64.sub (F64.of_float x) (F64.of_float co)) in *.
  pose proof (RNE_relative La v (SF2Q fa) Ra A1) as Rela.
  pose proof (Hfar (SF2Q fa) Rela) as Hw.
  set (w := SF2Q fa * ISZ) in *.
  assert (HC1 : 1 <= inject_Z C) by (apply (inject_Z_le 1); lia).
  assert (HC2 : inject_Z C <= 1073741824) by (apply (inject_Z_le C 1073741824); lia).
  assert (E2C : inject_Z (2 * C + 1) == 2 * inject_Z C + 1).
  { rewrite inject_Z_plus, inject_Z_mult. reflexivity. }
  rewrite E2C in Hw.
  assert (HISZ0 : 0 < ISZ) by (pose proof (bpow_pos (-20)); lra).
  assert (Hfa0 : ~ SF2Q fa == 0).
  { intros E. unfold w in Hw. rewrite E in Hw.
    setoid_replace (0 * ISZ) with 0 in Hw by ring. change (Qabs 0) with 0 in Hw. lra. }
  assert (Hdiv : SF2Q fa / SF2Q (F64.of_float size) == w).
  { unfold w. rewrite SZq, HISZ. reflexivity. }
  assert (Bw : Qabs w < bpow 900).
  { unfold w. rewrite Qabs_Qmult, (Qabs_pos ISZ) by lra.
    assert (Ba : Qabs (SF2Q fa) <= bpow 130).
    { replace 130%Z with (129 + 1)%Z by lia. rewrite bpow_succ.
      assert (T : Qabs (SF2Q fa) <= Qabs v + Qabs (SF2Q fa - v)).
      { setoid_replace (SF2Q fa) with (v + (SF2Q fa - v)) at 1 by ring.
        apply Qabs_triangle. }
      assert (S53 : bpow (-53) * Qabs v <= Qabs v).
      { setoid_replace (Qabs v) with (1 * Qabs v) at 2 by ring.
        apply Qmult_le_compat_r; [bpow_num; lra | apply Qabs_nonneg]. }
      lra. }
    assert (Bp : bpow 130 * bpow 20 < bpow 900).
    { rewrite <- bpow_add. apply bpow_lt. lia. }
    pose proof (Qabs_nonneg (SF2Q fa)) as Hn. pose proof (bpow_pos 130) as H130.
    assert (S1 : Qabs (SF2Q fa) * ISZ <= bpow 130 * ISZ)
      by (apply Qmult_le_compat_r; lra).
    assert (S2 : bpow 130 * ISZ <= bpow 130 * bpow 20)
      by (apply Qmult_le_l; lra).
    lra. }
  assert (E1000 : bpow 900 <= bpow 1023) by (apply bpow_le; lia).
  assert (E1 : bpow (-1022) <= 1) by (change 1 with (bpow 0); apply bpow_le; lia).
  destruct (F64_div_binade fa (F64.of_float size) Fa Fsz' Hfa0)
    as (Fo & _ & L & HL & B1 & B2 & Ro).
  { rewrite SZq. lra. }
  { rewrite (Qabs_wd _ _ Hdiv). lra. }
  { rewrite (Qabs_wd _ _ Hdiv). lra. }
  rewrite (Qabs_wd _ _ Hdiv) in B1, B2.
  apply (RNE_eq _ _ w _ _ Hdiv (Qeq_refl _)) in Ro.
  change (F64.div fa (F64.of_float size)) with O in Fo, Ro.
  split; [exact Fo|].
  pose proof (RNE_relative L w (SF2Q O) Ro B1) as Relo.
  destruct (RNE_binade L w (SF2Q O) Ro B1 B2) as (D1 & D2 & k & Hk).
  assert (HL900 : (L <= 900)%Z).
  { assert (bpow (L - 1) < bpow 900) by lra. apply bpow_lt_inv in H. lia. }
  assert (BL : bpow L <= bpow 900) by (apply bpow_le; lia).
  assert (F900 : 2 * bpow 900 <= bpow 1000).
  { rewrite <- bpow_succ. apply bpow_le. lia. }
  assert (F30 : 1073741824 <= bpow 900).
  { change (1073741824 # 1) with (bpow 30). apply bpow_le. lia. }
  assert (HCabs : (Z.abs C < 2 ^ 53)%Z) by lia.
  assert (HCnz : C <> 0%Z) by lia.
  assert (S53 : bpow (-53) == 1 # 9007199254740992) by reflexivity.
  rewrite S53 in Relo.
  assert (HO0 : ~ SF2Q O == 0).
  { intros E. rewrite E in D1. change (Qabs 0) with 0 in D1.
    pose proof (bpow_pos (L - 1)). lra. }
  pose proof (bpow_pos (L - 1)) as HBL.
  assert (ELL : bpow L == 2 * bpow (L - 1)).
  { replace L with (L - 1 + 1)%Z at 1 by lia. apply bpow_succ. }
  destruct (Qlt_le_dec w 0) as [Neg|Pos].
  - (* a coordinate below the centre *)
    rewrite (Qabs_neg w) in Hw, B1, B2, Relo by lra.
    assert (ON : SF2Q O < 0).
    { apply Qabs_Qle_condition in Relo. lra. }
    rewrite (Qabs_neg (SF2Q O)) in D1, D2 by lra.
    destruct (Z_le_gt_dec L 52) as [HL52|HL53].
    + left. apply Qabs_Qle_condition in Relo.
      destruct (Compute_sum_exact C O L k Fo HCabs ltac:(lia) Hk) as [Fg Eg].
      * rewrite Qabs_neg by lra. lra.
      * rewrite Qabs_neg by lra. lra.
      * apply index_truncated_of_sum; [exact Fg|]. apply truncate_comp. exact Eg.
    + left.
      assert (B52 : bpow 52 <= bpow (L - 1)) by (apply bpow_le; lia).
      destruct (sum_none_below C O Fo HCabs HCnz HO0) as [N1 N2].
      * change (bpow 52) with (4503599627370496 # 1) in B52. lra.
      * lra.
      * fold G in N1. rewrite N1, N2. reflexivity.
  - (* a coordinate above the centre *)
    rewrite (Qabs_pos w) in Hw, B1, B2, Relo by lra.
    assert (OP : 0 < SF2Q O).
    { apply Qabs_Qle_condition in Relo. lra. }
    rewrite (Qabs_pos (SF2Q O)) in D1, D2 by lra.
    destruct (Z_le_gt_dec L 52) as [HL52|HL53].
    + destruct (Qlt_le_dec (SF2Q O + inject_Z C + (1 # 2)) (bpow L)) as [In|Out].
      * left.
        destruct (Compute_sum_exact C O L k Fo HCabs ltac:(lia) Hk) as [Fg Eg].
        -- rewrite Qabs_pos by lra. lra.
        -- rewrite Qabs_pos by lra. lra.
        -- apply index_truncated_of_sum; [exact Fg|]. apply truncate_comp. exact Eg.
      * destruct (Z_le_gt_dec L 30) as [HL30|HL31].
        -- right. exists (SF2Q fa), L. fold w. repeat split; assumption.
        -- left.
           assert (B31 : bpow 31 <= bpow L) by (apply bpow_le; lia).
           destruct (sum_none_above C O Fo HCabs HCnz HO0) as [N1 N2].
           ++ change (bpow 31) with (2147483648 # 1) in B31. lra.
           ++ lra.
           ++ fold G in N1. rewrite N1, N2. reflexivity.
    + left.
      assert (B52 : bpow 52 <= bpow (L - 1)) by (apply bpow_le; lia).
      destruct (sum_none_above C O Fo HCabs HCnz HO0) as [N1 N2].
      * change (bpow 52) with (4503599627370496 # 1) in B52. lra.
      * lra.
      * fold G in N1. rewrite N1, N2. reflexivity.
Qed.

(** ** The grid index away from the centre *)

Lemma grid_far x :
  F32.valid x = true -> isfinite x = true ->
  bpow 17 <= Qabs (SF2Q x) ->
  F64.to_int (grid_sum x) = Reference.index_truncated 32 (SF2Q (grid_x_offset x)) \/
  exists a L,
    Qabs (a - (SF2Q x - GRID_CO)) <= bpow (-53) * Qabs (SF2Q x - GRID_CO) /\
    (L <= 30)%Z /\ bpow (L - 1) <= a * GRID_ISZ /\ a * GRID_ISZ < bpow L /\
    RNE (L - 53) (a * GRID_ISZ) (SF2Q (grid_x_offset x)) /\
    bpow L <= SF2Q (grid_x_offset x) + 32 + (1 # 2).
Proof.
  intros Vx Fx Hx. bpow_num_in Hx.
  assert (HX0 : ~ SF2Q x == 0).
  { intros E. rewrite E in Hx. change (Qabs 0) with 0 in Hx. lra. }
  apply (Compute_far 32 x CENTER_GRID_OFFSET SIZE_OF_GRIDS GRID_CO GRID_ISZ Vx Fx HX0).
  1-8: try (vm_compute; reflexivity); try (vm_compute; discriminate).
  - unfold GRID_ISZ. bpow_num. lra.
  - unfold GRID_ISZ. bpow_num. lra.
  - lia.
  - unfold GRID_CO. bpow_num.
    destruct (Qlt_le_dec (SF2Q x) 0) as [N|P].
    + rewrite Qabs_neg in Hx by lra. rewrite Qabs_neg by lra. lra.
    + rewrite Qabs_pos in Hx by lra. rewrite Qabs_pos by lra. lra.
  - intros a Ha. unfold GRID_CO, GRID_ISZ in *. bpow_num_in Ha.
    change (inject_Z (2 * 32 + 1)) with 65.
    destruct (Qlt_le_dec (SF2Q x) 0) as [N|P].
    + rewrite Qabs_neg in Hx by lra.
      rewrite (Qabs_neg (SF2Q x - _)) in Ha by lra.
      apply Qabs_Qle_condition in Ha. rewrite Qabs_neg by lra. lra.
    + rewrite Qabs_pos in Hx by lra.
      rewrite (Qabs_pos (SF2Q x - _)) in Ha by lra.
      apply Qabs_Qle_condition in Ha. rewrite Qabs_pos by lra. lra.
Qed.

Lemma grid_reference_far_negative x :
  F32.valid x = true -> isfinite x = true ->
  SF2Q x <= - bpow 17 ->
  F64.to_int (grid_sum x) = Reference.index_truncated 32 (SF2Q (grid_x_offset x)).
Proof.
  intros Vx Fx Hx. bpow_num_in Hx.
  destruct (grid_far x Vx Fx) as [H|(a & L & Ha & _ & B1 & _)]; [|exact H|exfalso].
  - rewrite Qabs_neg by lra. bpow_num. lra.
  - unfold GRID_CO, GRID_ISZ in *. bpow_num_in Ha.
    rewrite (Qabs_neg (SF2Q x - _)) in Ha by lra.
    apply Qabs_Qle_condition in Ha. pose proof (bpow_pos (L - 1)). lra.
Qed.

(** The binary32 numbers at which the sum enters the next binade. *)
Ltac window_float x m e HN :=
  let E := fresh "E" in
  assert (E : x = S754_finite false m e)
    by (apply float32_of_value; [assumption | assumption | reflexivity
                                | rewrite HN; bpow_num; reflexivity]);
  rewrite E; vm_compute; reflexivity.

Lemma grid_reference_far_positive x :
  F32.valid x = true -> isfinite x = true ->
  8738133 * bpow 13 < SF2Q x ->
  F64.to_int (grid_sum x) = Reference.index_truncated 32 (SF2Q (grid_x_offset x)).
Proof.
  intros Vx Fx Hx. bpow_num_in Hx.
  destruct (float32_multiple_or_below x 13 Vx Fx) as [[N HN]|Hs].
  2:{ exfalso. change (13 + 23)%Z with 36%Z in Hs. bpow_num_in Hs.
      rewrite Qabs_pos in Hs by lra. lra. }
  assert (HN' := HN). bpow_num_in HN'.
  assert (HNP : (8738133 < N)%Z).
  { apply inject_Z_lt_inv. change (inject_Z 8738133) with 8738133. lra. }
  assert (HNP' : (8738134 <= N)%Z) by lia. Z2Q HNP'.
  destruct (grid_far x Vx Fx) as [H|(a & L & Ha & HL & B1 & B2 & Ro & Out)]; [|exact H|].
  { rewrite Qabs_pos by lra. bpow_num. lra. }
  unfold GRID_CO, GRID_ISZ in *. bpow_num_in Ha.
  rewrite (Qabs_pos (SF2Q x - _)) in Ha by lra.
  apply Qabs_Qle_condition in Ha.
  assert (HL27 : (27 < L)%Z).
  { apply bpow_lt_inv. eapply Qle_lt_trans; [|exact B2]. bpow_num. lra. }
  destruct Ro as (_ & _ & Herr & _).
  apply Qabs_Qle_condition in Herr.
  assert (HLc : L = 28%Z \/ L = 29%Z \/ L = 30%Z) by lia.
  destruct HLc as [->|[->| ->]];
    change (inject_Z 32) with 32 in Out; bpow_num_in B1; bpow_num_in B2;
    bpow_num_in Out; bpow_num_in Herr.
  - destruct (float32_multiple_or_below x 14 Vx Fx) as [[M HM]|Hs].
    2:{ exfalso. change (14 + 23)%Z with 37%Z in Hs. bpow_num_in Hs.
        rewrite Qabs_pos in Hs by lra. lra. }
    assert (HM' := HM). bpow_num_in HM'.
    assert (M1 : (8738131 < M)%Z).
    { apply inject_Z_lt_inv. change (inject_Z 8738131) with 8738131. lra. }
    assert (M2 : (M < 8738134)%Z).
    { apply inject_Z_lt_inv. change (inject_Z 8738134) with 8738134. lra. }
    assert (HMc : M = 8738132%Z \/ M = 8738133%Z) by lia.
    destruct HMc as [->| ->].
    + window_float x 8738132%positive 14%Z HM.
    + window_float x 8738133%positive 14%Z HM.
  - destruct (float32_multiple_or_below x 15 Vx Fx) as [[M HM]|Hs].
    2:{ exfalso. change (15 + 23)%Z with 38%Z in Hs. bpow_num_in Hs.
        rewrite Qabs_pos in Hs by lra. lra. }
    assert (HM' := HM). bpow_num_in HM'.
    assert (M1 : (8738132 < M)%Z).
    { apply inject_Z_lt_inv. change (inject_Z 8738132) with 8738132. lra. }
    assert (M2 : (M < 8738134)%Z).
    { apply inject_Z_lt_inv. change (inject_Z 8738134) with 8738134. lra. }
    assert (HMc : M = 8738133%Z) by lia. subst M.
    window_float x 8738133%positive 15%Z HM.
  - destruct (float32_multiple_or_below x 16 Vx Fx) as [[M HM]|Hs].
    2:{ exfalso. change (16 + 23)%Z with 39%Z in Hs. bpow_num_in Hs.
        rewrite Qabs_pos in Hs by lra. lra. }
    assert (HM' := HM). bpow_num_in HM'.
    assert (M1 : (8738132 < M)%Z).
    { apply inject_Z_lt_inv. change (inject_Z 8738132) with 8738132. lra. }
    assert (M2 : (M < 8738134)%Z).
    { apply inject_Z_lt_inv. change (inject_Z 8738134) with 8738134. lra. }
    assert (HMc : M = 8738133%Z) by lia. subst M.
    window_float x 8738133%positive 16%Z HM.
Qed.

(** One component of [ComputeGridCoord] is the truncated reference index of
    its offset, for every finite coordinate that is not on the piece of
    the seam from [SEAM_LO] to zero. *)
Lemma grid_reference x :
  F32.valid x = true -> isfinite x = true ->
  below_zero_from SEAM_LO x = false ->
  F64.to_int (grid_sum x) = Reference.index_truncated 32 (SF2Q (grid_x_offset x)).
Proof.
  intros Vx Fx Hseam.
  pose proof (below_zero_from_Q SEAM_LO x eq_refl eq_refl Vx Fx) as Hs.
  rewrite SEAM_LO_Q in Hs.
  destruct (Qlt_le_dec (8738133 * bpow 13) (SF2Q x)) as [Hfar|Hhi].
  { apply grid_reference_far_positive; assumption. }
  destruct (Qlt_le_dec (SF2Q x) (- bpow 36)) as [Hfar|Hlo].
  { apply grid_reference_far_negative; try assumption. bpow_num_in Hfar. bpow_num. lra. }
  destruct (float32_multiple_or_small x Vx Fx) as [[N HN]|Hsmall].
  { apply (grid_reference_multiple x N); assumption. }
  apply Qabs_Qlt_condition in Hsmall. destruct Hsmall as [S1 S2].
  destruct (Qlt_le_dec (SF2Q x) 0) as [Hneg|Hnn].
  2:{ apply grid_reference_small_nonneg; assumption. }
  destruct (Qlt_le_dec (- bpow (-37)) (SF2Q x)) as [Htiny|Hle].
  2:{ apply grid_reference_small_negative; assumption. }
  pose proof (float32_gap x 9175039 Vx Fx ltac:(lia)) as Hg.
  change (inject_Z (9175039 + 1)) with (9175040 # 1) in Hg.
  change (inject_Z 9175039) with (9175039 # 1) in Hg.
  destruct Hg as [Hg|Hg].
  - apply grid_reference_tiny; try assumption. lra.
  - exfalso. rewrite (proj2 Hs (conj Hg Hneg)) in Hseam. discriminate Hseam.
Qed.

(** ** The cell index against the truncated reference *)

(** A coordinate that is a multiple of 2^-17, from [-2^33] to
    [8738133 * 2^10]. *)
Lemma cell_reference_multiple x N :
  F32.valid x = true -> isfinite x = true ->
  SF2Q x == inject_Z N * bpow (-17) ->
  - bpow 33 <= SF2Q x -> SF2Q x <= 8738133 * bpow 10 ->
  F64.to_int (cell_sum x) = Reference.index_truncated 256 (SF2Q (cell_x_offset x)).
Proof.
  intros Vx Fx HN Hlo Hhi. bpow_num_in HN. bpow_num_in Hlo. bpow_num_in Hhi.
  set (k := ((N + 2236962048) / 8738133)%Z).
  set (r := ((N + 2236962048) mod 8738133)%Z).
  assert (HT : (N + 2236962048 = 8738133 * k + r)%Z) by (apply Z.div_mod; lia).
  assert (Hr : (0 <= r < 8738133)%Z) by (apply Z.mod_pos_bound; lia).
  clearbody k r.
  Z2Q HT. destruct Hr as [Hr0 Hr1].
  assert (Hr1' : (r <= 8738132)%Z) by lia.
  Z2Q Hr0. Z2Q Hr1'.
  destruct (cell_chain_offset x (-18) (-26) (-25) (-25) Vx Fx)
    as (Fo & Fg & a & d & Ra & Rb & Rd & Rg); unfold CELL_CO, CELL_ISZ in *; try lia;
    [ mag
    | intros a Ra; rb Ra; mag
    | intros a b Ra Rb; rb Ra; rb Rb; mag
    | intros a b d Ra Rb Rd; rb Ra; rb Rb; rb Rd; mag |].
  assert (Ea : a == SF2Q x - (8738133 # 262144)).
  { apply (rounded_exact _ _ _ Ra). multiple (2 * N - 8738133)%Z. }
  apply index_truncated_of_sum; [exact Fg|].
  change (inject_Z 256) with 256.
  destruct (Z.eq_dec r 0) as [Hrz|Hrnz].
  - Z2Q Hrz.
    assert (Eb : SF2Q (cell_x_offset x) == a * (131072 # 8738133)).
    { apply (rounded_exact _ _ _ Rb). multiple ((2 * k - 513) * 33554432)%Z. }
    assert (Ed : d == SF2Q (cell_x_offset x) + 256).
    { apply (rounded_exact _ _ _ Rd). multiple ((2 * k - 1) * 16777216)%Z. }
    assert (Eg : SF2Q (cell_sum x) == d + (1 # 2)).
    { apply (rounded_exact _ _ _ Rg). multiple (k * 33554432)%Z. }
    apply truncate_comp. lra.
  - assert (Hr1'' : (1 <= r)%Z) by lia. Z2Q Hr1''.
    rb Rb. rb Rd. rb Rg.
    apply (truncate_same_cell _ _ k); lra.
Qed.

(** A small coordinate that is not negative. *)
Lemma cell_reference_small_nonneg x :
  F32.valid x = true -> isfinite x = true ->
  0 <= SF2Q x -> SF2Q x < 64 ->
  F64.to_int (cell_sum x) = Reference.index_truncated 256 (SF2Q (cell_x_offset x)).
Proof.
  intros Vx Fx Hlo Hhi.
  destruct (cell_chain_offset x (-43) (-49) (-44) (-43) Vx Fx)
    as (Fo & Fg & a & d & Ra & Rb & Rd & Rg); unfold CELL_CO, CELL_ISZ in *; try lia;
    [ mag
    | intros a Ra; rb Ra; mag
    | intros a b Ra Rb; rb Ra; rb Rb; mag
    | intros a b d Ra Rb Rd; rb Ra; rb Rb; rb Rd; mag |].
  assert (La : - (8738133 # 262144) <= a).
  { apply (rounded_lb _ _ _ _ Ra); [multiple_c (- 8738133 * 2 ^ 25)%Z | lra]. }
  assert (Lb : - (1 # 2) <= SF2Q (cell_x_offset x)).
  { apply (rounded_lb _ _ _ _ Rb); [multiple_c (- 2 ^ 48)%Z | lra]. }
  assert (Ld : 511 # 2 <= d).
  { apply (rounded_lb _ _ _ _ Rd); [multiple_c (511 * 2 ^ 43)%Z | lra]. }
  assert (Lg : 256 <= SF2Q (cell_sum x)).
  { apply (rounded_lb _ _ _ _ Rg); [multiple_c (256 * 2 ^ 43)%Z | lra]. }
  rb Ra. rb Rb. rb Rd. rb Rg.
  apply (index_truncated_value _ _ _ 256%Z); [exact Fg | |];
    apply truncate_nonneg; change (inject_Z 256) with 256; try lra; lia.
Qed.

(** A small coordinate at most [-2^-37]. *)
Lemma cell_reference_small_negative x :
  F32.valid x = true -> isfinite x = true ->
  - (64) < SF2Q x -> SF2Q x <= - bpow (-37) ->
  F64.to_int (cell_sum x) = Reference.index_truncated 256 (SF2Q (cell_x_offset x)).
Proof.
  intros Vx Fx Hlo Hhi. bpow_num_in Hhi.
  destruct (cell_chain_offset x (-43) (-49) (-45) (-44) Vx Fx)
    as (Fo & Fg & a & d & Ra & Rb & Rd & Rg); unfold CELL_CO, CELL_ISZ in *; try lia;
    [ mag
    | intros a Ra; rb Ra; mag
    | intros a b Ra Rb; rb Ra; rb Rb; mag
    | intros a b d Ra Rb Rd; rb Ra; rb Rb; rb Rd; mag |].
  rb Ra. rb Rb. rb Rd. rb Rg.
  apply (index_truncated_value _ _ _ 255%Z); [exact Fg | |];
    apply truncate_nonneg; change (inject_Z 256) with 256; change (inject_Z 255) with 255;
    try lra; lia.
Qed.

(** A negative coordinate above [-2^-37] and below the seam of the cells. *)
Lemma cell_reference_tiny x :
  F32.valid x = true -> isfinite x = true ->
  - bpow (-37) <= SF2Q x -> SF2Q x <= - (8749056 # 1) * bpow (-63) ->
  F64.to_int (cell_sum x) = Reference.index_truncated 256 (SF2Q (cell_x_offset x)).
Proof.
  intros Vx Fx Hlo Hhi.
  rewrite (cell_tiny_low x Vx Fx Hlo Hhi).
  bpow_num_in Hlo. bpow_num_in Hhi.
  destruct (cell_chain_offset x (-47) (-53) (-45) (-44) Vx Fx)
    as (Fo & Fg & a & d & Ra & Rb & Rd & Rg); unfold CELL_CO, CELL_ISZ in *; try lia;
    [ mag
    | intros a Ra; rb Ra; mag
    | intros a b Ra Rb; rb Ra; rb Rb; mag
    | intros a b d Ra Rb Rd; rb Ra; rb Rb; rb Rd; mag |].
  assert (La : a <= - (8738133 # 262144) - 133 * bpow (-47)).
  { apply (rounded_ub _ _ _ _ Ra); [multiple_c (- (8738133 * 2 ^ 29 + 133))%Z | bpow_num; lra]. }
  bpow_num_in La.
  assert (Lb : SF2Q (cell_x_offset x) <= - (1 # 2) - 127 * bpow (-53)).
  { apply (rounded_ub _ _ _ _ Rb); [multiple_c (- (2 ^ 52 + 127))%Z | bpow_num; lra]. }
  bpow_num_in Lb. rb Ra. rb Rb.
  unfold Reference.index_truncated.
  rewrite (truncate_nonneg _ 255%Z); [reflexivity | | | lia];
    change (inject_Z 256) with 256; change (inject_Z 255) with 255; lra.
Qed.

(** ** The cell index away from the centre *)

Lemma cell_far x :
  F32.valid x = true -> isfinite x = true ->
  bpow 17 <= Qabs (SF2Q x) ->
  F64.to_int (cell_sum x) = Reference.index_truncated 256 (SF2Q (cell_x_offset x)) \/
  exists a L,
    Qabs (a - (SF2Q x - CELL_CO)) <= bpow (-53) * Qabs (SF2Q x - CELL_CO) /\
    (L <= 30)%Z /\ bpow (L - 1) <= a * CELL_ISZ /\ a * CELL_ISZ < bpow L /\
    RNE (L - 53) (a * CELL_ISZ) (SF2Q (cell_x_offset x)) /\
    bpow L <= SF2Q (cell_x_offset x) + 256 + (1 # 2).
Proof.
  intros Vx Fx Hx. bpow_num_in Hx.
  assert (HX0 : ~ SF2Q x == 0).
  { intros E. rewrite E in Hx. change (Qabs 0) with 0 in Hx. lra. }
  apply (Compute_far 256 x CENTER_GRID_CELL_OFFSET SIZE_OF_GRID_CELL CELL_CO CELL_ISZ
           Vx Fx HX0).
  1-8: try (vm_compute; reflexivity); try (vm_compute; discriminate).
  - unfold CELL_ISZ. bpow_num. lra.
  - unfold CELL_ISZ. bpow_num. lra.
  - lia.
  - unfold CELL_CO. bpow_num.
    destruct (Qlt_le_dec (SF2Q x) 0) as [N|P].
    + rewrite Qabs_neg in Hx by lra. rewrite Qabs_neg by lra. lra.
    + rewrite Qabs_pos in Hx by lra. rewrite Qabs_pos by lra. lra.
  - intros a Ha. unfold CELL_CO, CELL_ISZ in *. bpow_num_in Ha.
    change (inject_Z (2 * 256 + 1)) with 513.
    destruct (Qlt_le_dec (SF2Q x) 0) as [N|P].
    + rewrite Qabs_neg in Hx by lra.
      rewrite (Qabs_neg (SF2Q x - _)) in Ha by lra.
      apply Qabs_Qle_condition in Ha. rewrite Qabs_neg by lra. lra.
    + rewrite Qabs_pos in Hx by lra.
      rewrite (Qabs_pos (SF2Q x - _)) in Ha by lra.
      apply Qabs_Qle_condition in Ha. rewrite Qabs_pos by lra. lra.
Qed.

Lemma cell_reference_far_negative x :
  F32.valid x = true -> isfinite x = true ->
  SF2Q x <= - bpow 17 ->
  F64.to_int (cell_sum x) = Reference.index_truncated 256 (SF2Q (cell_x_offset x)).
Proof.
  intros Vx Fx Hx. bpow_num_in Hx.
  destruct (cell_far x Vx Fx) as [H|(a & L & Ha & _ & B1 & _)]; [|exact H|exfalso].
  - rewrite Qabs_neg by lra. bpow_num. lra.
  - unfold CELL_CO, CELL_ISZ in *. bpow_num_in Ha.
    rewrite (Qabs_neg (SF2Q x - _)) in Ha by lra.
    apply Qabs_Qle_condition in Ha. pose proof (bpow_pos (L - 1)). lra.
Qed.

(** The window of one binade: the mantissa [M] is one of a few values. *)
Ltac window_at x e HM :=
  match type of HM with
  | _ == inject_Z (Z.pos ?m) * _ => window_float x m e HM
  end.

Ltac window_cases x e HM HMc :=
  repeat (destruct HMc as [HMc|HMc]; [subst; window_at x e HM|]);
  subst; window_at x e HM.

Lemma cell_reference_far_positive x :
  F32.valid x = true -> isfinite x = true ->
  8738133 * bpow 10 < SF2Q x ->
  F64.to_int (cell_sum x) = Reference.index_truncated 256 (SF2Q (cell_x_offset x)).
Proof.
  intros Vx Fx Hx. bpow_num_in Hx.
  destruct (float32_multiple_or_below x 10 Vx Fx) as [[N HN]|Hs].
  2:{ exfalso. change (10 + 23)%Z with 33%Z in Hs. bpow_num_in Hs.
      rewrite Qabs_pos in Hs by lra. lra. }
  assert (HN' := HN). bpow_num_in HN'.
  assert (HNP : (8738133 < N)%Z).
  { apply inject_Z_lt_inv. change (inject_Z 8738133) with 8738133. lra. }
  assert (HNP' : (8738134 <= N)%Z) by lia. Z2Q HNP'.
  destruct (cell_far x Vx Fx) as [H|(a & L & Ha & HL & B1 & B2 & Ro & Out)]; [|exact H|].
  { rewrite Qabs_pos by lra. bpow_num. lra. }
  unfold CELL_CO, CELL_ISZ in *. bpow_num_in Ha.
  rewrite (Qabs_pos (SF2Q x - _)) in Ha by lra.
  apply Qabs_Qle_condition in Ha.
  assert (HL27 : (27 < L)%Z).
  { apply bpow_lt_inv. eapply Qle_lt_trans; [|exact B2]. bpow_num. lra. }
  destruct Ro as (_ & _ & Herr & _).
  apply Qabs_Qle_condition in Herr.
  assert (HLc : L = 28%Z \/ L = 29%Z \/ L = 30%Z) by lia.
  destruct HLc as [->|[->| ->]];
    change (inject_Z 256) with 256 in Out; bpow_num_in B1; bpow_num_in B2;
    bpow_num_in Out; bpow_num_in Herr.
  - destruct (float32_multiple_or_below x 11 Vx Fx) as [[M HM]|Hs].
    2:{ exfalso. change (11 + 23)%Z with 34%Z in Hs. bpow_num_in Hs.
        rewrite Qabs_pos in Hs by lra. lra. }
    assert (HM' := HM). bpow_num_in HM'.
    assert (M1 : (8738124 < M)%Z).
    { apply inject_Z_lt_inv. change (inject_Z 8738124) with 8738124. lra. }
    assert (M2 : (M < 8738134)%Z).
    { apply inject_Z_lt_inv. change (inject_Z 8738134) with 8738134. lra. }
    assert (HMc : M = 8738125%Z \/ M = 8738126%Z \/ M = 8738127%Z \/ M = 8738128%Z \/ M = 8738129%Z \/ M = 8738130%Z \/ M = 8738131%Z \/ M = 8738132%Z \/ M = 8738133%Z) by lia.
    clear HM' M1 M2.
    window_cases x 11%Z HM HMc.
  - destruct (float32_multiple_or_below x 12 Vx Fx) as [[M HM]|Hs].
    2:{ exfalso. change (12 + 23)%Z with 35%Z in Hs. bpow_num_in Hs.
        rewrite Qabs_pos in Hs by lra. lra. }
    assert (HM' := HM). bpow_num_in HM'.
    assert (M1 : (8738128 < M)%Z).
    { apply inject_Z_lt_inv. change (inject_Z 8738128) with 8738128. lra. }
    assert (M2 : (M < 8738134)%Z).
    { apply inject_Z_lt_inv. change (inject_Z 8738134) with 8738134. lra. }
    assert (HMc : M = 8738129%Z \/ M = 8738130%Z \/ M = 8738131%Z \/ M = 8738132%Z \/ M = 8738133%Z) by lia.
    clear HM' M1 M2.
    window_cases x 12%Z HM HMc.
  - destruct (float32_multiple_or_below x 13 Vx Fx) as [[M HM]|Hs].
    2:{ exfalso. change (13 + 23)%Z with 36%Z in Hs. bpow_num_in Hs.
        rewrite Qabs_pos in Hs by lra. lra. }
    assert (HM' := HM). bpow_num_in HM'.
    assert (M1 : (8738130 < M)%Z).
    { apply inject_Z_lt_inv. change (inject_Z 8738130) with 8738130. lra. }
    assert (M2 : (M < 8738134)%Z).
    { apply inject_Z_lt_inv. change (inject_Z 8738134) with 8738134. lra. }
    assert (HMc : M = 8738131%Z \/ M = 8738132%Z \/ M = 8738133%Z) by lia.
    clear HM' M1 M2.
    window_cases x 13%Z HM HMc.
Qed.

(** One component of [ComputeCellCoord] is the truncated reference index of
    its offset, for every finite coordinate that is not on the piece of
    the seam from [CELL_SEAM_LO] to zero. *)
Lemma cell_reference x :
  F32.valid x = true -> isfinite x = true ->
  below_zero_from CELL_SEAM_LO x = false ->
  F64.to_int (cell_sum x) = Reference.index_truncated 256 (SF2Q (cell_x_offset x)).
Proof.
  intros Vx Fx Hseam.
  pose proof (below_zero_from_Q CELL_SEAM_LO x eq_refl eq_refl Vx Fx) as Hs.
  rewrite CELL_SEAM_LO_Q in Hs.
  destruct (Qlt_le_dec (8738133 * bpow 10) (SF2Q x)) as [Hfar|Hhi].
  { apply cell_reference_far_positive; assumption. }
  destruct (Qlt_le_dec (SF2Q x) (- bpow 33)) as [Hfar|Hlo].
  { apply cell_reference_far_negative; try assumption. bpow_num_in Hfar. bpow_num. lra. }
  destruct (float32_multiple_or_below x (-17) Vx Fx) as [[N HN]|Hsmall].
  { apply (cell_reference_multiple x N); assumption. }
  change (-17 + 23)%Z with 6%Z in Hsmall. bpow_num_in Hsmall.
  apply Qabs_Qlt_condition in Hsmall. destruct Hsmall as [S1 S2].
  destruct (Qlt_le_dec (SF2Q x) 0) as [Hneg|Hnn].
  2:{ apply cell_reference_small_nonneg; assumption. }
  destruct (Qlt_le_dec (- bpow (-37)) (SF2Q x)) as [Htiny|Hle].
  2:{ apply cell_reference_small_negative; assumption. }
  pose proof (float32_gap x 8749055 Vx Fx ltac:(lia)) as Hg.
  change (inject_Z (8749055 + 1)) with (8749056 # 1) in Hg.
  change (inject_Z 8749055) with (8749055 # 1) in Hg.
  destruct Hg as [Hg|Hg].
  - apply cell_reference_tiny; try assumption. lra.
  - exfalso. rewrite (proj2 Hs (conj Hg Hneg)) in Hseam. discriminate Hseam.
Qed.

(** ** The offset of the code is the offset of the reference *)

Lemma RNE_exact E v : (exists k, v == inject_Z k * bpow E) -> RNE E v v.
Proof.
  intros (k & Hk). exists k. split; [exact Hk|].
  pose proof (bpow_pos E) as HB.
  assert (Z0 : Qabs (v - v) == 0).
  { setoid_replace (v - v) with 0 by ring. reflexivity. }
  split.
  - rewrite Z0. lra.
  - intros T. rewrite Z0 in T. lra.
Qed.

(** A number of at most 53 significant bits is its own rounding. *)
Lemma round_double_exact v k U :
  v == inject_Z k * bpow U -> Qabs v < bpow (U + 53) ->
  bpow (-1022) <= Qabs v -> Qabs v < bpow 1023 ->
  Reference.round_double v == v.
Proof.
  intros Hk Hm Hlo Hhi.
  destruct (binade_exists v Hlo Hhi) as (L & HL & B1 & B2).
  assert (HLU : (L - 53 <= U)%Z).
  { assert (bpow (L - 1) < bpow (U + 53)) by lra. apply bpow_lt_inv in H. lia. }
  apply (RNE_unique (L - 53) v).
  - apply round_double_RNE; [lia | exact B1 | exact B2].
  - apply RNE_exact. apply (multiple_weaken (L - 53) U v HLU). exists k. exact Hk.
Qed.

(** A binary32 number as a multiple of a power of two with a mantissa of
    at most 24 bits. *)
Lemma float32_repr x :
  F32.valid x = true -> isfinite x = true ->
  exists k U, (-149 <= U <= 104)%Z /\ SF2Q x == inject_Z k * bpow U /\
              Qabs (SF2Q x) < bpow (U + 24).
Proof.
  intros Vx Fx. destruct x as [s|s| |s m e]; try discriminate.
  - exists 0%Z, 0%Z. split; [lia|]. split.
    + cbn [SF2Q]. change (inject_Z 0) with 0. ring.
    + cbn [SF2Q]. apply bpow_pos.
  - unfold F32.valid in Vx. cbn [valid_binary] in Vx.
    apply (bounded_spec F32.prec F32.emax) in Vx. destruct Vx as (He & Hd & _).
    rewrite emin_spec in He. unfold F32.prec, F32.emax in *.
    exists (cond_Zopp s (Z.pos m)), e. split; [lia|]. split.
    + cbn [SF2Q]. rewrite <- cond_Zopp_Q. reflexivity.
    + rewrite <- SF2Q_abs. cbn [SFabs SF2Q cond_Qopp].
      pose proof (Zdigits2_bounds (Z.pos m) ltac:(lia)) as [_ Hm].
      assert (Hm' : (Z.pos m < 2 ^ 24)%Z).
      { eapply Z.lt_le_trans; [exact Hm|]. apply Z.pow_le_mono_r; lia. }
      apply inject_Z_lt in Hm'. rewrite bpow_inject in Hm' by lia.
      replace (e + 24)%Z with (24 + e)%Z by lia. rewrite bpow_add.
      apply Qmult_lt_compat_r; [apply bpow_pos | exact Hm'].
Qed.

Lemma Compute_offset_reference (x co size : spec_float) (CO SZ ISZ : Q) :
  F32.valid x = true -> isfinite x = true ->
  F32.valid co = true -> isfinite co = true -> SF2Q co == CO -> ~ CO == 0 ->
  F32.valid size = true -> isfinite size = true -> SF2Q size == SZ -> 0 < SZ ->
  ISZ == / SZ -> bpow (-20) <= ISZ -> ISZ <= bpow 20 ->
  isfinite (Trinity.Compute_offset x co size) = true /\
  SF2Q (Trinity.Compute_offset x co size) == Reference.scaled_offset (SF2Q x) CO SZ.
Proof.
  intros Vx Fx Vco Fco HCO HCO0 Vsz Fsz HSZ HSZ0 HISZ HI1 HI2.
  destruct (F64_of_float_Q x Vx Fx) as [Fx' Xq].
  destruct (F64_of_float_Q co Vco Fco) as [Fco' COq].
  destruct (F64_of_float_Q size Vsz Fsz) as [Fsz' SZq].
  pose proof (float32_bound x Vx Fx) as BX.
  pose proof (float32_bound co Vco Fco) as BCO. rewrite (Qabs_wd _ _ HCO) in BCO.
  destruct (float32_multiple_149 x Vx Fx) as (kx & Hkx).
  destruct (float32_multiple_149 co Vco Fco) as (kc & Hkc). rewrite HCO in Hkc.
  assert (Hsub : SF2Q (F64.of_float x) - SF2Q (F64.of_float co) == SF2Q x - CO).
  { rewrite Xq, COq, HCO. reflexivity. }
  unfold Reference.scaled_offset, Trinity.Compute_offset.
  set (v := SF2Q x - CO) in *.
  set (fa := F64.sub (F64.of_float x) (F64.of_float co)).
  assert (Bv : Qabs v < bpow 129).
  { unfold v. apply Qabs_Qlt_condition in BX, BCO. apply Qabs_Qlt_condition.
    replace 129%Z with (128 + 1)%Z by lia. rewrite bpow_succ. split; lra. }
  assert (Mv : exists k, v == inject_Z k * bpow (-149)).
  { exists (kx - kc)%Z. unfold v. rewrite Hkx, Hkc. unfold Zminus.
    rewrite inject_Z_plus, inject_Z_opp. ring. }
  assert (E149 : bpow (-1022) <= bpow (-149)) by (apply bpow_le; lia).
  assert (E129 : bpow 129 <= bpow 1023) by (apply bpow_le; lia).
  assert (E76 : bpow 129 == bpow (76 + 53)) by reflexivity.
  (* the subtraction *)
  assert (SA : isfinite fa = true /\ SF2Q fa == Reference.round_double v /\
               Qabs (SF2Q fa - v) <= bpow (-53) * Qabs v).
  { destruct (Qeq_dec v 0) as [Zv|NZv].
    - destruct (F64_sub_rounded (F64.of_float x) (F64.of_float co) 76 Fx' Fco' ltac:(lia))
        as [Fa Ra].
      { rewrite (Qabs_wd _ _ Hsub). rewrite <- E76. exact Bv. }
      apply (rounded_eq 76 _ v _ _ Hsub (Qeq_refl _)) in Ra.
      assert (Ea : SF2Q fa == v).
      { apply (rounded_exact _ _ _ Ra). exists 0%Z. rewrite Zv.
        change (inject_Z 0) with 0. ring. }
      split; [exact Fa|]. split.
      + rewrite Ea, (round_double_zero v Zv). exact Zv.
      + setoid_replace (SF2Q fa - v) with 0 by (rewrite Ea; ring).
        change (Qabs 0) with 0.
        pose proof (Qabs_nonneg v). pose proof (bpow_pos (-53)).
        apply Qmult_le_0_compat; lra.
    - pose proof (multiple_lower (-149) v Mv NZv) as Lv.
      destruct (Qeq_dec (SF2Q x) 0) as [Zx|NZx].
      + (* the coordinate is zero: the difference is the centre offset *)
        destruct (float32_repr co Vco Fco) as (kr & Ur & HUr & Hkr & Hmr).
        rewrite HCO in Hkr. rewrite (Qabs_wd _ _ HCO) in Hmr.
        assert (Ev : v == inject_Z (- kr) * bpow Ur).
        { unfold v. rewrite Zx, Hkr, inject_Z_opp. ring. }
        assert (Av : Qabs v == Qabs CO).
        { unfold v. rewrite Zx. setoid_replace (0 - CO) with (- CO) by ring.
          apply Qabs_opp. }
        assert (B53 : bpow (Ur + 24) <= bpow (Ur + 53)) by (apply bpow_le; lia).
        destruct (F64_sub_rounded (F64.of_float x) (F64.of_float co) Ur Fx' Fco'
                    ltac:(lia)) as [Fa Ra].
        { rewrite (Qabs_wd _ _ Hsub). lra. }
        apply (rounded_eq Ur _ v _ _ Hsub (Qeq_refl _)) in Ra.
        assert (Ea : SF2Q fa == v).
        { apply (rounded_exact _ _ _ Ra). exists (- kr)%Z. exact Ev. }
        split; [exact Fa|]. split.
        * rewrite Ea. symmetry. apply (round_double_exact v (- kr) Ur Ev); lra.
        * setoid_replace (SF2Q fa - v) with 0 by (rewrite Ea; ring).
          change (Qabs 0) with 0.
          pose proof (Qabs_nonneg v). pose proof (bpow_pos (-53)).
          apply Qmult_le_0_compat; lra.
      + destruct (F64_sub_binade (F64.of_float x) (F64.of_float co) Fx' Fco')
          as (Fa & Ea & La & HLa & A1 & A2 & Ra).
        { rewrite Xq. exact NZx. }
        { rewrite COq, HCO. exact HCO0. }
        { rewrite (Qabs_wd _ _ Hsub). lra. }
        { rewrite (Qabs_wd _ _ Hsub). lra. }
        rewrite (Qabs_wd _ _ Hsub) in A1, A2.
        apply (RNE_eq _ _ v _ _ Hsub (Qeq_refl _)) in Ra.
        split; [exact Fa|]. split.
        * fold fa in Ea. rewrite Ea. apply round_double_comp. exact Hsub.
        * apply (RNE_relative La v _ Ra A1). }
  destruct SA as (Fa & Ea & Rela).
  (* the division *)
  assert (HISZ0 : 0 < ISZ) by (pose proof (bpow_pos (-20)); lra).
  assert (Hdiv : SF2Q fa / SF2Q (F64.of_float size) == Reference.round_double v / SZ).
  { rewrite SZq, HSZ, Ea. reflexivity. }
  assert (Hdiv' : SF2Q fa / SF2Q (F64.of_float size) == SF2Q fa * ISZ).
  { rewrite SZq, HSZ, HISZ. reflexivity. }
  assert (HSZ' : ~ SF2Q (F64.of_float size) == 0) by (rewrite SZq, HSZ; lra).
  destruct (Qeq_dec (SF2Q fa) 0) as [Za|NZa].
  - destruct (F64_div_rounded fa (F64.of_float size) 0 Fa Fsz' HSZ' ltac:(lia)) as [Fo Ro].
    { rewrite (Qabs_wd _ _ Hdiv'), Za. setoid_replace (0 * ISZ) with 0 by ring.
      change (Qabs 0) with 0. apply bpow_pos. }
    split; [exact Fo|].
    assert (Z0 : SF2Q fa / SF2Q (F64.of_float size) == 0).
    { rewrite Hdiv', Za. ring. }
    assert (Eo' : SF2Q (F64.div fa (F64.of_float size))
                  == SF2Q fa / SF2Q (F64.of_float size)).
    { apply (rounded_exact _ _ _ Ro). exists 0%Z.
      rewrite Z0. change (inject_Z 0) with 0. ring. }
    assert (Eo : SF2Q (F64.div fa (F64.of_float size)) == 0).
    { rewrite Eo'. exact Z0. }
    rewrite Eo. symmetry. apply round_double_zero. rewrite <- Hdiv. exact Z0.
  - assert (NZv : ~ v == 0).
    { intros Zv. apply NZa. rewrite Ea. apply round_double_zero. exact Zv. }
    pose proof (multiple_lower (-149) v Mv NZv) as Lv.
    assert (S53 : bpow (-53) * Qabs v <= (1 # 2) * Qabs v).
    { apply Qmult_le_compat_r; [bpow_num; lra | apply Qabs_nonneg]. }
    assert (Ba : (1 # 2) * bpow (-149) <= Qabs (SF2Q fa) /\ Qabs (SF2Q fa) <= bpow 130).
    { replace 130%Z with (129 + 1)%Z by lia. rewrite bpow_succ.
      assert (T1 : Qabs (SF2Q fa) <= Qabs v + Qabs (SF2Q fa - v)).
      { setoid_replace (SF2Q fa) with (v + (SF2Q fa - v)) at 1 by ring.
        apply Qabs_triangle. }
      assert (T2 : Qabs v <= Qabs (SF2Q fa) + Qabs (SF2Q fa - v)).
      { setoid_replace v with (SF2Q fa + - (SF2Q fa - v)) at 1 by ring.
        eapply Qle_trans; [apply Qabs_triangle|]. rewrite Qabs_opp. lra. }
      split; lra. }
    destruct Ba as [Ba1 Ba2].
    assert (Aw : Qabs (SF2Q fa * ISZ) == Qabs (SF2Q fa) * ISZ).
    { rewrite Qabs_Qmult, (Qabs_pos ISZ) by lra. reflexivity. }
    pose proof (bpow_pos (-149)) as H149. pose proof (bpow_pos 130) as H130.
    pose proof (bpow_pos (-20)) as H20.
    assert (W1 : bpow (-1022) <= Qabs (SF2Q fa * ISZ)).
    { rewrite Aw.
      assert (P1 : (1 # 2) * bpow (-149) * bpow (-20) <= Qabs (SF2Q fa) * bpow (-20))
        by (apply Qmult_le_compat_r; lra).
      assert (P2 : Qabs (SF2Q fa) * bpow (-20) <= Qabs (SF2Q fa) * ISZ)
        by (apply Qmult_le_l; lra).
      assert (P3 : bpow (-1022) <= (1 # 2) * bpow (-149) * bpow (-20)).
      { change (1 # 2) with (bpow (-1)). rewrite <- !bpow_add. apply bpow_le. lia. }
      lra. }
    assert (W2 : Qabs (SF2Q fa * ISZ) < bpow 1023).
    { rewrite Aw.
      assert (P1 : Qabs (SF2Q fa) * ISZ <= bpow 130 * ISZ)
        by (apply Qmult_le_compat_r; lra).
      assert (P2 : bpow 130 * ISZ <= bpow 130 * bpow 20) by (apply Qmult_le_l; lra).
      assert (P3 : bpow 130 * bpow 20 < bpow 1023).
      { rewrite <- bpow_add. apply bpow_lt. lia. }
      lra. }
    destruct (F64_div_binade fa (F64.of_float size) Fa Fsz' NZa HSZ')
      as (Fo & Eo & _).
    { rewrite (Qabs_wd _ _ Hdiv'). exact W1. }
    { rewrite (Qabs_wd _ _ Hdiv'). exact W2. }
    split; [exact Fo|]. rewrite Eo. apply round_double_comp. exact Hdiv.
Qed.

Lemma grid_x_offset_finite x :
  F32.valid x = true -> isfinite x = true -> isfinite (grid_x_offset x) = true.
Proof.
  intros Vx Fx.
  apply (Compute_offset_reference x CENTER_GRID_OFFSET SIZE_OF_GRIDS
           Reference.grid_center_offset Reference.grid_size GRID_ISZ Vx Fx);
    try (vm_compute; reflexivity); try (vm_compute; discriminate);
    unfold GRID_ISZ; bpow_num; lra.
Qed.

Lemma cell_x_offset_finite x :
  F32.valid x = true -> isfinite x = true -> isfinite (cell_x_offset x) = true.
Proof.
  intros Vx Fx.
  apply (Compute_offset_reference x CENTER_GRID_CELL_OFFSET SIZE_OF_GRID_CELL
           Reference.cell_center_offset Reference.cell_size CELL_ISZ Vx Fx);
    try (vm_compute; reflexivity); try (vm_compute; discriminate);
    unfold CELL_ISZ; bpow_num; lra.
Qed.

Lemma grid_x_offset_reference x :
  F32.valid x = true -> isfinite x = true ->
  SF2Q (grid_x_offset x) == Reference.grid_offset (SF2Q x).
Proof.
  intros Vx Fx.
  apply (Compute_offset_reference x CENTER_GRID_OFFSET SIZE_OF_GRIDS
           Reference.grid_center_offset Reference.grid_size GRID_ISZ Vx Fx);
    try (vm_compute; reflexivity); try (vm_compute; discriminate);
    unfold GRID_ISZ; bpow_num; lra.
Qed.

Lemma cell_x_offset_reference x :
  F32.valid x = true -> isfinite x = true ->
  SF2Q (cell_x_offset x) == Reference.cell_offset (SF2Q x).
Proof.
  intros Vx Fx.
  apply (Compute_offset_reference x CENTER_GRID_CELL_OFFSET SIZE_OF_GRID_CELL
           Reference.cell_center_offset Reference.cell_size CELL_ISZ Vx Fx);
    try (vm_compute; reflexivity); try (vm_compute; discriminate);
    unfold CELL_ISZ; bpow_num; lra.
Qed.

Lemma index_truncated_comp C o o' :
  o == o' -> Reference.index_truncated C o = Reference.index_truncated C o'.
Proof.
  intros E. unfold Reference.index_truncated. f_equal. apply truncate_comp.
  rewrite E. reflexivity.
Qed.

(** When the sum is not negative its truncation is the centre index plus
    the offset rounded to nearest. *)
Lemma index_truncated_nearest C o :
  0 <= o + inject_Z C + (1 # 2) ->
  Reference.index_truncated C o = Reference.index C o.
Proof.
  intros H. unfold Reference.index_truncated, Reference.index, Reference.truncate,
    Reference.nearest.
  apply Qle_bool_iff in H. rewrite H. f_equal.
  pose proof (Qfloor_le (o + (1 # 2))) as H1. pose proof (Qlt_floor (o + (1 # 2))) as H2.
  rewrite inject_Z_plus in H2. change (inject_Z 1) with 1 in H2.
  apply Qfloor_unique; rewrite inject_Z_plus; lra.
Qed.

(** ** Negative coordinates that the subtraction absorbs *)

Lemma grid_offset_absorbed X :
  - bpow (-45) <= X -> X < 0 -> Reference.grid_offset X == - (1 # 2).
Proof.
  intros Hlo Hhi. bpow_num_in Hlo.
  unfold Reference.grid_offset, Reference.scaled_offset,
    Reference.grid_center_offset, Reference.grid_size.
  set (v := X - (8738133 # 32768)).
  assert (Ev : Reference.round_double v == - (8738133 # 32768)).
  { apply (RNE_unique (9 - 53) v).
    - apply round_double_RNE; [lia | |]; unfold v; bpow_num.
      + rewrite Qabs_neg by lra. lra.
      + rewrite Qabs_neg by lra. lra.
    - exists (- 8738133 * 2 ^ 29)%Z. split; [|split].
      + vm_compute. reflexivity.
      + unfold v. change (9 - 53)%Z with (-44)%Z. bpow_num.
        rewrite Qabs_pos by lra. lra.
      + intros _. reflexivity. }
  rewrite (round_double_comp _ (- (1 # 2))).
  - vm_compute. reflexivity.
  - rewrite Ev. reflexivity.
Qed.

Lemma cell_offset_absorbed X :
  - bpow (-48) <= X -> X < 0 -> Reference.cell_offset X == - (1 # 2).
Proof.
  intros Hlo Hhi. bpow_num_in Hlo.
  unfold Reference.cell_offset, Reference.scaled_offset,
    Reference.cell_center_offset, Reference.cell_size.
  set (v := X - (8738133 # 262144)).
  assert (Ev : Reference.round_double v == - (8738133 # 262144)).
  { apply (RNE_unique (6 - 53) v).
    - apply round_double_RNE; [lia | |]; unfold v; bpow_num.
      + rewrite Qabs_neg by lra. lra.
      + rewrite Qabs_neg by lra. lra.
    - exists (- 8738133 * 2 ^ 29)%Z. split; [|split].
      + vm_compute. reflexivity.
      + unfold v. change (6 - 53)%Z with (-47)%Z. bpow_num.
        rewrite Qabs_pos by lra. lra.
      + intros _. reflexivity. }
  rewrite (round_double_comp _ (- (1 # 2))).
  - vm_compute. reflexivity.
  - rewrite Ev. reflexivity.
Qed.

Lemma grid_reference_absorbed x :
  F32.valid x = true -> isfinite x = true ->
  - bpow (-45) <= SF2Q x -> SF2Q x < 0 ->
  F64.to_int (grid_sum x) = Reference.index_truncated 32 (SF2Q (grid_x_offset x)).
Proof.
  intros Vx Fx Hlo Hhi.
  pose proof (grid_x_offset_finite x Vx Fx) as Fo.
  pose proof (grid_x_offset_reference x Vx Fx) as Eo.
  rewrite (grid_offset_absorbed _ Hlo Hhi) in Eo.
  destruct (Compute_sum_exact 32 (grid_x_offset x) 6 (- 2 ^ 46) Fo) as [Fg Eg];
    try lia.
  - rewrite Eo. vm_compute. reflexivity.
  - rewrite Eo. vm_compute. reflexivity.
  - rewrite Eo. vm_compute. reflexivity.
  - apply index_truncated_of_sum; [exact Fg|]. apply truncate_comp. exact Eg.
Qed.

Lemma cell_reference_absorbed x :
  F32.valid x = true -> isfinite x = true ->
  - bpow (-48) <= SF2Q x -> SF2Q x < 0 ->
  F64.to_int (cell_sum x) = Reference.index_truncated 256 (SF2Q (cell_x_offset x)).
Proof.
  intros Vx Fx Hlo Hhi.
  pose proof (cell_x_offset_finite x Vx Fx) as Fo.
  pose proof (cell_x_offset_reference x Vx Fx) as Eo.
  rewrite (cell_offset_absorbed _ Hlo Hhi) in Eo.
  destruct (Compute_sum_exact 256 (cell_x_offset x) 9 (- 2 ^ 43) Fo) as [Fg Eg];
    try lia.
  - rewrite Eo. vm_compute. reflexivity.
  - rewrite Eo. vm_compute. reflexivity.
  - rewrite Eo. vm_compute. reflexivity.
  - apply index_truncated_of_sum; [exact Fg|]. apply truncate_comp. exact Eg.
Qed.

Lemma grid_rounding_seam_Q c :
  F32.valid c = true -> isfinite c = true ->
  grid_rounding_seam c = true <->
  - (9175039 # 1) * bpow (-63) <= SF2Q c /\ SF2Q c < - bpow (-45).
Proof.
  intros Vc Fc. unfold grid_rounding_seam. rewrite andb_true_iff.
  rewrite (SFleb_Q F32.prec F32.emax eq_refl SEAM_LO c eq_refl Vc eq_refl Fc).
  rewrite (SFltb_Q F32.prec F32.emax eq_refl c GRID_ABSORBED Vc eq_refl Fc eq_refl).
  rewrite SEAM_LO_Q.
  assert (E : SF2Q GRID_ABSORBED == - bpow (-45)) by (vm_compute; reflexivity).
  rewrite E. reflexivity.
Qed.

Lemma cell_rounding_seam_Q c :
  F32.valid c = true -> isfinite c = true ->
  cell_rounding_seam c = true <->
  - (8749055 # 1) * bpow (-63) <= SF2Q c /\ SF2Q c < - bpow (-48).
Proof.
  intros Vc Fc. unfold cell_rounding_seam. rewrite andb_true_iff.
  rewrite (SFleb_Q F32.prec F32.emax eq_refl CELL_SEAM_LO c eq_refl Vc eq_refl Fc).
  rewrite (SFltb_Q F32.prec F32.emax eq_refl c CELL_ABSORBED Vc eq_refl Fc eq_refl).
  rewrite CELL_SEAM_LO_Q.
  assert (E : SF2Q CELL_ABSORBED == - bpow (-48)) by (vm_compute; reflexivity).
  rewrite E. reflexivity.
Qed.

(** One component of the two computations against the reference. *)
Lemma grid_component_reference x :
  F32.valid x = true -> isfinite x = true -> grid_rounding_seam x = false ->
  Trinity.Compute_val CENTER_GRID_ID
    (Trinity.Compute_offset x CENTER_GRID_OFFSET SIZE_OF_GRIDS)
  = Reference.index_truncated Reference.grid_center_index (Reference.grid_offset (SF2Q x)).
Proof.
  intros Vx Fx Hs.
  change (F64.to_int (grid_sum x) = Reference.index_truncated 32 (Reference.grid_offset (SF2Q x))).
  rewrite <- (index_truncated_comp 32 _ _ (grid_x_offset_reference x Vx Fx)).
  pose proof (grid_rounding_seam_Q x Vx Fx) as HQ.
  pose proof (below_zero_from_Q SEAM_LO x eq_refl eq_refl Vx Fx) as HB.
  rewrite SEAM_LO_Q in HB.
  destruct (below_zero_from SEAM_LO x) eqn:B.
  - destruct (proj1 HB eq_refl) as [B1 B2].
    destruct (Qlt_le_dec (SF2Q x) (- bpow (-45))) as [In|Out].
    + rewrite (proj2 HQ (conj B1 In)) in Hs. discriminate Hs.
    + apply grid_reference_absorbed; assumption.
  - apply grid_reference; assumption.
Qed.

Lemma cell_component_reference x :
  F32.valid x = true -> isfinite x = true -> cell_rounding_seam x = false ->
  Trinity.Compute_val CENTER_GRID_CELL_ID
    (Trinity.Compute_offset x CENTER_GRID_CELL_OFFSET SIZE_OF_GRID_CELL)
  = Reference.index_truncated Reference.cell_center_index (Reference.cell_offset (SF2Q x)).
Proof.
  intros Vx Fx Hs.
  change (F64.to_int (cell_sum x) = Reference.index_truncated 256 (Reference.cell_offset (SF2Q x))).
  rewrite <- (index_truncated_comp 256 _ _ (cell_x_offset_reference x Vx Fx)).
  pose proof (cell_rounding_seam_Q x Vx Fx) as HQ.
  pose proof (below_zero_from_Q CELL_SEAM_LO x eq_refl eq_refl Vx Fx) as HB.
  rewrite CELL_SEAM_LO_Q in HB.
  destruct (below_zero_from CELL_SEAM_LO x) eqn:B.
  - destruct (proj1 HB eq_refl) as [B1 B2].
    destruct (Qlt_le_dec (SF2Q x) (- bpow (-48))) as [In|Out].
    + rewrite (proj2 HQ (conj B1 In)) in Hs. discriminate Hs.
    + apply cell_reference_absorbed; assumption.
  - apply cell_reference; assumption.
Qed.

(** On a valid coordinate the sums are not negative. *)
Lemma valid_offsets x :
  F32.valid x = true -> Trinity.IsValidMapCoord x = true ->
  0 <= Reference.grid_offset (SF2Q x) + 32 + (1 # 2) /\
  0 <= Reference.cell_offset (SF2Q x) + 256 + (1 # 2).
Proof.
  intros Vx Hx. apply (IsValidMapCoord_Q x Vx) in Hx. destruct Hx as [Fx Hx].
  apply Qabs_Qle_condition in Hx. unfold MAP_BOUND_Q in Hx.
  rewrite <- (grid_x_offset_reference x Vx Fx), <- (cell_x_offset_reference x Vx Fx).
  split.
  - destruct (grid_chain_offset x (-38) (-47) (-47) (-46) Vx Fx)
      as (Fo & Fg & a & d & Ra & Rb & Rd & Rg); unfold GRID_CO, GRID_ISZ in *; try lia;
      [ mag
      | intros a Ra; rb Ra; mag
      | intros a b Ra Rb; rb Ra; rb Rb; mag
      | intros a b d Ra Rb Rd; rb Ra; rb Rb; rb Rd; mag |].
    rb Ra. rb Rb. lra.
  - destruct (cell_chain_offset x (-38) (-44) (-44) (-43) Vx Fx)
      as (Fo & Fg & a & d & Ra & Rb & Rd & Rg); unfold CELL_CO, CELL_ISZ in *; try lia;
      [ mag
      | intros a Ra; rb Ra; mag
      | intros a b Ra Rb; rb Ra; rb Rb; mag
      | intros a b d Ra Rb Rd; rb Ra; rb Rb; rb Rd; mag |].
    rb Ra. rb Rb. lra.
Qed.



